(** * daestruct: the sparse linear-assignment solver of [src/src/lap.cpp]

    A shallow embedding of [augmentation_data::reset], [augment],
    [delta_lap] and [lap], the properties of them that the specification
    states, and further properties read off the code: the queue and the
    loops of the search, the path flip, the reduction phases and the
    solutions returned.

    Conventions of the embedding.
    - A C++ [int] is a [Z].  Signed overflow is undefined behaviour in C++,
      so the model describes the executions in which no [int] operation
      overflows.
    - A [std::vector<T>] is a [list T]; [operator[]] is [vget]/[vset].  An
      index outside the vector is undefined behaviour in C++; the model
      reads the default value and writes nothing there.
    - A loop whose termination is not structural carries a budget (fuel).
      A call that exhausts it yields [OutOfFuel]; a call that would read
      [top()] of an empty queue or [back()] of an empty vector yields
      [Undefined].
    - The priority queue is the 4-ary array heap of [boost::heap]: its root
      changes only while [push], [pop] and [update] sift, and a sift reads
      the distances as they are at that moment.  A handle is the position
      of the entry it names.  The budgets of the two sift loops are never
      exhausted ([siftup_fuel], [siftdown_fuel]). *)

From Stdlib Require Import ZArith List Lia Bool Permutation.
Import ListNotations.
Local Open Scope Z_scope.

(** ** Vectors *)

Section Vectors.
Context {A : Type}.

Fixpoint upd (l : list A) (n : nat) (x : A) : list A :=
  match l, n with
  | [], _ => []
  | _ :: t, O => x :: t
  | h :: t, S n' => h :: upd t n' x
  end.

(** [l[i]] read, with default [d] outside the vector. *)
Definition vget (d : A) (l : list A) (i : Z) : A :=
  if i <? 0 then d else nth (Z.to_nat i) l d.

(** [l[i] = x]. *)
Definition vset (l : list A) (i : Z) (x : A) : list A :=
  if i <? 0 then l else upd l (Z.to_nat i) x.

(** [std::fill(l.begin(), l.end(), x)]. *)
Definition fill (x : A) (l : list A) : list A := map (fun _ => x) l.

End Vectors.

Definition get (l : list Z) (i : Z) : Z := vget 0 l i.
Definition getb (l : list bool) (i : Z) : bool := vget false l i.

(** The indices [0 .. n-1] of a loop [for (i = 0; i < n; i++)]. *)
Definition range (n : nat) : list Z := map Z.of_nat (seq 0 n).

(** ** Outcome of a call *)

Inductive outcome (A : Type) : Type :=
| Done (a : A)
| OutOfFuel
| Undefined.
Arguments Done {A} a.
Arguments OutOfFuel {A}.
Arguments Undefined {A}.

Definition bind {A B : Type} (o : outcome A) (k : A -> outcome B) : outcome B :=
  match o with
  | Done a => k a
  | OutOfFuel => OutOfFuel
  | Undefined => Undefined
  end.

Notation "'let!' x ':=' o 'in' k" := (bind o (fun x => k))
  (at level 10, x pattern, o at level 200, k at level 200).

(** ** The sparse cost matrix *)

(** Modelled from the spec: [daestruct::sigma_matrix] (its header
    [sigma_matrix.hpp] is not among the sources).  Each row exposes its
    stored [(column, cost)] entries in ascending column order; the matrix
    is [dimension x dimension]. *)
Definition sigma_row := list (Z * Z).
Definition sigma_matrix := list sigma_row.

Definition dim (m : sigma_matrix) : nat := length m.
Definition dimension (m : sigma_matrix) : Z := Z.of_nat (dim m).

(** Modelled from the spec: [findRow(i)], the row iteration primitive. *)
Definition findRow (m : sigma_matrix) (i : Z) : sigma_row := @vget sigma_row [] m i.

(** The stored entry at [(i, j)], if there is one. *)
Definition stored (m : sigma_matrix) (i j : Z) : option Z :=
  match find (fun e => fst e =? j) (findRow m i) with
  | Some e => Some (snd e)
  | None => None
  end.

Fixpoint smallest_from (m : sigma_matrix) (j : Z) (rows : list Z)
  (best : Z) (bc : option Z) : Z :=
  match rows with
  | [] => best
  | i :: rest =>
      match stored m i j, bc with
      | Some c, Some b =>
          if c <? b then smallest_from m j rest i (Some c)
          else smallest_from m j rest best bc
      | Some c, None => smallest_from m j rest i (Some c)
      | None, _ => smallest_from m j rest best bc
      end
  end.

(** Modelled from the spec: [smallest_cost_row(col)], the row achieving the
    minimum cost in a column (absent entries count as infinite; the lowest
    row index wins a tie). *)
Definition smallest_cost_row (m : sigma_matrix) (j : Z) : Z :=
  smallest_from m j (range (dim m)) 0 None.

(** Well-formed matrix: no empty row, columns inside the matrix and
    strictly ascending within a row. *)
Fixpoint ascending (r : sigma_row) : bool :=
  match r with
  | [] => true
  | (j, _) :: rest =>
      match rest with
      | [] => true
      | (j', _) :: _ => (j <? j') && ascending rest
      end
  end.

Definition row_ok (n : Z) (r : sigma_row) : bool :=
  negb (match r with [] => true | _ => false end)
  && forallb (fun e => (0 <=? fst e) && (fst e <? n)) r
  && ascending r.

Definition wf_matrix (m : sigma_matrix) : bool := forallb (row_ok (dimension m)) m.

(** A perfect matching of finite cost: [sigma] lists, for each row, a
    column with a stored entry, and is a permutation of the columns. *)
Definition all_stored (m : sigma_matrix) (sigma : list Z) : bool :=
  forallb (fun i => match stored m i (get sigma i) with Some _ => true | None => false end)
          (range (dim m)).

Definition perfect_matching (m : sigma_matrix) (sigma : list Z) : Prop :=
  Permutation sigma (range (dim m)) /\ all_stored m sigma = true.

Definition feasible (m : sigma_matrix) : Prop :=
  wf_matrix m = true /\ exists sigma, perfect_matching m sigma.

(** ** The priority queue *)

(** [boost::heap::d_ary_heap<int, arity<4>, mutable_<true>,
    compare<node_compare>>].  The heap is library code that is not among
    the sources; the model follows its implementation (the member functions
    [push], [pop], [update], [siftup], [siftdown] and [top_child_index] of
    [boost/heap/d_ary_heap.hpp]).  The heap is an array of columns: entry 0
    is the root, which [top()] returns, and the children of entry [p] are
    the entries [4p+1 .. 4p+4].  Entries move only while [push], [pop] and
    [update] sift; a sift compares two entries with [node_compare], which
    reads the distance vector as it is at that moment.  An assignment to
    [dist] alone moves nothing, so the root need not be an entry of least
    distance. *)
Definition priority_queue := list Z.

(** [node_compare::operator()]: [dist->at(n1) > dist->at(n2)]. *)
Definition node_compare (dist : list Z) (n1 n2 : Z) : bool :=
  get dist n1 >? get dist n2.

Definition entry (q : priority_queue) (p : nat) : Z := nth p q 0.

Definition parent_index (p : nat) : nat := ((p - 1) / 4)%nat.
Definition first_child_index (p : nat) : nat := (4 * p + 1)%nat.

(** The state of the heap: the array and the handles.  In the library a
    handle points to the node of an entry, and the node records the
    position of the entry in the array; every swap of a sift rewrites the
    positions of the two nodes it moves.  The model keeps a handle as that
    position.  The second component is the vector [handles] of the
    augmentation state, one handle per column: the handle of the entry
    pushed last for the column. *)
Definition heap : Type := priority_queue * list Z.

(** Exchange of the entries at [p] and [r].  The handle of a column follows
    the entry it names: it is rewritten exactly when it names one of the two
    positions.  (A column can have several entries in the array; the others
    are named by no handle.) *)
Definition swap_entries (qh : heap) (p r : nat) : heap :=
  let (q, hs) := qh in
  let a := entry q p in
  let b := entry q r in
  let hs1 := if get hs a =? Z.of_nat p then vset hs a (Z.of_nat r) else hs in
  let hs2 := if get hs b =? Z.of_nat r then vset hs1 b (Z.of_nat p) else hs1 in
  (upd (upd q p b) r a, hs2).

(** [siftup(index)]: the entry rises while its parent compares below it.
    Every turn lowers the position, so [p] turns suffice from [p]. *)
Fixpoint siftup (fuel : nat) (dist : list Z) (qh : heap) (p : nat) : heap :=
  match fuel with
  | O => qh
  | S fuel' =>
      match p with
      | O => qh
      | S _ =>
          let parent := parent_index p in
          if node_compare dist (entry (fst qh) parent) (entry (fst qh) p)
          then siftup fuel' dist (swap_entries qh parent p) parent
          else qh
      end
  end.

(** [std::max_element] over the children [cs] with [node_compare] as the
    order: a later child replaces the candidate when the candidate
    compares below it. *)
Fixpoint max_element (dist : list Z) (q : priority_queue) (cs : list nat) (largest : nat)
  : nat :=
  match cs with
  | [] => largest
  | c :: rest =>
      if node_compare dist (entry q largest) (entry q c)
      then max_element dist q rest c
      else max_element dist q rest largest
  end.

(** [top_child_index(index)], for an entry that has a child. *)
Definition top_child_index (dist : list Z) (q : priority_queue) (p : nat) : nat :=
  let first := first_child_index p in
  max_element dist q (seq (S first) (Nat.min 3 (length q - S first))) first.

(** [siftdown(index)]: the entry sinks below its top child unless that
    child compares below it.  Every turn raises the position, so the length
    of the array bounds the loop. *)
Fixpoint siftdown (fuel : nat) (dist : list Z) (qh : heap) (p : nat) : heap :=
  match fuel with
  | O => qh
  | S fuel' =>
      if (first_child_index p <? length (fst qh))%nat then
        let c := top_child_index dist (fst qh) p in
        if negb (node_compare dist (entry (fst qh) c) (entry (fst qh) p))
        then siftdown fuel' dist (swap_entries qh c p) c
        else qh
      else qh
  end.

(** [pq.top()]. *)
Definition pq_top (q : priority_queue) : option Z :=
  match q with
  | [] => None
  | j :: _ => Some j
  end.

(** [handles[j] = pq.push(j)]: the new entry is appended and sifted up. *)
Definition pq_push (dist : list Z) (qh : heap) (j : Z) : heap :=
  let (q, hs) := qh in
  let n := length q in
  siftup n dist (q ++ [j], vset hs j (Z.of_nat n)) n.

(** [pq.pop()]: the last entry takes the place of the root and is sifted
    down.  The program pops a non-empty queue only. *)
Definition pq_pop (dist : list Z) (qh : heap) : heap :=
  let (q, hs) := qh in
  match q with
  | [] => qh
  | _ :: [] => ([], hs)
  | _ :: rest =>
      let n := length rest in
      let b := last rest 0 in
      let hs1 := if get hs b =? Z.of_nat n then vset hs b 0 else hs in
      siftdown n dist (b :: removelast rest, hs1) 0
  end.

(** [pq.update(handles[j])]: the entry the handle names is sifted up if its
    parent compares below it, and down otherwise.  A handle that names no
    entry of the array is undefined behaviour in the program; the model
    leaves the heap as it is.  A search gives [update] the handle of a
    column in [todo] only, and such a handle names an entry of the column
    ([expand_row_handles] below). *)
Definition pq_update (dist : list Z) (qh : heap) (j : Z) : heap :=
  let p := Z.to_nat (get (snd qh) j) in
  if (p <? length (fst qh))%nat then
    match p with
    | O => siftdown (length (fst qh)) dist qh 0
    | S _ =>
        if node_compare dist (entry (fst qh) (parent_index p)) (entry (fst qh) p)
        then siftup p dist qh p
        else siftdown (length (fst qh)) dist qh p
    end
  else qh.

(** ** Augmentation state *)

(** [struct augmentation_data].  [ready] and [scan] hold the most recently
    pushed element first ([push_back] is a cons, [back] the head). *)
Record augmentation_data : Type := mk_data {
  in_todo : list bool;
  ready : list Z;
  is_ready : list bool;
  prev : list Z;
  scan : list Z;
  dist : list Z;
  handles : list Z;
  pq : priority_queue
}.

(** [augmentation_data(int dim)]. *)
Definition new_data (n : nat) : augmentation_data :=
  {| in_todo := repeat false n; ready := []; is_ready := repeat false n;
     prev := repeat 0 n; scan := []; dist := repeat 0 n;
     handles := repeat 0 n; pq := [] |}.

(** [void reset(int start)]. *)
Definition reset (start : Z) (d : augmentation_data) : augmentation_data :=
  {| in_todo := fill false (in_todo d);
     ready := [];
     is_ready := fill false (is_ready d);
     prev := fill start (prev d);
     scan := [];
     dist := dist d;
     handles := handles d;
     pq := [] |}.

Definition set_dist (d : augmentation_data) (j x : Z) : augmentation_data :=
  {| in_todo := in_todo d; ready := ready d; is_ready := is_ready d;
     prev := prev d; scan := scan d; dist := vset (dist d) j x;
     handles := handles d; pq := pq d |}.

Definition set_prev (d : augmentation_data) (j i : Z) : augmentation_data :=
  {| in_todo := in_todo d; ready := ready d; is_ready := is_ready d;
     prev := vset (prev d) j i; scan := scan d; dist := dist d;
     handles := handles d; pq := pq d |}.

(** The heap of the state, and the state with another heap. *)
Definition heap_of (d : augmentation_data) : heap := (pq d, handles d).

Definition with_heap (d : augmentation_data) (qh : heap) : augmentation_data :=
  {| in_todo := in_todo d; ready := ready d; is_ready := is_ready d;
     prev := prev d; scan := scan d; dist := dist d;
     handles := snd qh; pq := fst qh |}.

(** [handles[j] = pq.push(j); in_todo[j] = true]. *)
Definition enqueue (d : augmentation_data) (j : Z) : augmentation_data :=
  let qh := pq_push (dist d) (heap_of d) j in
  {| in_todo := vset (in_todo d) j true; ready := ready d; is_ready := is_ready d;
     prev := prev d; scan := scan d; dist := dist d;
     handles := snd qh; pq := fst qh |}.

(** [pq.update(handles[j])]. *)
Definition requeue (d : augmentation_data) (j : Z) : augmentation_data :=
  with_heap d (pq_update (dist d) (heap_of d) j).

(** [scan.push_back(j); in_todo[j] = false]. *)
Definition to_scan (d : augmentation_data) (j : Z) : augmentation_data :=
  {| in_todo := vset (in_todo d) j false; ready := ready d; is_ready := is_ready d;
     prev := prev d; scan := j :: scan d; dist := dist d;
     handles := handles d; pq := pq d |}.

(** [pq.pop()]. *)
Definition dequeue (d : augmentation_data) : augmentation_data :=
  with_heap d (pq_pop (dist d) (heap_of d)).

(** [scan.pop_back(); ready.push_back(j1); is_ready[j1] = true]. *)
Definition finalize (d : augmentation_data) (j1 : Z) : augmentation_data :=
  {| in_todo := in_todo d; ready := j1 :: ready d; is_ready := vset (is_ready d) j1 true;
     prev := prev d; scan := tl (scan d); dist := dist d;
     handles := handles d; pq := pq d |}.

(** ** The solver *)

Section Solver.

(** The infinity sentinel [BIG], defined outside the sources. *)
Variable BIG : Z.

(** Modelled from the spec: [assigncost(i, j)], the direct lookup; an
    absent entry has the infinite cost [BIG]. *)
Definition assigncost (m : sigma_matrix) (i j : Z) : Z :=
  match stored m i j with
  | Some c => c
  | None => BIG
  end.

(** *** [augment] *)

(** The two seeding loops over the start row. *)
Definition seed_dist (v : list Z) (row : sigma_row) (d : augmentation_data)
  : augmentation_data :=
  fold_left (fun d e => set_dist d (fst e) (snd e - get v (fst e))) row d.

Definition seed_queue (row : sigma_row) (d : augmentation_data) : augmentation_data :=
  fold_left (fun d e => enqueue d (fst e)) row d.

(** [while (!pq.empty() && !in_todo[pq.top()]) pq.pop();]  Every turn pops
    an entry, so the queue length bounds the loop. *)
Fixpoint drop_stale (n : nat) (d : augmentation_data) : augmentation_data :=
  match n with
  | O => d
  | S n' =>
      match pq_top (pq d) with
      | None => d
      | Some j => if getb (in_todo d) j then d else drop_stale n' (dequeue d)
      end
  end.

(** [while (!pq.empty() && dist[pq.top()] == min) { ... }]: the columns at
    the current minimum move to [scan]; an unassigned one ends the search.
    A top entry at the minimum that is not in [todo] is not popped. *)
Fixpoint collect_min (fuel : nat) (colsol : list Z) (min : Z)
  (d : augmentation_data) : outcome (augmentation_data * option Z) :=
  match fuel with
  | O => OutOfFuel
  | S fuel' =>
      match pq_top (pq d) with
      | None => Done (d, None)
      | Some j =>
          if get (dist d) j =? min then
            if getb (in_todo d) j then
              if get colsol j <? 0 then Done (d, Some j)
              else collect_min fuel' colsol min (dequeue (to_scan d j))
            else collect_min fuel' colsol min d
          else Done (d, None)
      end
  end.

(** The loop over the row of [i = colsol[j1]]. *)
Fixpoint expand_row (row : sigma_row) (v colsol : list Z) (i h min : Z)
  (d : augmentation_data) : augmentation_data * option Z :=
  match row with
  | [] => (d, None)
  | (j, c) :: rest =>
      if getb (is_ready d) j then expand_row rest v colsol i h min d
      else
        let c_red := c - get v j - h in
        if negb (getb (in_todo d) j) || (min + c_red <? get (dist d) j) then
          let d1 := set_prev (set_dist d j (min + c_red)) j i in
          if 0 =? c_red then
            if get colsol j <? 0 then (d1, Some j)
            else expand_row rest v colsol i h min (to_scan d1 j)
          else
            if negb (getb (in_todo d1) j)
            then expand_row rest v colsol i h min (enqueue d1 j)
            else expand_row rest v colsol i h min (requeue d1 j)
        else expand_row rest v colsol i h min d
  end.

(** One turn of the [do { ... } while (true)] search.  The result is the
    state, [min] and, when the turn ends in [goto augment], [endofpath]. *)
Definition search_body (fuel : nat) (m : sigma_matrix) (v colsol : list Z) (min : Z)
  (d : augmentation_data) : outcome (augmentation_data * Z * option Z) :=
  let! (d2, min2, found) :=
    match scan d with
    | [] =>
        let d1 := drop_stale (length (pq d)) d in
        match pq_top (pq d1) with
        | None => Undefined
        | Some t =>
            let min1 := get (dist d1) t in
            let! (d2, found) := collect_min fuel colsol min1 d1 in
            Done (d2, min1, found)
        end
    | _ :: _ => Done (d, min, None)
    end in
  match found with
  | Some endofpath => Done (d2, min2, Some endofpath)
  | None =>
      match scan d2 with
      | [] => Undefined
      | j1 :: _ =>
          let i := get colsol j1 in
          let d3 := finalize d2 j1 in
          let h := assigncost m i j1 - get v j1 in
          let (d4, found) := expand_row (findRow m i) v colsol i h min2 d3 in
          Done (d4, min2, found)
      end
  end.

(** The search loop; it ends at [goto augment] with the final state,
    [min] and [endofpath]. *)
Fixpoint search (n fuel : nat) (m : sigma_matrix) (v colsol : list Z) (min : Z)
  (d : augmentation_data) : outcome (augmentation_data * Z * Z) :=
  match n with
  | O => OutOfFuel
  | S n' =>
      let! (d', min', found) := search_body fuel m v colsol min d in
      match found with
      | Some endofpath => Done (d', min', endofpath)
      | None => search n' fuel m v colsol min' d'
      end
  end.

(** [for (const int j : data.ready) v[j] = v[j] + data.dist[j] - min;] *)
Definition update_prices (d : augmentation_data) (min : Z) (v : list Z) : list Z :=
  fold_left (fun v j => vset v j (get v j + get (dist d) j - min)) (rev (ready d)) v.

(** [do { ... } while (i != start);]: the path flip. *)
Fixpoint flip_path (fuel : nat) (prev : list Z) (start endofpath : Z)
  (rowsol colsol : list Z) : outcome (list Z * list Z) :=
  match fuel with
  | O => OutOfFuel
  | S fuel' =>
      let i := get prev endofpath in
      let colsol' := vset colsol endofpath i in
      let j1 := endofpath in
      let endofpath' := get rowsol i in
      let rowsol' := vset rowsol i j1 in
      if i =? start then Done (rowsol', colsol')
      else flip_path fuel' prev start endofpath' rowsol' colsol'
  end.

(** The solver state that [augment] works on: the scratch data, the column
    prices and the assignment. *)
Record assignment : Type := mk_assignment {
  a_data : augmentation_data;
  a_v : list Z;
  a_rowsol : list Z;
  a_colsol : list Z
}.

Definition augment (fuel : nat) (m : sigma_matrix) (start : Z) (a : assignment)
  : outcome assignment :=
  let d0 := reset start (a_data a) in
  let start_row := findRow m start in
  let d1 := seed_queue start_row (seed_dist (a_v a) start_row d0) in
  let! (d, min, endofpath) := search fuel fuel m (a_v a) (a_colsol a) 0 d1 in
  let v' := update_prices d min (a_v a) in
  let! (rowsol', colsol') :=
    flip_path fuel (prev d) start endofpath (a_rowsol a) (a_colsol a) in
  Done {| a_data := d; a_v := v'; a_rowsol := rowsol'; a_colsol := colsol' |}.

(** [for (f = 0; f < numfree; f++) augment(data, assigncost, v, free[f], rowsol, colsol);] *)
Fixpoint augment_all (fuel : nat) (m : sigma_matrix) (frees : list Z) (a : assignment)
  : outcome assignment :=
  match frees with
  | [] => Done a
  | f :: rest =>
      let! a' := augment fuel m f a in
      augment_all fuel m rest a'
  end.

(** *** The result *)

Record solution : Type := mk_solution {
  cost : Z;
  rowsol : list Z;
  colsol : list Z;
  u : list Z;
  v : list Z
}.

(** "calculate optimal cost": the loop that fills [u] and sums the cost. *)
Definition optimal_cost (m : sigma_matrix) (rs vv : list Z) : list Z * Z :=
  fold_left
    (fun '(uu, lapcost) i =>
       let j := get rs i in
       (vset uu i (assigncost m i j - get vv j), lapcost + assigncost m i j))
    (range (length rs)) (repeat 0 (dim m), 0).

Definition make_solution (m : sigma_matrix) (a : assignment) : solution :=
  let '(uu, lapcost) := optimal_cost m (a_rowsol a) (a_v a) in
  {| cost := lapcost; rowsol := a_rowsol a; colsol := a_colsol a;
     u := uu; v := a_v a |}.

(** *** [lap] *)

(** The local variables of [lap] that live across its phases.  [s_free] is
    the array [free = new int[dim]], which starts uninitialised. *)
Record lap_vars : Type := mk_vars {
  s_v : list Z;
  s_rowsol : list Z;
  s_colsol : list Z;
  s_matches : list Z;
  s_free : list Z;
  s_numfree : Z;
  s_k : Z;
  s_j2 : Z
}.

(** COLUMN REDUCTION: the body of [for (j = dim-1; j >= 0; j--)]. *)
Definition column_reduction_step (m : sigma_matrix) (s : lap_vars) (j : Z) : lap_vars :=
  let imin := smallest_cost_row m j in
  let v1 := vset (s_v s) j (assigncost m imin j) in
  let matches1 := vset (s_matches s) imin (get (s_matches s) imin + 1) in
  if get matches1 imin =? 1 then
    {| s_v := v1; s_rowsol := vset (s_rowsol s) imin j;
       s_colsol := vset (s_colsol s) j imin; s_matches := matches1;
       s_free := s_free s; s_numfree := s_numfree s; s_k := s_k s; s_j2 := s_j2 s |}
  else
    {| s_v := v1; s_rowsol := s_rowsol s;
       s_colsol := vset (s_colsol s) j (-1); s_matches := matches1;
       s_free := s_free s; s_numfree := s_numfree s; s_k := s_k s; s_j2 := s_j2 s |}.

Definition column_reduction (m : sigma_matrix) (s : lap_vars) : lap_vars :=
  fold_left (column_reduction_step m) (rev (range (dim m))) s.

(** The minimum reduced cost over the columns of a row other than [j1],
    starting from [BIG]. *)
Definition transfer_min (vv : list Z) (j1 : Z) (row : sigma_row) : Z :=
  fold_left
    (fun min e =>
       if negb (fst e =? j1) && (snd e - get vv (fst e) <? min)
       then snd e - get vv (fst e) else min)
    row BIG.

(** REDUCTION TRANSFER: the body of the loop over the rows. *)
Definition reduction_transfer_step (m : sigma_matrix) (s : lap_vars) (i : Z) : lap_vars :=
  if get (s_matches s) i =? 0 then
    {| s_v := s_v s; s_rowsol := s_rowsol s; s_colsol := s_colsol s;
       s_matches := s_matches s;
       s_free := vset (s_free s) (s_numfree s) i; s_numfree := s_numfree s + 1;
       s_k := s_k s; s_j2 := s_j2 s |}
  else if get (s_matches s) i =? 1 then
    let j1 := get (s_rowsol s) i in
    let min := transfer_min (s_v s) j1 (findRow m i) in
    {| s_v := vset (s_v s) j1 (get (s_v s) j1 - min);
       s_rowsol := s_rowsol s; s_colsol := s_colsol s; s_matches := s_matches s;
       s_free := s_free s; s_numfree := s_numfree s; s_k := s_k s; s_j2 := s_j2 s |}
  else s.

Definition reduction_transfer (m : sigma_matrix) (s : lap_vars) : lap_vars :=
  fold_left (reduction_transfer_step m) (range (dim m)) s.

(** "find minimum and second minimum reduced cost over columns": the
    result is [(umin, usubmin, j1, j2)]; [j2] keeps its previous value when
    no column sets it.  [None] for a row without entries. *)
Definition two_smallest (vv : list Z) (row : sigma_row) (j2 : Z) : option (Z * Z * Z * Z) :=
  match row with
  | [] => None
  | (j0, c0) :: rest =>
      Some (fold_left
              (fun '(umin, usubmin, j1, j2) e =>
                 let j := fst e in
                 let h := snd e - get vv j in
                 if h <? usubmin then
                   if h >=? umin then (umin, h, j1, j)
                   else (h, umin, j, j1)
                 else (umin, usubmin, j1, j2))
              rest (c0 - get vv j0, BIG, j0, j2))
  end.

(** AUGMENTING ROW REDUCTION: the body of [while (k < prvnumfree)]. *)
Definition arr_step (m : sigma_matrix) (s : lap_vars) : outcome lap_vars :=
  let i := get (s_free s) (s_k s) in
  let k := s_k s + 1 in
  match two_smallest (s_v s) (findRow m i) (s_j2 s) with
  | None => Undefined
  | Some (umin, usubmin, j1, j2) =>
      let i0 := get (s_colsol s) j1 in
      let '(v1, j1, i0) :=
        if umin <? usubmin
        then (vset (s_v s) j1 (get (s_v s) j1 - (usubmin - umin)), j1, i0)
        else if i0 >=? 0 then (s_v s, j2, get (s_colsol s) j2)
        else (s_v s, j1, i0) in
      let rowsol1 := vset (s_rowsol s) i j1 in
      let colsol1 := vset (s_colsol s) j1 i in
      if i0 >=? 0 then
        if umin <? usubmin then
          Done {| s_v := v1; s_rowsol := rowsol1; s_colsol := colsol1;
                  s_matches := s_matches s;
                  s_free := vset (s_free s) (k - 1) i0; s_numfree := s_numfree s;
                  s_k := k - 1; s_j2 := j2 |}
        else
          Done {| s_v := v1; s_rowsol := rowsol1; s_colsol := colsol1;
                  s_matches := s_matches s;
                  s_free := vset (s_free s) (s_numfree s) i0;
                  s_numfree := s_numfree s + 1;
                  s_k := k; s_j2 := j2 |}
      else
        Done {| s_v := v1; s_rowsol := rowsol1; s_colsol := colsol1;
                s_matches := s_matches s;
                s_free := s_free s; s_numfree := s_numfree s;
                s_k := k; s_j2 := j2 |}
  end.

Fixpoint arr_pass (fuel : nat) (m : sigma_matrix) (prvnumfree : Z) (s : lap_vars)
  : outcome lap_vars :=
  match fuel with
  | O => OutOfFuel
  | S fuel' =>
      if s_k s <? prvnumfree then
        let! s' := arr_step m s in
        arr_pass fuel' m prvnumfree s'
      else Done s
  end.

(** One turn of the do-loop: [k = 0; prvnumfree = numfree; numfree = 0;]
    and the scan of the free rows. *)
Definition arr_round (fuel : nat) (m : sigma_matrix) (s : lap_vars) : outcome lap_vars :=
  arr_pass fuel m (s_numfree s)
    {| s_v := s_v s; s_rowsol := s_rowsol s; s_colsol := s_colsol s;
       s_matches := s_matches s; s_free := s_free s; s_numfree := 0;
       s_k := 0; s_j2 := s_j2 s |}.

(** The do-loop is done twice. *)
Definition augmenting_row_reduction (fuel : nat) (m : sigma_matrix) (s : lap_vars)
  : outcome lap_vars :=
  let! s1 := arr_round fuel m s in
  arr_round fuel m s1.

(** The rows [free[0 .. numfree-1]]. *)
Definition free_list (free : list Z) (numfree : Z) : list Z :=
  map (get free) (range (Z.to_nat numfree)).

Definition lap_init (free0 : list Z) (m : sigma_matrix) : lap_vars :=
  {| s_v := repeat 0 (dim m); s_rowsol := repeat 0 (dim m);
     s_colsol := repeat 0 (dim m); s_matches := repeat 0 (dim m);
     s_free := free0; s_numfree := 0; s_k := 0; s_j2 := 0 |}.

(** The three reduction phases of [lap]. *)
Definition lap_reduce (fuel : nat) (free0 : list Z) (m : sigma_matrix) : outcome lap_vars :=
  augmenting_row_reduction fuel m
    (reduction_transfer m (column_reduction m (lap_init free0 m))).

(** [solution lap(const sigma_matrix& assigncost)]; [free0] is the
    uninitialised content of [free]. *)
Definition lap (fuel : nat) (free0 : list Z) (m : sigma_matrix) : outcome solution :=
  let! s := lap_reduce fuel free0 m in
  let! a := augment_all fuel m (free_list (s_free s) (s_numfree s))
              {| a_data := new_data (dim m); a_v := s_v s;
                 a_rowsol := s_rowsol s; a_colsol := s_colsol s |} in
  Done (make_solution m a).

(** *** [delta_lap] *)

(** The dual of an unassigned column: [v[j] = BIG] lowered by
    [std::min] over all rows. *)
Definition delta_price (m : sigma_matrix) (u0 : list Z) (j : Z) : Z :=
  fold_left (fun vj i2 => Z.min vj (assigncost m i2 j - get u0 i2)) (range (dim m)) BIG.

(** The first loop of [delta_lap]: the column duals the augmentation
    starts from. *)
Definition delta_prices (m : sigma_matrix) (u0 v0 colsol0 : list Z) : list Z :=
  fold_left
    (fun vv j =>
       if get colsol0 j >=? 0 then vset vv j (get v0 j)
       else vset vv j (delta_price m u0 j))
    (range (dim m)) (repeat 0 (dim m)).

(** The second loop: the unassigned rows, in order. *)
Definition delta_free (rowsol0 free0 : list Z) : list Z * Z :=
  fold_left
    (fun '(free, numfree) i =>
       if get rowsol0 i <? 0 then (vset free numfree i, numfree + 1)
       else (free, numfree))
    (range (length rowsol0)) (free0, 0).

Definition delta_lap (fuel : nat) (free0 : list Z) (m : sigma_matrix)
  (u0 v0 rowsol0 colsol0 : list Z) : outcome solution :=
  let vv := delta_prices m u0 v0 colsol0 in
  let '(free, numfree) := delta_free rowsol0 free0 in
  let! a := augment_all fuel m (free_list free numfree)
              {| a_data := new_data (dim m); a_v := vv;
                 a_rowsol := rowsol0; a_colsol := colsol0 |} in
  Done (make_solution m a).

End Solver.

(** * Vocabulary of the specification *)

(** Total cost of the assignment [sigma] (row [i] takes column [sigma[i]]). *)
Definition matching_cost (BIG : Z) (m : sigma_matrix) (sigma : list Z) : Z :=
  fold_right Z.add 0 (map (fun i => assigncost BIG m i (get sigma i)) (range (dim m))).

(** Optimality: no perfect matching is cheaper. *)
Definition optimal (BIG : Z) (m : sigma_matrix) (c : Z) : Prop :=
  forall sigma, perfect_matching m sigma -> c <= matching_cost BIG m sigma.

(** Dual feasibility of a solution: every stored entry has a non-negative
    reduced cost, and the matched entries have reduced cost zero. *)
Definition reduced_costs_nonneg (m : sigma_matrix) (uu vv : list Z) : Prop :=
  forall i j c, stored m i j = Some c -> 0 <= c - get uu i - get vv j.

Definition matched_tight (m : sigma_matrix) (rs uu vv : list Z) : Prop :=
  forall i, 0 <= i < dimension m ->
    exists c, stored m i (get rs i) = Some c /\ c - get uu i - get vv (get rs i) = 0.

Definition dual_feasible (m : sigma_matrix) (sol : solution) : Prop :=
  reduced_costs_nonneg m (u sol) (v sol)
  /\ matched_tight m (rowsol sol) (u sol) (v sol).

(** Mutually inverse assignment vectors over [0 .. n-1]. *)
Definition mutual_inverse (n : Z) (rs cs : list Z) : Prop :=
  (forall i, 0 <= i < n -> get cs (get rs i) = i)
  /\ (forall j, 0 <= j < n -> get rs (get cs j) = j).



(** The partial solution left when the rows of [rows] give up their
    columns. *)
Definition unassign (rows : list Z) (rs cs : list Z) : list Z * list Z :=
  fold_left (fun '(rs, cs) i => (vset rs i (-1), vset cs (get rs i) (-1))) rows (rs, cs).

(** Executable check of [reduced_costs_nonneg]. *)
Definition check_reduced_costs (m : sigma_matrix) (uu vv : list Z) : bool :=
  forallb
    (fun i => forallb (fun e => 0 <=? snd e - get uu i - get vv (fst e)) (findRow m i))
    (range (dim m)).

Definition sum (l : list Z) : Z := fold_right Z.add 0 l.

(** ** Independence of the uninitialised content of [free] *)

(** The variables of [lap] with the array [free] replaced. *)
Definition with_free (s : lap_vars) (f : list Z) : lap_vars :=
  {| s_v := s_v s; s_rowsol := s_rowsol s; s_colsol := s_colsol s;
     s_matches := s_matches s; s_free := f; s_numfree := s_numfree s;
     s_k := s_k s; s_j2 := s_j2 s |}.

(** Two arrays hold the same values at the positions [lo .. hi-1]. *)
Definition agree_on (lo hi : Z) (f1 f2 : list Z) : Prop :=
  forall p, lo <= p < hi -> get f1 p = get f2 p.

(** What two runs of the row reduction share while row [k] of
    [prvnumfree] is scanned: the arrays agree on the rows kept for the next
    pass and on the rows still to scan. *)
Definition free_inv (prvnumfree : Z) (s : lap_vars) (f1 f2 : list Z) : Prop :=
  length f1 = length f2
  /\ 0 <= s_numfree s <= s_k s
  /\ s_k s <= prvnumfree <= Z.of_nat (length f1)
  /\ agree_on 0 (s_numfree s) f1 f2
  /\ agree_on (s_k s) prvnumfree f1 f2.

(** Two outcomes of the reduction phases that differ at most in the unused
    part of [free]. *)
Definition same_reduction (o1 o2 : outcome lap_vars) : Prop :=
  match o1, o2 with
  | Done s1, Done s2 =>
      exists s f1 f2, s1 = with_free s f1 /\ s2 = with_free s f2
        /\ length f1 = length f2
        /\ 0 <= s_numfree s <= Z.of_nat (length f1)
        /\ agree_on 0 (s_numfree s) f1 f2
  | OutOfFuel, OutOfFuel => True
  | Undefined, Undefined => True
  | _, _ => False
  end.

(** ** Invariants of the assignment *)

(** Row [i] holds some column: [colsol[j] == i] for a column [j]. *)
Definition in_image (n : Z) (cs : list Z) (i : Z) : Prop :=
  exists j, 0 <= j < n /\ get cs j = i.

(** A consistent partial assignment over [n] rows and columns: every
    assigned column is the column of the row it names. *)
Definition matching (n : Z) (rs cs : list Z) : Prop :=
  Z.of_nat (length rs) = n /\ Z.of_nat (length cs) = n
  /\ (forall i, 0 <= i < n -> 0 <= get rs i < n)
  /\ (forall j, 0 <= j < n -> -1 <= get cs j < n)
  /\ (forall j, 0 <= j < n -> 0 <= get cs j -> get rs (get cs j) = j).

(** The rows still to be assigned: distinct, unassigned, and together with
    the assigned rows they are all the rows. *)
Definition pending_ok (n : Z) (cs : list Z) (pend : list Z) : Prop :=
  NoDup pend
  /\ (forall f, In f pend -> 0 <= f < n /\ ~ in_image n cs f)
  /\ (forall i, 0 <= i < n -> in_image n cs i \/ In i pend).

(** The rows that hold a column, in column order. *)
Definition assigned_rows (cs : list Z) : list Z := filter (fun x => 0 <=? x) cs.

(** After the column reduction has handled the columns [done]: a handled
    column is unassigned or is the column of its row, and the claimed rows
    ([matches >= 1]) are the rows that hold a column. *)
Definition col_inv (n : Z) (done : list Z) (s : lap_vars) : Prop :=
  Z.of_nat (length (s_rowsol s)) = n
  /\ Z.of_nat (length (s_colsol s)) = n
  /\ Z.of_nat (length (s_matches s)) = n
  /\ (forall i, 0 <= i < n -> 0 <= get (s_rowsol s) i < n)
  /\ (forall i, 0 <= i < n -> 0 <= get (s_matches s) i)
  /\ (forall j, In j done ->
        -1 <= get (s_colsol s) j < n
        /\ (0 <= get (s_colsol s) j ->
            get (s_rowsol s) (get (s_colsol s) j) = j
            /\ 1 <= get (s_matches s) (get (s_colsol s) j)))
  /\ (forall i, 0 <= i < n -> 1 <= get (s_matches s) i ->
        In (get (s_rowsol s) i) done /\ get (s_colsol s) (get (s_rowsol s) i) = i).

(** While the reduction transfer has handled the rows [done]: the rows
    listed in [free] are the handled rows that no column claimed. *)
Definition tr_inv (n : Z) (done : list Z) (s : lap_vars) : Prop :=
  matching n (s_rowsol s) (s_colsol s)
  /\ (forall j, 0 <= j < n -> 0 <= get (s_colsol s) j ->
        1 <= get (s_matches s) (get (s_colsol s) j))
  /\ (forall i, 0 <= i < n -> 1 <= get (s_matches s) i -> in_image n (s_colsol s) i)
  /\ (forall i, 0 <= i < n -> 0 <= get (s_matches s) i)
  /\ Z.of_nat (length (s_free s)) = n
  /\ 0 <= s_numfree s <= Z.of_nat (length done)
  /\ 0 <= s_j2 s < Z.max n 1
  /\ (forall p, 0 <= p < s_numfree s ->
        In (get (s_free s) p) done /\ 0 <= get (s_free s) p < n
        /\ get (s_matches s) (get (s_free s) p) = 0)
  /\ (forall p q, 0 <= p < s_numfree s -> 0 <= q < s_numfree s ->
        get (s_free s) p = get (s_free s) q -> p = q)
  /\ (forall i, In i done -> get (s_matches s) i = 0 ->
        exists p, 0 <= p < s_numfree s /\ get (s_free s) p = i).

(** Positions of [free] that hold a row still to be assigned while the
    row reduction scans position [k] of [prvnumfree]. *)
Definition pend_pos (prvnumfree : Z) (s : lap_vars) (p : Z) : Prop :=
  0 <= p < s_numfree s \/ s_k s <= p < prvnumfree.

Definition arr_inv (n prvnumfree : Z) (s : lap_vars) : Prop :=
  matching n (s_rowsol s) (s_colsol s)
  /\ Z.of_nat (length (s_free s)) = n
  /\ 0 <= s_numfree s <= s_k s /\ s_k s <= prvnumfree <= n
  /\ 0 <= s_j2 s < Z.max n 1
  /\ (forall p, pend_pos prvnumfree s p ->
        0 <= get (s_free s) p < n /\ ~ in_image n (s_colsol s) (get (s_free s) p))
  /\ (forall p q, pend_pos prvnumfree s p -> pend_pos prvnumfree s q ->
        get (s_free s) p = get (s_free s) q -> p = q)
  /\ (forall i, 0 <= i < n ->
        in_image n (s_colsol s) i
        \/ exists p, pend_pos prvnumfree s p /\ get (s_free s) p = i).

(** Between the passes: the rows [free[0 .. numfree-1]] are the rows still
    to be assigned. *)
Definition free_listed (n : Z) (s : lap_vars) : Prop :=
  matching n (s_rowsol s) (s_colsol s)
  /\ Z.of_nat (length (s_free s)) = n
  /\ 0 <= s_numfree s <= n
  /\ 0 <= s_j2 s < Z.max n 1
  /\ (forall p, 0 <= p < s_numfree s ->
        0 <= get (s_free s) p < n /\ ~ in_image n (s_colsol s) (get (s_free s) p))
  /\ (forall p q, 0 <= p < s_numfree s -> 0 <= q < s_numfree s ->
        get (s_free s) p = get (s_free s) q -> p = q)
  /\ (forall i, 0 <= i < n ->
        in_image n (s_colsol s) i
        \/ exists p, 0 <= p < s_numfree s /\ get (s_free s) p = i).

(** A value stored in [prev]: the start row or a row that holds a column. *)
Definition row_like (n : Z) (cs : list Z) (start : Z) (i : Z) : Prop :=
  i = start \/ (0 <= i /\ in_image n cs i).

(** The column at which a search ends is inside the matrix and free. *)
Definition free_column (n : Z) (cs : list Z) (found : option Z) : Prop :=
  forall e, found = Some e -> 0 <= e < n /\ get cs e < 0.

(** What the search of [augment] keeps true of its scratch data. *)
Definition search_inv (n : Z) (cs : list Z) (start : Z) (d : augmentation_data) : Prop :=
  Z.of_nat (length (prev d)) = n
  /\ (forall j, In j (scan d) -> 0 <= j < n /\ 0 <= get cs j)
  /\ (forall j, In j (pq d) -> 0 <= j < n)
  /\ (forall j, 0 <= j < n ->
        get (prev d) j = start
        \/ (0 <= get (prev d) j /\ in_image n cs (get (prev d) j))).

(** What the path flip keeps true while it walks back from [endofpath]:
    the assignment is consistent except at the column [e] still to be
    handed over, the start row holds no column yet, and the count of
    assigned columns is one more than before as soon as the end of the
    path has been taken. *)
Definition flip_inv (n : Z) (prev : list Z) (start : Z) (cs0 : list Z) (N0 : Z)
  (rs cs : list Z) (e : Z) : Prop :=
  Z.of_nat (length rs) = n /\ Z.of_nat (length cs) = n /\ 0 <= e < n
  /\ (forall i, 0 <= i < n -> 0 <= get rs i < n)
  /\ (forall j, 0 <= j < n -> -1 <= get cs j < n)
  /\ (forall j, 0 <= j < n -> j <> e -> 0 <= get cs j -> get rs (get cs j) = j)
  /\ (forall j, 0 <= j < n -> get cs j <> start)
  /\ (forall j, 0 <= j < n -> get prev j <> start -> 0 <= get cs (get rs (get prev j)))
  /\ (forall j, 0 <= j < n -> 0 <= get cs j -> in_image n cs0 (get cs j))
  /\ Z.of_nat (length (assigned_rows cs)) + (if 0 <=? get cs e then 0 else 1) = N0 + 1.

(** ** Further vocabulary: stored entries, labels and scratch state *)

(** The assigned columns hold stored entries of the matrix. *)
Definition on_stored (m : sigma_matrix) (n : Z) (cs : list Z) : Prop :=
  forall j, 0 <= j < n -> 0 <= get cs j -> stored m (get cs j) j <> None.

(** Two row vectors that agree on the rows of [P]. *)
Definition rows_agree (n : Z) (P : Z -> Prop) (rs1 rs2 : list Z) : Prop :=
  length rs1 = length rs2
  /\ forall i, 0 <= i < n -> P i -> get rs1 i = get rs2 i.

(** Two outcomes of the path flip that differ at most in the rows outside [P]. *)
Definition same_flip (n : Z) (P : Z -> Prop) (o1 o2 : outcome (list Z * list Z)) : Prop :=
  match o1, o2 with
  | Done (r1, c1), Done (r2, c2) => c1 = c2 /\ rows_agree n P r1 r2
  | OutOfFuel, OutOfFuel => True
  | Undefined, Undefined => True
  | _, _ => False
  end.

(** A column the search has labelled: it is in [todo], waits in [scan] or
    is ready. *)
Definition labelled (d : augmentation_data) (j : Z) : Prop :=
  getb (in_todo d) j = true \/ In j (scan d) \/ In j (ready d).

(** The label of a column names a row that stores the column, and a label
    other than the start row is the row of a ready column. *)
Definition label_inv (m : sigma_matrix) (n : Z) (cs : list Z) (start : Z)
  (d : augmentation_data) : Prop :=
  (forall j, 0 <= j < n -> labelled d j -> stored m (get (prev d) j) j <> None)
  /\ (forall j, 0 <= j < n ->
        get (prev d) j = start
        \/ exists j1, 0 <= j1 < n /\ In j1 (ready d) /\ 0 <= get cs j1
                      /\ get (prev d) j = get cs j1).

(** The column a search ends at is labelled with a row that stores it. *)
Definition found_stored (m : sigma_matrix) (d : augmentation_data) (found : option Z) : Prop :=
  forall e, found = Some e -> stored m (get (prev d) e) e <> None.

(** Two outcomes of the augmentation that differ at most in [rowsol] at
    rows that hold no column. *)
Definition same_augment (n : Z) (o1 o2 : outcome assignment) : Prop :=
  match o1, o2 with
  | Done a1, Done a2 =>
      a_data a1 = a_data a2 /\ a_v a1 = a_v a2 /\ a_colsol a1 = a_colsol a2
      /\ rows_agree n (in_image n (a_colsol a2)) (a_rowsol a1) (a_rowsol a2)
  | OutOfFuel, OutOfFuel => True
  | Undefined, Undefined => True
  | _, _ => False
  end.

(** A partial assignment as [delta_lap] takes it: an unassigned row or
    column holds a negative entry, and the assigned ones name each other. *)
Definition partial_assignment (n : Z) (rs cs : list Z) : Prop :=
  Z.of_nat (length rs) = n /\ Z.of_nat (length cs) = n
  /\ (forall i, 0 <= i < n -> get rs i < n)
  /\ (forall j, 0 <= j < n -> -1 <= get cs j < n)
  /\ (forall j, 0 <= j < n -> 0 <= get cs j -> get rs (get cs j) = j)
  /\ (forall i, 0 <= i < n -> 0 <= get rs i -> get cs (get rs i) = i).

(** The column prices are below the stored costs: every stored entry has
    a non-negative reduced cost against the prices alone. *)
Definition prices_below (m : sigma_matrix) (vv : list Z) : Prop :=
  forall i j c, stored m i j = Some c -> get vv j <= c.

(** No price went up. *)
Definition prices_le (vv' vv : list Z) : Prop :=
  length vv' = length vv /\ forall j, get vv' j <= get vv j.

(** The first of the columns [done] whose least-cost row is [i]. *)
Definition first_claim (m : sigma_matrix) (done : list Z) (i : Z) : option Z :=
  find (fun j => smallest_cost_row m j =? i) done.

(** The state of the column reduction after the columns [done], in the
    order they were handled: [matches] counts the columns a row is the
    least-cost row of, the row holds the first of them, and the others stay
    unassigned. *)
Definition colred_spec (m : sigma_matrix) (n : Z) (done : list Z) (s : lap_vars) : Prop :=
  Z.of_nat (length (s_rowsol s)) = n
  /\ Z.of_nat (length (s_colsol s)) = n
  /\ Z.of_nat (length (s_matches s)) = n
  /\ (forall i, 0 <= i < n ->
        get (s_matches s) i
        = Z.of_nat (count_occ Z.eq_dec (map (smallest_cost_row m) done) i))
  /\ (forall i j, 0 <= i < n -> first_claim m done i = Some j -> get (s_rowsol s) i = j)
  /\ (forall j, In j done ->
        get (s_colsol s) j
        = if match first_claim m done (smallest_cost_row m j) with
             | Some j' => j' =? j
             | None => false
             end
          then smallest_cost_row m j else -1).

(** A column whose distance the current search has written. *)
Definition written (d : augmentation_data) (j : Z) : Prop :=
  getb (in_todo d) j = true \/ In j (pq d) \/ In j (scan d) \/ In j (ready d).

(** A column that is in [todo] or has an entry in the queue. *)
Definition queued (d : augmentation_data) (j : Z) : Prop :=
  getb (in_todo d) j = true \/ In j (pq d).

(** Two scratch states of one search that differ at most in the distances
    of the columns the search has not written and in the handles of the
    columns that are not queued. *)
Definition same_search (d1 d2 : augmentation_data) : Prop :=
  in_todo d1 = in_todo d2 /\ ready d1 = ready d2 /\ is_ready d1 = is_ready d2
  /\ prev d1 = prev d2 /\ scan d1 = scan d2 /\ pq d1 = pq d2
  /\ length (dist d1) = length (dist d2)
  /\ (forall j, written d1 j -> get (dist d1) j = get (dist d2) j)
  /\ length (handles d1) = length (handles d2)
  /\ (forall j, queued d1 j -> get (handles d1) j = get (handles d2) j).

(** Two scratch states with vectors of the same sizes. *)
Definition same_sizes (d1 d2 : augmentation_data) : Prop :=
  length (in_todo d1) = length (in_todo d2)
  /\ length (is_ready d1) = length (is_ready d2)
  /\ length (prev d1) = length (prev d2)
  /\ length (dist d1) = length (dist d2)
  /\ length (handles d1) = length (handles d2).

(** Two heaps with the same array whose handles agree on the columns in
    [S]. *)
Definition heap_agree (S : Z -> Prop) (qh1 qh2 : heap) : Prop :=
  fst qh1 = fst qh2
  /\ length (snd qh1) = length (snd qh2)
  /\ forall j, S j -> get (snd qh1) j = get (snd qh2) j.

(** Two outcomes of the same kind whose results are related by [R]. *)
Definition rel_outcome {A : Type} (R : A -> A -> Prop) (o1 o2 : outcome A) : Prop :=
  match o1, o2 with
  | Done a1, Done a2 => R a1 a2
  | OutOfFuel, OutOfFuel => True
  | Undefined, Undefined => True
  | _, _ => False
  end.

(** Two assignments with the same prices, rows and columns. *)
Definition same_assignment (a1 a2 : assignment) : Prop :=
  a_v a1 = a_v a2 /\ a_rowsol a1 = a_rowsol a2 /\ a_colsol a1 = a_colsol a2
  /\ same_sizes (a_data a1) (a_data a2).

(** The ready columns in the order they became ready (the newest first):
    each is marked ready, inside the matrix and assigned, and the label of a
    column names the start row or the row of a column that became ready
    before it. *)
Definition order_inv (n : Z) (cs : list Z) (start : Z) (d : augmentation_data) : Prop :=
  Z.of_nat (length (is_ready d)) = n
  /\ (forall j, In j (ready d) ->
        getb (is_ready d) j = true /\ 0 <= j < n /\ 0 <= get cs j)
  /\ (forall l1 j l3, ready d = l1 ++ j :: l3 -> ~ In j l3 ->
        get (prev d) j = start
        \/ exists j2, In j2 l3 /\ get (prev d) j = get cs j2).

(** The heap order of the array under the distances [dist]: no entry has
    a smaller distance than its parent. *)
Definition heap_ordered (dist : list Z) (q : priority_queue) : Prop :=
  forall p, (0 < p < length q)%nat ->
    get dist (entry q (parent_index p)) <= get dist (entry q p).

(** The order holds except that the entry at [p] may lie below its
    parent; the children of [p] already respect the parent of [p]. *)
Definition ordered_but (dist : list Z) (q : priority_queue) (p : nat) : Prop :=
  (forall c, (0 < c < length q)%nat -> c <> p ->
     get dist (entry q (parent_index c)) <= get dist (entry q c))
  /\ (forall c, (0 < c < length q)%nat -> parent_index c = p -> (0 < p)%nat ->
        get dist (entry q (parent_index p)) <= get dist (entry q c)).

(** The handle of every column in [T] is the position of an entry of that
    column, and every entry of the array is a column of the vector of
    handles. *)
Definition handles_ok (T : Z -> Prop) (qh : heap) : Prop :=
  (forall j, T j ->
     0 <= get (snd qh) j
     /\ (Z.to_nat (get (snd qh) j) < length (fst qh))%nat
     /\ entry (fst qh) (Z.to_nat (get (snd qh) j)) = j)
  /\ (forall x, In x (fst qh) -> 0 <= x < Z.of_nat (length (snd qh))).

(** [handles[j]] names an entry of column [j] in the queue. *)
Definition valid_handle (d : augmentation_data) (j : Z) : Prop :=
  0 <= get (handles d) j
  /\ (Z.to_nat (get (handles d) j) < length (pq d))%nat
  /\ entry (pq d) (Z.to_nat (get (handles d) j)) = j.

(** Every column in [todo] has a handle that names one of its queue
    entries. *)
Definition handles_inv (n : Z) (d : augmentation_data) : Prop :=
  Z.of_nat (length (handles d)) = n
  /\ handles_ok (fun j => getb (in_todo d) j = true) (heap_of d).

(** Every call [pq.update(handles[j])] that the loop over a row makes is
    given a handle that names a queue entry of column [j].  The recursion
    is that of [expand_row]. *)
Fixpoint updates_valid (row : sigma_row) (v colsol : list Z) (i h min : Z)
  (d : augmentation_data) : Prop :=
  match row with
  | [] => True
  | (j, c) :: rest =>
      if getb (is_ready d) j then updates_valid rest v colsol i h min d
      else
        let c_red := c - get v j - h in
        if negb (getb (in_todo d) j) || (min + c_red <? get (dist d) j) then
          let d1 := set_prev (set_dist d j (min + c_red)) j i in
          if 0 =? c_red then
            if get colsol j <? 0 then True
            else updates_valid rest v colsol i h min (to_scan d1 j)
          else
            if negb (getb (in_todo d1) j)
            then updates_valid rest v colsol i h min (enqueue d1 j)
            else valid_handle d1 j /\ updates_valid rest v colsol i h min (requeue d1 j)
        else updates_valid rest v colsol i h min d
  end.

(** The state in which a pass of the augmenting row reduction starts:
    [k = 0; prvnumfree = numfree; numfree = 0;]. *)
Definition arr_start (s : lap_vars) : lap_vars :=
  {| s_v := s_v s; s_rowsol := s_rowsol s; s_colsol := s_colsol s;
     s_matches := s_matches s; s_free := s_free s; s_numfree := 0;
     s_k := 0; s_j2 := s_j2 s |}.

(** The tie rule as the specification words it, at the free row that the
    augmenting row reduction is about to scan: when the two smallest
    reduced costs are equal and [j1] is assigned, the row takes [j2] if
    [j2] is free and keeps [j1] otherwise. *)
Definition tie_rule_as_stated (BIG : Z) (m : sigma_matrix) (s : lap_vars) : Prop :=
  forall umin j1 j2 s',
    two_smallest BIG (s_v s) (findRow m (get (s_free s) (s_k s))) (s_j2 s)
    = Some (umin, umin, j1, j2) ->
    0 <= get (s_colsol s) j1 ->
    arr_step BIG m s = Done s' ->
    get (s_rowsol s') (get (s_free s) (s_k s))
    = if get (s_colsol s) j2 <? 0 then j2 else j1.

(** ** Instances *)

(** A feasible 4 x 4 instance on which the search relabels a column that
    waits in [scan]. *)
Definition inst_relabel : sigma_matrix :=
  [ [(0, 0); (1, 0); (2, 3); (3, 0)];
    [(2, 1); (3, 1)];
    [(0, 2); (2, 2); (3, 1)];
    [(0, 3); (2, 2); (3, 1)] ].

(** A feasible 5 x 5 instance on which a column is queued twice. *)
Definition inst_requeue : sigma_matrix :=
  [ [(1, 1); (2, 2); (3, 7)];
    [(1, 0); (3, 4); (4, 8)];
    [(0, 7); (1, 6); (3, 8); (4, 1)];
    [(1, 7); (2, 4)];
    [(1, 1); (2, 9); (3, 7)] ].

(** A feasible 3 x 3 instance for the delta solver. *)
Definition inst_delta : sigma_matrix :=
  [ [(0, 5); (1, 9)];
    [(0, 8); (1, 7); (2, 0)];
    [(0, 0); (2, 1)] ].

(** A feasible 3 x 3 instance on which the augmenting row reduction meets
    a tie between two assigned columns. *)
Definition inst_tie : sigma_matrix :=
  [ [(1, 1); (2, 1)];
    [(0, 1); (2, 0)];
    [(1, 2); (2, 2)] ].

(** A feasible 4 x 4 instance that the reductions leave with one free
    row.  The search for that row lowers the distance of column 0 while it
    is in [todo] and updates its queue entry; [lap] returns an optimal,
    dual-feasible solution. *)
Definition inst_update : sigma_matrix :=
  [ [(0, 1); (1, 3); (2, 9); (3, 5)];
    [(2, 2); (3, 0)];
    [(0, 9); (1, 9); (2, 2); (3, 6)];
    [(0, 8); (2, 0); (3, 2)] ].

(** A feasible 6 x 6 instance on which the search overwrites the distance
    of queued columns: the queue holds column 2 twice, its root is not
    always an entry of least distance, and column 2 becomes ready twice. *)
Definition inst_stale : sigma_matrix :=
  [ [(2, 5); (3, 7); (5, 1)];
    [(1, 9); (2, 2); (3, 0); (5, 6)];
    [(2, 9); (3, 8); (5, 7)];
    [(0, 0); (2, 7); (3, 8)];
    [(0, 6); (1, 0); (3, 8); (4, 2); (5, 2)];
    [(0, 7); (2, 6); (3, 5)] ].

(** * Properties *)

(** ** Vectors *)

Section VectorFacts.
Context {A : Type}.
Implicit Types (l : list A) (x d : A).

Lemma upd_length l n x : length (upd l n x) = length l.
Proof.
  revert n; induction l as [|h t IH]; intros [|n]; simpl; auto.
Qed.

Lemma nth_upd_same l n x d : (n < length l)%nat -> nth n (upd l n x) d = x.
Proof.
  revert n; induction l as [|h t IH]; intros [|n] H; simpl in *; try lia; auto.
  apply IH; lia.
Qed.

Lemma nth_upd_other l n k x d : n <> k -> nth k (upd l n x) d = nth k l d.
Proof.
  revert n k; induction l as [|h t IH]; intros [|n] [|k] H; simpl; auto; try congruence.
Qed.

Lemma vset_length l i x : length (vset l i x) = length l.
Proof.
  unfold vset; destruct (i <? 0); auto using upd_length.
Qed.

Lemma vget_vset_same d l i x :
  0 <= i < Z.of_nat (length l) -> vget d (vset l i x) i = x.
Proof.
  intros H; unfold vget, vset.
  destruct (Z.ltb_spec i 0); [lia|].
  apply nth_upd_same; lia.
Qed.

Lemma vget_vset_other d l i j x : i <> j -> vget d (vset l i x) j = vget d l j.
Proof.
  intros H; unfold vget, vset.
  destruct (Z.ltb_spec j 0); auto.
  destruct (Z.ltb_spec i 0); auto.
  apply nth_upd_other; lia.
Qed.

Lemma vget_outside d l i : ~ 0 <= i < Z.of_nat (length l) -> vget d l i = d.
Proof.
  intros H; unfold vget.
  destruct (Z.ltb_spec i 0); auto.
  apply nth_overflow; lia.
Qed.

Lemma vset_outside l i x : ~ 0 <= i < Z.of_nat (length l) -> vset l i x = l.
Proof.
  intros H; unfold vset.
  destruct (Z.ltb_spec i 0); auto.
  assert (Hn : (length l <= Z.to_nat i)%nat) by lia.
  revert Hn; generalize (Z.to_nat i); clear.
  induction l as [|h t IH]; intros [|n] Hn; simpl in *; auto; try lia.
  f_equal; apply IH; lia.
Qed.

Lemma vget_In d l i : 0 <= i < Z.of_nat (length l) -> In (vget d l i) l.
Proof.
  intros H; unfold vget.
  destruct (Z.ltb_spec i 0); [lia|].
  apply nth_In; lia.
Qed.

Lemma In_vget d l x : In x l -> exists i, 0 <= i < Z.of_nat (length l) /\ vget d l i = x.
Proof.
  intros H; destruct (In_nth l x d H) as (n & Hn & E).
  exists (Z.of_nat n); split; [lia|].
  unfold vget; destruct (Z.ltb_spec (Z.of_nat n) 0); [lia|].
  now rewrite Nat2Z.id.
Qed.

Lemma fill_length x l : length (fill x l) = length l.
Proof. apply length_map. Qed.

Lemma fill_fill (x y : A) l : fill x (fill y l) = fill x l.
Proof. unfold fill; rewrite map_map; reflexivity. Qed.

Lemma vget_fill d x l i : 0 <= i < Z.of_nat (length l) -> vget d (fill x l) i = x.
Proof.
  intros H; unfold vget, fill.
  destruct (Z.ltb_spec i 0); [lia|].
  rewrite (nth_indep _ d x) by (rewrite length_map; lia).
  destruct (nth_in_or_default (Z.to_nat i) (map (fun _ : A => x) l) x) as [Hin|E]; auto.
  apply in_map_iff in Hin; destruct Hin as (y & E & _); auto.
Qed.

Lemma vget_repeat d x n i : 0 <= i < Z.of_nat n -> vget d (repeat x n) i = x.
Proof.
  intros H; unfold vget.
  destruct (Z.ltb_spec i 0); [lia|].
  apply nth_repeat_lt; lia.
Qed.

End VectorFacts.

Lemma getb_vset_false (l : list bool) (j : Z) : getb (vset l j false) j = false.
Proof.
  unfold getb. destruct (Z.lt_ge_cases j 0).
  - rewrite vget_outside; [reflexivity|]. rewrite vset_length. lia.
  - destruct (Z.lt_ge_cases j (Z.of_nat (length l))).
    + now rewrite vget_vset_same by lia.
    + rewrite vget_outside; [reflexivity|]. rewrite vset_length. lia.
Qed.

Lemma In_range n x : In x (range n) <-> 0 <= x < Z.of_nat n.
Proof.
  unfold range; rewrite in_map_iff; split.
  - intros (k & <- & Hk); apply in_seq in Hk; lia.
  - intros H; exists (Z.to_nat x); split; [lia|]. apply in_seq; lia.
Qed.

Lemma range_length n : length (range n) = n.
Proof. unfold range; now rewrite length_map, length_seq. Qed.

Lemma range_S n : range (S n) = range n ++ [Z.of_nat n].
Proof. unfold range; rewrite seq_S, map_app; reflexivity. Qed.

Lemma NoDup_range n : NoDup (range n).
Proof.
  unfold range; apply Finite.Injective_map_NoDup; [|apply seq_NoDup].
  intros a b; apply Nat2Z.inj.
Qed.

(** ** The heap: every operation keeps the queued entries *)

Lemma count_occ_upd (l : list Z) (n : nat) (x y : Z) :
  (n < length l)%nat ->
  (count_occ Z.eq_dec (upd l n x) y + (if Z.eq_dec (nth n l 0%Z) y then 1 else 0)
   = count_occ Z.eq_dec l y + (if Z.eq_dec x y then 1 else 0))%nat.
Proof.
  revert n; induction l as [|h t IH]; intros [|n] H; simpl in *; try lia.
  - destruct (Z.eq_dec x y), (Z.eq_dec h y); lia.
  - specialize (IH n ltac:(lia)). destruct (Z.eq_dec h y); lia.
Qed.

Lemma upd_swap_perm (q : list Z) (p r : nat) :
  (p < length q)%nat -> (r < length q)%nat ->
  Permutation (upd (upd q p (nth r q 0)) r (nth p q 0)) q.
Proof.
  intros Hp Hr. apply (Permutation_count_occ Z.eq_dec). intros y.
  pose proof (count_occ_upd q p (nth r q 0) y Hp) as H1.
  pose proof (count_occ_upd (upd q p (nth r q 0)) r (nth p q 0) y
                ltac:(rewrite upd_length; lia)) as H2.
  destruct (Nat.eq_dec p r) as [->|Hne].
  - rewrite nth_upd_same in H2 by lia. lia.
  - rewrite nth_upd_other in H2 by lia. lia.
Qed.

Lemma swap_entries_perm (qh : heap) (p r : nat) :
  (p < length (fst qh))%nat -> (r < length (fst qh))%nat ->
  Permutation (fst (swap_entries qh p r)) (fst qh).
Proof.
  destruct qh as [q hs]; cbn [fst swap_entries]; intros Hp Hr.
  unfold entry. apply upd_swap_perm; assumption.
Qed.

Lemma swap_entries_length (qh : heap) (p r : nat) :
  length (fst (swap_entries qh p r)) = length (fst qh).
Proof.
  destruct qh as [q hs]; cbn [fst swap_entries]. now rewrite !upd_length.
Qed.

Lemma swap_entries_handles (qh : heap) (p r : nat) :
  length (snd (swap_entries qh p r)) = length (snd qh).
Proof.
  destruct qh as [q hs]; cbn [snd swap_entries].
  repeat match goal with |- context [if ?b then _ else _] => destruct b end;
    now rewrite ?vset_length.
Qed.

Lemma parent_index_le (p : nat) : (parent_index p <= p)%nat.
Proof.
  unfold parent_index. apply Nat.Div0.div_le_upper_bound. lia.
Qed.

Lemma parent_index_lt (p : nat) : (0 < p)%nat -> (parent_index p < p)%nat.
Proof.
  unfold parent_index; intros H.
  apply Nat.Div0.div_lt_upper_bound. lia.
Qed.

Lemma siftup_perm (fuel : nat) dist (qh : heap) (p : nat) :
  (p < length (fst qh))%nat ->
  Permutation (fst (siftup fuel dist qh p)) (fst qh)
  /\ length (snd (siftup fuel dist qh p)) = length (snd qh).
Proof.
  revert qh p; induction fuel as [|fuel IH]; intros qh p Hp; cbn [siftup]; auto.
  destruct p as [|p']; auto.
  destruct (node_compare _ _ _); auto.
  pose proof (parent_index_le (S p')) as Hle.
  destruct (IH (swap_entries qh (parent_index (S p')) (S p')) (parent_index (S p'))) as [P L].
  { rewrite swap_entries_length; lia. }
  split.
  - rewrite P. apply swap_entries_perm; lia.
  - rewrite L. apply swap_entries_handles.
Qed.

Lemma max_element_In dist q cs l : In (max_element dist q cs l) (l :: cs).
Proof.
  revert l; induction cs as [|c cs IH]; intros l; cbn [max_element]; [now left|].
  destruct (node_compare _ _ _).
  - right. apply IH.
  - destruct (IH l) as [H|H]; [now left | right; now right].
Qed.

Lemma top_child_index_bounds dist q p :
  (first_child_index p < length q)%nat ->
  (p < top_child_index dist q p < length q)%nat.
Proof.
  intros H. unfold top_child_index.
  destruct (max_element_In dist q
              (seq (S (first_child_index p)) (Nat.min 3 (length q - S (first_child_index p))))
              (first_child_index p)) as [E|Hin].
  - rewrite <- E. unfold first_child_index in *. lia.
  - apply in_seq in Hin. unfold first_child_index in *. lia.
Qed.

Lemma siftdown_perm (fuel : nat) dist (qh : heap) (p : nat) :
  Permutation (fst (siftdown fuel dist qh p)) (fst qh)
  /\ length (snd (siftdown fuel dist qh p)) = length (snd qh).
Proof.
  revert qh p; induction fuel as [|fuel IH]; intros qh p; cbn [siftdown]; auto.
  destruct (Nat.ltb_spec (first_child_index p) (length (fst qh))) as [Hc|]; auto.
  destruct (negb _); auto.
  pose proof (top_child_index_bounds dist (fst qh) p Hc) as Hb.
  destruct (IH (swap_entries qh (top_child_index dist (fst qh) p) p)
               (top_child_index dist (fst qh) p)) as [P L].
  split.
  - rewrite P. apply swap_entries_perm; lia.
  - rewrite L. apply swap_entries_handles.
Qed.

Lemma entry_In q p : (p < length q)%nat -> In (entry q p) q.
Proof. intros H. unfold entry. now apply nth_In. Qed.

Lemma entry_swap (qh : heap) (a b c : nat) :
  (a < length (fst qh))%nat -> (b < length (fst qh))%nat -> a <> b ->
  entry (fst (swap_entries qh a b)) c
  = if (c =? b)%nat then entry (fst qh) a
    else if (c =? a)%nat then entry (fst qh) b else entry (fst qh) c.
Proof.
  destruct qh as [q hs]; cbn [fst swap_entries]. intros Ha Hb Hne. unfold entry.
  destruct (Nat.eqb_spec c b) as [->|Hcb].
  - apply nth_upd_same. rewrite upd_length. exact Hb.
  - rewrite nth_upd_other by auto.
    destruct (Nat.eqb_spec c a) as [->|Hca].
    + apply nth_upd_same. exact Ha.
    + apply nth_upd_other. auto.
Qed.

(** The budgets of the two sift loops are never exhausted. *)
Lemma siftup_fuel dist (f1 f2 : nat) (qh : heap) (p : nat) :
  (p <= f1)%nat -> (p <= f2)%nat -> siftup f1 dist qh p = siftup f2 dist qh p.
Proof.
  revert f2 qh p; induction f1 as [|f1 IH]; intros f2 qh p H1 H2.
  - assert (p = 0%nat) by lia. subst p. destruct f2; reflexivity.
  - destruct p as [|p']; [destruct f2; reflexivity|].
    destruct f2 as [|f2]; [lia|]. cbn [siftup].
    destruct (node_compare _ _ _); [|reflexivity].
    pose proof (parent_index_lt (S p') ltac:(lia)).
    apply IH; lia.
Qed.

Lemma siftdown_fuel dist (f1 f2 : nat) (qh : heap) (p : nat) :
  (length (fst qh) <= p + f1)%nat -> (length (fst qh) <= p + f2)%nat ->
  siftdown f1 dist qh p = siftdown f2 dist qh p.
Proof.
  revert f2 qh p; induction f1 as [|f1 IH]; intros f2 qh p H1 H2.
  - destruct f2 as [|f2]; [reflexivity|]. cbn [siftdown].
    destruct (Nat.ltb_spec (first_child_index p) (length (fst qh))) as [Hc|]; [|reflexivity].
    unfold first_child_index in Hc. lia.
  - destruct f2 as [|f2].
    + cbn [siftdown].
      destruct (Nat.ltb_spec (first_child_index p) (length (fst qh))) as [Hc|]; [|reflexivity].
      unfold first_child_index in Hc. lia.
    + cbn [siftdown].
      destruct (Nat.ltb_spec (first_child_index p) (length (fst qh))) as [Hc|]; [|reflexivity].
      destruct (negb _); [|reflexivity].
      pose proof (top_child_index_bounds dist (fst qh) p Hc).
      apply IH; rewrite swap_entries_length; lia.
Qed.

Lemma pq_top_In q j : pq_top q = Some j -> In j q.
Proof.
  destruct q as [|x q]; cbn; [discriminate|]. intros [= ->]; now left.
Qed.

Lemma pq_top_None q : pq_top q = None -> q = [].
Proof.
  destruct q; cbn; [reflexivity | discriminate].
Qed.

Lemma pq_push_perm dist (qh : heap) (j : Z) :
  Permutation (fst (pq_push dist qh j)) (j :: fst qh)
  /\ length (snd (pq_push dist qh j)) = length (snd qh).
Proof.
  destruct qh as [q hs]; cbn [pq_push fst snd].
  destruct (siftup_perm (length q) dist (q ++ [j], vset hs j (Z.of_nat (length q))) (length q))
    as [P L].
  { cbn [fst]. rewrite length_app; simpl; lia. }
  cbn [fst snd] in *. split.
  - rewrite P. symmetry. apply Permutation_cons_append.
  - now rewrite L, vset_length.
Qed.

Lemma pq_pop_perm dist (qh : heap) (j : Z) :
  pq_top (fst qh) = Some j ->
  Permutation (j :: fst (pq_pop dist qh)) (fst qh)
  /\ length (snd (pq_pop dist qh)) = length (snd qh).
Proof.
  destruct qh as [q hs]; cbn [fst snd].
  destruct q as [|x rest]; cbn [pq_top]; [discriminate|]. intros [= ->].
  cbn [pq_pop]. destruct rest as [|y rest']; [split; reflexivity|].
  set (rest := y :: rest') in *.
  destruct (siftdown_perm (length rest) dist
              (last rest 0 :: removelast rest,
               if get hs (last rest 0) =? Z.of_nat (length rest)
               then vset hs (last rest 0) 0 else hs) 0) as [P L].
  cbn [fst snd] in *. split.
  - rewrite P. apply perm_skip.
    rewrite (app_removelast_last 0 (l := rest)) at 3 by (subst rest; discriminate).
    apply Permutation_cons_append.
  - rewrite L. destruct (_ =? _); now rewrite ?vset_length.
Qed.

Lemma pq_update_perm dist (qh : heap) (j : Z) :
  Permutation (fst (pq_update dist qh j)) (fst qh)
  /\ length (snd (pq_update dist qh j)) = length (snd qh).
Proof.
  unfold pq_update.
  destruct (Nat.ltb_spec (Z.to_nat (get (snd qh) j)) (length (fst qh))) as [Hp|]; auto.
  destruct (Z.to_nat (get (snd qh) j)) as [|p'] eqn:E.
  - apply siftdown_perm.
  - destruct (node_compare _ _ _); [apply siftup_perm; lia | apply siftdown_perm].
Qed.

(** The same, for the operations on the augmentation state. *)
Lemma enqueue_perm d j : Permutation (pq (enqueue d j)) (j :: pq d).
Proof. exact (proj1 (pq_push_perm (dist d) (heap_of d) j)). Qed.

Lemma requeue_perm d j : Permutation (pq (requeue d j)) (pq d).
Proof. exact (proj1 (pq_update_perm (dist d) (heap_of d) j)). Qed.

Lemma dequeue_perm d j :
  pq_top (pq d) = Some j -> Permutation (j :: pq (dequeue d)) (pq d).
Proof. intros H. exact (proj1 (pq_pop_perm (dist d) (heap_of d) j H)). Qed.

Lemma dequeue_incl d x : In x (pq (dequeue d)) -> In x (pq d).
Proof.
  destruct (pq_top (pq d)) as [j|] eqn:E.
  - intros H. apply (Permutation_in _ (dequeue_perm d j E)). now right.
  - apply pq_top_None in E. unfold dequeue, heap_of; rewrite E; cbn. tauto.
Qed.

Lemma dequeue_keeps d j x :
  pq_top (pq d) = Some j -> In x (pq d) -> x <> j -> In x (pq (dequeue d)).
Proof.
  intros H Hin Hne.
  apply (Permutation_in _ (Permutation_sym (dequeue_perm d j H))) in Hin.
  destruct Hin as [E|Hin]; [congruence | exact Hin].
Qed.

Lemma dequeue_count d j x :
  pq_top (pq d) = Some j ->
  count_occ Z.eq_dec (pq d) x
  = ((if Z.eq_dec j x then 1 else 0) + count_occ Z.eq_dec (pq (dequeue d)) x)%nat.
Proof.
  intros H.
  rewrite <- (proj1 (Permutation_count_occ Z.eq_dec _ _) (dequeue_perm d j H) x).
  simpl. destruct (Z.eq_dec j x); reflexivity.
Qed.

Lemma dequeue_length d j :
  pq_top (pq d) = Some j -> S (length (pq (dequeue d))) = length (pq d).
Proof. intros H. exact (Permutation_length (dequeue_perm d j H)). Qed.

Lemma enqueue_handles d j : length (handles (enqueue d j)) = length (handles d).
Proof. exact (proj2 (pq_push_perm (dist d) (heap_of d) j)). Qed.

Lemma requeue_handles d j : length (handles (requeue d j)) = length (handles d).
Proof. exact (proj2 (pq_update_perm (dist d) (heap_of d) j)). Qed.

Lemma dequeue_handles d : length (handles (dequeue d)) = length (handles d).
Proof.
  destruct (pq_top (pq d)) as [j|] eqn:E.
  - exact (proj2 (pq_pop_perm (dist d) (heap_of d) j E)).
  - apply pq_top_None in E. unfold dequeue, heap_of; rewrite E; reflexivity.
Qed.

(** ** [augmentation_data::reset] *)

(** C8: [reset(start)] is idempotent: a second call in succession leaves
    every part of the augmentation state as the first call left it. *)
Theorem reset_idempotent (start : Z) (d : augmentation_data) :
  reset start (reset start d) = reset start d.
Proof.
  unfold reset; simpl.
  rewrite !fill_fill; reflexivity.
Qed.

(** C10: [reset(start)] leaves the [dist] labels as they were; it rewrites
    [in_todo], [is_ready], [prev], the queue, [ready] and [scan] only. *)
Theorem reset_keeps_dist (start : Z) (d : augmentation_data) :
  dist (reset start d) = dist d
  /\ reset start d =
     {| in_todo := fill false (in_todo d); ready := [];
        is_ready := fill false (is_ready d); prev := fill start (prev d);
        scan := []; dist := dist d; handles := handles d; pq := [] |}.
Proof.
  split; reflexivity.
Qed.
(** ** Evaluation at concrete instances *)

(** Splits [BIG >= 16] into its sixteen possible low-bit patterns, so that
    comparisons against small constants evaluate. *)
Ltac big_bits B :=
  destruct B as [|B|B]; try (exfalso; lia);
  do 4 (destruct B as [B|B|]; try (exfalso; lia)).

Ltac fuel_from n fuel :=
  replace fuel with (n + (fuel - n))%nat by lia;
  generalize (fuel - n)%nat; intro.

Lemma Permutation_by_NoDup (l l' : list Z) :
  NoDup l -> NoDup l' -> (forall x, In x l <-> In x l') -> Permutation l l'.
Proof. apply NoDup_Permutation. Qed.

Ltac small_perm :=
  apply NoDup_Permutation;
  [ repeat constructor; simpl; intuition lia
  | repeat constructor; simpl; intuition lia
  | intros x; simpl; intuition lia ].

Lemma inst_relabel_feasible : feasible inst_relabel.
Proof.
  split; [reflexivity|].
  exists [1; 2; 0; 3]; split; [small_perm | reflexivity].
Qed.

Lemma lap_inst_relabel BIG fuel free0 :
  16 <= BIG -> (20 <= fuel)%nat -> length free0 = 4%nat ->
  lap BIG fuel free0 inst_relabel =
  Done {| cost := 5; rowsol := [1; 2; 3; 0]; colsol := [3; 0; 1; 2];
          u := [0; 1; 2; 2]; v := [1; 0; 0; -1] |}.
Proof.
  intros HB Hf Hl.
  fuel_from 20%nat fuel.
  destruct free0 as [|a [|b [|c [|e [|]]]]]; try discriminate.
  big_bits BIG; vm_compute; reflexivity.
Qed.

(** C1 (the code departs from it): on a feasible instance [lap] returns
    cost 5 although a perfect matching of cost 4 exists. *)
Theorem lap_not_optimal BIG fuel free0 :
  16 <= BIG -> (20 <= fuel)%nat -> length free0 = 4%nat ->
  feasible inst_relabel
  /\ exists sol, lap BIG fuel free0 inst_relabel = Done sol
       /\ cost sol = 5
       /\ perfect_matching inst_relabel [1; 2; 0; 3]
       /\ matching_cost BIG inst_relabel [1; 2; 0; 3] = 4
       /\ ~ optimal BIG inst_relabel (cost sol).
Proof.
  intros HB Hf Hl; split; [apply inst_relabel_feasible|].
  eexists; split; [apply lap_inst_relabel; assumption|].
  assert (Hp : perfect_matching inst_relabel [1; 2; 0; 3])
    by (split; [small_perm | reflexivity]).
  assert (Hc : matching_cost BIG inst_relabel [1; 2; 0; 3] = 4) by reflexivity.
  repeat split; auto; try apply Hp.
  intros Hopt; specialize (Hopt _ Hp); rewrite Hc in Hopt; simpl in Hopt; lia.
Qed.

Lemma lap_not_optimal_witness :
  feasible inst_relabel
  /\ exists sol, lap 100000 50 [0; 0; 0; 0] inst_relabel = Done sol
       /\ cost sol = 5
       /\ perfect_matching inst_relabel [1; 2; 0; 3]
       /\ matching_cost 100000 inst_relabel [1; 2; 0; 3] = 4
       /\ ~ optimal 100000 inst_relabel (cost sol).
Proof.
  apply (lap_not_optimal 100000 50 [0; 0; 0; 0]); [lia | lia | reflexivity].
Defined.

(** C2 (the code departs from it): in the solution [lap] returns for that
    instance the stored entry (0, 0) has reduced cost -1. *)
Theorem lap_dual_infeasible BIG fuel free0 :
  16 <= BIG -> (20 <= fuel)%nat -> length free0 = 4%nat ->
  exists sol, lap BIG fuel free0 inst_relabel = Done sol
    /\ stored inst_relabel 0 0 = Some 0
    /\ 0 - get (u sol) 0 - get (v sol) 0 = -1
    /\ ~ dual_feasible inst_relabel sol.
Proof.
  intros HB Hf Hl.
  eexists; split; [apply lap_inst_relabel; assumption|].
  repeat split; try reflexivity.
  intros [Hnn _]. specialize (Hnn 0 0 0 eq_refl). vm_compute in Hnn. now apply Hnn.
Qed.

Lemma lap_dual_infeasible_witness :
  exists sol, lap 100000 50 [0; 0; 0; 0] inst_relabel = Done sol
    /\ stored inst_relabel 0 0 = Some 0
    /\ 0 - get (u sol) 0 - get (v sol) 0 = -1
    /\ ~ dual_feasible inst_relabel sol.
Proof.
  apply (lap_dual_infeasible 100000 50 [0; 0; 0; 0]); [lia | lia | reflexivity].
Defined.
(** ** Non-termination of the search *)

(** A top entry at the minimum that is no longer in [todo] is neither
    popped nor skipped: the loop makes no progress. *)
Lemma collect_min_spin fuel colsol min d j :
  pq_top (pq d) = Some j ->
  get (dist d) j = min ->
  getb (in_todo d) j = false ->
  collect_min fuel colsol min d = OutOfFuel.
Proof.
  intros Ht Hd Hi; induction fuel as [|fuel IH]; simpl; auto.
  rewrite Ht, Hd, Z.eqb_refl, Hi; exact IH.
Qed.

Lemma collect_min_pop fuel colsol min d j :
  pq_top (pq d) = Some j ->
  get (dist d) j = min ->
  getb (in_todo d) j = true ->
  0 <= get colsol j ->
  collect_min (S fuel) colsol min d = collect_min fuel colsol min (dequeue (to_scan d j)).
Proof.
  intros Ht Hd Hi Hc; simpl.
  rewrite Ht, Hd, Z.eqb_refl, Hi.
  destruct (Z.ltb_spec (get colsol j) 0); [lia | reflexivity].
Qed.

Lemma search_continue BIG n fuel m v colsol min d d' min' :
  search_body BIG fuel m v colsol min d = Done (d', min', None) ->
  search BIG (S n) fuel m v colsol min d = search BIG n fuel m v colsol min' d'.
Proof. intros H; simpl; rewrite H; reflexivity. Qed.

Lemma search_stuck BIG n fuel m v colsol min d :
  search_body BIG fuel m v colsol min d = OutOfFuel ->
  search BIG n fuel m v colsol min d = OutOfFuel.
Proof. intros H; destruct n; simpl; auto; rewrite H; reflexivity. Qed.

Lemma inst_requeue_feasible : feasible inst_requeue.
Proof.
  split; [reflexivity|].
  exists [3; 4; 0; 1; 2]; split; [small_perm | reflexivity].
Qed.

Lemma lap_reduce_inst_requeue BIG fuel free0 :
  16 <= BIG -> (4 <= fuel)%nat -> length free0 = 5%nat ->
  exists fr,
  lap_reduce BIG fuel free0 inst_requeue =
  Done {| s_v := [7; -4; -3; 2; 1]; s_rowsol := [2; 3; 4; 2; 1];
          s_colsol := [-1; 4; 0; 1; 2]; s_matches := [1; 2; 2; 0; 0];
          s_free := 3 :: fr; s_numfree := 1; s_k := 1; s_j2 := 2 |}.
Proof.
  intros HB Hf Hl.
  fuel_from 4%nat fuel.
  destruct free0 as [|a [|b [|c [|e [|g [|]]]]]]; try discriminate.
  big_bits BIG; eexists; vm_compute; reflexivity.
Qed.


(** A search turn that pops column [j] and then meets a second queue entry
    for [j] at the same minimum never ends. *)
Lemma search_body_spin BIG fuel m v colsol min d j :
  scan d = [] ->
  pq_top (pq (drop_stale (length (pq d)) d)) = Some j ->
  getb (in_todo (drop_stale (length (pq d)) d)) j = true ->
  0 <= get colsol j ->
  pq_top (pq (dequeue (to_scan (drop_stale (length (pq d)) d) j))) = Some j ->
  getb (in_todo (to_scan (drop_stale (length (pq d)) d) j)) j = false ->
  search_body BIG (S fuel) m v colsol min d = OutOfFuel.
Proof.
  intros Hs Ht Hi Hc Ht2 Hi2.
  unfold search_body; rewrite Hs.
  set (d1 := drop_stale (length (pq d)) d) in *.
  rewrite Ht.
  rewrite (collect_min_pop fuel colsol _ d1 j Ht eq_refl Hi Hc).
  rewrite (collect_min_spin fuel colsol _ (dequeue (to_scan d1 j)) j); auto.
Qed.

(** C4 (the code departs from it): on a feasible instance the search of
    [augment] never returns, whatever the loop budget. *)
Theorem lap_search_spins BIG fuel free0 :
  16 <= BIG -> length free0 = 5%nat ->
  feasible inst_requeue /\ lap BIG fuel free0 inst_requeue = OutOfFuel.
Proof.
  intros HB Hl; split; [apply inst_requeue_feasible|].
  assert (Hsmall : (fuel < 4)%nat \/ (4 <= fuel)%nat) by lia.
  destruct Hsmall as [Hs|Hf].
  - destruct free0 as [|a [|b [|c [|e [|g [|]]]]]]; try discriminate.
    do 4 (destruct fuel as [|fuel]; [big_bits BIG; vm_compute; reflexivity|]). lia.
  - destruct (lap_reduce_inst_requeue BIG fuel free0 HB Hf Hl) as (fr & E).
    unfold lap; rewrite E; cbn [bind s_free s_numfree s_v s_rowsol s_colsol].
    change (free_list (3 :: fr) 1) with [3].
    cbn [augment_all]. unfold augment at 1. cbn [a_data a_v a_colsol a_rowsol].
    fuel_from 4%nat fuel.
    change (4 + n)%nat with (S (S (S (S n)))).
    set (budget := S (S (S (S n)))).
    unfold budget at 1.
    erewrite search_continue by (vm_compute; reflexivity).
    erewrite search_continue by (vm_compute; reflexivity).
    erewrite search_continue by (vm_compute; reflexivity).
    rewrite search_stuck; [reflexivity|].
    eapply search_body_spin with (j := 1); try (vm_compute; reflexivity).
    vm_compute; discriminate.
Qed.

Lemma lap_search_spins_witness :
  feasible inst_requeue /\ lap 100000 1000 [0; 0; 0; 0; 0] inst_requeue = OutOfFuel.
Proof.
  apply (lap_search_spins 100000 1000 [0; 0; 0; 0; 0]); [lia | reflexivity].
Defined.
(** ** Weak duality *)

Lemma sum_app l l' : sum (l ++ l') = sum l + sum l'.
Proof. induction l; simpl; lia. Qed.

Lemma sum_Permutation l l' : Permutation l l' -> sum l = sum l'.
Proof. induction 1; simpl; lia. Qed.

Lemma sum_map_le {A} (f g : A -> Z) l :
  (forall x, In x l -> f x <= g x) -> sum (map f l) <= sum (map g l).
Proof.
  induction l as [|a l IH]; simpl; intros H; [lia|].
  pose proof (H a (or_introl eq_refl)).
  assert (sum (map f l) <= sum (map g l)) by (apply IH; auto). lia.
Qed.

Lemma sum_map_add {A} (f g : A -> Z) l :
  sum (map (fun x => f x + g x) l) = sum (map f l) + sum (map g l).
Proof. induction l; simpl; lia. Qed.

Lemma map_vget_range {A} (d : A) (l : list A) :
  map (vget d l) (range (length l)) = l.
Proof.
  induction l as [|a l IH] using rev_ind; [reflexivity|].
  rewrite length_app; simpl length; rewrite Nat.add_1_r, range_S, map_app.
  f_equal.
  - transitivity (map (vget d l) (range (length l))); [|exact IH].
    apply map_ext_in; intros i Hi; apply In_range in Hi.
    unfold vget. destruct (Z.ltb_spec i 0); [lia|]. apply app_nth1; lia.
  - simpl. unfold vget. destruct (Z.ltb_spec (Z.of_nat (length l)) 0); [lia|].
    rewrite Nat2Z.id, nth_middle; reflexivity.
Qed.

Lemma stored_In m i j c :
  stored m i j = Some c -> In (j, c) (findRow m i) /\ 0 <= i < dimension m.
Proof.
  unfold stored; intros H.
  destruct (find _ _) as [[j' c']|] eqn:E; [|discriminate].
  apply find_some in E; destruct E as [Hin Hj]; simpl in *.
  apply Z.eqb_eq in Hj; subst j'. injection H as <-.
  split; auto.
  destruct (Z.lt_ge_cases i 0) as [Hn|Hn].
  - unfold findRow, vget in Hin. destruct (Z.ltb_spec i 0); [destruct Hin | lia].
  - destruct (Z.lt_ge_cases i (dimension m)) as [Hlt|Hge]; [lia|].
    unfold findRow in Hin; rewrite vget_outside in Hin; [destruct Hin|].
    intros [_ Hlt]; apply (Z.lt_irrefl i).
    eapply Z.lt_le_trans; [exact Hlt | exact Hge].
Qed.

Lemma check_reduced_costs_sound m uu vv :
  check_reduced_costs m uu vv = true -> reduced_costs_nonneg m uu vv.
Proof.
  unfold check_reduced_costs; intros H i j c Hs.
  apply stored_In in Hs; destruct Hs as [Hin Hi].
  rewrite forallb_forall in H.
  assert (Hr : In i (range (dim m))) by (apply In_range; exact Hi).
  specialize (H i Hr); rewrite forallb_forall in H.
  specialize (H _ Hin); simpl in H; lia.
Qed.

(** The dual objective bounds the cost of every perfect matching. *)
Lemma dual_bound BIG m uu vv sigma :
  reduced_costs_nonneg m uu vv ->
  length uu = dim m -> length vv = dim m ->
  perfect_matching m sigma ->
  sum uu + sum vv <= matching_cost BIG m sigma.
Proof.
  intros Hnn Hu Hv [Hperm Hst].
  assert (Hlen : length sigma = dim m)
    by (apply Permutation_length in Hperm; now rewrite range_length in Hperm).
  unfold matching_cost; fold (sum (map (fun i => assigncost BIG m i (get sigma i)) (range (dim m)))).
  assert (E1 : sum uu = sum (map (get uu) (range (dim m))))
    by (rewrite <- Hu; unfold get; now rewrite map_vget_range).
  assert (E2 : sum vv = sum (map (fun i => get vv (get sigma i)) (range (dim m)))).
  { rewrite <- (map_map (get sigma) (get vv)).
    rewrite <- Hlen at 1. unfold get at 2. rewrite map_vget_range.
    rewrite (sum_Permutation _ _ (Permutation_map (get vv) Hperm)).
    rewrite <- Hv; unfold get; now rewrite map_vget_range. }
  rewrite E1, E2, <- sum_map_add.
  apply sum_map_le; intros i Hi.
  unfold all_stored in Hst; rewrite forallb_forall in Hst; specialize (Hst i Hi).
  unfold assigncost.
  destruct (stored m i (get sigma i)) as [c|] eqn:E; [|discriminate].
  specialize (Hnn _ _ _ E); lia.
Qed.

(** ** The delta solver at a concrete instance *)

Lemma inst_delta_feasible : feasible inst_delta.
Proof.
  split; [reflexivity|].
  exists [1; 2; 0]; split; [small_perm | reflexivity].
Qed.

(** C6 (the code departs from it): [lap] solves the instance optimally at
    cost 9; after rows 0 and 2 give up their columns, [delta_lap] completes
    the partial solution at cost 18. *)
Theorem delta_lap_differs BIG fuel free0 free1 :
  16 <= BIG -> (20 <= fuel)%nat -> length free0 = 3%nat -> length free1 = 3%nat ->
  feasible inst_delta
  /\ exists sol sol',
       lap BIG fuel free0 inst_delta = Done sol
       /\ cost sol = 9 /\ optimal BIG inst_delta 9 /\ dual_feasible inst_delta sol
       /\ unassign [0; 2] (rowsol sol) (colsol sol) = ([-1; 2; -1], [-1; -1; 1])
       /\ delta_lap BIG fuel free1 inst_delta (u sol) (v sol) [-1; 2; -1] [-1; -1; 1]
          = Done sol'
       /\ cost sol' = 18.
Proof.
  intros HB Hf Hl0 Hl1; split; [apply inst_delta_feasible|].
  exists {| cost := 9; rowsol := [1; 2; 0]; colsol := [2; 0; 1];
            u := [6; 0; 1]; v := [-1; 3; 0] |}.
  exists {| cost := 18; rowsol := [1; 0; 2]; colsol := [1; 0; 2];
            u := [6; 0; 1]; v := [8; 3; 0] |}.
  assert (Hnn : reduced_costs_nonneg inst_delta [6; 0; 1] [-1; 3; 0])
    by (apply check_reduced_costs_sound; reflexivity).
  fuel_from 20%nat fuel.
  destruct free0 as [|a0 [|b0 [|c0 [|]]]]; try discriminate.
  destruct free1 as [|a1 [|b1 [|c1 [|]]]]; try discriminate.
  split; [big_bits BIG; vm_compute; reflexivity|].
  split; [reflexivity|].
  split.
  { intros sigma Hs.
    apply (dual_bound BIG _ [6; 0; 1] [-1; 3; 0] sigma Hnn eq_refl eq_refl Hs). }
  split.
  { split; [exact Hnn|].
    intros i Hi; change (dimension inst_delta) with 3 in Hi.
    assert (Hc : i = 0 \/ i = 1 \/ i = 2) by lia.
    destruct Hc as [->|[->| ->]]; eexists; split; reflexivity. }
  split; [reflexivity|].
  split; [big_bits BIG; vm_compute; reflexivity | reflexivity].
Qed.

Lemma delta_lap_differs_witness :
  feasible inst_delta
  /\ exists sol sol',
       lap 100000 50 [0; 0; 0] inst_delta = Done sol
       /\ cost sol = 9 /\ optimal 100000 inst_delta 9 /\ dual_feasible inst_delta sol
       /\ unassign [0; 2] (rowsol sol) (colsol sol) = ([-1; 2; -1], [-1; -1; 1])
       /\ delta_lap 100000 50 [0; 0; 0] inst_delta (u sol) (v sol) [-1; 2; -1] [-1; -1; 1]
          = Done sol'
       /\ cost sol' = 18.
Proof.
  apply (delta_lap_differs 100000 50 [0; 0; 0] [0; 0; 0]); (lia || reflexivity).
Defined.
(** ** The column duals [delta_lap] starts from *)


Lemma fold_vset_length (g : Z -> Z) (L : list Z) (l : list Z) :
  length (fold_left (fun vv j => vset vv j (g j)) L l) = length l.
Proof.
  revert l; induction L as [|a L IH]; intros l; simpl; auto.
  rewrite IH; apply vset_length.
Qed.








(** ** The tie case of the augmenting row reduction *)

Lemma arr_step_tie BIG m s umin j1 j2 :
  let i := get (s_free s) (s_k s) in
  two_smallest BIG (s_v s) (findRow m i) (s_j2 s) = Some (umin, umin, j1, j2) ->
  0 <= get (s_colsol s) j1 ->
  0 <= i < Z.of_nat (length (s_rowsol s)) ->
  0 <= j2 < Z.of_nat (length (s_colsol s)) ->
  exists s', arr_step BIG m s = Done s'
    /\ get (s_rowsol s') i = j2
    /\ get (s_colsol s') j2 = i
    /\ s_v s' = s_v s
    /\ s_k s' = s_k s + 1
    /\ (0 <= get (s_colsol s) j2 ->
        s_free s' = vset (s_free s) (s_numfree s) (get (s_colsol s) j2)
        /\ s_numfree s' = s_numfree s + 1)
    /\ (get (s_colsol s) j2 < 0 ->
        s_free s' = s_free s /\ s_numfree s' = s_numfree s).
Proof.
  intros i Htwo Hj1 Hi Hj2.
  unfold arr_step; fold i; rewrite Htwo.
  rewrite Z.ltb_irrefl.
  replace (get (s_colsol s) j1 >=? 0) with true
    by (symmetry; rewrite Z.geb_leb; apply Z.leb_le; exact Hj1).
  rewrite Z.geb_leb.
  destruct (Z.leb_spec 0 (get (s_colsol s) j2)) as [Hc|Hc];
    eexists; (split; [reflexivity|]); cbn [s_rowsol s_colsol s_v s_k s_free s_numfree];
    unfold get; rewrite !vget_vset_same by assumption;
    repeat split; auto; try lia; intros; exfalso; unfold get in *; lia.
Qed.

(** C5 (amended): when the two smallest reduced costs of a free row are
    equal and the minimum column [j1] is assigned, the row takes the
    alternate column [j2] whether or not [j2] is free; a row that held [j2]
    is deferred to the free list of the next pass. *)
Theorem arr_step_tie_takes_j2 BIG m s umin j1 j2 :
  let i := get (s_free s) (s_k s) in
  two_smallest BIG (s_v s) (findRow m i) (s_j2 s) = Some (umin, umin, j1, j2) ->
  0 <= get (s_colsol s) j1 ->
  0 <= i < Z.of_nat (length (s_rowsol s)) ->
  0 <= j2 < Z.of_nat (length (s_colsol s)) ->
  exists s', arr_step BIG m s = Done s'
    /\ get (s_rowsol s') i = j2
    /\ get (s_colsol s') j2 = i
    /\ s_v s' = s_v s
    /\ s_k s' = s_k s + 1
    /\ (0 <= get (s_colsol s) j2 ->
        s_free s' = vset (s_free s) (s_numfree s) (get (s_colsol s) j2)
        /\ s_numfree s' = s_numfree s + 1)
    /\ (get (s_colsol s) j2 < 0 ->
        s_free s' = s_free s /\ s_numfree s' = s_numfree s).
Proof. exact (arr_step_tie BIG m s umin j1 j2). Qed.

Lemma arr_step_tie_takes_j2_witness :
  exists s',
    arr_step 100000 inst_tie
      (mk_vars [1; 0; 0] [1; 2; 0] [-1; 0; 1] [1; 2; 0] [2; 0; 0] 0 0 0) = Done s'
    /\ get (s_rowsol s') 2 = 2
    /\ get (s_colsol s') 2 = 2
    /\ s_free s' = [1; 0; 0] /\ s_numfree s' = 1.
Proof.
  destruct (arr_step_tie_takes_j2 100000 inst_tie
              (mk_vars [1; 0; 0] [1; 2; 0] [-1; 0; 1] [1; 2; 0] [2; 0; 0] 0 0 0) 2 1 2)
    as (s' & E & Hr & Hc & _ & _ & Hf & _).
  - reflexivity.
  - simpl; unfold get, vget; simpl; lia.
  - simpl; unfold get, vget; simpl; lia.
  - simpl; lia.
  - exists s'. split; [exact E|]. split; [exact Hr|]. split; [exact Hc|].
    apply Hf. simpl; unfold get, vget; simpl; lia.
Defined.

Lemma inst_tie_feasible : feasible inst_tie.
Proof.
  split; [reflexivity|].
  exists [1; 0; 2]; split; [small_perm | reflexivity].
Qed.

(** C5 as stated fails on a state that [lap] reaches.  On the feasible
    instance [inst_tie], column reduction and reduction transfer leave row
    2 free with the prices [1; 0; 0]; the first pass of the augmenting row
    reduction scans it and finds the reduced costs of columns 1 and 2 both
    equal to 2.  Column [j1 = 1] is assigned to row 0, and the alternate
    column [j2 = 2] is assigned to row 1, so it is not free: yet the row
    takes column 2, it does not keep column 1. *)
Lemma arr_step_tie_keeps_j1_fails :
  let s0 := reduction_transfer 100000 inst_tie
              (column_reduction 100000 inst_tie (lap_init [0; 0; 0] inst_tie)) in
  let s := arr_start s0 in
  feasible inst_tie
  /\ lap_reduce 100000 10 [0; 0; 0] inst_tie
     = (let! s1 := (let! s' := arr_step 100000 inst_tie s in
                    arr_pass 100000 9 inst_tie (s_numfree s0) s') in
        arr_round 100000 10 inst_tie s1)
  /\ get (s_free s) (s_k s) = 2
  /\ two_smallest 100000 (s_v s) (findRow inst_tie 2) (s_j2 s) = Some (2, 2, 1, 2)
  /\ get (s_colsol s) 1 = 0
  /\ get (s_colsol s) 2 = 1
  /\ (exists s', arr_step 100000 inst_tie s = Done s'
        /\ get (s_rowsol s') 2 = 2 /\ get (s_colsol s') 2 = 2)
  /\ ~ tie_rule_as_stated 100000 inst_tie s.
Proof.
  cbv zeta.
  split; [exact inst_tie_feasible|].
  split; [reflexivity|].
  split; [reflexivity|].
  split; [reflexivity|].
  split; [reflexivity|].
  split; [reflexivity|].
  split; [eexists; split; [reflexivity|]; split; reflexivity|].
  intros H.
  specialize (H 2 1 2 _ eq_refl ltac:(vm_compute; discriminate) eq_refl).
  vm_compute in H. discriminate.
Qed.
(** ** [lap] does not depend on the uninitialised array *)

Lemma column_reduction_step_free BIG m s f j :
  column_reduction_step BIG m (with_free s f) j
  = with_free (column_reduction_step BIG m s j) f.
Proof.
  unfold column_reduction_step, with_free; simpl.
  destruct (_ =? 1); reflexivity.
Qed.

Lemma column_reduction_free BIG m s f :
  column_reduction BIG m (with_free s f) = with_free (column_reduction BIG m s) f.
Proof.
  unfold column_reduction; generalize (rev (range (dim m))); intros L.
  revert s; induction L as [|j L IH]; intros s; simpl; auto.
  rewrite column_reduction_step_free; apply IH.
Qed.

Lemma column_reduction_numfree BIG m s :
  s_numfree (column_reduction BIG m s) = s_numfree s.
Proof.
  unfold column_reduction; generalize (rev (range (dim m))); intros L.
  revert s; induction L as [|j L IH]; intros s; simpl; auto.
  rewrite IH; unfold column_reduction_step; destruct (_ =? 1); reflexivity.
Qed.

Lemma agree_on_vset f1 f2 lo hi p x :
  length f1 = length f2 ->
  agree_on lo hi f1 f2 ->
  agree_on lo hi (vset f1 p x) (vset f2 p x).
Proof.
  intros Hl Ha q Hq; unfold get.
  destruct (Z.eq_dec p q) as [->|Hne].
  - destruct (Z.lt_ge_cases q 0); [|destruct (Z.lt_ge_cases q (Z.of_nat (length f1)))].
    + rewrite !vset_outside by lia. apply Ha, Hq.
    + rewrite !vget_vset_same by lia; reflexivity.
    + rewrite !vset_outside by lia. apply Ha, Hq.
  - rewrite !vget_vset_other by assumption. apply Ha, Hq.
Qed.

Lemma agree_on_vset_new f1 f2 hi p x :
  length f1 = length f2 ->
  0 <= p < Z.of_nat (length f1) ->
  agree_on 0 hi f1 f2 ->
  p <= hi ->
  agree_on 0 (p + 1) (vset f1 p x) (vset f2 p x).
Proof.
  intros Hl Hp Ha Hhi q Hq; unfold get.
  destruct (Z.eq_dec p q) as [->|Hne].
  - rewrite !vget_vset_same by lia; reflexivity.
  - rewrite !vget_vset_other by assumption. apply Ha; lia.
Qed.

(** The reduction transfer keeps the two arrays equal on the rows it has
    listed. *)
Lemma reduction_transfer_free BIG m L s f1 f2 :
  length f1 = length f2 ->
  0 <= s_numfree s ->
  s_numfree s + Z.of_nat (length L) <= Z.of_nat (length f1) ->
  agree_on 0 (s_numfree s) f1 f2 ->
  exists s' f1' f2',
    fold_left (reduction_transfer_step BIG m) L (with_free s f1) = with_free s' f1'
    /\ fold_left (reduction_transfer_step BIG m) L (with_free s f2) = with_free s' f2'
    /\ length f1' = length f1 /\ length f2' = length f2
    /\ 0 <= s_numfree s' <= Z.of_nat (length f1)
    /\ agree_on 0 (s_numfree s') f1' f2'.
Proof.
  revert s f1 f2; induction L as [|i L IH]; intros s f1 f2 Hl Hn Hb Ha; simpl.
  - exists s, f1, f2; repeat split; auto; simpl in Hb; lia.
  - simpl length in Hb.
    unfold reduction_transfer_step at 2 4; cbn [with_free s_matches s_free s_numfree s_v s_rowsol s_colsol s_k s_j2].
    destruct (get (s_matches s) i =? 0).
    + destruct (IH (mk_vars (s_v s) (s_rowsol s) (s_colsol s) (s_matches s) (s_free s)
                      (s_numfree s + 1) (s_k s) (s_j2 s))
                   (vset f1 (s_numfree s) i) (vset f2 (s_numfree s) i))
        as (s' & f1' & f2' & E1 & E2 & L1 & L2 & Hn' & Ha');
        cbn [s_numfree]; rewrite ?vset_length; auto; try lia.
      { apply agree_on_vset_new with (hi := s_numfree s); auto; lia. }
      exists s', f1', f2'. rewrite vset_length in *.
      repeat split; auto; lia.
    + destruct (get (s_matches s) i =? 1).
      * destruct (IH (mk_vars (vset (s_v s) (get (s_rowsol s) i)
                                 (get (s_v s) (get (s_rowsol s) i)
                                  - transfer_min BIG (s_v s) (get (s_rowsol s) i) (findRow m i)))
                        (s_rowsol s) (s_colsol s) (s_matches s) (s_free s)
                        (s_numfree s) (s_k s) (s_j2 s)) f1 f2)
          as (s' & f1' & f2' & E1 & E2 & L1 & L2 & Hn' & Ha');
          cbn [s_numfree]; auto; try lia.
        exists s', f1', f2'; repeat split; auto; lia.
      * destruct (IH s f1 f2) as (s' & f1' & f2' & E1 & E2 & L1 & L2 & Hn' & Ha');
          auto; try lia.
        exists s', f1', f2'; repeat split; auto; lia.
Qed.
Ltac split_free :=
  match goal with
  | |- exists s' f1' f2',
         mk_vars ?a ?b ?c ?d ?F1 ?n ?k ?j = _ /\ mk_vars _ _ _ _ ?F2 _ _ _ = _ /\ _ =>
      exists (mk_vars a b c d [] n k j), F1, F2;
      split; [reflexivity|]; split; [reflexivity|]
  end.

(** One scanned row: two runs whose arrays agree where [free_inv] says
    take the same step. *)
Lemma arr_step_free BIG m prv s f1 f2 :
  free_inv prv s f1 f2 -> s_k s < prv ->
  match arr_step BIG m (with_free s f1), arr_step BIG m (with_free s f2) with
  | Done s1, Done s2 =>
      exists s' f1' f2', s1 = with_free s' f1' /\ s2 = with_free s' f2'
        /\ free_inv prv s' f1' f2'
  | Undefined, Undefined => True
  | _, _ => False
  end.
Proof.
  intros (Hl & Hn & Hk & Ha0 & Hak) Hlt.
  unfold arr_step; cbn [with_free s_v s_rowsol s_colsol s_matches s_free s_numfree s_k s_j2].
  rewrite <- (Hak (s_k s)) by lia.
  destruct (two_smallest BIG (s_v s) (findRow m (get f1 (s_k s))) (s_j2 s))
    as [[[[umin usubmin] j1] j2]|]; [|exact I].
  destruct (umin <? usubmin).
  - destruct (get (s_colsol s) j1 >=? 0); split_free;
      unfold free_inv; cbn [s_numfree s_k]; rewrite ?vset_length.
    + repeat split; auto; try lia.
      * intros p Hp; unfold get; rewrite !vget_vset_other by lia. apply Ha0, Hp.
      * apply agree_on_vset; auto.
        intros p Hp; apply Hak; lia.
    + repeat split; auto; try lia.
      intros p Hp; apply Hak; lia.
  - destruct (get (s_colsol s) j1 >=? 0) eqn:E1.
    + destruct (get (s_colsol s) j2 >=? 0); split_free;
        unfold free_inv; cbn [s_numfree s_k]; rewrite ?vset_length.
      * repeat split; auto; try lia.
        -- apply agree_on_vset_new with (hi := s_numfree s); auto; lia.
        -- intros p Hp; unfold get; rewrite !vget_vset_other by lia. apply Hak; lia.
      * repeat split; auto; try lia.
        intros p Hp; apply Hak; lia.
    + cbn beta iota; rewrite E1.
      split_free; unfold free_inv; cbn [s_numfree s_k].
      repeat split; auto; try lia.
      intros p Hp; apply Hak; lia.
Qed.

Lemma arr_pass_free BIG fuel m prv s f1 f2 :
  free_inv prv s f1 f2 ->
  same_reduction (arr_pass BIG fuel m prv (with_free s f1))
                 (arr_pass BIG fuel m prv (with_free s f2)).
Proof.
  revert s f1 f2; induction fuel as [|fuel IH]; intros s f1 f2 Hinv; simpl; [exact I|].
  destruct (Z.ltb_spec (s_k s) prv) as [Hlt|Hge].
  - pose proof (arr_step_free BIG m prv s f1 f2 Hinv Hlt) as Hs.
    destruct (arr_step BIG m (with_free s f1)) as [s1| |],
             (arr_step BIG m (with_free s f2)) as [s2| |]; try contradiction; simpl; auto.
    destruct Hs as (s' & f1' & f2' & -> & -> & Hinv').
    apply IH, Hinv'.
  - destruct Hinv as (Hl & Hn & Hk & Ha0 & Hak).
    exists s, f1, f2; repeat split; auto; lia.
Qed.

Lemma arr_round_free BIG fuel m s f1 f2 :
  length f1 = length f2 ->
  0 <= s_numfree s <= Z.of_nat (length f1) ->
  agree_on 0 (s_numfree s) f1 f2 ->
  same_reduction (arr_round BIG fuel m (with_free s f1))
                 (arr_round BIG fuel m (with_free s f2)).
Proof.
  intros Hl Hn Ha; unfold arr_round.
  cbn [with_free s_v s_rowsol s_colsol s_matches s_free s_numfree s_k s_j2].
  apply (arr_pass_free BIG fuel m (s_numfree s)
           (mk_vars (s_v s) (s_rowsol s) (s_colsol s) (s_matches s) [] 0 0 (s_j2 s)) f1 f2).
  unfold free_inv; cbn [s_numfree s_k]; repeat split; auto; try lia.
  intros p Hp; lia.
Qed.

Lemma lap_reduce_free BIG fuel m free1 free2 :
  length free1 = dim m -> length free2 = dim m ->
  same_reduction (lap_reduce BIG fuel free1 m) (lap_reduce BIG fuel free2 m).
Proof.
  intros H1 H2; unfold lap_reduce, augmenting_row_reduction.
  change (lap_init free1 m) with (with_free (lap_init [] m) free1).
  change (lap_init free2 m) with (with_free (lap_init [] m) free2).
  rewrite !column_reduction_free.
  destruct (reduction_transfer_free BIG m (range (dim m))
              (column_reduction BIG m (lap_init [] m)) free1 free2)
    as (s & f1 & f2 & E1 & E2 & L1 & L2 & Hn & Ha).
  - congruence.
  - rewrite column_reduction_numfree; simpl; lia.
  - rewrite column_reduction_numfree, range_length; simpl; lia.
  - rewrite column_reduction_numfree; intros p Hp; simpl in Hp; lia.
  - unfold reduction_transfer; rewrite E1, E2.
    assert (Hl : length f1 = length f2) by congruence.
    pose proof (arr_round_free BIG fuel m s f1 f2 Hl ltac:(lia) Ha) as Hr.
    destruct (arr_round BIG fuel m (with_free s f1)) as [s1| |],
             (arr_round BIG fuel m (with_free s f2)) as [s2| |]; try contradiction; simpl; auto.
    destruct Hr as (s' & f1' & f2' & -> & -> & Hl' & Hn' & Ha').
    apply arr_round_free; auto.
Qed.

Lemma free_list_agree f1 f2 n :
  agree_on 0 n f1 f2 -> free_list f1 n = free_list f2 n.
Proof.
  intros Ha; unfold free_list; apply map_ext_in; intros p Hp.
  apply In_range in Hp; apply Ha; lia.
Qed.

Lemma lap_free_independent BIG fuel m free1 free2 :
  length free1 = dim m -> length free2 = dim m ->
  lap BIG fuel free1 m = lap BIG fuel free2 m.
Proof.
  intros H1 H2; unfold lap.
  pose proof (lap_reduce_free BIG fuel m free1 free2 H1 H2) as Hr.
  destruct (lap_reduce BIG fuel free1 m) as [s1| |],
           (lap_reduce BIG fuel free2 m) as [s2| |]; try contradiction; simpl; auto.
  destruct Hr as (s & f1 & f2 & -> & -> & Hl & Hn & Ha).
  cbn [with_free s_v s_rowsol s_colsol s_free s_numfree].
  rewrite (free_list_agree f1 f2 _ Ha); reflexivity.
Qed.

(** C9: [lap] is deterministic: two runs on the same matrix return the
    same solution (or fail alike), whatever the uninitialised array [free]
    holds at the start of each run. *)
Theorem lap_deterministic BIG fuel m free1 free2 :
  length free1 = dim m -> length free2 = dim m ->
  lap BIG fuel free1 m = lap BIG fuel free2 m.
Proof. exact (lap_free_independent BIG fuel m free1 free2). Qed.

Lemma lap_deterministic_witness :
  lap 100000 50 [7; 7; 7] inst_delta = lap 100000 50 [0; 1; 2] inst_delta.
Proof.
  apply (lap_deterministic 100000 50 inst_delta [7; 7; 7] [0; 1; 2]); reflexivity.
Defined.
(** ** Assignments: the bijection invariant *)

Lemma get_vset_same l i x : 0 <= i < Z.of_nat (length l) -> get (vset l i x) i = x.
Proof. apply vget_vset_same. Qed.

Lemma get_vset_other l i j x : i <> j -> get (vset l i x) j = get l j.
Proof. apply vget_vset_other. Qed.

Lemma get_vset l i j x :
  0 <= i < Z.of_nat (length l) ->
  get (vset l i x) j = if j =? i then x else get l j.
Proof.
  intros Hi; destruct (Z.eqb_spec j i) as [->|Hne].
  - now apply get_vset_same.
  - apply get_vset_other; congruence.
Qed.

(** A free row takes column [j]; the row that held [j] loses it. *)
Lemma reassign_matching n rs cs i j :
  matching n rs cs -> 0 <= i < n -> 0 <= j < n -> ~ in_image n cs i ->
  matching n (vset rs i j) (vset cs j i).
Proof.
  intros (Hlr & Hlc & Hr & Hc & Hrc) Hi Hj Hfree.
  unfold matching; rewrite !vset_length; repeat split; auto.
  - rewrite get_vset by lia. destruct (Z.eqb_spec i0 i); [lia | apply Hr; lia].
  - rewrite get_vset by lia. destruct (Z.eqb_spec i0 i); [lia | apply Hr; lia].
  - rewrite get_vset by lia. destruct (Z.eqb_spec j0 j); [lia | apply Hc; lia].
  - rewrite get_vset by lia. destruct (Z.eqb_spec j0 j); [lia | apply Hc; lia].
  - intros j' Hj'. rewrite (get_vset cs) by lia.
    destruct (Z.eqb_spec j' j) as [->|Hne]; intros Hpos.
    + apply get_vset_same; lia.
    + rewrite get_vset_other; [apply Hrc; auto|].
      intros E; apply Hfree; exists j'; split; [lia | congruence].
Qed.

Lemma reassign_image n rs cs i j x :
  matching n rs cs -> 0 <= i < n -> 0 <= j < n -> 0 <= x ->
  in_image n (vset cs j i) x <-> x = i \/ (in_image n cs x /\ x <> get cs j).
Proof.
  intros (Hlr & Hlc & Hr & Hc & Hrc) Hi Hj Hx; split.
  - intros (j' & Hj' & E). rewrite get_vset in E by lia.
    destruct (Z.eqb_spec j' j) as [->|Hne]; [left; congruence|].
    right; split; [exists j'; auto|].
    intros E'; apply Hne.
    rewrite <- (Hrc j') by (auto; lia). rewrite <- (Hrc j) by (auto; lia).
    congruence.
  - intros [->|((j' & Hj' & E) & Hne)].
    + exists j; split; auto. apply get_vset_same; lia.
    + exists j'; split; auto. rewrite get_vset_other; auto. congruence.
Qed.

(** *** The path flip *)

(** The number of assigned columns. *)
Lemma assigned_rows_vset cs j x :
  0 <= j < Z.of_nat (length cs) ->
  Z.of_nat (length (assigned_rows (vset cs j x)))
  = Z.of_nat (length (assigned_rows cs))
    - (if 0 <=? get cs j then 1 else 0) + (if 0 <=? x then 1 else 0).
Proof.
  intros Hj; unfold get, vget, vset.
  destruct (Z.ltb_spec j 0); [lia|].
  assert (Hn : (Z.to_nat j < length cs)%nat) by lia.
  revert Hn; generalize (Z.to_nat j); clear.
  induction cs as [|a cs IH]; intros [|k] Hk; simpl in *; try lia.
  - unfold assigned_rows; simpl.
    destruct (0 <=? a), (0 <=? x); simpl length; lia.
  - specialize (IH k ltac:(lia)).
    unfold assigned_rows in *; simpl.
    destruct (0 <=? a); simpl length; lia.
Qed.

Lemma In_assigned_rows n cs x :
  Z.of_nat (length cs) = n ->
  In x (assigned_rows cs) <-> 0 <= x /\ in_image n cs x.
Proof.
  intros Hl; unfold assigned_rows; rewrite filter_In; split.
  - intros [Hin Hx]; split; [lia|].
    destruct (In_vget 0 cs x Hin) as (j & Hj & E).
    exists j; split; [lia | exact E].
  - intros [Hx (j & Hj & E)]; split; [|lia].
    rewrite <- E; apply vget_In; lia.
Qed.

Lemma filter_map_commute {A B} (f : A -> B) (P : B -> bool) (l : list A) :
  filter P (map f l) = map f (filter (fun a => P (f a)) l).
Proof.
  induction l as [|a l IH]; simpl; auto.
  destruct (P (f a)); simpl; now rewrite IH.
Qed.

Lemma NoDup_assigned_rows n rs cs :
  matching n rs cs -> NoDup (assigned_rows cs).
Proof.
  intros (Hlr & Hlc & Hr & Hc & Hrc).
  unfold assigned_rows.
  rewrite <- (map_vget_range 0 cs), filter_map_commute.
  apply (NoDup_map_inv (get rs)); rewrite map_map.
  erewrite map_ext_in.
  - rewrite map_id. apply NoDup_filter, NoDup_range.
  - intros j Hj; apply filter_In in Hj; destruct Hj as [Hj Hpos].
    apply In_range in Hj. apply Hrc; [lia|]. unfold get; lia.
Qed.
Section Flip.
Variables (n : Z) (prev : list Z) (start : Z) (cs0 : list Z) (N0 : Z).
Hypothesis Hstart : 0 <= start < n.
Hypothesis Hprev : forall j, 0 <= j < n ->
  get prev j = start \/ (0 <= get prev j /\ in_image n cs0 (get prev j)).
Hypothesis Hcs0 : forall j, 0 <= j < n -> get cs0 j < n.

Lemma prev_in_range j : 0 <= j < n -> 0 <= get prev j < n.
Proof.
  intros Hj; destruct (Hprev j Hj) as [->|[Hp (j' & Hj' & E)]]; [lia|].
  rewrite <- E; split; [lia | apply Hcs0, Hj'].
Qed.

Lemma flip_path_correct fuel rs cs e rs' cs' :
  flip_inv n prev start cs0 N0 rs cs e ->
  flip_path fuel prev start e rs cs = Done (rs', cs') ->
  matching n rs' cs'
  /\ Z.of_nat (length (assigned_rows cs')) = N0 + 1
  /\ (forall x, 0 <= x -> in_image n cs' x -> x = start \/ in_image n cs0 x).
Proof.
  revert rs cs e; induction fuel as [|fuel IH]; intros rs cs e Hinv Hrun; [discriminate|].
  destruct Hinv as (Hlr & Hlc & He & Hr & Hc & Ha & Hb & Hd & Himg & Hcnt).
  simpl in Hrun.
  pose proof (prev_in_range e He) as Hi.
  set (i := get prev e) in *.
  destruct (Z.eqb_spec i start) as [Eis|Nis].
  - injection Hrun as <- <-. rewrite Eis in *.
    split; [|split].
    + unfold matching; rewrite !vset_length; repeat split; auto.
      * rewrite get_vset by lia. destruct (Z.eqb_spec i0 start); [lia | apply Hr; lia].
      * rewrite get_vset by lia. destruct (Z.eqb_spec i0 start); [lia | apply Hr; lia].
      * rewrite get_vset by lia. destruct (Z.eqb_spec j e); [lia | apply Hc; lia].
      * rewrite get_vset by lia. destruct (Z.eqb_spec j e); [lia | apply Hc; lia].
      * intros j Hj. rewrite (get_vset cs) by lia.
        destruct (Z.eqb_spec j e) as [->|Hne]; intros Hpos.
        -- apply get_vset_same; lia.
        -- rewrite get_vset_other; [apply Ha; auto|].
           intros E; apply (Hb j Hj); congruence.
    + rewrite assigned_rows_vset by lia.
      destruct (Z.leb_spec 0 (get cs e)), (Z.leb_spec 0 start); lia.
    + intros x Hx (j & Hj & E). rewrite get_vset in E by lia.
      destruct (Z.eqb_spec j e); [left; congruence|].
      right; rewrite <- E; apply Himg; auto; lia.
  - apply IH in Hrun; auto.
    assert (He' : 0 <= get rs i < n) by (apply Hr; lia).
    unfold flip_inv; rewrite !vset_length; repeat split; auto; try lia.
    + rewrite get_vset by lia. destruct (Z.eqb_spec i0 i); [lia | apply Hr; lia].
    + rewrite get_vset by lia. destruct (Z.eqb_spec i0 i); [lia | apply Hr; lia].
    + rewrite get_vset by lia. destruct (Z.eqb_spec j e); [lia | apply Hc; lia].
    + rewrite get_vset by lia. destruct (Z.eqb_spec j e); [lia | apply Hc; lia].
    + intros j Hj Hne. rewrite (get_vset cs) by lia.
      destruct (Z.eqb_spec j e) as [->|Hje]; intros Hpos.
      * apply get_vset_same; lia.
      * rewrite get_vset_other; [apply Ha; auto|].
        intros E; apply Hne. rewrite E. symmetry; apply Ha; auto.
    + intros j Hj. rewrite get_vset by lia.
      destruct (Z.eqb_spec j e); [congruence | apply Hb; auto].
    + intros j Hj Hpj.
      pose proof (prev_in_range j Hj) as Hi2.
      rewrite (get_vset rs) by lia.
      destruct (Z.eqb_spec (get prev j) i) as [E|Hne].
      * rewrite get_vset_same by lia. lia.
      * rewrite get_vset by lia.
        destruct (Z.eqb_spec (get rs (get prev j)) e); [lia | apply Hd; auto].
    + intros j Hj. rewrite get_vset by lia.
      destruct (Z.eqb_spec j e) as [->|Hje]; intros Hpos.
      * destruct (Hprev e He) as [E|[_ Him]]; [contradiction | exact Him].
      * apply Himg; auto.
    + rewrite assigned_rows_vset by lia.
      assert (Hpos : 0 <= get (vset cs e i) (get rs i)).
      { rewrite get_vset by lia.
        destruct (Z.eqb_spec (get rs i) e); [lia | apply (Hd e He Nis)]. }
      destruct (Z.leb_spec 0 (get (vset cs e i) (get rs i))); [|lia].
      destruct (Z.leb_spec 0 (get cs e)), (Z.leb_spec 0 i); lia.
Qed.

End Flip.

(** The flip started at a free column at the end of an alternating path. *)
Lemma flip_path_matching n fuel prev start e rs cs rs' cs' :
  matching n rs cs ->
  0 <= start < n -> ~ in_image n cs start ->
  0 <= e < n -> get cs e < 0 ->
  (forall j, 0 <= j < n ->
     get prev j = start \/ (0 <= get prev j /\ in_image n cs (get prev j))) ->
  flip_path fuel prev start e rs cs = Done (rs', cs') ->
  matching n rs' cs'
  /\ Z.of_nat (length (assigned_rows cs')) = Z.of_nat (length (assigned_rows cs)) + 1
  /\ (forall x, 0 <= x -> in_image n cs' x -> x = start \/ in_image n cs x).
Proof.
  intros Hm Hs Hfree He Hce Hprev Hrun.
  pose proof Hm as (Hlr & Hlc & Hr & Hc & Hrc).
  apply (flip_path_correct n prev start cs (Z.of_nat (length (assigned_rows cs)))
           Hs Hprev (fun j Hj => proj2 (Hc j Hj)) fuel rs cs e); auto.
  unfold flip_inv.
  split; [exact Hlr|]; split; [exact Hlc|]; split; [exact He|].
  split; [exact Hr|]; split; [exact Hc|].
  split; [|split; [|split; [|split]]].
  - intros j Hj _; apply Hrc, Hj.
  - intros j Hj E; apply Hfree; exists j; auto.
  - intros j Hj Hne.
    destruct (Hprev j Hj) as [E|[Hp (j' & Hj' & E)]]; [contradiction|].
    rewrite <- E. rewrite Hrc; auto; lia.
  - intros j Hj _; exists j; auto.
  - destruct (Z.leb_spec 0 (get cs e)); lia.
Qed.
(** *** The search keeps its data within the matrix *)

Lemma wf_row_columns m i e :
  wf_matrix m = true -> In e (findRow m i) -> 0 <= fst e < dimension m.
Proof.
  unfold wf_matrix; rewrite forallb_forall; intros Hwf Hin.
  assert (Hrow : In (findRow m i) m).
  { unfold findRow, vget in *. destruct (i <? 0); [destruct Hin|].
    destruct (nth_in_or_default (Z.to_nat i) m []) as [H|H]; auto.
    rewrite H in Hin; destruct Hin. }
  specialize (Hwf _ Hrow); unfold row_ok in Hwf.
  apply andb_prop in Hwf; destruct Hwf as [Hwf _].
  apply andb_prop in Hwf; destruct Hwf as [_ Hwf].
  rewrite forallb_forall in Hwf; specialize (Hwf e Hin). lia.
Qed.

Ltac case_if H :=
  lazymatch type of H with (if ?b then _ else _) = _ => destruct b eqn:? end.

Section SearchInv.
Variables (n : Z) (cs : list Z) (start : Z).

Lemma search_inv_set_dist d j x :
  search_inv n cs start d -> search_inv n cs start (set_dist d j x).
Proof. intros H; exact H. Qed.

Lemma search_inv_set_prev d j i :
  search_inv n cs start d -> row_like n cs start i -> search_inv n cs start (set_prev d j i).
Proof.
  intros (Hl & Hs & Hq & Hp) Hi; unfold search_inv; simpl.
  rewrite vset_length; split; [|split; [|split]]; auto.
  intros j' Hj'. destruct (Z.eq_dec j j') as [->|Hne].
  - rewrite get_vset_same by lia. exact Hi.
  - rewrite get_vset_other by assumption. apply Hp, Hj'.
Qed.

Lemma search_inv_enqueue d j :
  search_inv n cs start d -> 0 <= j < n -> search_inv n cs start (enqueue d j).
Proof.
  intros (Hl & Hs & Hq & Hp) Hj; unfold search_inv.
  split; [|split; [|split]]; auto.
  intros j' Hin. apply (Permutation_in _ (enqueue_perm d j)) in Hin.
  destruct Hin as [<-|Hin]; auto.
Qed.

Lemma search_inv_requeue d j :
  search_inv n cs start d -> search_inv n cs start (requeue d j).
Proof.
  intros (Hl & Hs & Hq & Hp); unfold search_inv.
  split; [|split; [|split]]; auto.
  intros j' Hin. apply Hq, (Permutation_in _ (requeue_perm d j)), Hin.
Qed.

Lemma search_inv_to_scan d j :
  search_inv n cs start d -> 0 <= j < n -> 0 <= get cs j ->
  search_inv n cs start (to_scan d j).
Proof.
  intros (Hl & Hs & Hq & Hp) Hj Hc; unfold search_inv; simpl.
  split; [|split; [|split]]; auto.
  intros j' [<-|H]; [split; assumption | apply Hs, H].
Qed.

Lemma search_inv_dequeue d :
  search_inv n cs start d -> search_inv n cs start (dequeue d).
Proof.
  intros (Hl & Hs & Hq & Hp); unfold search_inv.
  split; [|split; [|split]]; auto.
  intros j Hin; apply Hq; eapply dequeue_incl; exact Hin.
Qed.

Lemma search_inv_finalize d j1 :
  search_inv n cs start d -> search_inv n cs start (finalize d j1).
Proof.
  intros (Hl & Hs & Hq & Hp); unfold search_inv; simpl.
  split; [|split; [|split]]; auto.
  intros j Hin; apply Hs. destruct (scan d); simpl in *; auto.
Qed.

Lemma search_inv_drop_stale k d :
  search_inv n cs start d -> search_inv n cs start (drop_stale k d).
Proof.
  revert d; induction k as [|k IH]; intros d H; simpl; auto.
  destruct (pq_top (pq d)); auto.
  destruct (getb (in_todo d) z); auto using search_inv_dequeue.
Qed.

Lemma collect_min_inv fuel min d d' found :
  search_inv n cs start d ->
  collect_min fuel cs min d = Done (d', found) ->
  search_inv n cs start d' /\ free_column n cs found.
Proof.
  revert d; induction fuel as [|fuel IH]; intros d Hinv Hrun; simpl in Hrun; [discriminate|].
  destruct (pq_top (pq d)) as [j|] eqn:Et.
  - assert (Hj : 0 <= j < n) by (destruct Hinv as (_ & _ & Hq & _); apply Hq, (pq_top_In _ _ Et)).
    destruct (get (dist d) j =? min).
    + destruct (getb (in_todo d) j).
      * destruct (Z.ltb_spec (get cs j) 0).
        -- injection Hrun as <- <-; split; auto.
           intros e E; injection E as <-; auto.
        -- apply IH in Hrun; auto.
           apply search_inv_dequeue, search_inv_to_scan; auto.
      * apply IH in Hrun; auto.
    + injection Hrun as <- <-; split; auto. intros e E; discriminate.
  - injection Hrun as <- <-; split; auto. intros e E; discriminate.
Qed.

Lemma expand_row_inv row v i h min d d' found :
  search_inv n cs start d ->
  (forall e, In e row -> 0 <= fst e < n) ->
  row_like n cs start i ->
  expand_row row v cs i h min d = (d', found) ->
  search_inv n cs start d' /\ free_column n cs found.
Proof.
  revert d; induction row as [|[j c] row IH]; intros d Hinv Hrow Hi Hrun;
    simpl in Hrun; cbv zeta in Hrun.
  - injection Hrun as <- <-; split; auto. intros e E; discriminate.
  - assert (Hj : 0 <= j < n) by (apply (Hrow (j, c)); now left).
    assert (Hrow' : forall e, In e row -> 0 <= fst e < n)
      by (intros e He; apply Hrow; now right).
    assert (Hinv1 : search_inv n cs start
                      (set_prev (set_dist d j (min + (c - get v j - h))) j i))
      by (apply search_inv_set_prev; auto).
    case_if Hrun; [eapply IH; [| | |exact Hrun]; auto|].
    case_if Hrun; [|eapply IH; [| | |exact Hrun]; auto].
    case_if Hrun.
    + case_if Hrun.
      * injection Hrun as <- <-; split; auto.
        intros e E; injection E as <-; split; [assumption | lia].
      * eapply IH; [| | |exact Hrun]; auto.
        apply search_inv_to_scan; auto; lia.
    + case_if Hrun.
      * eapply IH; [| | |exact Hrun]; auto.
        apply search_inv_enqueue; auto.
      * eapply IH; [| | |exact Hrun]; auto.
        apply search_inv_requeue; auto.
Qed.

Lemma search_body_inv BIG fuel m v min d d' min' found :
  wf_matrix m = true -> dimension m = n ->
  search_inv n cs start d ->
  search_body BIG fuel m v cs min d = Done (d', min', found) ->
  search_inv n cs start d' /\ free_column n cs found.
Proof.
  intros Hwf Hn Hinv Hrun.
  assert (Htail : forall d2 min2,
    search_inv n cs start d2 ->
    match scan d2 with
    | [] => Undefined
    | j1 :: _ =>
        let i := get cs j1 in
        let d3 := finalize d2 j1 in
        let h := assigncost BIG m i j1 - get v j1 in
        let (d4, found) := expand_row (findRow m i) v cs i h min2 d3 in
        Done (d4, min2, found)
    end = Done (d', min', found) ->
    search_inv n cs start d' /\ free_column n cs found).
  { intros d2 min2 Hinv2 Ht.
    destruct (scan d2) as [|j1 rest] eqn:Es; [discriminate|].
    cbv zeta in Ht.
    destruct (expand_row _ _ _ _ _ _ _) as [d4 f4] eqn:Ee.
    injection Ht as <- <- <-.
    assert (Hj1 : 0 <= j1 < n /\ 0 <= get cs j1)
      by (destruct Hinv2 as (_ & Hs & _); apply Hs; rewrite Es; now left).
    eapply expand_row_inv; [| | |exact Ee].
    - apply search_inv_finalize, Hinv2.
    - intros e He; rewrite <- Hn; eapply wf_row_columns; eauto.
    - right; split; [lia|]. exists j1; split; [lia | reflexivity]. }
  unfold search_body in Hrun.
  destruct (scan d) as [|j l] eqn:Es.
  - pose proof (search_inv_drop_stale (length (pq d)) d Hinv) as Hinv1.
    destruct (pq_top _) as [t|]; [|discriminate].
    destruct (collect_min _ _ _ _) as [[d2 f]| |] eqn:Ec; try discriminate.
    apply collect_min_inv in Ec; auto. destruct Ec as [Hinv2 Hf].
    cbn [bind] in Hrun.
    destruct f as [e|].
    + injection Hrun as <- <- <-; split; auto.
    + eapply (Htail d2 _ Hinv2); exact Hrun.
  - cbn [bind] in Hrun. eapply (Htail d min); auto.
Qed.

Lemma search_inv_search BIG k fuel m v min d d' min' e :
  wf_matrix m = true -> dimension m = n ->
  search_inv n cs start d ->
  search BIG k fuel m v cs min d = Done (d', min', e) ->
  search_inv n cs start d' /\ 0 <= e < n /\ get cs e < 0.
Proof.
  intros Hwf Hn; revert min d; induction k as [|k IH]; intros min d Hinv Hrun;
    simpl in Hrun; [discriminate|].
  destruct (search_body _ _ _ _ _ _ _) as [[[d1 min1] f]| |] eqn:Eb; try discriminate.
  apply search_body_inv in Eb; auto. destruct Eb as [Hinv1 Hf].
  cbn [bind] in Hrun. destruct f as [e1|].
  - injection Hrun as <- <- <-; split; auto.
  - eapply IH; eauto.
Qed.

Lemma search_inv_seed v row d :
  search_inv n cs start d ->
  (forall e, In e row -> 0 <= fst e < n) ->
  search_inv n cs start (seed_queue row (seed_dist v row d)).
Proof.
  intros Hinv Hrow.
  assert (H1 : search_inv n cs start (seed_dist v row d)).
  { unfold seed_dist. clear Hrow. revert d Hinv.
    induction row as [|e row IH]; intros d Hinv; simpl; auto. }
  unfold seed_queue. revert H1. generalize (seed_dist v row d). clear Hinv.
  induction row as [|e row IH]; intros d0 H1; simpl; auto.
  apply IH.
  - intros e' He'; apply Hrow; now right.
  - apply search_inv_enqueue; auto. apply Hrow; now left.
Qed.

Lemma search_inv_reset d :
  Z.of_nat (length (prev d)) = n ->
  search_inv n cs start (reset start d).
Proof.
  intros Hl; unfold search_inv; simpl.
  rewrite fill_length; split; [|split; [|split]]; auto.
  - intros j [].
  - intros j [].
  - intros j Hj; left. unfold get; apply vget_fill; lia.
Qed.

End SearchInv.
(** *** One augmentation assigns the start row and nothing else *)

Lemma image_grows n rs cs rs' cs' start :
  matching n rs cs -> matching n rs' cs' ->
  0 <= start -> ~ in_image n cs start ->
  Z.of_nat (length (assigned_rows cs')) = Z.of_nat (length (assigned_rows cs)) + 1 ->
  (forall x, 0 <= x -> in_image n cs' x -> x = start \/ in_image n cs x) ->
  forall x, 0 <= x -> x = start \/ in_image n cs x -> in_image n cs' x.
Proof.
  intros Hm Hm' Hs Hfree Hcnt Hsub x Hx Hin.
  pose proof Hm as (_ & Hlc & _). pose proof Hm' as (_ & Hlc' & _).
  assert (Hincl : incl (start :: assigned_rows cs) (assigned_rows cs')).
  { apply NoDup_length_incl.
    - eapply NoDup_assigned_rows; eauto.
    - simpl length; lia.
    - intros y Hy. apply (In_assigned_rows n) in Hy; auto. destruct Hy as [Hy0 Hy].
      destruct (Hsub y Hy0 Hy) as [->|Hin']; [now left|].
      right; apply (In_assigned_rows n); auto. }
  assert (Hx' : In x (start :: assigned_rows cs)).
  { destruct Hin as [->|Hin]; [now left|].
    right; apply (In_assigned_rows n); auto. }
  apply Hincl in Hx'. apply (In_assigned_rows n) in Hx'; auto. apply Hx'.
Qed.

Lemma augment_matching BIG fuel m start rest a a' n :
  wf_matrix m = true -> dimension m = n ->
  matching n (a_rowsol a) (a_colsol a) ->
  pending_ok n (a_colsol a) (start :: rest) ->
  Z.of_nat (length (prev (a_data a))) = n ->
  augment BIG fuel m start a = Done a' ->
  matching n (a_rowsol a') (a_colsol a')
  /\ pending_ok n (a_colsol a') rest
  /\ Z.of_nat (length (prev (a_data a'))) = n.
Proof.
  intros Hwf Hn Hm (Hnd & Hfree & Hcov) Hl Hrun.
  unfold augment in Hrun.
  destruct (search _ _ _ _ _ _ _ _) as [[[d min] e]| |] eqn:Es; try discriminate.
  cbn [bind] in Hrun.
  destruct (flip_path _ _ _ _ _ _) as [[rs' cs']| |] eqn:Ef; try discriminate.
  cbn [bind] in Hrun. injection Hrun as <-. cbn [a_rowsol a_colsol a_data].
  destruct (Hfree start (or_introl eq_refl)) as [Hs Hsfree].
  apply (search_inv_search n (a_colsol a) start) in Es; auto.
  2: { apply search_inv_seed; [apply search_inv_reset; exact Hl|].
       intros x Hx; rewrite <- Hn; eapply wf_row_columns; eauto. }
  destruct Es as ((Hlp & _ & _ & Hprev) & He & Hce).
  destruct (flip_path_matching n fuel (prev d) start e _ _ rs' cs' Hm Hs Hsfree He Hce Hprev Ef)
    as (Hm' & Hcnt & Hsub).
  pose proof (image_grows n _ _ _ _ start Hm Hm' ltac:(lia) Hsfree Hcnt Hsub) as Hgrow.
  split; [exact Hm'|]. split; [|exact Hlp].
  inversion Hnd as [|? ? Hnotin Hnd']; subst.
  split; [exact Hnd'|]. split.
  - intros f Hf. destruct (Hfree f (or_intror Hf)) as [Hfr Hfi]. split; auto.
    intros Hin. destruct (Hsub f ltac:(lia) Hin) as [->|Hin']; auto.
  - intros i Hi. destruct (Hcov i Hi) as [Hin|[<-|Hin]]; auto.
    + left; apply Hgrow; auto; lia.
    + left; apply Hgrow; auto; lia.
Qed.

Lemma augment_all_matching BIG fuel m n frees a a' :
  wf_matrix m = true -> dimension m = n ->
  matching n (a_rowsol a) (a_colsol a) ->
  pending_ok n (a_colsol a) frees ->
  Z.of_nat (length (prev (a_data a))) = n ->
  augment_all BIG fuel m frees a = Done a' ->
  matching n (a_rowsol a') (a_colsol a')
  /\ pending_ok n (a_colsol a') [].
Proof.
  intros Hwf Hn; revert a; induction frees as [|f rest IH]; intros a Hm Hp Hl Hrun;
    simpl in Hrun.
  - injection Hrun as <-; auto.
  - destruct (augment BIG fuel m f a) as [a1| |] eqn:Ea; try discriminate.
    cbn [bind] in Hrun.
    destruct (augment_matching BIG fuel m f rest a a1 n Hwf Hn Hm Hp Hl Ea) as (Hm1 & Hp1 & Hl1).
    eapply IH; eauto.
Qed.

(** *** A complete consistent assignment is a pair of inverse permutations *)

Lemma NoDup_get_injective (l : list Z) :
  (forall p q, 0 <= p < Z.of_nat (length l) -> 0 <= q < Z.of_nat (length l) ->
     get l p = get l q -> p = q) ->
  NoDup l.
Proof.
  intros Hinj. rewrite <- (map_vget_range 0 l).
  apply Finite.Injective_map_NoDup_in; [|apply NoDup_range].
  intros p q Hp Hq; apply In_range in Hp, Hq. apply Hinj; auto.
Qed.

Lemma complete_matching n rs cs :
  matching n rs cs -> pending_ok n cs [] ->
  mutual_inverse n rs cs
  /\ Permutation rs (range (Z.to_nat n))
  /\ Permutation cs (range (Z.to_nat n)).
Proof.
  intros (Hlr & Hlc & Hr & Hc & Hrc) (_ & _ & Hcov).
  assert (Hcr : forall i, 0 <= i < n -> get cs (get rs i) = i).
  { intros i Hi. destruct (Hcov i Hi) as [(j & Hj & E)|[]].
    rewrite <- E at 1. rewrite Hrc; auto; lia. }
  assert (Hndr : NoDup rs).
  { apply NoDup_get_injective; intros p q Hp Hq E.
    rewrite <- (Hcr p), <- (Hcr q) by lia. congruence. }
  assert (Hpr : Permutation rs (range (Z.to_nat n))).
  { apply NoDup_Permutation_bis; auto.
    - rewrite range_length; lia.
    - intros x Hx. destruct (In_vget 0 rs x Hx) as (i & Hi & E).
      apply In_range. rewrite <- E. specialize (Hr i ltac:(lia)). unfold get in Hr; lia. }
  assert (Hpos : forall j, 0 <= j < n -> 0 <= get cs j).
  { intros j Hj.
    assert (Hin : In j rs).
    { eapply Permutation_in; [apply Permutation_sym, Hpr|]. apply In_range; lia. }
    destruct (In_vget 0 rs j Hin) as (i & Hi & E).
    fold (get rs i) in E. rewrite <- E, Hcr by lia. lia. }
  assert (Hrc' : forall j, 0 <= j < n -> get rs (get cs j) = j)
    by (intros j Hj; apply Hrc; auto).
  split; [split; assumption|]. split; [exact Hpr|].
  apply NoDup_Permutation_bis.
  - apply NoDup_get_injective; intros p q Hp Hq E.
    rewrite <- (Hrc' p), <- (Hrc' q) by lia. congruence.
  - rewrite range_length; lia.
  - intros x Hx. destruct (In_vget 0 cs x Hx) as (j & Hj & E).
    apply In_range. rewrite <- E.
    specialize (Hc j ltac:(lia)). specialize (Hpos j ltac:(lia)). unfold get in *; lia.
Qed.
(** *** The augmenting row reduction keeps the assignment consistent *)

Lemma two_smallest_fold_range n vv rest :
  (forall e, In e rest -> 0 <= fst e < n) ->
  forall a b x y a' b' x' y',
  0 <= x < n -> 0 <= y < n ->
  fold_left
    (fun '(umin, usubmin, j1, j2) (e : Z * Z) =>
       let j := fst e in
       let h := snd e - get vv j in
       if h <? usubmin then
         if h >=? umin then (umin, h, j1, j)
         else (h, umin, j, j1)
       else (umin, usubmin, j1, j2))
    rest (a, b, x, y) = (a', b', x', y') ->
  0 <= x' < n /\ 0 <= y' < n.
Proof.
  induction rest as [|e rest IH]; intros Hrest a b x y a' b' x' y' Hx Hy E; simpl in E.
  - injection E as <- <- <- <-; auto.
  - assert (He : 0 <= fst e < n) by (apply Hrest; now left).
    assert (Hrest' : forall e, In e rest -> 0 <= fst e < n)
      by (intros e' He'; apply Hrest; now right).
    destruct (snd e - get vv (fst e) <? b).
    + destruct (snd e - get vv (fst e) >=? a).
      * eapply (IH Hrest'); [| |exact E]; assumption.
      * eapply (IH Hrest'); [| |exact E]; assumption.
    + eapply (IH Hrest'); [| |exact E]; assumption.
Qed.

Lemma two_smallest_range BIG n vv row j2 umin usubmin j1 j2' :
  (forall e, In e row -> 0 <= fst e < n) ->
  0 <= j2 < n ->
  two_smallest BIG vv row j2 = Some (umin, usubmin, j1, j2') ->
  0 <= j1 < n /\ 0 <= j2' < n.
Proof.
  intros Hrow Hj2; unfold two_smallest.
  destruct row as [|[j0 c0] rest]; [discriminate|].
  intros E; injection E as E.
  eapply (two_smallest_fold_range n vv rest); [| | |exact E]; auto.
  - intros e He; apply Hrow; now right.
  - apply (Hrow (j0, c0)); now left.
Qed.

Lemma wf_row_nonempty m i :
  wf_matrix m = true -> 0 <= i < dimension m -> findRow m i <> [].
Proof.
  unfold wf_matrix; rewrite forallb_forall; intros Hwf Hi.
  assert (Hrow : In (findRow m i) m) by (apply vget_In; exact Hi).
  specialize (Hwf _ Hrow); unfold row_ok in Hwf.
  destruct (findRow m i); [discriminate | discriminate].
Qed.

Section RowReduction.
Variables (n prv : Z).

(** A free row [free[k]] takes column [jj]; the row [i0] that held [jj],
    if any, is stored at position [slot] of [free]. *)
Lemma arr_update_inv s s' jj slot :
  arr_inv n prv s -> s_k s < prv -> 0 <= jj < n ->
  s_rowsol s' = vset (s_rowsol s) (get (s_free s) (s_k s)) jj ->
  s_colsol s' = vset (s_colsol s) jj (get (s_free s) (s_k s)) ->
  Z.of_nat (length (s_free s')) = n ->
  0 <= s_numfree s' <= s_k s' -> s_k s' <= prv ->
  0 <= s_j2 s' < Z.max n 1 ->
  (forall p, pend_pos prv s' p ->
     (p = slot /\ 0 <= get (s_colsol s) jj /\ get (s_free s') p = get (s_colsol s) jj)
     \/ (pend_pos prv s p /\ p <> s_k s /\ get (s_free s') p = get (s_free s) p)) ->
  (forall p, pend_pos prv s p -> p <> s_k s ->
     pend_pos prv s' p /\ get (s_free s') p = get (s_free s) p) ->
  (0 <= get (s_colsol s) jj ->
     pend_pos prv s' slot /\ get (s_free s') slot = get (s_colsol s) jj) ->
  arr_inv n prv s'.
Proof.
  intros (Hm & Hlf & Hnk & Hkp & Hj2 & Ha & Hb & Hc) Hlt Hjj Ers Ecs Hlf' Hnk' Hkp' Hj2' H1 H2 H3.
  set (i := get (s_free s) (s_k s)) in *.
  set (i0 := get (s_colsol s) jj) in *.
  assert (Hpk : pend_pos prv s (s_k s)) by (right; lia).
  destruct (Ha _ Hpk) as [Hi Hifree]; fold i in Hi, Hifree.
  pose proof (reassign_matching n _ _ i jj Hm Hi Hjj Hifree) as Hm'.
  pose proof (fun x Hx => reassign_image n _ _ i jj x Hm Hi Hjj Hx) as Him.
  fold i0 in Him.
  assert (Hi0 : -1 <= i0 < n) by (destruct Hm as (_ & _ & _ & Hc0 & _); apply Hc0, Hjj).
  assert (Hi0im : 0 <= i0 -> in_image n (s_colsol s) i0) by (intros _; exists jj; auto).
  unfold arr_inv; rewrite Ers, Ecs.
  split; [exact Hm'|]. split; [exact Hlf'|]. split; [exact Hnk'|].
  split; [lia|]. split; [exact Hj2'|]. split; [|split].
  - intros p Hp. destruct (H1 p Hp) as [(-> & Hpos & E)|(Hold & Hne & E)]; rewrite E.
    + split; [lia|]. intros Hin. apply Him in Hin; [|lia].
      destruct Hin as [E'|[_ Hne]]; [|congruence].
      apply Hifree; rewrite <- E'; auto.
    + destruct (Ha p Hold) as [Hr Hfr]. split; auto.
      intros Hin. apply Him in Hin; [|lia].
      destruct Hin as [E'|[Hin _]]; [|contradiction].
      apply Hne, Hb; auto.
  - intros p q Hp Hq E.
    destruct (H1 p Hp) as [(-> & Hpos & Ep)|(Holdp & Hnep & Ep)];
      destruct (H1 q Hq) as [(-> & Hpos' & Eq)|(Holdq & Hneq & Eq)]; auto.
    + exfalso. destruct (Ha q Holdq) as [_ Hfr]. apply Hfr.
      rewrite <- Eq, <- E, Ep; auto.
    + exfalso. destruct (Ha p Holdp) as [_ Hfr]. apply Hfr.
      rewrite <- Ep, E, Eq; auto.
    + apply Hb; auto. congruence.
  - intros x Hx. destruct (Hc x Hx) as [Hin|(p & Hp & E)].
    + destruct (Z.eq_dec x i0) as [->|Hne].
      * right; exists slot. apply H3; lia.
      * left; apply Him; [lia|]. right; auto.
    + destruct (Z.eq_dec p (s_k s)) as [->|Hne].
      * left; apply Him; [lia|]. left; auto.
      * right; exists p. destruct (H2 p Hp Hne) as [Hp' E']. split; congruence.
Qed.

End RowReduction.

Lemma arr_step_inv BIG m n prv s s' :
  wf_matrix m = true -> dimension m = n ->
  arr_inv n prv s -> s_k s < prv ->
  arr_step BIG m s = Done s' ->
  arr_inv n prv s'.
Proof.
  intros Hwf Hn Hinv Hlt Hrun.
  pose proof Hinv as (Hm & Hlf & Hnk & Hkp & Hj2 & Ha & Hb & Hc).
  assert (Hpk : pend_pos prv s (s_k s)) by (right; lia).
  destruct (Ha _ Hpk) as [Hi Hifree].
  unfold arr_step in Hrun.
  destruct (two_smallest _ _ _ _) as [[[[umin usubmin] j1] j2]|] eqn:Et; [|discriminate].
  apply (two_smallest_range BIG n) in Et; [| |lia].
  2: { intros e He; rewrite <- Hn; eapply wf_row_columns; eauto. }
  destruct Et as [Hj1 Hj2'].
  assert (Hmax : 0 <= j2 < Z.max n 1) by lia.
  pose proof Hm as (_ & _ & _ & Hcb & _).
  destruct (umin <? usubmin).
  - destruct (Z.geb_spec (get (s_colsol s) j1) 0) as [Hpos|Hneg];
      injection Hrun as <-.
    + replace (s_k s + 1 - 1) with (s_k s) by lia.
      apply (arr_update_inv n prv s _ j1 (s_k s)); cbn [s_rowsol s_colsol s_free s_numfree s_k s_j2];
        rewrite ?vset_length; auto; try lia.
      * intros p Hp; unfold pend_pos in *; cbn [s_numfree s_k] in Hp.
        destruct (Z.eq_dec p (s_k s)) as [->|Hne].
        -- left; split; [reflexivity|]. split; [lia|]. apply get_vset_same; lia.
        -- right; split; [lia|]. split; [exact Hne|]. apply get_vset_other; lia.
      * intros p Hp Hne; unfold pend_pos in *; cbn [s_numfree s_k]; split; [lia|].
        apply get_vset_other; lia.
      * intros _; unfold pend_pos; cbn [s_numfree s_k]; split; [lia|].
        apply get_vset_same; lia.
    + apply (arr_update_inv n prv s _ j1 (-1)); cbn [s_rowsol s_colsol s_free s_numfree s_k s_j2];
        auto; try lia.
      * intros p Hp; unfold pend_pos in *; cbn [s_numfree s_k] in Hp.
        right; split; [lia|]. split; [lia | reflexivity].
      * intros p Hp Hne; unfold pend_pos in *; cbn [s_numfree s_k]; split; [lia | reflexivity].
  - destruct (Z.geb_spec (get (s_colsol s) j1) 0) as [Hpos1|Hneg1].
    + destruct (Z.geb_spec (get (s_colsol s) j2) 0) as [Hpos|Hneg];
        injection Hrun as <-.
      * apply (arr_update_inv n prv s _ j2 (s_numfree s));
          cbn [s_rowsol s_colsol s_free s_numfree s_k s_j2];
          rewrite ?vset_length; auto; try lia.
        -- intros p Hp; unfold pend_pos in *; cbn [s_numfree s_k] in Hp.
           destruct (Z.eq_dec p (s_numfree s)) as [->|Hne].
           ++ left; split; [reflexivity|]. split; [lia|]. apply get_vset_same; lia.
           ++ right; split; [lia|]. split; [lia|]. apply get_vset_other; lia.
        -- intros p Hp Hne; unfold pend_pos in *; cbn [s_numfree s_k]; split; [lia|].
           apply get_vset_other; lia.
        -- intros _; unfold pend_pos; cbn [s_numfree s_k]; split; [lia|].
           apply get_vset_same; lia.
      * apply (arr_update_inv n prv s _ j2 (-1));
          cbn [s_rowsol s_colsol s_free s_numfree s_k s_j2]; auto; try lia.
        -- intros p Hp; unfold pend_pos in *; cbn [s_numfree s_k] in Hp.
           right; split; [lia|]. split; [lia | reflexivity].
        -- intros p Hp Hne; unfold pend_pos in *; cbn [s_numfree s_k];
             split; [lia | reflexivity].
    + destruct (Z.geb_spec (get (s_colsol s) j1) 0) as [Hpos|Hneg]; [lia|].
      injection Hrun as <-.
      apply (arr_update_inv n prv s _ j1 (-1));
        cbn [s_rowsol s_colsol s_free s_numfree s_k s_j2]; auto; try lia.
      * intros p Hp; unfold pend_pos in *; cbn [s_numfree s_k] in Hp.
        right; split; [lia|]. split; [lia | reflexivity].
      * intros p Hp Hne; unfold pend_pos in *; cbn [s_numfree s_k];
          split; [lia | reflexivity].
Qed.

Lemma arr_pass_inv BIG fuel m n prv s s' :
  wf_matrix m = true -> dimension m = n ->
  arr_inv n prv s ->
  arr_pass BIG fuel m prv s = Done s' ->
  arr_inv n prv s' /\ s_k s' = prv.
Proof.
  intros Hwf Hn; revert s; induction fuel as [|fuel IH]; intros s Hinv Hrun;
    simpl in Hrun; [discriminate|].
  destruct (Z.ltb_spec (s_k s) prv) as [Hlt|Hge].
  - destruct (arr_step BIG m s) as [s1| |] eqn:Es; try discriminate.
    cbn [bind] in Hrun. apply IH in Hrun; auto.
    eapply arr_step_inv; eauto.
  - injection Hrun as <-; split; auto.
    destruct Hinv as (_ & _ & _ & Hkp & _); lia.
Qed.

Lemma arr_round_inv BIG fuel m n s s' :
  wf_matrix m = true -> dimension m = n ->
  free_listed n s ->
  arr_round BIG fuel m s = Done s' ->
  free_listed n s'.
Proof.
  intros Hwf Hn (Hm & Hlf & Hnf & Hj2 & Ha & Hb & Hc) Hrun; unfold arr_round in Hrun.
  apply (arr_pass_inv BIG fuel m n) in Hrun; auto.
  - destruct Hrun as [(Hm' & Hlf' & Hnk' & Hkp' & Hj2' & Ha' & Hb' & Hc') Ek].
    unfold pend_pos in *.
    split; [exact Hm'|]. split; [exact Hlf'|]. split; [lia|].
    split; [exact Hj2'|]. split; [|split].
    + intros p Hp; apply Ha'; lia.
    + intros p q Hp Hq; apply Hb'; lia.
    + intros i Hi; destruct (Hc' i Hi) as [Hin|(p & Hp & E)]; auto.
      right; exists p; split; [lia | exact E].
  - unfold arr_inv, pend_pos; cbn [s_rowsol s_colsol s_free s_numfree s_k s_j2].
    split; [exact Hm|]. split; [exact Hlf|]. split; [lia|]. split; [lia|].
    split; [exact Hj2|]. split; [|split].
    + intros p Hp; apply Ha; lia.
    + intros p q Hp Hq; apply Hb; lia.
    + intros i Hi; destruct (Hc i Hi) as [Hin|(p & Hp & E)]; auto.
      right; exists p; split; [lia | exact E].
Qed.
(** *** Column reduction and reduction transfer *)

Lemma smallest_from_range m j rows n best bc :
  (forall i, In i rows -> 0 <= i < n) -> 0 <= best < n ->
  0 <= smallest_from m j rows best bc < n.
Proof.
  revert best bc; induction rows as [|i rows IH]; intros best bc Hrows Hb; simpl; auto.
  assert (Hi : 0 <= i < n) by (apply Hrows; now left).
  assert (Hrows' : forall i, In i rows -> 0 <= i < n)
    by (intros i' Hi'; apply Hrows; now right).
  destruct (stored m i j) as [c|]; [destruct bc as [b|]; [destruct (c <? b)|]|]; auto.
Qed.

Lemma smallest_cost_row_range m j :
  0 < dimension m -> 0 <= smallest_cost_row m j < dimension m.
Proof.
  intros Hn; unfold smallest_cost_row; apply smallest_from_range; [|lia].
  intros i Hi; apply In_range in Hi; exact Hi.
Qed.

Lemma column_reduction_step_inv BIG m n done s j :
  dimension m = n -> col_inv n done s -> 0 <= j < n -> ~ In j done ->
  col_inv n (j :: done) (column_reduction_step BIG m s j).
Proof.
  intros Hn (Hlr & Hlc & Hlm & Hr & Hmt & Hd & Hcl) Hj Hnew.
  pose proof (smallest_cost_row_range m j ltac:(lia)) as Him; rewrite Hn in Him.
  unfold column_reduction_step.
  set (imin := smallest_cost_row m j) in *.
  rewrite get_vset_same by lia.
  destruct (Z.eqb_spec (get (s_matches s) imin + 1) 1) as [E|E];
    unfold col_inv; cbn [s_rowsol s_colsol s_matches]; rewrite !vset_length;
    (split; [exact Hlr|]); (split; [exact Hlc|]); (split; [exact Hlm|]);
    (split; [|split; [|split]]).
  - intros i Hi. rewrite get_vset by lia. destruct (Z.eqb_spec i imin); [lia | auto].
  - intros i Hi. rewrite get_vset by lia. specialize (Hmt i Hi).
    destruct (Z.eqb_spec i imin) as [->|Hne]; [lia | auto].
  - intros j' [<-|Hin].
    + rewrite !get_vset_same by lia. split; [lia|]. intros _; split; [reflexivity | lia].
    + assert (Hne : j <> j') by (intros E'; apply Hnew; rewrite E'; exact Hin).
      rewrite (get_vset_other (s_colsol s)) by assumption.
      destruct (Hd j' Hin) as [Hb Hpos]. split; [exact Hb|].
      intros Hp; destruct (Hpos Hp) as [Erc Hm1].
      assert (Hne' : imin <> get (s_colsol s) j') by (intros E'; rewrite <- E' in Hm1; lia).
      rewrite !get_vset_other by assumption. auto.
  - intros i Hi. rewrite (get_vset (s_matches s)) by lia.
    destruct (Z.eqb_spec i imin) as [->|Hne]; intros Hm1.
    + rewrite !get_vset_same by lia. split; [now left | reflexivity].
    + destruct (Hcl i Hi Hm1) as [Hin Erc].
      rewrite (get_vset_other (s_rowsol s)) by congruence.
      split; [now right|].
      rewrite get_vset_other; [exact Erc|]. intros E'; apply Hnew; rewrite E'; exact Hin.
  - exact Hr.
  - intros i Hi. rewrite get_vset by lia. specialize (Hmt i Hi).
    destruct (Z.eqb_spec i imin) as [->|Hne]; [lia | auto].
  - intros j' [<-|Hin].
    + rewrite !get_vset_same by lia. split; [lia|]. intros; lia.
    + assert (Hne : j <> j') by (intros E'; apply Hnew; rewrite E'; exact Hin).
      rewrite (get_vset_other (s_colsol s)) by assumption.
      destruct (Hd j' Hin) as [Hb Hpos]. split; [exact Hb|].
      intros Hp; destruct (Hpos Hp) as [Erc Hm1]. split; [exact Erc|].
      rewrite get_vset by lia.
      destruct (Z.eqb_spec (get (s_colsol s) j') imin) as [E'|]; [rewrite E' in Hm1; lia | auto].
  - intros i Hi. rewrite (get_vset (s_matches s)) by lia.
    specialize (Hmt imin Him).
    destruct (Z.eqb_spec i imin) as [->|Hne]; intros Hm1.
    + destruct (Hcl imin Him ltac:(lia)) as [Hin Erc].
      split; [now right|].
      rewrite get_vset_other; [exact Erc|]. intros E'; apply Hnew; rewrite E'; exact Hin.
    + destruct (Hcl i Hi Hm1) as [Hin Erc].
      split; [now right|].
      rewrite get_vset_other; [exact Erc|]. intros E'; apply Hnew; rewrite E'; exact Hin.
Qed.

Lemma column_reduction_fold_inv BIG m n L done s :
  dimension m = n -> col_inv n done s ->
  NoDup L -> (forall j, In j L -> 0 <= j < n /\ ~ In j done) ->
  col_inv n (rev L ++ done) (fold_left (column_reduction_step BIG m) L s).
Proof.
  intros Hn; revert done s; induction L as [|j L IH]; intros done s Hinv Hnd HL; simpl; auto.
  inversion Hnd as [|? ? Hnotin Hnd']; subst.
  rewrite <- app_assoc; simpl.
  apply IH; auto.
  - apply column_reduction_step_inv; auto; apply HL; now left.
  - intros j' Hj'. destruct (HL j' (or_intror Hj')) as [Hr Hn'].
    split; auto. intros [<-|Hin]; contradiction.
Qed.

Lemma column_reduction_frame BIG m s :
  s_free (column_reduction BIG m s) = s_free s
  /\ s_numfree (column_reduction BIG m s) = s_numfree s
  /\ s_j2 (column_reduction BIG m s) = s_j2 s.
Proof.
  unfold column_reduction; generalize (rev (range (dim m))); intros L.
  revert s; induction L as [|j L IH]; intros s; simpl; auto.
  destruct (IH (column_reduction_step BIG m s j)) as (E1 & E2 & E3).
  rewrite E1, E2, E3. unfold column_reduction_step; destruct (_ =? 1); auto.
Qed.

Lemma column_reduction_inv BIG m free0 :
  col_inv (dimension m) (range (dim m)) (column_reduction BIG m (lap_init free0 m)).
Proof.
  assert (H0 : col_inv (dimension m) [] (lap_init free0 m)).
  { unfold col_inv, lap_init, dimension; cbn [s_rowsol s_colsol s_matches].
    rewrite !repeat_length.
    split; [reflexivity|]. split; [reflexivity|]. split; [reflexivity|].
    split; [|split; [|split]].
    - intros i Hi. unfold get; rewrite vget_repeat by lia. lia.
    - intros i Hi. unfold get; rewrite vget_repeat by lia. lia.
    - intros j [].
    - intros i Hi. unfold get; rewrite vget_repeat by lia. lia. }
  pose proof (column_reduction_fold_inv BIG m (dimension m) (rev (range (dim m))) []
                (lap_init free0 m) eq_refl H0) as H.
  rewrite rev_involutive, app_nil_r in H. apply H.
  - apply NoDup_rev, NoDup_range.
  - intros j Hj. apply in_rev, In_range in Hj. split; [exact Hj | intros []].
Qed.
Lemma reduction_transfer_step_inv BIG m n done s i :
  tr_inv n done s -> 0 <= i < n -> ~ In i done ->
  Z.of_nat (length done) < n ->
  tr_inv n (i :: done) (reduction_transfer_step BIG m s i).
Proof.
  intros (Hm & Hcm & Hmi & Hm0 & Hlf & Hnf & Hj2 & Ha & Hb & Hc) Hi Hnew Hlen.
  assert (Hlen' : Z.of_nat (length (i :: done)) = Z.of_nat (length done) + 1)
    by (simpl length; lia).
  unfold reduction_transfer_step.
  destruct (Z.eqb_spec (get (s_matches s) i) 0) as [E0|N0];
    [|destruct (Z.eqb_spec (get (s_matches s) i) 1) as [E1|N1]];
    unfold tr_inv; cbn [s_rowsol s_colsol s_matches s_free s_numfree s_j2];
    rewrite ?vset_length;
    (split; [exact Hm|]); (split; [exact Hcm|]); (split; [exact Hmi|]);
    (split; [exact Hm0|]); (split; [exact Hlf|]); (split; [lia|]);
    (split; [exact Hj2|]); (split; [|split]).
  - intros p Hp. rewrite get_vset by lia.
    destruct (Z.eqb_spec p (s_numfree s)) as [->|Hne].
    + split; [now left|]. split; assumption.
    + destruct (Ha p ltac:(lia)) as (Hin & Hr & Hz). split; [now right|]. split; assumption.
  - intros p q Hp Hq. rewrite !get_vset by lia.
    destruct (Z.eqb_spec p (s_numfree s)) as [->|Hnp];
      destruct (Z.eqb_spec q (s_numfree s)) as [->|Hnq]; auto.
    + intros E; exfalso; apply Hnew. rewrite E. apply (Ha q); lia.
    + intros E; exfalso; apply Hnew. rewrite <- E. apply (Ha p); lia.
    + apply Hb; lia.
  - intros i' [<-|Hin] Hz.
    + exists (s_numfree s); split; [lia|]. apply get_vset_same; lia.
    + destruct (Hc i' Hin Hz) as (p & Hp & E).
      exists p; split; [lia|]. rewrite get_vset_other by lia. exact E.
  - intros p Hp. destruct (Ha p Hp) as (Hin & Hr & Hz). split; [now right|]. split; assumption.
  - exact Hb.
  - intros i' [<-|Hin] Hz; [lia|]. apply Hc; auto.
  - intros p Hp. destruct (Ha p Hp) as (Hin & Hr & Hz). split; [now right|]. split; assumption.
  - exact Hb.
  - intros i' [<-|Hin] Hz; [lia|]. apply Hc; auto.
Qed.

Lemma reduction_transfer_fold_inv BIG m n L done s :
  tr_inv n done s ->
  NoDup L -> (forall i, In i L -> 0 <= i < n /\ ~ In i done) ->
  Z.of_nat (length done) + Z.of_nat (length L) <= n ->
  tr_inv n (rev L ++ done) (fold_left (reduction_transfer_step BIG m) L s).
Proof.
  revert done s; induction L as [|i L IH]; intros done s Hinv Hnd HL Hlen; simpl; auto.
  inversion Hnd as [|? ? Hnotin Hnd']; subst.
  rewrite <- app_assoc; simpl. simpl length in Hlen.
  apply IH; auto.
  - apply reduction_transfer_step_inv; auto; try (apply HL; now left). lia.
  - intros i' Hi'. destruct (HL i' (or_intror Hi')) as [Hr Hn'].
    split; auto. intros [<-|Hin]; contradiction.
  - simpl length; lia.
Qed.

(** After the two cheap phases the rows listed in [free] are exactly the
    rows without a column. *)
Lemma reduction_transfer_listed BIG m free0 :
  length free0 = dim m ->
  free_listed (dimension m)
    (reduction_transfer BIG m (column_reduction BIG m (lap_init free0 m))).
Proof.
  intros Hl0.
  pose proof (column_reduction_inv BIG m free0) as (Hlr & Hlc & Hlm & Hr & Hmt & Hd & Hcl).
  destruct (column_reduction_frame BIG m (lap_init free0 m)) as (Ef & En & Ej).
  cbn [lap_init s_free s_numfree s_j2] in Ef, En, Ej.
  set (s1 := column_reduction BIG m (lap_init free0 m)) in *.
  assert (Hm : matching (dimension m) (s_rowsol s1) (s_colsol s1)).
  { split; [exact Hlr|]. split; [exact Hlc|]. split; [exact Hr|]. split.
    - intros j Hj; apply Hd, In_range, Hj.
    - intros j Hj Hp; apply Hd; [apply In_range, Hj | exact Hp]. }
  assert (H0 : tr_inv (dimension m) [] s1).
  { unfold tr_inv. rewrite Ef, En, Ej.
    split; [exact Hm|]. split; [|split; [|split; [|split; [|split; [|split; [|split; [|split]]]]]]].
    - intros j Hj Hp; apply Hd; [apply In_range, Hj | exact Hp].
    - intros i Hi Hp; destruct (Hcl i Hi Hp) as [Hin E].
      exists (get (s_rowsol s1) i); split; [apply Hr, Hi | exact E].
    - exact Hmt.
    - unfold dimension; lia.
    - simpl; lia.
    - lia.
    - intros p Hp; lia.
    - intros p q Hp; lia.
    - intros i []. }
  pose proof (reduction_transfer_fold_inv BIG m (dimension m) (range (dim m)) [] s1 H0
                (NoDup_range _)) as H.
  rewrite app_nil_r in H. unfold reduction_transfer.
  destruct H as (Hm' & Hcm & Hmi & Hm0 & Hlf & Hnf & Hj2 & Ha & Hb & Hc).
  - intros i Hi; apply In_range in Hi. split; [exact Hi | intros []].
  - rewrite range_length; simpl; unfold dimension; lia.
  - set (s2 := fold_left (reduction_transfer_step BIG m) (range (dim m)) s1) in *.
    rewrite length_rev, range_length in Hnf.
    split; [exact Hm'|]. split; [exact Hlf|]. split; [unfold dimension; lia|].
    split; [exact Hj2|]. split; [|split].
    + intros p Hp. destruct (Ha p Hp) as (_ & Hr' & Hz). split; [exact Hr'|].
      intros (j & Hj & E).
      specialize (Hcm j Hj). rewrite E in Hcm. lia.
    + exact Hb.
    + intros i Hi. specialize (Hm0 i Hi).
      destruct (Z.eq_dec (get (s_matches s2) i) 0) as [Ez|Nz].
      * right. apply Hc; auto. apply in_rev. rewrite rev_involutive. apply In_range, Hi.
      * left. apply Hmi; auto. lia.
Qed.

(** The three reduction phases hand the augmentation a consistent partial
    assignment and the list of its unassigned rows. *)
Lemma lap_reduce_listed BIG fuel free0 m s :
  wf_matrix m = true -> length free0 = dim m ->
  lap_reduce BIG fuel free0 m = Done s ->
  matching (dimension m) (s_rowsol s) (s_colsol s)
  /\ pending_ok (dimension m) (s_colsol s) (free_list (s_free s) (s_numfree s)).
Proof.
  intros Hwf Hl0 Hrun; unfold lap_reduce, augmenting_row_reduction in Hrun.
  pose proof (reduction_transfer_listed BIG m free0 Hl0) as H2.
  destruct (arr_round BIG fuel m _) as [s1| |] eqn:E1; try discriminate.
  cbn [bind] in Hrun.
  apply (arr_round_inv BIG fuel m (dimension m)) in E1; auto.
  apply (arr_round_inv BIG fuel m (dimension m)) in Hrun; auto.
  destruct Hrun as (Hm & Hlf & Hnf & Hj2 & Ha & Hb & Hc).
  split; [exact Hm|]. unfold free_list.
  assert (Hpos : forall p, In p (range (Z.to_nat (s_numfree s))) -> 0 <= p < s_numfree s)
    by (intros p Hp; apply In_range in Hp; lia).
  split; [|split].
  - apply Finite.Injective_map_NoDup_in; [|apply NoDup_range].
    intros p q Hp Hq; apply Hb; auto.
  - intros f Hf; apply in_map_iff in Hf; destruct Hf as (p & <- & Hp). apply Ha; auto.
  - intros i Hi; destruct (Hc i Hi) as [Hin|(p & Hp & E)]; auto.
    right; apply in_map_iff; exists p; split; auto. apply In_range; lia.
Qed.

Lemma make_solution_assignment BIG m a :
  rowsol (make_solution BIG m a) = a_rowsol a
  /\ colsol (make_solution BIG m a) = a_colsol a.
Proof.
  unfold make_solution; destruct (optimal_cost BIG m (a_rowsol a) (a_v a)); auto.
Qed.

Lemma lap_bijection BIG fuel free0 m sol :
  wf_matrix m = true -> length free0 = dim m ->
  lap BIG fuel free0 m = Done sol ->
  mutual_inverse (dimension m) (rowsol sol) (colsol sol)
  /\ Permutation (rowsol sol) (range (dim m))
  /\ Permutation (colsol sol) (range (dim m)).
Proof.
  intros Hwf Hl0 Hrun; unfold lap in Hrun.
  destruct (lap_reduce BIG fuel free0 m) as [s| |] eqn:Er; try discriminate.
  cbn [bind] in Hrun.
  destruct (augment_all _ _ _ _ _) as [a| |] eqn:Ea; try discriminate.
  cbn [bind] in Hrun. injection Hrun as <-.
  destruct (lap_reduce_listed BIG fuel free0 m s Hwf Hl0 Er) as [Hm Hp].
  apply (augment_all_matching BIG fuel m (dimension m)) in Ea; auto.
  - destruct Ea as [Hm' Hp'].
    destruct (make_solution_assignment BIG m a) as [-> ->].
    pose proof (complete_matching _ _ _ Hm' Hp') as H.
    unfold dimension in H at 2 3; rewrite Nat2Z.id in H. exact H.
  - cbn [a_data new_data prev]. rewrite repeat_length. reflexivity.
Qed.




(** * Further properties of the solver *)

(** ** The loop that pops stale queue entries *)

Lemma drop_stale_post k d :
  (length (pq d) <= k)%nat ->
  (pq (drop_stale k d) = []
   \/ exists j, pq_top (pq (drop_stale k d)) = Some j /\ getb (in_todo d) j = true)
  /\ in_todo (drop_stale k d) = in_todo d /\ ready (drop_stale k d) = ready d
  /\ is_ready (drop_stale k d) = is_ready d /\ prev (drop_stale k d) = prev d
  /\ scan (drop_stale k d) = scan d /\ dist (drop_stale k d) = dist d
  /\ (forall x, In x (pq (drop_stale k d)) -> In x (pq d))
  /\ (forall x, In x (pq d) -> getb (in_todo d) x = true -> In x (pq (drop_stale k d))).
Proof.
  revert d; induction k as [|k IH]; intros d Hk; simpl.
  - destruct (pq d) eqn:E; [|simpl in Hk; lia].
    repeat split; auto.
  - destruct (pq_top (pq d)) as [j|] eqn:Et.
    + destruct (getb (in_todo d) j) eqn:Ei.
      * repeat split; auto. right; exists j; auto.
      * pose proof (pq_top_In _ _ Et) as Hin.
        assert (Hlen : (length (pq (dequeue d)) <= k)%nat).
        { pose proof (dequeue_length d j Et). lia. }
        destruct (IH (dequeue d) Hlen) as (H1 & H2 & H3 & H4 & H5 & H6 & H7 & H8 & H9).
        cbn [dequeue with_heap in_todo ready is_ready prev scan dist] in *.
        repeat split; auto.
        -- intros x Hx. apply H8 in Hx. eapply dequeue_incl; eauto.
        -- intros x Hx Hxi. apply H9; auto.
           apply (dequeue_keeps d j x Et Hx). intros ->; congruence.
    + apply pq_top_None in Et. rewrite Et. repeat split; auto.
Qed.

(** X3: [while (!pq.empty() && !in_todo[pq.top()]) pq.pop();] ends with
    an empty queue or with a top column that is in [todo]; it only removes
    queue entries, a queued column that is in [todo] stays queued, and
    nothing but the queue is changed. *)
Theorem drop_stale_live d :
  let d' := drop_stale (length (pq d)) d in
  (pq d' = [] \/ exists j, pq_top (pq d') = Some j /\ getb (in_todo d') j = true)
  /\ (forall x, In x (pq d') -> In x (pq d))
  /\ (forall x, In x (pq d) -> getb (in_todo d) x = true -> In x (pq d'))
  /\ in_todo d' = in_todo d /\ dist d' = dist d /\ prev d' = prev d
  /\ scan d' = scan d /\ ready d' = ready d /\ is_ready d' = is_ready d.
Proof.
  destruct (drop_stale_post (length (pq d)) d (le_n _))
    as (H1 & H2 & H3 & H4 & H5 & H6 & H7 & H8 & H9).
  cbv zeta. rewrite H2, H7. repeat split; auto.
Qed.

(** ** The loop that collects the columns at the minimum *)

(** The batch loop changes [scan], [in_todo] and the queue only, and
    what it reports is what the code tests. *)
Lemma collect_min_result fuel colsol min d d' found :
  collect_min fuel colsol min d = Done (d', found) ->
  dist d' = dist d /\ prev d' = prev d /\ ready d' = ready d /\ is_ready d' = is_ready d
  /\ (forall x, In x (pq d') -> In x (pq d))
  /\ (forall x, In x (scan d') ->
        In x (scan d) \/ (In x (pq d) /\ get (dist d) x = min /\ 0 <= get colsol x))
  /\ match found with
     | Some j => pq_top (pq d') = Some j /\ get (dist d) j = min
                 /\ getb (in_todo d') j = true /\ get colsol j < 0
     | None => pq d' = []
               \/ exists t, pq_top (pq d') = Some t /\ get (dist d) t <> min
     end.
Proof.
  revert d; induction fuel as [|fuel IH]; intros d Hrun; simpl in Hrun; [discriminate|].
  destruct (pq_top (pq d)) as [j|] eqn:Et.
  - destruct (Z.eqb_spec (get (dist d) j) min) as [Hd|Hd].
    + destruct (getb (in_todo d) j) eqn:Ei.
      * destruct (Z.ltb_spec (get colsol j) 0) as [Hc|Hc].
        -- injection Hrun as <- <-. repeat split; auto.
        -- apply IH in Hrun.
           destruct Hrun as (H1 & H2 & H3 & H4 & H5 & H6 & H7).
           pose proof (pq_top_In _ _ Et) as Hin.
           split; [exact H1|]. split; [exact H2|]. split; [exact H3|].
           split; [exact H4|]. split; [|split; [|exact H7]].
           ++ intros x Hx; apply H5 in Hx.
              apply (dequeue_incl (to_scan d j)) in Hx. exact Hx.
           ++ intros x Hx; apply H6 in Hx.
              destruct Hx as [[<-|Hx]|(Hx & Hxd & Hxc)]; auto.
              right; repeat split; auto.
              apply (dequeue_incl (to_scan d j)) in Hx. exact Hx.
      * apply IH in Hrun. exact Hrun.
    + injection Hrun as <- <-. repeat split; auto.
      right; exists j; auto.
  - injection Hrun as <- <-. apply pq_top_None in Et. repeat split; auto.
Qed.

(** X4: when every queue entry whose distance equals [min] is in [todo]
    and queued once, the loop [while (!pq.empty() && dist[pq.top()] == min)]
    returns within one turn per queue entry; it leaves [dist] alone, and it
    ends at an unassigned column in [todo] at distance [min] (the path end)
    or with a queue that is empty or whose top is not at [min]. *)
Theorem collect_min_returns colsol min d :
  (forall x, In x (pq d) -> get (dist d) x = min ->
     getb (in_todo d) x = true /\ count_occ Z.eq_dec (pq d) x = 1%nat) ->
  exists d' found,
    collect_min (S (length (pq d))) colsol min d = Done (d', found)
    /\ dist d' = dist d
    /\ match found with
       | Some j => pq_top (pq d') = Some j /\ get (dist d) j = min
                   /\ getb (in_todo d') j = true /\ get colsol j < 0
       | None => pq d' = []
                 \/ exists t, pq_top (pq d') = Some t /\ get (dist d) t <> min
       end.
Proof.
  intros Hlive.
  assert (H : exists r, collect_min (S (length (pq d))) colsol min d = Done r).
  { remember (length (pq d)) as k eqn:Ek.
    revert d Ek Hlive; induction k as [|k IH]; intros d Ek Hlive.
    - destruct (pq d) eqn:E; [|discriminate]. simpl. rewrite E. simpl. eauto.
    - cbn [collect_min].
      destruct (pq_top (pq d)) as [j|] eqn:Et; [|eauto].
      pose proof (pq_top_In _ _ Et) as Hin.
      destruct (Z.eqb_spec (get (dist d) j) min) as [Hd|Hd]; [|eauto].
      destruct (Hlive j Hin Hd) as [Hj Hone].
      rewrite Hj. destruct (get colsol j <? 0); [eauto|].
      apply IH.
      + pose proof (dequeue_length (to_scan d j) j Et) as Hlen.
        change (pq (to_scan d j)) with (pq d) in Hlen. lia.
      + intros x Hx Hxd.
        pose proof (dequeue_count (to_scan d j) j j Et) as Hcj.
        pose proof (dequeue_count (to_scan d j) j x Et) as Hcx.
        change (pq (to_scan d j)) with (pq d) in Hcj, Hcx.
        destruct (Z.eq_dec j j) as [_|]; [|congruence].
        assert (Hne : x <> j).
        { intros ->. apply (count_occ_In Z.eq_dec) in Hx. lia. }
        destruct (Z.eq_dec j x) as [|_]; [congruence|].
        apply (dequeue_incl (to_scan d j)) in Hx.
        destruct (Hlive x Hx Hxd) as [Hx1 Hx2].
        split; [|lia].
        change (getb (vset (in_todo d) j false) x = true).
        unfold getb. rewrite vget_vset_other; auto. }
  destruct H as ([d' found] & E). exists d', found. split; [exact E|].
  apply collect_min_result in E. destruct E as (H1 & _ & _ & _ & _ & _ & H7). auto.
Qed.

Lemma collect_min_returns_witness :
  exists d' found,
    collect_min 3 [0; -1; 1] 4
      {| in_todo := [false; true; true]; ready := []; is_ready := [false; false; false];
         prev := [0; 0; 0]; scan := []; dist := [9; 6; 4];
         handles := [0; 1; 0]; pq := [2; 1] |} = Done (d', found)
    /\ dist d' = [9; 6; 4]
    /\ match found with
       | Some j => pq_top (pq d') = Some j /\ get [9; 6; 4] j = 4
                   /\ getb (in_todo d') j = true /\ get [0; -1; 1] j < 0
       | None => pq d' = []
                 \/ exists t, pq_top (pq d') = Some t /\ get [9; 6; 4] t <> 4
       end.
Proof.
  apply (collect_min_returns [0; -1; 1] 4
           {| in_todo := [false; true; true]; ready := []; is_ready := [false; false; false];
              prev := [0; 0; 0]; scan := []; dist := [9; 6; 4];
              handles := [0; 1; 0]; pq := [2; 1] |}).
  intros x [<-|[<-|[]]]; vm_compute; intros Hd; try discriminate; split; reflexivity.
Defined.

(** X5: when the top of the queue is at distance [min] and not in
    [todo], the loop [while (!pq.empty() && dist[pq.top()] == min)] neither
    pops it nor leaves: no loop budget is enough. *)
Theorem collect_min_stale_spins fuel colsol min d j :
  pq_top (pq d) = Some j ->
  get (dist d) j = min ->
  getb (in_todo d) j = false ->
  collect_min fuel colsol min d = OutOfFuel.
Proof. exact (collect_min_spin fuel colsol min d j). Qed.

Lemma collect_min_stale_spins_witness :
  collect_min 1000 [0; 1] 4
    {| in_todo := [false; true]; ready := []; is_ready := [false; false];
       prev := [0; 0]; scan := []; dist := [4; 5];
       handles := [0; 1]; pq := [0; 1] |} = OutOfFuel.
Proof.
  apply (collect_min_stale_spins 1000 [0; 1] 4 _ 0); reflexivity.
Defined.

(** ** A search turn on an exhausted queue *)

Lemma search_body_no_live BIG fuel m v colsol min d :
  scan d = [] ->
  (forall x, In x (pq d) -> getb (in_todo d) x = false) ->
  search_body BIG fuel m v colsol min d = Undefined.
Proof.
  intros Hs Hstale. unfold search_body. rewrite Hs.
  destruct (drop_stale_post (length (pq d)) d (le_n _))
    as (H1 & H2 & _ & _ & _ & _ & H7 & H8 & _).
  destruct H1 as [E|(j & Et & Ei)].
  - rewrite E. reflexivity.
  - rewrite H7 in *. apply pq_top_In in Et. apply H8 in Et.
    rewrite (Hstale j Et) in Ei. discriminate.
Qed.

(** X6: with [scan] empty and no queued column in [todo], a turn of the
    search pops the whole queue and then reads [pq.top()] of the empty
    queue: the behaviour is undefined. *)
Theorem search_body_exhausted BIG fuel m v colsol min d :
  scan d = [] ->
  (forall x, In x (pq d) -> getb (in_todo d) x = false) ->
  search_body BIG fuel m v colsol min d = Undefined.
Proof. exact (search_body_no_live BIG fuel m v colsol min d). Qed.

Lemma search_body_exhausted_witness :
  search_body 100000 10 inst_delta [0; 0; 0] [0; 1; 2] 0
    {| in_todo := [false; false; false]; ready := [1]; is_ready := [false; true; false];
       prev := [0; 0; 0]; scan := []; dist := [3; 1; 2];
       handles := [1; 0; 0]; pq := [1; 0] |} = Undefined.
Proof.
  apply search_body_exhausted; [reflexivity|].
  intros x [<-|[<-|[]]]; reflexivity.
Defined.

Lemma seed_nil v d : seed_queue [] (seed_dist v [] d) = d.
Proof. reflexivity. Qed.

(** X7: [augment] started at a row without stored entries reads
    [pq.top()] of an empty queue in its first turn. *)
Theorem augment_empty_row BIG fuel m start a :
  findRow m start = [] ->
  augment BIG (S fuel) m start a = Undefined.
Proof.
  intros Hrow. unfold augment. rewrite Hrow, seed_nil.
  cbn [search]. rewrite search_body_no_live; auto.
  intros x [].
Qed.

Lemma augment_empty_row_witness :
  augment 100000 10 [[(0, 1)]; []] 1
    {| a_data := new_data 2; a_v := [0; 0]; a_rowsol := [0; 0]; a_colsol := [0; -1] |}
  = Undefined.
Proof.
  apply (augment_empty_row 100000 9 [[(0, 1)]; []] 1). reflexivity.
Defined.

(** ** The loop over the row of a scanned column *)

Lemma expand_row_ready_kept row v colsol i h min d d' found :
  expand_row row v colsol i h min d = (d', found) ->
  ready d' = ready d /\ is_ready d' = is_ready d
  /\ forall j, getb (is_ready d) j = true ->
       get (dist d') j = get (dist d) j /\ get (prev d') j = get (prev d) j
       /\ getb (in_todo d') j = getb (in_todo d) j
       /\ count_occ Z.eq_dec (pq d') j = count_occ Z.eq_dec (pq d) j
       /\ count_occ Z.eq_dec (scan d') j = count_occ Z.eq_dec (scan d) j.
Proof.
  revert d; induction row as [|[j0 c] rest IH]; intros d Hrun; cbn [expand_row] in Hrun.
  - injection Hrun as <- <-. auto 10.
  - destruct (getb (is_ready d) j0) eqn:Er; [apply IH; exact Hrun|].
    assert (Hstep : forall d1,
      ready d1 = ready d -> is_ready d1 = is_ready d ->
      (forall j, getb (is_ready d) j = true ->
         get (dist d1) j = get (dist d) j /\ get (prev d1) j = get (prev d) j
         /\ getb (in_todo d1) j = getb (in_todo d) j
         /\ count_occ Z.eq_dec (pq d1) j = count_occ Z.eq_dec (pq d) j
         /\ count_occ Z.eq_dec (scan d1) j = count_occ Z.eq_dec (scan d) j) ->
      expand_row rest v colsol i h min d1 = (d', found) ->
      ready d' = ready d /\ is_ready d' = is_ready d
      /\ forall j, getb (is_ready d) j = true ->
           get (dist d') j = get (dist d) j /\ get (prev d') j = get (prev d) j
           /\ getb (in_todo d') j = getb (in_todo d) j
           /\ count_occ Z.eq_dec (pq d') j = count_occ Z.eq_dec (pq d) j
           /\ count_occ Z.eq_dec (scan d') j = count_occ Z.eq_dec (scan d) j).
    { intros d1 Hr1 Hi1 Hk1 Hrun1. apply IH in Hrun1.
      destruct Hrun1 as (Ha & Hb & Hc). rewrite Ha, Hb, Hr1, Hi1. split; auto. split; auto.
      intros j Hj. rewrite Hi1 in Hc. destruct (Hc j Hj) as (C1 & C2 & C3 & C4 & C5).
      destruct (Hk1 j Hj) as (K1 & K2 & K3 & K4 & K5).
      rewrite C1, C2, C3, C4, C5. auto. }
    assert (Hne : forall j, getb (is_ready d) j = true -> j0 <> j)
      by (intros j Hj ->; congruence).
    cbv zeta in Hrun.
    set (d1 := set_prev (set_dist d j0 (min + (c - get v j0 - h))) j0 i) in *.
    assert (Hd1 : forall j, getb (is_ready d) j = true ->
         get (dist d1) j = get (dist d) j /\ get (prev d1) j = get (prev d) j
         /\ getb (in_todo d1) j = getb (in_todo d) j
         /\ count_occ Z.eq_dec (pq d1) j = count_occ Z.eq_dec (pq d) j
         /\ count_occ Z.eq_dec (scan d1) j = count_occ Z.eq_dec (scan d) j).
    { intros j Hj. unfold d1; cbn [set_prev set_dist dist prev in_todo pq scan].
      unfold get. rewrite !vget_vset_other by auto. auto. }
    destruct (negb (getb (in_todo d) j0) || (min + (c - get v j0 - h) <? get (dist d) j0));
      [|apply IH; exact Hrun].
    destruct (0 =? c - get v j0 - h).
    + destruct (get colsol j0 <? 0).
      * injection Hrun as <- <-. auto.
      * apply (Hstep (to_scan d1 j0)); auto.
        intros j Hj. destruct (Hd1 j Hj) as (K1 & K2 & K3 & K4 & K5).
        cbn [to_scan dist prev in_todo pq scan]. unfold getb in *.
        rewrite vget_vset_other by auto.
        rewrite count_occ_cons_neq by auto. auto.
    + destruct (negb (getb (in_todo d1) j0)).
      * apply (Hstep (enqueue d1 j0)); auto.
        intros j Hj. destruct (Hd1 j Hj) as (K1 & K2 & K3 & K4 & K5).
        split; [exact K1|]. split; [exact K2|]. split; [|split; [|exact K5]].
        -- change (getb (vset (in_todo d1) j0 true) j = getb (in_todo d) j).
           unfold getb in *. rewrite vget_vset_other by auto. exact K3.
        -- rewrite (proj1 (Permutation_count_occ Z.eq_dec _ _) (enqueue_perm d1 j0) j).
           rewrite count_occ_cons_neq by auto. exact K4.
      * apply (Hstep (requeue d1 j0)); auto.
        intros j Hj. destruct (Hd1 j Hj) as (K1 & K2 & K3 & K4 & K5).
        split; [exact K1|]. split; [exact K2|]. split; [exact K3|]. split; [|exact K5].
        rewrite (proj1 (Permutation_count_occ Z.eq_dec _ _) (requeue_perm d1 j0) j).
        exact K4.
Qed.

(** X8: the loop over a row never touches a ready column: its
    distance, its label, its [todo] flag and its entries in the queue and in
    [scan] stay as they were, it is never the path end, and [ready] and
    [is_ready] are not changed at all. *)
Theorem expand_row_skips_ready row v colsol i h min d d' found j :
  expand_row row v colsol i h min d = (d', found) ->
  getb (is_ready d) j = true ->
  ready d' = ready d /\ is_ready d' = is_ready d
  /\ get (dist d') j = get (dist d) j /\ get (prev d') j = get (prev d) j
  /\ getb (in_todo d') j = getb (in_todo d) j
  /\ count_occ Z.eq_dec (pq d') j = count_occ Z.eq_dec (pq d) j
  /\ count_occ Z.eq_dec (scan d') j = count_occ Z.eq_dec (scan d) j
  /\ found <> Some j.
Proof.
  intros Hrun Hj.
  destruct (expand_row_ready_kept _ _ _ _ _ _ _ _ _ Hrun) as (H1 & H2 & H3).
  destruct (H3 j Hj) as (K1 & K2 & K3 & K4 & K5).
  repeat split; auto.
  clear - Hrun Hj. revert d Hrun Hj.
  induction row as [|[j0 c] rest IH]; intros d Hrun Hj; cbn [expand_row] in Hrun.
  - injection Hrun as <- <-. discriminate.
  - destruct (getb (is_ready d) j0) eqn:Er; [eapply IH; eauto|].
    cbv zeta in Hrun.
    destruct (negb (getb (in_todo d) j0) || (min + (c - get v j0 - h) <? get (dist d) j0));
      [|eapply IH; eauto].
    destruct (0 =? c - get v j0 - h).
    + destruct (get colsol j0 <? 0).
      * injection Hrun as <- <-. intros E; injection E as ->. congruence.
      * eapply IH; eauto.
    + destruct (negb _); eapply IH; eauto.
Qed.

Lemma expand_row_skips_ready_witness :
  let d := {| in_todo := [false; true; false]; ready := [0]; is_ready := [true; false; false];
              prev := [2; 2; 2]; scan := []; dist := [1; 7; 0];
              handles := [0; 1; 0]; pq := [0; 1] |} in
  let r := expand_row [(0, 4); (1, 3); (2, 6)] [0; 0; 0] [1; 2; -1] 1 0 1 d in
  ready (fst r) = ready d /\ is_ready (fst r) = is_ready d
  /\ get (dist (fst r)) 0 = get (dist d) 0 /\ get (prev (fst r)) 0 = get (prev d) 0
  /\ getb (in_todo (fst r)) 0 = getb (in_todo d) 0
  /\ count_occ Z.eq_dec (pq (fst r)) 0 = count_occ Z.eq_dec (pq d) 0
  /\ count_occ Z.eq_dec (scan (fst r)) 0 = count_occ Z.eq_dec (scan d) 0
  /\ snd r <> Some 0.
Proof.
  cbv zeta.
  eapply (expand_row_skips_ready [(0, 4); (1, 3); (2, 6)] [0; 0; 0] [1; 2; -1] 1 0 1);
    [apply surjective_pairing | reflexivity].
Defined.

(** X9: when the loop over the row of [i] ends at a column [e], then [e]
    is a stored column of that row with reduced cost zero, unassigned and
    not ready, and the loop has set [dist[e] = min] and [prev[e] = i]. *)
Theorem expand_row_found row v colsol i h min d d' e :
  expand_row row v colsol i h min d = (d', Some e) ->
  0 <= e < Z.of_nat (length (dist d)) -> 0 <= e < Z.of_nat (length (prev d)) ->
  (exists c, In (e, c) row /\ c - get v e - h = 0)
  /\ get colsol e < 0
  /\ getb (is_ready d') e = false
  /\ get (dist d') e = min
  /\ get (prev d') e = i.
Proof.
  revert d; induction row as [|[j0 c] rest IH]; intros d Hrun Hd Hp;
    cbn [expand_row] in Hrun; [discriminate|].
  assert (Hrest : forall d1, length (dist d1) = length (dist d) ->
            length (prev d1) = length (prev d) ->
            expand_row rest v colsol i h min d1 = (d', Some e) ->
            (exists c0, In (e, c0) ((j0, c) :: rest) /\ c0 - get v e - h = 0)
            /\ get colsol e < 0 /\ getb (is_ready d') e = false
            /\ get (dist d') e = min /\ get (prev d') e = i).
  { intros d1 L1 L2 Hrun1. apply IH in Hrun1; try (rewrite ?L1, ?L2; assumption).
    destruct Hrun1 as ((c0 & Hin & E) & H). split; auto.
    exists c0; split; auto. now right. }
  destruct (getb (is_ready d) j0) eqn:Er; [apply (Hrest d); auto|].
  cbv zeta in Hrun.
  set (d1 := set_prev (set_dist d j0 (min + (c - get v j0 - h))) j0 i) in *.
  assert (L1 : length (dist d1) = length (dist d))
    by (unfold d1; cbn [set_prev set_dist dist]; apply vset_length).
  assert (L2 : length (prev d1) = length (prev d))
    by (unfold d1; cbn [set_prev set_dist prev]; apply vset_length).
  destruct (negb (getb (in_todo d) j0) || (min + (c - get v j0 - h) <? get (dist d) j0));
    [|apply (Hrest d); auto].
  destruct (Z.eqb_spec 0 (c - get v j0 - h)) as [Hz|Hz].
  - destruct (Z.ltb_spec (get colsol j0) 0) as [Hc|Hc].
    + injection Hrun as <- <-. split; [|split; [|split; [|split]]]; auto.
      * exists c; split; [now left | lia].
      * unfold d1; cbn [set_prev set_dist dist]. rewrite get_vset_same by lia. lia.
      * unfold d1; cbn [set_prev set_dist prev]. rewrite get_vset_same by lia. lia.
    + apply (Hrest (to_scan d1 j0)); auto.
  - destruct (negb (getb (in_todo d1) j0)).
    + apply (Hrest (enqueue d1 j0)); auto.
    + apply (Hrest (requeue d1 j0)); auto.
Qed.

Lemma expand_row_found_witness :
  (exists c, In (2, c) [(0, 4); (1, 3); (2, 6)] /\ c - get [0; 0; 0] 2 - 6 = 0)
  /\ get [1; 2; -1] 2 < 0
  /\ getb [true; false; false] 2 = false
  /\ get [1; -2; 1] 2 = 1
  /\ get [2; 1; 1] 2 = 1.
Proof.
  apply (expand_row_found [(0, 4); (1, 3); (2, 6)] [0; 0; 0] [1; 2; -1] 1 6 1
           {| in_todo := [false; true; false]; ready := [0]; is_ready := [true; false; false];
              prev := [2; 2; 2]; scan := []; dist := [1; 7; 0];
              handles := [0; 1; 0]; pq := [0; 1] |}
           {| in_todo := [false; true; false]; ready := [0]; is_ready := [true; false; false];
              prev := [2; 1; 1]; scan := []; dist := [1; -2; 1];
              handles := [1; 0; 0]; pq := [1; 0] |} 2).
  - vm_compute. reflexivity.
  - simpl; lia.
  - simpl; lia.
Defined.

(** ** The price update *)

Lemma fold_price_count (delta : Z -> Z) (L : list Z) (v : list Z) (j : Z) :
  0 <= j < Z.of_nat (length v) ->
  get (fold_left (fun v j => vset v j (get v j + delta j)) L v) j
  = get v j + Z.of_nat (count_occ Z.eq_dec L j) * delta j
  /\ length (fold_left (fun v j => vset v j (get v j + delta j)) L v) = length v.
Proof.
  revert v; induction L as [|a L IH]; intros v Hj; cbn [fold_left].
  - simpl. split; [lia | reflexivity].
  - destruct (IH (vset v a (get v a + delta a))) as [H1 H2];
      [rewrite vset_length; exact Hj|].
    rewrite H1, H2, vset_length. split; auto.
    cbn [count_occ]. destruct (Z.eq_dec a j) as [->|Hne].
    + rewrite get_vset_same by lia. lia.
    + rewrite get_vset_other by auto. lia.
Qed.

(** X11: the price update adds [dist[j] - min] to the price of column [j]
    once for every entry of [j] in [ready]; the price of a column that is
    not in [ready] stays. *)
Theorem update_prices_count d min v j :
  0 <= j < Z.of_nat (length v) ->
  get (update_prices d min v) j
  = get v j + Z.of_nat (count_occ Z.eq_dec (ready d) j) * (get (dist d) j - min)
  /\ length (update_prices d min v) = length v.
Proof.
  intros Hj. unfold update_prices.
  pose proof (fold_price_count (fun j => get (dist d) j - min) (rev (ready d)) v j Hj)
    as [H1 H2].
  assert (E : forall (L : list Z) (w : list Z),
     fold_left (fun v j => vset v j (get v j + get (dist d) j - min)) L w
     = fold_left (fun v j => vset v j (get v j + (get (dist d) j - min))) L w).
  { induction L as [|a L IH]; intros w; simpl; auto.
    rewrite IH. do 2 f_equal. lia. }
  rewrite E, H1, H2. split; auto.
  now rewrite count_occ_rev.
Qed.

Lemma update_prices_count_witness :
  let d := {| in_todo := [false; false; false]; ready := [2; 0; 2];
              is_ready := [true; false; true]; prev := [0; 0; 0]; scan := [];
              dist := [4; 9; 3]; handles := [0; 0; 0]; pq := [] |} in
  get (update_prices d 5 [10; 20; 30]) 2
  = get [10; 20; 30] 2 + Z.of_nat (count_occ Z.eq_dec (ready d) 2) * (get (dist d) 2 - 5)
  /\ length (update_prices d 5 [10; 20; 30]) = length [10; 20; 30].
Proof.
  cbv zeta. apply update_prices_count. simpl; lia.
Defined.


(** ** The two seeding loops *)

Lemma seed_dist_spec v row d :
  NoDup (map fst row) ->
  (forall e, In e row -> 0 <= fst e < Z.of_nat (length (dist d))) ->
  let d' := seed_dist v row d in
  in_todo d' = in_todo d /\ ready d' = ready d /\ is_ready d' = is_ready d
  /\ prev d' = prev d /\ scan d' = scan d /\ pq d' = pq d
  /\ length (dist d') = length (dist d)
  /\ (forall j c, In (j, c) row -> get (dist d') j = c - get v j)
  /\ (forall j, ~ In j (map fst row) -> get (dist d') j = get (dist d) j).
Proof.
  unfold seed_dist. revert d; induction row as [|[j0 c0] rest IH]; intros d Hnd Hr; cbn [fold_left].
  - repeat split; auto. intros j c [].
  - inversion Hnd as [|? ? Hnin Hnd']; subst.
    assert (Hj0 : 0 <= j0 < Z.of_nat (length (dist d))) by (apply (Hr (j0, c0)); now left).
    destruct (IH (set_dist d j0 (snd (j0, c0) - get v (fst (j0, c0)))) Hnd')
      as (H1 & H2 & H3 & H4 & H5 & H6 & H7 & H8 & H9).
    { intros e He. cbn [set_dist dist]. rewrite vset_length. apply Hr; now right. }
    cbn [set_dist in_todo ready is_ready prev scan pq dist fst snd] in *.
    rewrite vset_length in H7.
    repeat split; auto.
    + intros j c [E|Hin].
      * injection E as <- <-. rewrite H9 by exact Hnin. apply get_vset_same; auto.
      * apply H8; auto.
    + intros j Hj. rewrite H9 by (intros Hin; apply Hj; now right).
      apply get_vset_other. intros ->; apply Hj; now left.
Qed.

Lemma seed_queue_spec row d :
  (forall e, In e row -> 0 <= fst e < Z.of_nat (length (in_todo d))) ->
  let d' := seed_queue row d in
  dist d' = dist d /\ ready d' = ready d /\ is_ready d' = is_ready d
  /\ prev d' = prev d /\ scan d' = scan d
  /\ Permutation (pq d') (pq d ++ map fst row)
  /\ (forall j, In j (map fst row) -> getb (in_todo d') j = true)
  /\ (forall j, ~ In j (map fst row) -> getb (in_todo d') j = getb (in_todo d) j).
Proof.
  unfold seed_queue. revert d; induction row as [|[j0 c0] rest IH]; intros d Hr; cbn [fold_left].
  - simpl. rewrite app_nil_r. repeat split; auto; intros j [].
  - assert (Hj0 : 0 <= j0 < Z.of_nat (length (in_todo d))) by (apply (Hr (j0, c0)); now left).
    destruct (IH (enqueue d (fst (j0, c0)))) as (H1 & H2 & H3 & H4 & H5 & H6 & H7 & H8).
    { intros e He. change (in_todo (enqueue d (fst (j0, c0)))) with (vset (in_todo d) j0 true).
      rewrite vset_length. apply Hr; now right. }
    cbn [fst snd] in *.
    change (in_todo (enqueue d j0)) with (vset (in_todo d) j0 true) in H8.
    split; [exact H1|]. split; [exact H2|]. split; [exact H3|]. split; [exact H4|].
    split; [exact H5|]. split; [|split].
    + rewrite H6, (enqueue_perm d j0). cbn [map fst]. apply Permutation_middle.
    + intros j Hj. cbn [map fst] in Hj.
      destruct (in_dec Z.eq_dec j (map fst rest)) as [Hin|Hnin]; [apply H7; auto|].
      destruct Hj as [<-|Hj]; [|contradiction].
      rewrite H8 by exact Hnin. unfold getb; apply vget_vset_same; auto.
    + intros j Hj. rewrite H8 by (intros Hin; apply Hj; now right).
      unfold getb; apply vget_vset_other. intros ->; apply Hj; now left.
Qed.

(** X2: the two loops over the start row add one queue entry for each of
    its columns to what the queue held, set the distance of each to its
    reduced cost [c - v[j]] and put each in [todo]; the other columns keep
    distance and flag, and [prev], [scan] and [ready] are not touched. *)
Theorem seed_spec v row d :
  NoDup (map fst row) ->
  (forall e, In e row ->
     0 <= fst e < Z.of_nat (length (dist d)) /\ 0 <= fst e < Z.of_nat (length (in_todo d))) ->
  let d' := seed_queue row (seed_dist v row d) in
  Permutation (pq d') (pq d ++ map fst row)
  /\ (forall j c, In (j, c) row ->
        get (dist d') j = c - get v j /\ getb (in_todo d') j = true)
  /\ (forall j, ~ In j (map fst row) ->
        get (dist d') j = get (dist d) j /\ getb (in_todo d') j = getb (in_todo d) j)
  /\ prev d' = prev d /\ scan d' = scan d /\ ready d' = ready d /\ is_ready d' = is_ready d.
Proof.
  intros Hnd Hr.
  destruct (seed_dist_spec v row d Hnd (fun e He => proj1 (Hr e He)))
    as (A1 & A2 & A3 & A4 & A5 & A6 & A7 & A8 & A9).
  destruct (seed_queue_spec row (seed_dist v row d))
    as (B1 & B2 & B3 & B4 & B5 & B6 & B7 & B8).
  { intros e He. rewrite A1. apply Hr; auto. }
  cbv zeta. rewrite B1, B2, B3, B4, B5, B6, A2, A3, A4, A5, A6.
  split; [reflexivity|]. split; [|split; [|auto]].
  - intros j c Hin. split; [apply A8; auto|].
    apply B7. apply in_map_iff. exists (j, c); auto.
  - intros j Hj. split; [apply A9; auto|]. rewrite B8, A1; auto.
Qed.

Lemma seed_spec_witness :
  let d := reset 2 (new_data 3) in
  let d' := seed_queue [(0, 8); (2, 5)] (seed_dist [1; 1; 1] [(0, 8); (2, 5)] d) in
  Permutation (pq d') (pq d ++ map fst [(0, 8); (2, 5)])
  /\ (forall j c, In (j, c) [(0, 8); (2, 5)] ->
        get (dist d') j = c - get [1; 1; 1] j /\ getb (in_todo d') j = true)
  /\ (forall j, ~ In j (map fst [(0, 8); (2, 5)]) ->
        get (dist d') j = get (dist d) j /\ getb (in_todo d') j = getb (in_todo d) j)
  /\ prev d' = prev d /\ scan d' = scan d /\ ready d' = ready d /\ is_ready d' = is_ready d.
Proof.
  apply (seed_spec [1; 1; 1] [(0, 8); (2, 5)] (reset 2 (new_data 3))).
  - repeat constructor; simpl; intuition lia.
  - intros e [<-|[<-|[]]]; simpl; lia.
Defined.

(** ** The queue after the seeding loops *)

Lemma heap_ordered_root dist q p :
  heap_ordered dist q -> (p < length q)%nat ->
  get dist (entry q 0) <= get dist (entry q p).
Proof.
  intros H. induction p as [p IH] using (well_founded_induction lt_wf). intros Hp.
  destruct p as [|p']; [lia|].
  pose proof (parent_index_lt (S p') ltac:(lia)) as Hlt.
  specialize (IH _ Hlt ltac:(lia)). specialize (H (S p') ltac:(lia)). lia.
Qed.

Lemma siftup_ordered dist fuel (qh : heap) (p : nat) :
  ordered_but dist (fst qh) p -> (p < length (fst qh))%nat -> (p <= fuel)%nat ->
  heap_ordered dist (fst (siftup fuel dist qh p)).
Proof.
  revert qh p; induction fuel as [|fuel IH]; intros qh p [H1 H2] Hp Hf.
  - assert (p = 0%nat) by lia. subst p. cbn [siftup].
    intros c Hc. apply H1; lia.
  - cbn [siftup]. destruct p as [|p'].
    + intros c Hc. apply H1; lia.
    + set (p := S p') in *. set (par := parent_index p).
      pose proof (parent_index_lt p ltac:(lia)) as Hlt. fold par in Hlt.
      unfold node_compare. destruct (Z.gtb_spec (get dist (entry (fst qh) par))
                                               (get dist (entry (fst qh) p))) as [Hgt|Hle].
      * apply IH; [|rewrite swap_entries_length; lia | lia].
        assert (Hes : forall c, entry (fst (swap_entries qh par p)) c
                      = if (c =? p)%nat then entry (fst qh) par
                        else if (c =? par)%nat then entry (fst qh) p else entry (fst qh) c)
          by (intros c; apply entry_swap; lia).
        split.
        -- intros c Hc Hne. rewrite swap_entries_length in Hc.
           pose proof (parent_index_lt c ltac:(lia)) as Hpc.
           rewrite !Hes.
           destruct (Nat.eqb_spec c p) as [->|Hcp].
           ++ fold par. destruct (Nat.eqb_spec par p); [lia|].
              rewrite Nat.eqb_refl. lia.
           ++ destruct (Nat.eqb_spec c par) as [->|Hcpar]; [contradiction|].
              destruct (Nat.eqb_spec (parent_index c) p) as [E|E].
              ** pose proof (H2 c Hc E ltac:(lia)). fold par in H. exact H.
              ** destruct (Nat.eqb_spec (parent_index c) par) as [E'|E'].
                 --- pose proof (H1 c Hc Hcp) as H. rewrite E' in H. lia.
                 --- apply H1; auto.
        -- intros c Hc Epar Hpos. rewrite swap_entries_length in Hc.
           pose proof (parent_index_lt par Hpos) as Hgp.
           rewrite !Hes.
           destruct (Nat.eqb_spec (parent_index par) p); [lia|].
           destruct (Nat.eqb_spec (parent_index par) par); [lia|].
           pose proof (H1 par ltac:(lia) ltac:(lia)) as Hgpar.
           destruct (Nat.eqb_spec c p) as [->|Hcp]; [exact Hgpar|].
           destruct (Nat.eqb_spec c par) as [->|Hcpar]; [lia|].
           pose proof (H1 c Hc Hcp) as Hc1. rewrite Epar in Hc1. lia.
      * intros c Hc. destruct (Nat.eq_dec c p) as [->|Hne]; [fold par; lia|].
        apply H1; auto.
Qed.

Lemma pq_push_ordered dist (qh : heap) (j : Z) :
  heap_ordered dist (fst qh) -> heap_ordered dist (fst (pq_push dist qh j)).
Proof.
  destruct qh as [q hs]; cbn [fst]. intros H. cbn [pq_push].
  apply siftup_ordered; cbn [fst]; [|rewrite length_app; simpl; lia | lia].
  split.
  - intros c Hc Hne. rewrite length_app in Hc. simpl in Hc.
    pose proof (parent_index_lt c ltac:(lia)) as Hpc.
    unfold entry. rewrite !app_nth1 by lia. apply H. lia.
  - intros c Hc E Hpos. rewrite length_app in Hc. simpl in Hc.
    pose proof (parent_index_lt c ltac:(lia)). lia.
Qed.

Lemma seed_queue_ordered row d :
  heap_ordered (dist d) (pq d) ->
  heap_ordered (dist (seed_queue row d)) (pq (seed_queue row d)).
Proof.
  unfold seed_queue. revert d; induction row as [|e row IH]; intros d H; cbn [fold_left]; auto.
  apply IH. exact (pq_push_ordered (dist d) (heap_of d) (fst e) H).
Qed.

Lemma heap_ordered_top dist q j x :
  heap_ordered dist q -> pq_top q = Some j -> In x q -> get dist j <= get dist x.
Proof.
  intros H Ht Hx. destruct q as [|y q]; [discriminate|]. injection Ht as ->.
  destruct (In_nth _ _ 0 Hx) as (p & Hp & E). rewrite <- E.
  exact (heap_ordered_root dist (j :: q) p H Hp).
Qed.

(** X1: [node_compare] orders the queue by least distance.  The two
    seeding loops first write the reduced costs of the start row and then
    push its columns; started with an empty queue, they leave at [pq.top()]
    a column of the start row whose reduced cost [c - v[j]] is the least of
    the row. *)
Theorem seed_top_least v row d :
  NoDup (map fst row) ->
  (forall e, In e row ->
     0 <= fst e < Z.of_nat (length (dist d)) /\ 0 <= fst e < Z.of_nat (length (in_todo d))) ->
  pq d = [] -> row <> [] ->
  let d' := seed_queue row (seed_dist v row d) in
  exists j c,
    pq_top (pq d') = Some j /\ In (j, c) row
    /\ get (dist d') j = c - get v j
    /\ forall j' c', In (j', c') row -> c - get v j <= c' - get v j'.
Proof.
  intros Hnd Hr Hq Hne.
  destruct (seed_dist_spec v row d Hnd (fun e He => proj1 (Hr e He)))
    as (A1 & A2 & A3 & A4 & A5 & A6 & A7 & A8 & A9).
  destruct (seed_queue_spec row (seed_dist v row d))
    as (B1 & B2 & B3 & B4 & B5 & B6 & B7 & B8).
  { intros e He. rewrite A1. apply Hr; auto. }
  cbv zeta in *.
  assert (Ho : heap_ordered (dist (seed_queue row (seed_dist v row d)))
                 (pq (seed_queue row (seed_dist v row d)))).
  { apply seed_queue_ordered. rewrite A6, Hq. intros p Hp. simpl in Hp. lia. }
  rewrite A6, Hq in B6. cbn [app] in B6.
  destruct (pq (seed_queue row (seed_dist v row d))) as [|j q] eqn:Eq.
  - apply Permutation_nil in B6. destruct row; [congruence | discriminate].
  - assert (Hj : In j (map fst row)) by (apply (Permutation_in _ B6); now left).
    apply in_map_iff in Hj. destruct Hj as ([j0 c] & Ej & Hin). cbn [fst] in Ej. subst j0.
    exists j, c. split; [reflexivity|]. split; [exact Hin|].
    rewrite B1. split; [apply A8; exact Hin|].
    intros j' c' Hin'.
    rewrite <- (A8 j c Hin), <- (A8 j' c' Hin'), <- B1.
    apply (heap_ordered_top _ (j :: q)); [exact Ho | reflexivity|].
    apply (Permutation_in _ (Permutation_sym B6)).
    apply in_map_iff. exists (j', c'). auto.
Qed.

Lemma seed_top_least_witness :
  let row := findRow inst_stale 4 in
  let v := [-5; 0; 0; -1; 2; -2] in
  let d' := seed_queue row (seed_dist v row (reset 4 (new_data 6))) in
  exists j c,
    pq_top (pq d') = Some j /\ In (j, c) row
    /\ get (dist d') j = c - get v j
    /\ forall j' c', In (j', c') row -> c - get v j <= c' - get v j'.
Proof.
  apply (seed_top_least [-5; 0; 0; -1; 2; -2] (findRow inst_stale 4) (reset 4 (new_data 6))).
  - repeat constructor; simpl; intuition lia.
  - intros e He. simpl in He.
    repeat (destruct He as [<-|He]; [simpl; lia|]). destruct He.
  - reflexivity.
  - discriminate.
Defined.

Section FlipStep.
Variables (n : Z) (prev : list Z) (start : Z) (cs0 : list Z) (N0 : Z).
Hypothesis Hstart : 0 <= start < n.
Hypothesis Hprev : forall j, 0 <= j < n ->
  get prev j = start \/ (0 <= get prev j /\ in_image n cs0 (get prev j)).
Hypothesis Hcs0 : forall j, 0 <= j < n -> get cs0 j < n.

Lemma flip_inv_step rs cs e :
  flip_inv n prev start cs0 N0 rs cs e ->
  get prev e <> start ->
  flip_inv n prev start cs0 N0 (vset rs (get prev e) e) (vset cs e (get prev e))
           (get rs (get prev e)).
Proof.
  intros Hinv Nis.
  destruct Hinv as (Hlr & Hlc & He & Hr & Hc & Ha & Hb & Hd & Himg & Hcnt).
  pose proof (prev_in_range n prev start cs0 Hstart Hprev Hcs0 e He) as Hi.
  set (i := get prev e) in *.
  assert (He' : 0 <= get rs i < n) by (apply Hr; lia).
  unfold flip_inv; rewrite !vset_length; repeat split; auto; try lia.
  + rewrite get_vset by lia. destruct (Z.eqb_spec i0 i); [lia | apply Hr; lia].
  + rewrite get_vset by lia. destruct (Z.eqb_spec i0 i); [lia | apply Hr; lia].
  + rewrite get_vset by lia. destruct (Z.eqb_spec j e); [lia | apply Hc; lia].
  + rewrite get_vset by lia. destruct (Z.eqb_spec j e); [lia | apply Hc; lia].
  + intros j Hj Hne. rewrite (get_vset cs) by lia.
    destruct (Z.eqb_spec j e) as [->|Hje]; intros Hpos.
    * apply get_vset_same; lia.
    * rewrite get_vset_other; [apply Ha; auto|].
      intros E; apply Hne. rewrite E. symmetry; apply Ha; auto.
  + intros j Hj. rewrite get_vset by lia.
    destruct (Z.eqb_spec j e); [congruence | apply Hb; auto].
  + intros j Hj Hpj.
    pose proof (prev_in_range n prev start cs0 Hstart Hprev Hcs0 j Hj) as Hi2.
    rewrite (get_vset rs) by lia.
    destruct (Z.eqb_spec (get prev j) i) as [E|Hne].
    * rewrite get_vset_same by lia. lia.
    * rewrite get_vset by lia.
      destruct (Z.eqb_spec (get rs (get prev j)) e); [lia | apply Hd; auto].
  + intros j Hj. rewrite get_vset by lia.
    destruct (Z.eqb_spec j e) as [->|Hje]; intros Hpos.
    * destruct (Hprev e He) as [E|[_ Him]]; [contradiction | exact Him].
    * apply Himg; auto.
  + rewrite assigned_rows_vset by lia.
    assert (Hpos : 0 <= get (vset cs e i) (get rs i)).
    { rewrite get_vset by lia.
      destruct (Z.eqb_spec (get rs i) e); [lia | apply (Hd e He Nis)]. }
    destruct (Z.leb_spec 0 (get (vset cs e i) (get rs i))); [|lia].
    destruct (Z.leb_spec 0 (get cs e)), (Z.leb_spec 0 i); lia.
Qed.

(** The flip reads [rowsol] at assigned rows only. *)
Lemma flip_path_agree fuel rs1 rs2 cs e :
  flip_inv n prev start cs0 N0 rs2 cs e ->
  rows_agree n (in_image n cs0) rs1 rs2 ->
  same_flip n (fun i => i = start \/ in_image n cs0 i)
    (flip_path fuel prev start e rs1 cs) (flip_path fuel prev start e rs2 cs).
Proof.
  revert rs1 rs2 cs e; induction fuel as [|fuel IH]; intros rs1 rs2 cs e Hinv [Hl Hag];
    cbn [flip_path]; [exact I|].
  pose proof Hinv as (Hlr & Hlc & He & _).
  pose proof (prev_in_range n prev start cs0 Hstart Hprev Hcs0 e He) as Hi.
  cbv zeta.
  destruct (Z.eqb_spec (get prev e) start) as [Eis|Nis].
  - cbn [same_flip]. split; auto. split; [now rewrite !vset_length|].
    intros i Hi0 HP. rewrite !get_vset by lia.
    destruct (Z.eqb_spec i (get prev e)); auto.
    destruct HP as [->|HP]; [congruence | auto].
  - assert (HP : in_image n cs0 (get prev e)).
    { destruct (Hprev e He) as [E|[_ H]]; [contradiction | exact H]. }
    rewrite (Hag (get prev e) Hi HP).
    apply IH.
    + apply flip_inv_step; auto.
    + split; [now rewrite !vset_length|].
      intros i Hi0 HPi. rewrite !get_vset by lia.
      destruct (Z.eqb_spec i (get prev e)); auto.
Qed.

Variable m : sigma_matrix.

(** The flip hands a column to the row its label names. *)
Lemma flip_path_stored fuel rs cs e rs' cs' :
  flip_inv n prev start cs0 N0 rs cs e ->
  on_stored m n cs ->
  stored m (get prev e) e <> None ->
  (forall j, 0 <= j < n -> get prev j <> start ->
     stored m (get prev (get rs (get prev j))) (get rs (get prev j)) <> None) ->
  flip_path fuel prev start e rs cs = Done (rs', cs') ->
  on_stored m n cs'.
Proof.
  revert rs cs e; induction fuel as [|fuel IH]; intros rs cs e Hinv Hon Hq Hnext Hrun;
    [discriminate|].
  cbn [flip_path] in Hrun. cbv zeta in Hrun.
  pose proof Hinv as (Hlr & Hlc & He & Hr & _).
  pose proof (prev_in_range n prev start cs0 Hstart Hprev Hcs0 e He) as Hi.
  assert (Hon' : on_stored m n (vset cs e (get prev e))).
  { intros j Hj. rewrite get_vset by lia.
    destruct (Z.eqb_spec j e) as [->|Hne]; auto. }
  destruct (Z.eqb_spec (get prev e) start) as [Eis|Nis].
  - injection Hrun as <- <-. exact Hon'.
  - eapply IH in Hrun; eauto.
    + apply flip_inv_step; auto.
    + intros j Hj Hpj.
      pose proof (prev_in_range n prev start cs0 Hstart Hprev Hcs0 j Hj) as Hi2.
      rewrite get_vset by lia.
      destruct (Z.eqb_spec (get prev j) (get prev e)) as [E|Hne]; auto.
Qed.

End FlipStep.

Lemma In_stored m i j c : In (j, c) (findRow m i) -> stored m i j <> None.
Proof.
  intros Hin. unfold stored.
  destruct (find (fun e => fst e =? j) (findRow m i)) as [e|] eqn:Ef; [discriminate|].
  exfalso. apply (find_none _ _ Ef) in Hin. cbn [fst] in Hin. lia.
Qed.

Section LabelInv.
Variables (m : sigma_matrix) (n : Z) (cs : list Z) (start : Z).

Lemma label_inv_relabel d j x i :
  search_inv n cs start d -> label_inv m n cs start d ->
  0 <= j < n -> stored m i j <> None ->
  (exists j1, 0 <= j1 < n /\ In j1 (ready d) /\ 0 <= get cs j1 /\ i = get cs j1) ->
  label_inv m n cs start (set_prev (set_dist d j x) j i)
  /\ stored m (get (prev (set_prev (set_dist d j x) j i)) j) j <> None.
Proof.
  intros (Hl & _) [Ha Hb] Hj Hst Hi.
  cbn [set_prev set_dist prev].
  split; [split|].
  - intros j' Hj' HL. cbn [set_prev set_dist prev]. rewrite get_vset by lia.
    destruct (Z.eqb_spec j' j) as [->|Hne]; auto.
  - intros j' Hj'. cbn [set_prev set_dist prev ready]. rewrite get_vset by lia.
    destruct (Z.eqb_spec j' j) as [->|Hne]; auto.
  - rewrite get_vset_same by lia. exact Hst.
Qed.

Lemma label_inv_enqueue d j :
  label_inv m n cs start d -> stored m (get (prev d) j) j <> None ->
  label_inv m n cs start (enqueue d j).
Proof.
  intros [Ha Hb] Hq. split; [|exact Hb].
  intros j' Hj' HL. unfold labelled in HL. cbn [enqueue in_todo prev scan ready] in *.
  destruct HL as [HL|HL].
  - destruct (Z.eq_dec j j') as [->|Hne]; auto.
    apply Ha; auto. left. unfold getb in *. now rewrite vget_vset_other in HL.
  - apply Ha; auto. right; exact HL.
Qed.

Lemma label_inv_to_scan d j :
  label_inv m n cs start d -> stored m (get (prev d) j) j <> None ->
  label_inv m n cs start (to_scan d j).
Proof.
  intros [Ha Hb] Hq. split; [|exact Hb].
  intros j' Hj' HL; cbn [to_scan in_todo prev scan ready] in *.
  destruct (Z.eq_dec j j') as [->|Hne]; auto.
  apply Ha; auto. unfold labelled in HL. cbn [to_scan in_todo scan ready] in HL.
  destruct HL as [HL|[[E|HL]|HL]].
  - left. unfold getb in *. now rewrite vget_vset_other in HL.
  - contradiction.
  - right; left; exact HL.
  - right; right; exact HL.
Qed.

Lemma label_inv_dequeue d :
  label_inv m n cs start d -> label_inv m n cs start (dequeue d).
Proof. intros H; exact H. Qed.

Lemma label_inv_finalize d j1 rest :
  scan d = j1 :: rest ->
  label_inv m n cs start d -> label_inv m n cs start (finalize d j1).
Proof.
  intros Es [Ha Hb]. split.
  - intros j Hj HL. cbn [finalize prev]. apply Ha; auto.
    unfold labelled in HL. cbn [finalize in_todo scan ready] in HL.
    destruct HL as [HL|[HL|HL]].
    + left; exact HL.
    + right; left. rewrite Es in *. now right.
    + destruct HL as [<-|HL]; [right; left; rewrite Es; now left | right; right; exact HL].
  - intros j Hj. cbn [finalize prev ready].
    destruct (Hb j Hj) as [E|(j2 & H1 & H2 & H3 & H4)]; [now left|].
    right; exists j2. split; [exact H1|]. split; [now right | auto].
Qed.

Lemma label_inv_same d d' :
  in_todo d' = in_todo d -> scan d' = scan d -> ready d' = ready d -> prev d' = prev d ->
  label_inv m n cs start d -> label_inv m n cs start d'.
Proof.
  intros E1 E2 E3 E4 [Ha Hb]. unfold label_inv, labelled. rewrite E1, E2, E3, E4. auto.
Qed.

Lemma label_inv_drop_stale d :
  label_inv m n cs start d -> label_inv m n cs start (drop_stale (length (pq d)) d).
Proof.
  destruct (drop_stale_post (length (pq d)) d (le_n _))
    as (_ & H2 & H3 & _ & H5 & H6 & _).
  apply label_inv_same; auto.
Qed.

Lemma collect_min_label fuel min d d' found :
  search_inv n cs start d -> label_inv m n cs start d ->
  collect_min fuel cs min d = Done (d', found) ->
  label_inv m n cs start d' /\ found_stored m d' found.
Proof.
  revert d; induction fuel as [|fuel IH]; intros d Hinv Hlab Hrun; simpl in Hrun; [discriminate|].
  destruct (pq_top (pq d)) as [j|] eqn:Et.
  - assert (Hj : 0 <= j < n) by (destruct Hinv as (_ & _ & Hq & _); apply Hq, (pq_top_In _ _ Et)).
    destruct (get (dist d) j =? min).
    + destruct (getb (in_todo d) j) eqn:Ei.
      * assert (Hq : stored m (get (prev d) j) j <> None)
          by (apply (proj1 Hlab); auto; left; exact Ei).
        destruct (Z.ltb_spec (get cs j) 0).
        -- injection Hrun as <- <-; split; auto.
           intros e E; injection E as <-; auto.
        -- apply IH in Hrun; auto.
           ++ apply search_inv_dequeue, search_inv_to_scan; auto.
           ++ apply label_inv_dequeue, label_inv_to_scan; auto.
      * apply IH in Hrun; auto.
    + injection Hrun as <- <-; split; auto. intros e E; discriminate.
  - injection Hrun as <- <-; split; auto. intros e E; discriminate.
Qed.

Lemma expand_row_label row v i h min d d' found :
  search_inv n cs start d -> label_inv m n cs start d ->
  (forall e, In e row -> 0 <= fst e < n /\ stored m i (fst e) <> None) ->
  (exists j1, 0 <= j1 < n /\ In j1 (ready d) /\ 0 <= get cs j1 /\ i = get cs j1) ->
  expand_row row v cs i h min d = (d', found) ->
  label_inv m n cs start d' /\ found_stored m d' found.
Proof.
  revert d; induction row as [|[j c] row IH]; intros d Hinv Hlab Hrow Hi Hrun;
    cbn [expand_row] in Hrun; cbv zeta in Hrun.
  - injection Hrun as <- <-; split; auto. intros e E; discriminate.
  - destruct (Hrow (j, c) (or_introl eq_refl)) as [Hj Hst]. cbn [fst] in Hj, Hst.
    assert (Hrow' : forall e, In e row -> 0 <= fst e < n /\ stored m i (fst e) <> None)
      by (intros e He; apply Hrow; now right).
    assert (Hlike : row_like n cs start i).
    { destruct Hi as (j1 & H1 & H2 & H3 & ->). right; split; auto. exists j1; auto. }
    set (d1 := set_prev (set_dist d j (min + (c - get v j - h))) j i) in *.
    assert (Hinv1 : search_inv n cs start d1) by (apply search_inv_set_prev; auto).
    destruct (label_inv_relabel d j (min + (c - get v j - h)) i Hinv Hlab Hj Hst Hi)
      as [Hlab1 Hq1]. fold d1 in Hlab1, Hq1.
    assert (Hi1 : exists j1, 0 <= j1 < n /\ In j1 (ready d1) /\ 0 <= get cs j1 /\ i = get cs j1)
      by exact Hi.
    case_if Hrun; [eapply IH; [| | | |exact Hrun]; auto|].
    case_if Hrun; [|eapply IH; [| | | |exact Hrun]; auto].
    case_if Hrun.
    + case_if Hrun.
      * injection Hrun as <- <-; split; auto.
        intros e E; injection E as <-; auto.
      * eapply IH; [| | | |exact Hrun]; auto.
        -- apply search_inv_to_scan; auto; lia.
        -- apply label_inv_to_scan; auto.
    + case_if Hrun.
      * eapply IH; [| | | |exact Hrun]; auto.
        -- apply search_inv_enqueue; auto.
        -- apply label_inv_enqueue; auto.
      * eapply IH; [| | | |exact Hrun]; auto.
        apply search_inv_requeue; auto.
Qed.

Lemma search_body_label BIG fuel v min d d' min' found :
  wf_matrix m = true -> dimension m = n ->
  search_inv n cs start d -> label_inv m n cs start d ->
  search_body BIG fuel m v cs min d = Done (d', min', found) ->
  label_inv m n cs start d' /\ found_stored m d' found.
Proof.
  intros Hwf Hn Hinv Hlab Hrun.
  assert (Htail : forall d2 min2,
    search_inv n cs start d2 -> label_inv m n cs start d2 ->
    match scan d2 with
    | [] => Undefined
    | j1 :: _ =>
        let i := get cs j1 in
        let d3 := finalize d2 j1 in
        let h := assigncost BIG m i j1 - get v j1 in
        let (d4, found) := expand_row (findRow m i) v cs i h min2 d3 in
        Done (d4, min2, found)
    end = Done (d', min', found) ->
    label_inv m n cs start d' /\ found_stored m d' found).
  { intros d2 min2 Hinv2 Hlab2 Ht.
    destruct (scan d2) as [|j1 rest] eqn:Es; [discriminate|].
    cbv zeta in Ht.
    destruct (expand_row _ _ _ _ _ _ _) as [d4 f4] eqn:Ee.
    injection Ht as <- <- <-.
    assert (Hj1 : 0 <= j1 < n /\ 0 <= get cs j1)
      by (destruct Hinv2 as (_ & Hs & _); apply Hs; rewrite Es; now left).
    eapply expand_row_label; [| | | |exact Ee].
    - apply search_inv_finalize, Hinv2.
    - eapply label_inv_finalize; eauto.
    - intros [j c] He; cbn [fst]. split.
      + rewrite <- Hn. apply (wf_row_columns m (get cs j1) (j, c)); auto.
      + eapply In_stored; eauto.
    - exists j1. cbn [finalize ready]. repeat split; try lia. now left. }
  unfold search_body in Hrun.
  destruct (scan d) as [|j l] eqn:Es.
  - pose proof (search_inv_drop_stale n cs start (length (pq d)) d Hinv) as Hinv1.
    pose proof (label_inv_drop_stale d Hlab) as Hlab1.
    destruct (pq_top _) as [t|]; [|discriminate].
    destruct (collect_min _ _ _ _) as [[d2 f]| |] eqn:Ec; try discriminate.
    pose proof (collect_min_inv n cs start _ _ _ _ _ Hinv1 Ec) as [Hinv2 _].
    apply collect_min_label in Ec; auto. destruct Ec as [Hlab2 Hf].
    cbn [bind] in Hrun.
    destruct f as [e|].
    + injection Hrun as <- <- <-; split; auto.
    + eapply (Htail d2 _ Hinv2 Hlab2); exact Hrun.
  - cbn [bind] in Hrun. eapply (Htail d min); auto.
Qed.

Lemma search_label BIG k fuel v min d d' min' e :
  wf_matrix m = true -> dimension m = n ->
  search_inv n cs start d -> label_inv m n cs start d ->
  search BIG k fuel m v cs min d = Done (d', min', e) ->
  label_inv m n cs start d' /\ stored m (get (prev d') e) e <> None.
Proof.
  intros Hwf Hn; revert min d; induction k as [|k IH]; intros min d Hinv Hlab Hrun;
    simpl in Hrun; [discriminate|].
  destruct (search_body _ _ _ _ _ _ _) as [[[d1 min1] f]| |] eqn:Eb; try discriminate.
  pose proof (search_body_inv n cs start _ _ _ _ _ _ _ _ _ Hwf Hn Hinv Eb) as [Hinv1 _].
  apply search_body_label in Eb; auto. destruct Eb as [Hlab1 Hf].
  cbn [bind] in Hrun. destruct f as [e1|].
  - injection Hrun as <- <- <-; split; auto.
  - eapply IH; eauto.
Qed.

Lemma label_inv_seed v row d :
  Z.of_nat (length (prev d)) = n ->
  0 <= start -> row = findRow m start ->
  (forall e, In e row -> 0 <= fst e < n) ->
  label_inv m n cs start (seed_queue row (seed_dist v row (reset start d))).
Proof.
  intros Hl Hs Hrow Hr.
  assert (H0 : forall d0, prev d0 = fill start (prev d) ->
            (forall j, 0 <= j < n -> labelled d0 j -> In j (map fst (findRow m start))) ->
            ready d0 = [] ->
            forall row', incl row' (findRow m start) ->
            let d' := seed_queue row' d0 in
            prev d' = fill start (prev d)
            /\ (forall j, 0 <= j < n -> labelled d' j -> In j (map fst (findRow m start)))).
  { intros d0 Hp HL Hrd row'. revert d0 Hp HL Hrd.
    induction row' as [|[j c] rest IH]; intros d0 Hp HL Hrd Hincl; cbn [seed_queue fold_left].
    - auto.
    - apply IH; auto.
      + intros j' Hj' H. unfold labelled in H. cbn [enqueue in_todo scan ready fst] in H.
        destruct H as [H|[H|H]].
        * destruct (Z.eq_dec j j') as [<-|Hne].
          -- apply in_map_iff. exists (j, c); split; auto. apply Hincl; now left.
          -- apply HL; auto. left. unfold getb in *. now rewrite vget_vset_other in H.
        * apply HL; auto. right; left; exact H.
        * apply HL; auto. right; right; exact H.
      + intros e He; apply Hincl; now right. }
  assert (Hsd : forall row' d0, in_todo (seed_dist v row' d0) = in_todo d0
            /\ scan (seed_dist v row' d0) = scan d0 /\ ready (seed_dist v row' d0) = ready d0
            /\ prev (seed_dist v row' d0) = prev d0).
  { unfold seed_dist. induction row' as [|e rest IH]; intros d0; cbn [fold_left]; auto.
    destruct (IH (set_dist d0 (fst e) (snd e - get v (fst e)))) as (A & B & C & D).
    rewrite A, B, C, D. auto. }
  destruct (Hsd row (reset start d)) as (A & B & C & D).
  destruct (H0 (seed_dist v row (reset start d))) with (row' := row) as [Hp HL].
  - rewrite D. reflexivity.
  - intros j Hj H. unfold labelled in H. rewrite A, B, C in H.
    cbn [reset in_todo scan ready] in H. destruct H as [H|[H|H]].
    + exfalso. unfold getb in H. destruct (Z.lt_ge_cases j (Z.of_nat (length (in_todo d)))).
      * rewrite vget_fill in H by lia. discriminate.
      * rewrite vget_outside in H; [discriminate|]. rewrite fill_length. lia.
    + destruct H.
    + destruct H.
  - rewrite C. reflexivity.
  - rewrite Hrow. apply incl_refl.
  - assert (Hpj : forall j, 0 <= j < n ->
              get (prev (seed_queue row (seed_dist v row (reset start d)))) j = start).
    { intros j Hj. rewrite Hp. unfold get. apply vget_fill. lia. }
    split.
    + intros j Hj HLj. rewrite Hpj by auto.
      apply HL in HLj; auto. apply in_map_iff in HLj. destruct HLj as ([j' c] & E & Hin).
      cbn [fst] in E; subst j'. eapply In_stored; eauto.
    + intros j Hj. left. auto.
Qed.

End LabelInv.

Lemma flip_inv_init n prev start e rs cs :
  matching n rs cs ->
  0 <= start < n -> ~ in_image n cs start ->
  0 <= e < n -> get cs e < 0 ->
  (forall j, 0 <= j < n ->
     get prev j = start \/ (0 <= get prev j /\ in_image n cs (get prev j))) ->
  flip_inv n prev start cs (Z.of_nat (length (assigned_rows cs))) rs cs e.
Proof.
  intros Hm Hs Hfree He Hce Hprev.
  pose proof Hm as (Hlr & Hlc & Hr & Hc & Hrc).
  unfold flip_inv.
  split; [exact Hlr|]; split; [exact Hlc|]; split; [exact He|].
  split; [exact Hr|]; split; [exact Hc|].
  split; [|split; [|split; [|split]]].
  - intros j Hj _; apply Hrc, Hj.
  - intros j Hj E; apply Hfree; exists j; auto.
  - intros j Hj Hne.
    destruct (Hprev j Hj) as [E|[Hp (j' & Hj' & E)]]; [contradiction|].
    rewrite <- E. rewrite Hrc; auto; lia.
  - intros j Hj _; exists j; auto.
  - destruct (Z.leb_spec 0 (get cs e)); lia.
Qed.

Lemma augment_stored BIG fuel m start rest a a' n :
  wf_matrix m = true -> dimension m = n ->
  matching n (a_rowsol a) (a_colsol a) ->
  pending_ok n (a_colsol a) (start :: rest) ->
  Z.of_nat (length (prev (a_data a))) = n ->
  on_stored m n (a_colsol a) ->
  augment BIG fuel m start a = Done a' ->
  on_stored m n (a_colsol a').
Proof.
  intros Hwf Hn Hm (Hnd & Hfree & Hcov) Hl Hon Hrun.
  unfold augment in Hrun.
  destruct (search _ _ _ _ _ _ _ _) as [[[d min] e]| |] eqn:Es; try discriminate.
  cbn [bind] in Hrun.
  destruct (flip_path _ _ _ _ _ _) as [[rs' cs']| |] eqn:Ef; try discriminate.
  cbn [bind] in Hrun. injection Hrun as <-. cbn [a_rowsol a_colsol a_data].
  destruct (Hfree start (or_introl eq_refl)) as [Hs Hsfree].
  assert (Hrowr : forall x, In x (findRow m start) -> 0 <= fst x < n)
    by (intros x Hx; rewrite <- Hn; eapply wf_row_columns; eauto).
  assert (Hinv0 : search_inv n (a_colsol a) start (reset start (a_data a)))
    by (apply search_inv_reset; exact Hl).
  pose proof Es as Es'.
  apply (search_inv_search n (a_colsol a) start) in Es; auto.
  2: { apply search_inv_seed; auto. }
  apply (search_label m n (a_colsol a) start) in Es'; auto.
  2: { apply search_inv_seed; auto. }
  2: { apply label_inv_seed; auto. lia. }
  destruct Es as ((Hlp & _ & _ & Hprev) & He & Hce).
  destruct Es' as ([Hla Hlb] & Hq).
  pose proof Hm as (Hlr & Hlc & Hr & Hc & Hrc).
  eapply (flip_path_stored n (prev d) start (a_colsol a)
            (Z.of_nat (length (assigned_rows (a_colsol a)))) Hs Hprev
            (fun j Hj => proj2 (Hc j Hj)) m fuel); [| | | |exact Ef]; auto.
  - apply flip_inv_init; auto.
  - intros j Hj Hne.
    destruct (Hlb j Hj) as [E|(j1 & Hj1 & Hrd & Hpos & E)]; [contradiction|].
    rewrite E, Hrc by auto. apply Hla; auto. right; right; exact Hrd.
Qed.

Lemma augment_agree BIG fuel m start rest d v rs1 rs2 cs n :
  wf_matrix m = true -> dimension m = n ->
  matching n rs2 cs ->
  pending_ok n cs (start :: rest) ->
  Z.of_nat (length (prev d)) = n ->
  rows_agree n (in_image n cs) rs1 rs2 ->
  same_augment n
    (augment BIG fuel m start {| a_data := d; a_v := v; a_rowsol := rs1; a_colsol := cs |})
    (augment BIG fuel m start {| a_data := d; a_v := v; a_rowsol := rs2; a_colsol := cs |}).
Proof.
  intros Hwf Hn Hm (Hnd & Hfree & Hcov) Hl Hag.
  unfold augment. cbn [a_data a_v a_rowsol a_colsol].
  destruct (search _ _ _ _ _ _ _ _) as [[[d' min] e]| |] eqn:Es; cbn [bind same_augment]; auto.
  destruct (Hfree start (or_introl eq_refl)) as [Hs Hsfree].
  apply (search_inv_search n cs start) in Es; auto.
  2: { apply search_inv_seed; [apply search_inv_reset; exact Hl|].
       intros x Hx; rewrite <- Hn; eapply wf_row_columns; eauto. }
  destruct Es as ((Hlp & _ & _ & Hprev) & He & Hce).
  pose proof Hm as (Hlr & Hlc & Hr & Hc & Hrc).
  pose proof (flip_path_agree n (prev d') start cs
                (Z.of_nat (length (assigned_rows cs))) Hs Hprev
                (fun j Hj => proj2 (Hc j Hj)) fuel rs1 rs2 cs e
                (flip_inv_init n (prev d') start e rs2 cs Hm Hs Hsfree He Hce Hprev) Hag)
    as Hflip.
  destruct (flip_path fuel (prev d') start e rs2 cs) as [[r2 c2]| |] eqn:E2;
    destruct (flip_path fuel (prev d') start e rs1 cs) as [[r1 c1]| |] eqn:E1;
    cbn [same_flip] in Hflip; try contradiction; cbn [bind same_augment]; auto.
  destruct Hflip as [-> [Hlen Hag']]. cbn [a_data a_v a_rowsol a_colsol].
  repeat split; auto.
  intros i Hi Him. apply Hag'; auto.
  destruct (flip_path_matching n fuel (prev d') start e rs2 cs r2 c2 Hm Hs Hsfree He Hce Hprev E2)
    as (_ & _ & Hsub).
  apply Hsub; auto. lia.
Qed.

Lemma augment_all_agree BIG fuel m n frees d v rs1 rs2 cs :
  wf_matrix m = true -> dimension m = n ->
  matching n rs2 cs ->
  pending_ok n cs frees ->
  Z.of_nat (length (prev d)) = n ->
  rows_agree n (in_image n cs) rs1 rs2 ->
  same_augment n
    (augment_all BIG fuel m frees {| a_data := d; a_v := v; a_rowsol := rs1; a_colsol := cs |})
    (augment_all BIG fuel m frees {| a_data := d; a_v := v; a_rowsol := rs2; a_colsol := cs |}).
Proof.
  intros Hwf Hn; revert d v rs1 rs2 cs;
    induction frees as [|f rest IH]; intros d v rs1 rs2 cs Hm Hp Hl Hag; cbn [augment_all].
  - cbn [same_augment a_data a_v a_rowsol a_colsol]. auto.
  - pose proof (augment_agree BIG fuel m f rest d v rs1 rs2 cs n Hwf Hn Hm Hp Hl Hag) as H.
    destruct (augment BIG fuel m f {| a_data := d; a_v := v; a_rowsol := rs2; a_colsol := cs |})
      as [a2| |] eqn:E2;
      destruct (augment BIG fuel m f {| a_data := d; a_v := v; a_rowsol := rs1; a_colsol := cs |})
      as [a1| |] eqn:E1; cbn [same_augment] in H; try contradiction; cbn [bind]; auto.
    destruct H as (Hd & Hv & Hc & Hag').
    destruct (augment_matching BIG fuel m f rest
                {| a_data := d; a_v := v; a_rowsol := rs2; a_colsol := cs |}
                a2 n Hwf Hn Hm Hp Hl E2) as (Hm2 & Hp2 & Hl2).
    destruct a1 as [d1 v1 r1 c1], a2 as [d2 v2 r2 c2].
    cbn [a_data a_v a_rowsol a_colsol] in *. subst d1 v1 c1.
    apply IH; auto.
Qed.

Lemma list_get_ext (l1 l2 : list Z) :
  length l1 = length l2 ->
  (forall i, 0 <= i < Z.of_nat (length l1) -> get l1 i = get l2 i) ->
  l1 = l2.
Proof.
  intros Hl H. rewrite <- (map_vget_range 0 l1), <- (map_vget_range 0 l2), Hl.
  apply map_ext_in. intros i Hi. apply In_range in Hi. apply H. lia.
Qed.

(** ** The free rows of [delta_lap] *)

Lemma delta_free_prefix rowsol0 free0 k :
  (k <= length rowsol0)%nat -> (length rowsol0 <= length free0)%nat ->
  let F := filter (fun i => get rowsol0 i <? 0) (range k) in
  let r := fold_left
             (fun '(free, numfree) i =>
                if get rowsol0 i <? 0 then (vset free numfree i, numfree + 1)
                else (free, numfree))
             (range k) (free0, 0) in
  snd r = Z.of_nat (length F) /\ length (fst r) = length free0
  /\ map (get (fst r)) (range (length F)) = F /\ (length F <= k)%nat.
Proof.
  intros Hk Hl. induction k as [|k IH].
  - simpl. auto.
  - destruct IH as (H1 & H2 & H3 & H4); [lia|].
    cbv zeta in *. rewrite range_S, fold_left_app, filter_app.
    destruct (fold_left _ (range k) (free0, 0)) as [free numfree].
    cbn [fst snd] in *. cbn [fold_left filter].
    destruct (get rowsol0 (Z.of_nat k) <? 0).
    + cbn [fst snd]. rewrite length_app, vset_length. cbn [length].
      split; [lia|]. split; [exact H2|]. split; [|lia].
      rewrite Nat.add_1_r.
      rewrite range_S, map_app. cbn [map]. f_equal.
      * rewrite <- H3 at 2. apply map_ext_in. intros p Hp. apply In_range in Hp.
        apply get_vset_other. lia.
      * f_equal. rewrite H1. apply get_vset_same. lia.
    + cbn [fst snd]. rewrite app_nil_r. auto.
Qed.

Lemma delta_free_list rowsol0 free0 :
  (length rowsol0 <= length free0)%nat ->
  free_list (fst (delta_free rowsol0 free0)) (snd (delta_free rowsol0 free0))
  = filter (fun i => get rowsol0 i <? 0) (range (length rowsol0))
  /\ length (fst (delta_free rowsol0 free0)) = length free0.
Proof.
  intros Hl. unfold delta_free, free_list.
  destruct (delta_free_prefix rowsol0 free0 (length rowsol0) (le_n _) Hl) as (H1 & H2 & H3 & _).
  cbv zeta in *. rewrite H1, Nat2Z.id. auto.
Qed.

(** X16: the loop of [delta_lap] over [_rowsol] lists in [free] the rows
    with a negative entry, in ascending order, and nothing else. *)
Theorem delta_free_spec rowsol0 free0 :
  (length rowsol0 <= length free0)%nat ->
  free_list (fst (delta_free rowsol0 free0)) (snd (delta_free rowsol0 free0))
  = filter (fun i => get rowsol0 i <? 0) (range (length rowsol0))
  /\ length (fst (delta_free rowsol0 free0)) = length free0.
Proof. exact (delta_free_list rowsol0 free0). Qed.

Lemma delta_free_spec_witness :
  free_list (fst (delta_free [1; -1; 0; -1] [7; 7; 7; 7])) (snd (delta_free [1; -1; 0; -1] [7; 7; 7; 7]))
  = filter (fun i => get [1; -1; 0; -1] i <? 0) (range (length [1; -1; 0; -1]))
  /\ length (fst (delta_free [1; -1; 0; -1] [7; 7; 7; 7])) = length [7; 7; 7; 7].
Proof.
  apply (delta_free_spec [1; -1; 0; -1] [7; 7; 7; 7]). simpl; lia.
Defined.

Lemma delta_free_none rowsol0 free0 :
  (forall i, 0 <= i < Z.of_nat (length rowsol0) -> 0 <= get rowsol0 i) ->
  delta_free rowsol0 free0 = (free0, 0).
Proof.
  intros H. unfold delta_free.
  assert (G : forall L, (forall i, In i L -> 0 <= get rowsol0 i) ->
     fold_left
       (fun '(free, numfree) i =>
          if get rowsol0 i <? 0 then (vset free numfree i, numfree + 1)
          else (free, numfree)) L (free0, 0) = (free0, 0)).
  { induction L as [|a L IH]; intros HL; cbn [fold_left]; auto.
    destruct (Z.ltb_spec (get rowsol0 a) 0) as [Hneg|_].
    - specialize (HL a (or_introl eq_refl)). lia.
    - apply IH. intros i Hi; apply HL; now right. }
  apply G. intros i Hi. apply In_range in Hi. auto.
Qed.

(** X17: when no entry of [_rowsol] is negative, [delta_lap] runs no
    augmentation: it returns, whatever the loop budget, the assignment it
    was given, with the column prices of its first loop. *)
Theorem delta_lap_nothing_free BIG fuel free0 m u0 v0 rowsol0 colsol0 :
  (forall i, 0 <= i < Z.of_nat (length rowsol0) -> 0 <= get rowsol0 i) ->
  exists sol,
    delta_lap BIG fuel free0 m u0 v0 rowsol0 colsol0 = Done sol
    /\ rowsol sol = rowsol0 /\ colsol sol = colsol0
    /\ v sol = delta_prices BIG m u0 v0 colsol0.
Proof.
  intros H. unfold delta_lap. rewrite (delta_free_none rowsol0 free0 H).
  cbn [free_list Z.to_nat range seq map augment_all bind].
  eexists; split; [reflexivity|].
  unfold make_solution. cbn [a_rowsol a_colsol a_v].
  destruct (optimal_cost BIG m rowsol0 _). cbn. auto.
Qed.

Lemma delta_lap_nothing_free_witness :
  exists sol,
    delta_lap 100000 0 [0; 0; 0] inst_delta [6; 0; 1] [-1; 3; 0] [1; 2; 0] [2; 0; 1] = Done sol
    /\ rowsol sol = [1; 2; 0] /\ colsol sol = [2; 0; 1]
    /\ v sol = delta_prices 100000 inst_delta [6; 0; 1] [-1; 3; 0] [2; 0; 1].
Proof.
  apply (delta_lap_nothing_free 100000 0 [0; 0; 0] inst_delta [6; 0; 1] [-1; 3; 0]
           [1; 2; 0] [2; 0; 1]).
  intros i Hi. simpl in Hi.
  assert (E : i = 0 \/ i = 1 \/ i = 2) by lia.
  destruct E as [-> | [-> | ->]]; vm_compute; discriminate.
Defined.

(** ** [delta_lap] returns a bijection *)

Lemma get_map_max (l : list Z) i :
  0 <= i < Z.of_nat (length l) -> get (map (Z.max 0) l) i = Z.max 0 (get l i).
Proof.
  intros Hi. unfold get, vget. destruct (Z.ltb_spec i 0); [lia|].
  rewrite (nth_indep _ 0 (Z.max 0 0)) by (rewrite length_map; lia).
  apply map_nth.
Qed.

Lemma partial_matching n rs cs :
  partial_assignment n rs cs ->
  matching n (map (Z.max 0) rs) cs
  /\ rows_agree n (in_image n cs) rs (map (Z.max 0) rs)
  /\ pending_ok n cs (filter (fun i => get rs i <? 0) (range (length rs))).
Proof.
  intros (Hlr & Hlc & Hr & Hc & Hrc & Hcr).
  split; [|split].
  - unfold matching. rewrite length_map. repeat split; auto.
    + rewrite get_map_max by lia. lia.
    + rewrite get_map_max by lia. specialize (Hr i ltac:(lia)). lia.
    + apply Hc; auto.
    + apply Hc; auto.
    + intros j Hj Hpos. specialize (Hc j Hj).
      rewrite get_map_max by lia. rewrite Hrc by auto. lia.
  - split; [now rewrite length_map|].
    intros i Hi (j & Hj & E). rewrite get_map_max by lia.
    subst i. rewrite Hrc by lia. lia.
  - split; [apply NoDup_filter, NoDup_range|]. split.
    + intros f Hf. apply filter_In in Hf. destruct Hf as [Hf Hneg].
      apply In_range in Hf. split; [lia|].
      intros (j & Hj & E). subst f. rewrite Hrc in Hneg by lia. lia.
    + intros i Hi. destruct (Z.ltb_spec (get rs i) 0) as [Hneg|Hpos].
      * right. apply filter_In. split; [apply In_range; lia|].
        apply Z.ltb_lt; exact Hneg.
      * left. exists (get rs i). split; [|apply Hcr; auto].
        specialize (Hr i Hi). lia.
Qed.

Lemma augment_all_stored BIG fuel m n frees a a' :
  wf_matrix m = true -> dimension m = n ->
  matching n (a_rowsol a) (a_colsol a) ->
  pending_ok n (a_colsol a) frees ->
  Z.of_nat (length (prev (a_data a))) = n ->
  on_stored m n (a_colsol a) ->
  augment_all BIG fuel m frees a = Done a' ->
  on_stored m n (a_colsol a').
Proof.
  intros Hwf Hn; revert a; induction frees as [|f rest IH]; intros a Hm Hp Hl Hon Hrun;
    simpl in Hrun.
  - injection Hrun as <-; auto.
  - destruct (augment BIG fuel m f a) as [a1| |] eqn:Ea; try discriminate.
    cbn [bind] in Hrun.
    destruct (augment_matching BIG fuel m f rest a a1 n Hwf Hn Hm Hp Hl Ea) as (Hm1 & Hp1 & Hl1).
    pose proof (augment_stored BIG fuel m f rest a a1 n Hwf Hn Hm Hp Hl Hon Ea) as Hon1.
    eapply IH; eauto.
Qed.

(** What [delta_lap] returns, in terms of the run on the row vector
    with its negative entries replaced. *)
Lemma delta_lap_assignment BIG fuel free0 m u0 v0 rowsol0 colsol0 sol :
  wf_matrix m = true ->
  partial_assignment (dimension m) rowsol0 colsol0 ->
  length free0 = dim m ->
  delta_lap BIG fuel free0 m u0 v0 rowsol0 colsol0 = Done sol ->
  exists a,
    augment_all BIG fuel m (filter (fun i => get rowsol0 i <? 0) (range (length rowsol0)))
      {| a_data := new_data (dim m); a_v := delta_prices BIG m u0 v0 colsol0;
         a_rowsol := map (Z.max 0) rowsol0; a_colsol := colsol0 |} = Done a
    /\ sol = make_solution BIG m a.
Proof.
  intros Hwf Hpa Hl0 Hrun.
  destruct (partial_matching _ _ _ Hpa) as (Hm & Hag & Hp).
  pose proof Hpa as (Hlr & _).
  unfold delta_lap in Hrun.
  destruct (delta_free_list rowsol0 free0) as [Hfl _].
  { unfold dimension, dim in *. lia. }
  destruct (delta_free rowsol0 free0) as [free numfree]. cbn [fst snd] in Hfl.
  rewrite Hfl in Hrun.
  assert (Hlp : Z.of_nat (length (prev (new_data (dim m)))) = dimension m)
    by (cbn [new_data prev]; rewrite repeat_length; reflexivity).
  pose proof (augment_all_agree BIG fuel m (dimension m) _ (new_data (dim m))
                (delta_prices BIG m u0 v0 colsol0) rowsol0 (map (Z.max 0) rowsol0) colsol0
                Hwf eq_refl Hm Hp Hlp Hag) as Hsame.
  destruct (augment_all BIG fuel m _
              {| a_data := new_data (dim m); a_v := delta_prices BIG m u0 v0 colsol0;
                 a_rowsol := rowsol0; a_colsol := colsol0 |}) as [a1| |] eqn:E1;
    try discriminate.
  cbn [bind] in Hrun. injection Hrun as <-.
  destruct (augment_all BIG fuel m _
              {| a_data := new_data (dim m); a_v := delta_prices BIG m u0 v0 colsol0;
                 a_rowsol := map (Z.max 0) rowsol0; a_colsol := colsol0 |}) as [a2| |] eqn:E2;
    cbn [same_augment] in Hsame; try contradiction.
  exists a2. split; [reflexivity|].
  destruct Hsame as (Hd & Hv & Hc & Hlen & Hrows).
  destruct (augment_all_matching BIG fuel m (dimension m) _
              {| a_data := new_data (dim m); a_v := delta_prices BIG m u0 v0 colsol0;
                 a_rowsol := map (Z.max 0) rowsol0; a_colsol := colsol0 |}
              a2 Hwf eq_refl Hm Hp Hlp E2)
    as [Hm2 (_ & _ & Hcov)].
  assert (Er : a_rowsol a1 = a_rowsol a2).
  { apply list_get_ext; auto. intros i Hi.
    pose proof Hm2 as (Hlr2 & _).
    assert (Hi' : 0 <= i < dimension m) by lia.
    apply Hrows; auto. destruct (Hcov i Hi') as [H|[]]; exact H. }
  destruct a1 as [d1 v1 r1 c1], a2 as [d2 v2 r2 c2].
  cbn [a_data a_v a_rowsol a_colsol] in *. subst. reflexivity.
Qed.

Lemma delta_lap_bijection BIG fuel free0 m u0 v0 rowsol0 colsol0 sol :
  wf_matrix m = true ->
  partial_assignment (dimension m) rowsol0 colsol0 ->
  length free0 = dim m ->
  delta_lap BIG fuel free0 m u0 v0 rowsol0 colsol0 = Done sol ->
  mutual_inverse (dimension m) (rowsol sol) (colsol sol)
  /\ Permutation (rowsol sol) (range (dim m))
  /\ Permutation (colsol sol) (range (dim m)).
Proof.
  intros Hwf Hpa Hl0 Hrun.
  destruct (delta_lap_assignment _ _ _ _ _ _ _ _ _ Hwf Hpa Hl0 Hrun) as (a & Ea & ->).
  destruct (partial_matching _ _ _ Hpa) as (Hm & Hag & Hp).
  apply (augment_all_matching BIG fuel m (dimension m)) in Ea; auto.
  - destruct Ea as [Hm' Hp'].
    destruct (make_solution_assignment BIG m a) as [-> ->].
    pose proof (complete_matching _ _ _ Hm' Hp') as H.
    unfold dimension in H at 2 3; rewrite Nat2Z.id in H. exact H.
  - cbn [a_data new_data prev]. rewrite repeat_length. reflexivity.
Qed.

(** ** The final loop: row duals and cost *)

Lemma optimal_cost_prefix BIG m rs vv k :
  (k <= dim m)%nat ->
  let r := fold_left
             (fun '(uu, lapcost) i =>
                let j := get rs i in
                (vset uu i (assigncost BIG m i j - get vv j), lapcost + assigncost BIG m i j))
             (range k) (repeat 0 (dim m), 0) in
  length (fst r) = dim m
  /\ (forall i, 0 <= i < Z.of_nat k ->
        get (fst r) i = assigncost BIG m i (get rs i) - get vv (get rs i))
  /\ snd r = sum (map (fun i => assigncost BIG m i (get rs i)) (range k)).
Proof.
  intros Hk. induction k as [|k IH].
  - simpl. rewrite repeat_length. split; auto. split; auto. intros i Hi; lia.
  - destruct IH as (H1 & H2 & H3); [lia|].
    cbv zeta in *. rewrite range_S, fold_left_app, map_app, sum_app.
    destruct (fold_left _ (range k) (repeat 0 (dim m), 0)) as [uu c].
    cbn [fst snd fold_left map sum fold_right] in *.
    rewrite vset_length. split; [exact H1|]. split; [|lia].
    intros i Hi. rewrite get_vset by lia.
    destruct (Z.eqb_spec i (Z.of_nat k)) as [->|Hne]; auto.
    apply H2; lia.
Qed.

Lemma make_solution_spec BIG m a :
  length (a_rowsol a) = dim m ->
  rowsol (make_solution BIG m a) = a_rowsol a
  /\ colsol (make_solution BIG m a) = a_colsol a
  /\ v (make_solution BIG m a) = a_v a
  /\ length (u (make_solution BIG m a)) = dim m
  /\ cost (make_solution BIG m a) = matching_cost BIG m (a_rowsol a)
  /\ forall i, 0 <= i < dimension m ->
       get (u (make_solution BIG m a)) i
       = assigncost BIG m i (get (a_rowsol a) i) - get (a_v a) (get (a_rowsol a) i).
Proof.
  intros Hl. unfold make_solution, optimal_cost. rewrite Hl.
  destruct (optimal_cost_prefix BIG m (a_rowsol a) (a_v a) (dim m) (le_n _)) as (H1 & H2 & H3).
  cbv zeta in *.
  destruct (fold_left _ (range (dim m)) (repeat 0 (dim m), 0)) as [uu c].
  cbn [fst snd rowsol colsol v u cost] in *. repeat split; auto.
Qed.

(** X25: in every solution [lap] returns, [cost] is the sum of
    [assigncost(i, rowsol[i])] over the rows, and the row duals make every
    assigned entry tight: [u[i] + v[rowsol[i]] = assigncost(i, rowsol[i])]. *)
Theorem lap_solution_tight BIG fuel free0 m sol :
  wf_matrix m = true -> length free0 = dim m ->
  lap BIG fuel free0 m = Done sol ->
  cost sol = matching_cost BIG m (rowsol sol)
  /\ length (u sol) = dim m
  /\ forall i, 0 <= i < dimension m ->
       get (u sol) i + get (v sol) (get (rowsol sol) i)
       = assigncost BIG m i (get (rowsol sol) i).
Proof.
  intros Hwf Hl0 Hrun.
  destruct (lap_bijection BIG fuel free0 m sol Hwf Hl0 Hrun) as (_ & Hperm & _).
  apply Permutation_length in Hperm. rewrite range_length in Hperm.
  unfold lap in Hrun.
  destruct (lap_reduce BIG fuel free0 m) as [s| |]; try discriminate.
  cbn [bind] in Hrun.
  destruct (augment_all _ _ _ _ _) as [a| |]; try discriminate.
  cbn [bind] in Hrun. injection Hrun as <-.
  destruct (make_solution_spec BIG m a) as (E1 & E2 & E3 & E4 & E5 & E6).
  { rewrite <- (proj1 (make_solution_assignment BIG m a)). exact Hperm. }
  rewrite E1, E3, E5. split; auto. split; auto.
  intros i Hi. rewrite E6 by auto. lia.
Qed.

Lemma lap_solution_tight_witness :
  exists sol, lap 100000 50 [0; 0; 0] inst_delta = Done sol
  /\ cost sol = matching_cost 100000 inst_delta (rowsol sol)
  /\ length (u sol) = dim inst_delta
  /\ forall i, 0 <= i < dimension inst_delta ->
       get (u sol) i + get (v sol) (get (rowsol sol) i)
       = assigncost 100000 inst_delta i (get (rowsol sol) i).
Proof.
  eexists; split; [vm_compute; reflexivity|].
  apply (lap_solution_tight 100000 50 [0; 0; 0] inst_delta).
  - reflexivity.
  - reflexivity.
  - vm_compute; reflexivity.
Defined.

(** ** [delta_lap] returns a perfect matching *)

(** X18: given a consistent partial assignment (negative entries mark
    the unassigned rows and columns), the [rowsol] and [colsol] of every
    solution [delta_lap] returns are mutual inverses and permutations of
    [0 .. dimension-1]. *)
Theorem delta_lap_rowsol_colsol_inverse BIG fuel free0 m u0 v0 rowsol0 colsol0 sol :
  wf_matrix m = true ->
  partial_assignment (dimension m) rowsol0 colsol0 ->
  length free0 = dim m ->
  delta_lap BIG fuel free0 m u0 v0 rowsol0 colsol0 = Done sol ->
  mutual_inverse (dimension m) (rowsol sol) (colsol sol)
  /\ Permutation (rowsol sol) (range (dim m))
  /\ Permutation (colsol sol) (range (dim m)).
Proof. exact (delta_lap_bijection BIG fuel free0 m u0 v0 rowsol0 colsol0 sol). Qed.

Ltac six_cases i Hi :=
  let E := fresh "E" in
  assert (E : i = 0 \/ i = 1 \/ i = 2 \/ i = 3 \/ i = 4 \/ i = 5) by (cbn in Hi; lia);
  destruct E as [-> | [-> | [-> | [-> | [-> | ->]]]]].

(** The assignment that the reductions of [lap] leave on [inst_stale],
    with row 1 and column 1 marked unassigned. *)
Lemma partial_inst_stale :
  partial_assignment (dimension inst_stale) [5; -1; 3; 0; 4; 2] [3; -1; 5; 2; 4; 0].
Proof.
  unfold partial_assignment.
  split; [reflexivity|]. split; [reflexivity|].
  split; [|split; [|split]]; intros i Hi; six_cases i Hi;
    vm_compute; intuition (try discriminate; try reflexivity; try lia).
Qed.

Lemma delta_lap_rowsol_colsol_inverse_witness :
  exists sol,
    delta_lap 100000 50 [0; 0; 0; 0; 0; 0] inst_stale
      [0; 0; 0; 0; 0; 0] [-5; 0; 0; -1; 2; -2] [5; -1; 3; 0; 4; 2] [3; -1; 5; 2; 4; 0]
    = Done sol
    /\ rowsol sol = [5; 1; 3; 0; 4; 2]
    /\ mutual_inverse (dimension inst_stale) (rowsol sol) (colsol sol)
    /\ Permutation (rowsol sol) (range (dim inst_stale))
    /\ Permutation (colsol sol) (range (dim inst_stale)).
Proof.
  eexists; split; [vm_compute; reflexivity|]. split; [reflexivity|].
  apply (delta_lap_rowsol_colsol_inverse 100000 50 [0; 0; 0; 0; 0; 0] inst_stale
           [0; 0; 0; 0; 0; 0] [-5; 0; 0; -1; 2; -2]
           [5; -1; 3; 0; 4; 2] [3; -1; 5; 2; 4; 0]).
  - reflexivity.
  - exact partial_inst_stale.
  - reflexivity.
  - vm_compute; reflexivity.
Defined.

Lemma all_stored_of_on_stored m rs cs :
  mutual_inverse (dimension m) rs cs ->
  (forall i, 0 <= i < dimension m -> 0 <= get rs i < dimension m) ->
  on_stored m (dimension m) cs ->
  all_stored m rs = true.
Proof.
  intros [H1 H2] Hr Hon. unfold all_stored. apply forallb_forall. intros i Hi.
  apply In_range in Hi. fold (dimension m) in Hi.
  specialize (Hon (get rs i) (Hr i Hi)). rewrite H1 in Hon by auto.
  destruct (stored m i (get rs i)); auto. exfalso; apply Hon; [lia | reflexivity].
Qed.

(** X19: given a consistent partial assignment whose assigned columns
    hold stored entries, every solution [delta_lap] returns is a perfect
    matching on stored entries; [cost] is its total cost, and [u[i] +
    v[rowsol[i]]] is the stored cost of row [i]'s entry. *)
Theorem delta_lap_perfect_matching BIG fuel free0 m u0 v0 rowsol0 colsol0 sol :
  wf_matrix m = true ->
  partial_assignment (dimension m) rowsol0 colsol0 ->
  on_stored m (dimension m) colsol0 ->
  length free0 = dim m ->
  delta_lap BIG fuel free0 m u0 v0 rowsol0 colsol0 = Done sol ->
  perfect_matching m (rowsol sol)
  /\ cost sol = matching_cost BIG m (rowsol sol)
  /\ forall i, 0 <= i < dimension m ->
       stored m i (get (rowsol sol) i)
       = Some (get (u sol) i + get (v sol) (get (rowsol sol) i)).
Proof.
  intros Hwf Hpa Hon Hl0 Hrun.
  destruct (delta_lap_bijection _ _ _ _ _ _ _ _ _ Hwf Hpa Hl0 Hrun) as (Hmi & Hperm & _).
  destruct (delta_lap_assignment _ _ _ _ _ _ _ _ _ Hwf Hpa Hl0 Hrun) as (a & Ea & ->).
  destruct (partial_matching _ _ _ Hpa) as (Hm & Hag & Hp).
  assert (Hlp : Z.of_nat (length (prev (new_data (dim m)))) = dimension m)
    by (cbn [new_data prev]; rewrite repeat_length; reflexivity).
  pose proof (augment_all_stored BIG fuel m (dimension m) _
                {| a_data := new_data (dim m); a_v := delta_prices BIG m u0 v0 colsol0;
                   a_rowsol := map (Z.max 0) rowsol0; a_colsol := colsol0 |}
                a Hwf eq_refl Hm Hp Hlp Hon Ea) as Hon'.
  destruct (augment_all_matching BIG fuel m (dimension m) _
              {| a_data := new_data (dim m); a_v := delta_prices BIG m u0 v0 colsol0;
                 a_rowsol := map (Z.max 0) rowsol0; a_colsol := colsol0 |}
              a Hwf eq_refl Hm Hp Hlp Ea) as [Hm' _].
  pose proof Hm' as (Hlr & _ & Hr & _).
  destruct (make_solution_spec BIG m a) as (E1 & E2 & E3 & E4 & E5 & E6).
  { unfold dimension in Hlr. lia. }
  rewrite E1, E2, E3 in *.
  assert (Hall : all_stored m (a_rowsol a) = true)
    by (apply (all_stored_of_on_stored m _ (a_colsol a)); auto).
  split; [split; auto|]. split; [exact E5|].
  intros i Hi. rewrite E6 by auto. unfold assigncost.
  unfold all_stored in Hall. rewrite forallb_forall in Hall.
  specialize (Hall i ltac:(apply In_range; exact Hi)).
  destruct (stored m i (get (a_rowsol a) i)); [|discriminate].
  f_equal. lia.
Qed.

Lemma on_stored_inst_stale :
  on_stored inst_stale (dimension inst_stale) [3; -1; 5; 2; 4; 0].
Proof.
  intros j Hj; six_cases j Hj; vm_compute; intros; try discriminate; auto.
Qed.

Lemma delta_lap_perfect_matching_witness :
  exists sol,
    delta_lap 100000 50 [0; 0; 0; 0; 0; 0] inst_stale
      [0; 0; 0; 0; 0; 0] [-5; 0; 0; -1; 2; -2] [5; -1; 3; 0; 4; 2] [3; -1; 5; 2; 4; 0]
    = Done sol
    /\ cost sol = 26
    /\ perfect_matching inst_stale (rowsol sol)
    /\ cost sol = matching_cost 100000 inst_stale (rowsol sol)
    /\ forall i, 0 <= i < dimension inst_stale ->
         stored inst_stale i (get (rowsol sol) i)
         = Some (get (u sol) i + get (v sol) (get (rowsol sol) i)).
Proof.
  eexists; split; [vm_compute; reflexivity|]. split; [reflexivity|].
  apply (delta_lap_perfect_matching 100000 50 [0; 0; 0; 0; 0; 0] inst_stale
           [0; 0; 0; 0; 0; 0] [-5; 0; 0; -1; 2; -2]
           [5; -1; 3; 0; 4; 2] [3; -1; 5; 2; 4; 0]).
  - reflexivity.
  - exact partial_inst_stale.
  - exact on_stored_inst_stale.
  - reflexivity.
  - vm_compute; reflexivity.
Defined.

(** *** Rows of a well-formed matrix *)

Lemma ascending_head j c rest e :
  ascending ((j, c) :: rest) = true -> In e rest -> j < fst e.
Proof.
  revert j c; induction rest as [|[j' c'] rest IH]; intros j c Ha Hin; [destruct Hin|].
  cbn [ascending] in Ha. apply andb_prop in Ha. destruct Ha as [Hlt Ha].
  apply Z.ltb_lt in Hlt.
  destruct Hin as [<-|Hin]; [exact Hlt|].
  specialize (IH j' c' Ha Hin). lia.
Qed.

Lemma ascending_tail e rest : ascending (e :: rest) = true -> ascending rest = true.
Proof.
  destruct e as [j c]. destruct rest as [|[j' c'] rest]; auto.
  cbn [ascending]. intros H; apply andb_prop in H. apply H.
Qed.

Lemma ascending_find r j c :
  ascending r = true -> In (j, c) r -> find (fun e => fst e =? j) r = Some (j, c).
Proof.
  induction r as [|[j0 c0] rest IH]; intros Ha Hin; [destruct Hin|].
  cbn [find fst]. destruct Hin as [E|Hin].
  - injection E as -> ->. now rewrite Z.eqb_refl.
  - pose proof (ascending_head j0 c0 rest (j, c) Ha Hin) as Hlt. cbn [fst] in Hlt.
    destruct (Z.eqb_spec j0 j); [lia|].
    apply IH; auto. eapply ascending_tail; eauto.
Qed.

Lemma ascending_NoDup r : ascending r = true -> NoDup (map fst r).
Proof.
  induction r as [|[j0 c0] rest IH]; intros Ha; cbn [map]; constructor.
  - intros Hin. apply in_map_iff in Hin. destruct Hin as (e & E & Hin).
    pose proof (ascending_head j0 c0 rest e Ha Hin). cbn [fst] in *. lia.
  - apply IH. eapply ascending_tail; eauto.
Qed.

Lemma wf_row_ascending m i : wf_matrix m = true -> ascending (findRow m i) = true.
Proof.
  unfold wf_matrix; rewrite forallb_forall; intros Hwf.
  destruct (Z.lt_ge_cases i 0) as [Hn|Hn].
  - unfold findRow, vget. destruct (Z.ltb_spec i 0); [reflexivity | lia].
  - destruct (Z.lt_ge_cases i (dimension m)) as [Hlt|Hge].
    + assert (Hrow : In (findRow m i) m) by (apply vget_In; split; auto).
      specialize (Hwf _ Hrow); unfold row_ok in Hwf.
      apply andb_prop in Hwf. apply Hwf.
    + unfold findRow. rewrite vget_outside; [reflexivity|].
      unfold dimension, dim in Hge. lia.
Qed.

Lemma wf_In_stored m i j c :
  wf_matrix m = true -> In (j, c) (findRow m i) -> stored m i j = Some c.
Proof.
  intros Hwf Hin. unfold stored.
  rewrite (ascending_find _ j c (wf_row_ascending m i Hwf) Hin). reflexivity.
Qed.

(** *** The least-cost row of a column *)

Lemma smallest_from_least m j rows best bc :
  (match bc with Some b => stored m best j = Some b | None => True end) ->
  let r := smallest_from m j rows best bc in
  (forall i c, In i rows -> stored m i j = Some c ->
     exists b, stored m r j = Some b /\ b <= c)
  /\ (forall b, bc = Some b -> exists b', stored m r j = Some b' /\ b' <= b).
Proof.
  revert best bc; induction rows as [|i rows IH]; intros best bc Hb; cbn [smallest_from].
  - split; [intros i c []|]. intros b ->. exists b; split; [exact Hb | lia].
  - cbv zeta.
    destruct (stored m i j) as [c|] eqn:Ei.
    + destruct bc as [b|].
      * destruct (Z.ltb_spec c b) as [Hlt|Hge].
        -- destruct (IH i (Some c) Ei) as [H1 H2]. cbv zeta in H1, H2.
           destruct (H2 c eq_refl) as (b' & Eb' & Hle).
           split.
           ++ intros i' c' [<-|Hin] Hs; [|eauto].
              rewrite Ei in Hs; injection Hs as <-. eauto.
           ++ intros b0 E; injection E as <-. exists b'; split; [auto | lia].
        -- destruct (IH best (Some b) Hb) as [H1 H2]. cbv zeta in H1, H2.
           destruct (H2 b eq_refl) as (b' & Eb' & Hle).
           split.
           ++ intros i' c' [<-|Hin] Hs; [|eauto].
              rewrite Ei in Hs; injection Hs as <-. exists b'; split; [auto | lia].
           ++ intros b0 E; injection E as <-. eauto.
      * destruct (IH i (Some c) Ei) as [H1 H2]. cbv zeta in H1, H2.
        destruct (H2 c eq_refl) as (b' & Eb' & Hle).
        split; [|intros b0 E; discriminate].
        intros i' c' [<-|Hin] Hs; [|eauto].
        rewrite Ei in Hs; injection Hs as <-. eauto.
    + destruct (IH best bc Hb) as [H1 H2]. cbv zeta in H1, H2.
      split; [|exact H2].
      intros i' c' [<-|Hin] Hs; [congruence | eauto].
Qed.

Lemma smallest_cost_row_least BIG m j i c :
  stored m i j = Some c ->
  exists b, stored m (smallest_cost_row m j) j = Some b /\ b <= c
            /\ assigncost BIG m (smallest_cost_row m j) j = b.
Proof.
  intros Hs. unfold smallest_cost_row.
  destruct (smallest_from_least m j (range (dim m)) 0 None I) as [H1 _]. cbv zeta in H1.
  destruct (H1 i c) as (b & Eb & Hle); auto.
  - apply In_range. apply stored_In in Hs. apply Hs.
  - exists b. split; auto. split; auto. unfold assigncost. unfold smallest_cost_row in *.
    now rewrite Eb.
Qed.

(** *** Column reduction sets every price to the least cost of its column *)

Lemma column_reduction_step_v BIG m s j :
  s_v (column_reduction_step BIG m s j)
  = vset (s_v s) j (assigncost BIG m (smallest_cost_row m j) j).
Proof.
  unfold column_reduction_step. cbv zeta.
  destruct (get _ _ =? 1); reflexivity.
Qed.

Lemma column_reduction_fold_v BIG m L s j :
  0 <= j < Z.of_nat (length (s_v s)) ->
  In j L \/ get (s_v s) j = assigncost BIG m (smallest_cost_row m j) j ->
  get (s_v (fold_left (column_reduction_step BIG m) L s)) j
  = assigncost BIG m (smallest_cost_row m j) j
  /\ length (s_v (fold_left (column_reduction_step BIG m) L s)) = length (s_v s).
Proof.
  revert s; induction L as [|a L IH]; intros s Hj H; cbn [fold_left].
  - destruct H as [[]|H]; auto.
  - destruct (IH (column_reduction_step BIG m s a)) as [H1 H2].
    + rewrite column_reduction_step_v, vset_length. exact Hj.
    + rewrite column_reduction_step_v.
      destruct (Z.eq_dec a j) as [->|Hne].
      * right. apply get_vset_same; auto.
      * destruct H as [[E|Hin]|H]; [contradiction | now left |].
        right. rewrite get_vset_other; auto.
    + rewrite H1, H2, column_reduction_step_v, vset_length. auto.
Qed.

Lemma column_reduction_v_length BIG m free0 :
  length (s_v (column_reduction BIG m (lap_init free0 m))) = dim m.
Proof.
  unfold column_reduction.
  assert (H : forall L s, length (s_v (fold_left (column_reduction_step BIG m) L s))
                          = length (s_v s)).
  { induction L as [|a L IH]; intros s; cbn [fold_left]; auto.
    rewrite IH, column_reduction_step_v. apply vset_length. }
  rewrite H. cbn [lap_init s_v]. apply repeat_length.
Qed.

Lemma column_reduction_v BIG m free0 j :
  0 <= j < dimension m ->
  get (s_v (column_reduction BIG m (lap_init free0 m))) j
  = assigncost BIG m (smallest_cost_row m j) j
  /\ length (s_v (column_reduction BIG m (lap_init free0 m))) = dim m.
Proof.
  intros Hj. unfold column_reduction.
  destruct (column_reduction_fold_v BIG m (rev (range (dim m))) (lap_init free0 m) j) as [H1 H2].
  - cbn [lap_init s_v]. rewrite repeat_length. exact Hj.
  - left. apply in_rev. rewrite rev_involutive. apply In_range. exact Hj.
  - rewrite H1, H2. cbn [lap_init s_v]. rewrite repeat_length. auto.
Qed.

Lemma column_reduction_below BIG m free0 :
  wf_matrix m = true ->
  prices_below m (s_v (column_reduction BIG m (lap_init free0 m))).
Proof.
  intros Hwf i j c Hs.
  assert (Hj : 0 <= j < dimension m).
  { pose proof (stored_In _ _ _ _ Hs) as [Hin _].
    apply (wf_row_columns m i (j, c) Hwf Hin). }
  destruct (column_reduction_v BIG m free0 j Hj) as [-> _].
  destruct (smallest_cost_row_least BIG m j i c Hs) as (b & _ & Hle & ->). exact Hle.
Qed.

(** *** The later phases only lower prices *)

Lemma prices_le_refl vv : prices_le vv vv.
Proof. split; [reflexivity | intros j; lia]. Qed.

Lemma prices_le_trans v1 v2 v3 : prices_le v1 v2 -> prices_le v2 v3 -> prices_le v1 v3.
Proof.
  intros [L1 H1] [L2 H2]. split; [congruence|].
  intros j. specialize (H1 j). specialize (H2 j). lia.
Qed.

Lemma prices_le_vset vv j x : x <= get vv j -> prices_le (vset vv j x) vv.
Proof.
  intros Hx. split; [apply vset_length|]. intros j'.
  destruct (Z.eq_dec j j') as [<-|Hne].
  - destruct (Z.lt_ge_cases j 0) as [Hn|Hn].
    + rewrite vset_outside by lia. lia.
    + destruct (Z.lt_ge_cases j (Z.of_nat (length vv))).
      * rewrite get_vset_same by lia. exact Hx.
      * rewrite vset_outside by lia. lia.
  - rewrite get_vset_other by auto. lia.
Qed.

Lemma prices_below_le m vv vv' : prices_le vv' vv -> prices_below m vv -> prices_below m vv'.
Proof.
  intros [_ Hle] Hb i j c Hs. specialize (Hb i j c Hs). specialize (Hle j). lia.
Qed.

Lemma transfer_min_nonneg BIG vv j1 row :
  0 <= BIG -> (forall e, In e row -> get vv (fst e) <= snd e) ->
  0 <= transfer_min BIG vv j1 row.
Proof.
  intros HB. unfold transfer_min. generalize BIG HB. clear BIG HB.
  induction row as [|e row IH]; intros x Hx Hrow; cbn [fold_left]; auto.
  apply IH.
  - destruct (negb (fst e =? j1) && (snd e - get vv (fst e) <? x)); auto.
    specialize (Hrow e (or_introl eq_refl)). lia.
  - intros e' He'; apply Hrow; now right.
Qed.

Lemma reduction_transfer_step_le BIG m s i :
  0 <= BIG -> wf_matrix m = true -> prices_below m (s_v s) ->
  prices_le (s_v (reduction_transfer_step BIG m s i)) (s_v s).
Proof.
  intros HB Hwf Hb. unfold reduction_transfer_step.
  destruct (get (s_matches s) i =? 0); [apply prices_le_refl|].
  destruct (get (s_matches s) i =? 1); [|apply prices_le_refl].
  cbv zeta. cbn [s_v]. apply prices_le_vset.
  assert (0 <= transfer_min BIG (s_v s) (get (s_rowsol s) i) (findRow m i)); [|lia].
  apply transfer_min_nonneg; auto.
  intros [j c] Hin. cbn [fst snd]. apply (Hb i j c). apply wf_In_stored; auto.
Qed.

Lemma reduction_transfer_le BIG m s :
  0 <= BIG -> wf_matrix m = true -> prices_below m (s_v s) ->
  prices_le (s_v (reduction_transfer BIG m s)) (s_v s).
Proof.
  intros HB Hwf. unfold reduction_transfer. generalize (range (dim m)).
  intros L; revert s; induction L as [|i L IH]; intros s Hb; cbn [fold_left].
  - apply prices_le_refl.
  - pose proof (reduction_transfer_step_le BIG m s i HB Hwf Hb) as Hle.
    eapply prices_le_trans; [|exact Hle].
    apply IH. eapply prices_below_le; eauto.
Qed.

Lemma arr_step_le BIG m s s' :
  arr_step BIG m s = Done s' -> prices_le (s_v s') (s_v s).
Proof.
  unfold arr_step. cbv zeta.
  destruct (two_smallest _ _ _ _) as [[[[umin usubmin] j1] j2]|]; [|discriminate].
  destruct (Z.ltb_spec umin usubmin) as [Hlt|Hge].
  - assert (Hle : prices_le (vset (s_v s) j1 (get (s_v s) j1 - (usubmin - umin))) (s_v s))
      by (apply prices_le_vset; lia).
    destruct (get (s_colsol s) j1 >=? 0); intros E; injection E as <-; exact Hle.
  - destruct (get (s_colsol s) j1 >=? 0).
    + destruct (get (s_colsol s) j2 >=? 0); intros E; injection E as <-; apply prices_le_refl.
    + destruct (get (s_colsol s) j1 >=? 0); intros E; injection E as <-; apply prices_le_refl.
Qed.

Lemma arr_pass_le BIG fuel m prv s s' :
  arr_pass BIG fuel m prv s = Done s' -> prices_le (s_v s') (s_v s).
Proof.
  revert s; induction fuel as [|fuel IH]; intros s Hrun; cbn [arr_pass] in Hrun; [discriminate|].
  destruct (s_k s <? prv).
  - destruct (arr_step BIG m s) as [s1| |] eqn:E1; try discriminate.
    cbn [bind] in Hrun. apply arr_step_le in E1. apply IH in Hrun.
    eapply prices_le_trans; eauto.
  - injection Hrun as <-. apply prices_le_refl.
Qed.

Lemma lap_reduce_le BIG fuel free0 m s :
  0 <= BIG -> wf_matrix m = true ->
  lap_reduce BIG fuel free0 m = Done s ->
  prices_le (s_v s) (s_v (column_reduction BIG m (lap_init free0 m))).
Proof.
  intros HB Hwf Hrun. unfold lap_reduce, augmenting_row_reduction in Hrun.
  destruct (arr_round BIG fuel m _) as [s1| |] eqn:E1; try discriminate.
  cbn [bind] in Hrun.
  unfold arr_round in E1, Hrun. apply arr_pass_le in E1, Hrun. cbn [s_v] in E1, Hrun.
  eapply prices_le_trans; [exact Hrun|]. eapply prices_le_trans; [exact E1|].
  apply reduction_transfer_le; auto. apply column_reduction_below; auto.
Qed.

(** X24: after the three reduction phases every stored entry has a
    non-negative reduced cost against the column prices alone, [v[j] <=
    cost(i, j)], and no price is above the least cost of its column (for a
    non-negative [BIG]). *)
Theorem lap_reduce_prices_below BIG fuel free0 m s :
  0 <= BIG -> wf_matrix m = true ->
  lap_reduce BIG fuel free0 m = Done s ->
  length (s_v s) = dim m
  /\ (forall i j c, stored m i j = Some c -> get (s_v s) j <= c)
  /\ (forall j, 0 <= j < dimension m ->
        get (s_v s) j <= assigncost BIG m (smallest_cost_row m j) j).
Proof.
  intros HB Hwf Hrun.
  pose proof (lap_reduce_le BIG fuel free0 m s HB Hwf Hrun) as Hle.
  split; [|split].
  - destruct Hle as [-> _]. apply column_reduction_v_length.
  - apply (prices_below_le m _ _ Hle). apply column_reduction_below; auto.
  - intros j Hj. destruct Hle as [_ Hle]. specialize (Hle j).
    destruct (column_reduction_v BIG m free0 j Hj) as [E _]. lia.
Qed.

Lemma lap_reduce_prices_below_witness :
  exists s, lap_reduce 100000 50 [0; 0; 0] inst_delta = Done s
  /\ length (s_v s) = dim inst_delta
  /\ (forall i j c, stored inst_delta i j = Some c -> get (s_v s) j <= c)
  /\ (forall j, 0 <= j < dimension inst_delta ->
        get (s_v s) j <= assigncost 100000 inst_delta (smallest_cost_row inst_delta j) j).
Proof.
  eexists; split; [vm_compute; reflexivity|].
  apply (lap_reduce_prices_below 100000 50 [0; 0; 0] inst_delta).
  - lia.
  - reflexivity.
  - vm_compute; reflexivity.
Defined.

Lemma find_app_one {A} (P : A -> bool) l a :
  find P (l ++ [a]) = match find P l with
                      | Some x => Some x
                      | None => if P a then Some a else None
                      end.
Proof.
  induction l as [|x l IH]; cbn [app find]; auto.
  destruct (P x); auto.
Qed.

Lemma first_claim_count m done i :
  first_claim m done i = None
  <-> count_occ Z.eq_dec (map (smallest_cost_row m) done) i = 0%nat.
Proof.
  unfold first_claim. induction done as [|j done IH]; cbn [find map count_occ].
  - tauto.
  - destruct (Z.eqb_spec (smallest_cost_row m j) i) as [E|E];
      destruct (Z.eq_dec (smallest_cost_row m j) i); try contradiction.
    + split; discriminate.
    + exact IH.
Qed.

Lemma first_claim_In m done i j :
  first_claim m done i = Some j -> In j done /\ smallest_cost_row m j = i.
Proof.
  unfold first_claim. intros H. apply find_some in H. destruct H as [H1 H2].
  split; auto. now apply Z.eqb_eq.
Qed.

Lemma column_reduction_step_spec BIG m n done s a :
  (forall j, 0 <= smallest_cost_row m j < n) ->
  colred_spec m n done s -> 0 <= a < n -> ~ In a done ->
  colred_spec m n (done ++ [a]) (column_reduction_step BIG m s a).
Proof.
  intros Hscr (Hlr & Hlc & Hlm & Hcnt & Hrow & Hcol) Ha Hnew.
  pose proof (Hscr a) as Hi.
  assert (Hcnt' : forall i, 0 <= i < n ->
            get (vset (s_matches s) (smallest_cost_row m a)
                   (get (s_matches s) (smallest_cost_row m a) + 1)) i
            = Z.of_nat (count_occ Z.eq_dec (map (smallest_cost_row m) (done ++ [a])) i)).
  { intros i Hi0. rewrite map_app, count_occ_app. cbn [map count_occ].
    rewrite get_vset by lia.
    destruct (Z.eqb_spec i (smallest_cost_row m a)) as [->|Hne].
    - destruct (Z.eq_dec _ _); [|congruence]. rewrite Hcnt by auto. lia.
    - destruct (Z.eq_dec _ _); [congruence|]. rewrite Hcnt by auto. lia. }
  assert (Hfc : forall i, first_claim m (done ++ [a]) i
                = match first_claim m done i with
                  | Some x => Some x
                  | None => if smallest_cost_row m a =? i then Some a else None
                  end)
    by (intros i; unfold first_claim; rewrite find_app_one; reflexivity).
  unfold column_reduction_step. cbv zeta.
  rewrite get_vset_same by lia.
  destruct (Z.eqb_spec (get (s_matches s) (smallest_cost_row m a) + 1) 1) as [E1|E1].
  - (* first claim of the row *)
    assert (Hnone : first_claim m done (smallest_cost_row m a) = None).
    { apply first_claim_count. rewrite Hcnt in E1 by auto. lia. }
    unfold colred_spec. cbn [s_rowsol s_colsol s_matches].
    rewrite !vset_length.
    split; [exact Hlr|]. split; [exact Hlc|]. split; [exact Hlm|].
    split; [exact Hcnt'|]. split.
    + intros i j Hi0 Hf. rewrite Hfc in Hf. rewrite get_vset by lia.
      destruct (Z.eqb_spec i (smallest_cost_row m a)) as [->|Hne].
      * rewrite Hnone, Z.eqb_refl in Hf. now injection Hf.
      * destruct (first_claim m done i) eqn:Ef.
        -- injection Hf as <-. apply Hrow; auto.
        -- destruct (Z.eqb_spec (smallest_cost_row m a) i); [congruence | discriminate].
    + intros j Hj. rewrite Hfc. apply in_app_or in Hj.
      destruct Hj as [Hj|[<-|[]]].
      * assert (a <> j) by (intros ->; contradiction).
        rewrite get_vset_other by auto. rewrite Hcol by auto.
        destruct (first_claim m done (smallest_cost_row m j)) eqn:Ef; auto.
        exfalso. unfold first_claim in Ef.
        apply (find_none _ _ Ef) in Hj. cbn beta in Hj. rewrite Z.eqb_refl in Hj. discriminate.
      * rewrite get_vset_same by lia. rewrite Hnone, !Z.eqb_refl. reflexivity.
  - (* the row was claimed before *)
    assert (Hsome : exists j0, first_claim m done (smallest_cost_row m a) = Some j0).
    { destruct (first_claim m done (smallest_cost_row m a)) eqn:Ef; eauto.
      apply first_claim_count in Ef. rewrite Hcnt in E1 by auto. lia. }
    destruct Hsome as (j0 & Ej0).
    unfold colred_spec. cbn [s_rowsol s_colsol s_matches].
    rewrite !vset_length.
    split; [exact Hlr|]. split; [exact Hlc|]. split; [exact Hlm|].
    split; [exact Hcnt'|]. split.
    + intros i j Hi0 Hf. rewrite Hfc in Hf.
      destruct (first_claim m done i) eqn:Ef.
      * injection Hf as <-. apply Hrow; auto.
      * destruct (Z.eqb_spec (smallest_cost_row m a) i) as [E|E]; [|discriminate].
        rewrite E in Ej0. congruence.
    + intros j Hj. rewrite Hfc. apply in_app_or in Hj.
      destruct Hj as [Hj|[<-|[]]].
      * assert (a <> j) by (intros ->; contradiction).
        rewrite get_vset_other by auto. rewrite Hcol by auto.
        destruct (first_claim m done (smallest_cost_row m j)) eqn:Ef; auto.
        exfalso. unfold first_claim in Ef.
        apply (find_none _ _ Ef) in Hj. cbn beta in Hj. rewrite Z.eqb_refl in Hj. discriminate.
      * rewrite get_vset_same by lia. rewrite Ej0.
        apply first_claim_In in Ej0. destruct Ej0 as [Hin _].
        destruct (Z.eqb_spec j0 a) as [->|_]; [contradiction | reflexivity].
Qed.

Lemma column_reduction_fold_spec BIG m n L done s :
  (forall j, 0 <= smallest_cost_row m j < n) ->
  colred_spec m n done s ->
  NoDup (done ++ L) -> (forall j, In j L -> 0 <= j < n) ->
  colred_spec m n (done ++ L) (fold_left (column_reduction_step BIG m) L s).
Proof.
  intros Hscr. revert done s; induction L as [|a L IH]; intros done s Hs Hnd HL; cbn [fold_left].
  - now rewrite app_nil_r.
  - replace (done ++ a :: L) with ((done ++ [a]) ++ L) in * by (now rewrite <- app_assoc).
    apply IH; auto.
    + apply column_reduction_step_spec; auto.
      * apply HL; now left.
      * apply NoDup_app_remove_r in Hnd. apply NoDup_remove_2 in Hnd.
        rewrite app_nil_r in Hnd. exact Hnd.
    + intros j Hj; apply HL; now right.
Qed.

(** The first claim in descending column order is the highest column. *)
Lemma find_rev_range (P : Z -> bool) n :
  match find P (rev (range n)) with
  | Some j => P j = true /\ 0 <= j < Z.of_nat n
              /\ forall j', j < j' < Z.of_nat n -> P j' = false
  | None => forall j', 0 <= j' < Z.of_nat n -> P j' = false
  end.
Proof.
  induction n as [|n IH].
  - simpl. intros j' Hj'; lia.
  - rewrite range_S, rev_app_distr. cbn [rev app find].
    destruct (P (Z.of_nat n)) eqn:En.
    + split; auto. split; [lia|]. intros j' Hj'; lia.
    + destruct (find P (rev (range n))) as [j|].
      * destruct IH as (H1 & H2 & H3). split; auto. split; [lia|].
        intros j' Hj'. destruct (Z.eq_dec j' (Z.of_nat n)) as [->|Hne]; auto.
        apply H3; lia.
      * intros j' Hj'. destruct (Z.eq_dec j' (Z.of_nat n)) as [->|Hne]; auto.
        apply IH; lia.
Qed.

Lemma colred_spec_init m free0 : colred_spec m (dimension m) [] (lap_init free0 m).
Proof.
  unfold colred_spec. cbn [lap_init s_rowsol s_colsol s_matches map count_occ].
  rewrite !repeat_length. repeat split; auto.
  - intros i Hi. unfold get. apply vget_repeat. exact Hi.
  - intros i j Hi Hf. discriminate.
  - intros j [].
Qed.

(** X20: the column reduction sets [v[j]] to the cost of column [j] in
    its least-cost row [imin], counts in [matches[imin]] the columns whose
    least-cost row is [imin], and assigns [j] to [imin] exactly when no
    higher column has the same least-cost row; otherwise [colsol[j] = -1]
    and [imin] holds the highest such column. *)
Theorem column_reduction_assignment BIG m free0 j :
  0 <= j < dimension m ->
  let s := column_reduction BIG m (lap_init free0 m) in
  let imin := smallest_cost_row m j in
  get (s_v s) j = assigncost BIG m imin j
  /\ get (s_matches s) imin
     = Z.of_nat (count_occ Z.eq_dec (map (smallest_cost_row m) (range (dim m))) imin)
  /\ ((get (s_colsol s) j = imin /\ get (s_rowsol s) imin = j
       /\ forall j', j < j' < dimension m -> smallest_cost_row m j' <> imin)
      \/ (get (s_colsol s) j = -1
          /\ exists j', j < j' < dimension m /\ smallest_cost_row m j' = imin
                        /\ get (s_rowsol s) imin = j'
                        /\ forall j'', j' < j'' < dimension m ->
                             smallest_cost_row m j'' <> imin)).
Proof.
  intros Hj. cbv zeta.
  assert (Hscr : forall j0, 0 <= smallest_cost_row m j0 < dimension m)
    by (intros j0; apply smallest_cost_row_range; lia).
  destruct (column_reduction_v BIG m free0 j Hj) as [Hv _].
  split; [exact Hv|].
  assert (Hspec : colred_spec m (dimension m) (rev (range (dim m)))
                    (column_reduction BIG m (lap_init free0 m))).
  { unfold column_reduction.
    apply (column_reduction_fold_spec BIG m (dimension m) (rev (range (dim m))) []); auto.
    - apply colred_spec_init.
    - cbn [app]. apply NoDup_rev, NoDup_range.
    - intros j0 Hj0. apply in_rev in Hj0. apply In_range in Hj0. exact Hj0. }
  destruct Hspec as (Hlr & Hlc & Hlm & Hcnt & Hrow & Hcol).
  split.
  - rewrite Hcnt by auto. rewrite map_rev, count_occ_rev. reflexivity.
  - assert (Hin : In j (rev (range (dim m)))) by (apply in_rev; rewrite rev_involutive; apply In_range; exact Hj).
    specialize (Hcol j Hin).
    pose proof (find_rev_range (fun j0 => smallest_cost_row m j0 =? smallest_cost_row m j) (dim m))
      as Hfind.
    unfold first_claim in Hcol, Hrow.
    destruct (find _ (rev (range (dim m)))) as [j'|] eqn:Ef.
    + destruct Hfind as (H1 & H2 & H3). apply Z.eqb_eq in H1.
      pose proof (Hrow (smallest_cost_row m j) j' (Hscr j) Ef) as Hr.
      assert (Hhigh : forall j'', j' < j'' < dimension m ->
                smallest_cost_row m j'' <> smallest_cost_row m j).
      { intros j'' Hj'' E. specialize (H3 j'' Hj''). cbn beta in H3. lia. }
      destruct (Z.eqb_spec j' j) as [->|Hne].
      * left. auto.
      * assert (Hlt : j < j').
        { destruct (Z.lt_trichotomy j j') as [Hlt|[E|Hgt]]; [lia | congruence |].
          exfalso. apply (Hhigh j); [lia | reflexivity]. }
        right. split; auto. exists j'.
        split; [unfold dimension; lia|]. split; [exact H1|]. split; [exact Hr | exact Hhigh].
    + exfalso. specialize (Hfind j Hj). cbn beta in Hfind. rewrite Z.eqb_refl in Hfind.
      discriminate.
Qed.

Lemma column_reduction_assignment_witness :
  let s := column_reduction 100000 inst_requeue (lap_init [0; 0; 0; 0; 0] inst_requeue) in
  let imin := smallest_cost_row inst_requeue 1 in
  get (s_v s) 1 = assigncost 100000 inst_requeue imin 1
  /\ get (s_matches s) imin
     = Z.of_nat (count_occ Z.eq_dec (map (smallest_cost_row inst_requeue)
                                        (range (dim inst_requeue))) imin)
  /\ ((get (s_colsol s) 1 = imin /\ get (s_rowsol s) imin = 1
       /\ forall j', 1 < j' < dimension inst_requeue ->
            smallest_cost_row inst_requeue j' <> imin)
      \/ (get (s_colsol s) 1 = -1
          /\ exists j', 1 < j' < dimension inst_requeue
                        /\ smallest_cost_row inst_requeue j' = imin
                        /\ get (s_rowsol s) imin = j'
                        /\ forall j'', j' < j'' < dimension inst_requeue ->
                             smallest_cost_row inst_requeue j'' <> imin)).
Proof.
  apply (column_reduction_assignment 100000 inst_requeue [0; 0; 0; 0; 0] 1).
  unfold dimension; simpl; lia.
Defined.

(** ** Reduction transfer: the list of free rows *)

Lemma reduction_transfer_prefix BIG m s k :
  s_numfree s = 0 -> (k <= length (s_free s))%nat ->
  let F := filter (fun i => get (s_matches s) i =? 0) (range k) in
  let s' := fold_left (reduction_transfer_step BIG m) (range k) s in
  s_numfree s' = Z.of_nat (length F) /\ length (s_free s') = length (s_free s)
  /\ map (get (s_free s')) (range (length F)) = F /\ (length F <= k)%nat
  /\ s_rowsol s' = s_rowsol s /\ s_colsol s' = s_colsol s /\ s_matches s' = s_matches s
  /\ s_k s' = s_k s /\ s_j2 s' = s_j2 s.
Proof.
  intros H0 Hk. induction k as [|k IH].
  - simpl. rewrite H0. repeat split; auto.
  - destruct IH as (H1 & H2 & H3 & H4 & H5 & H6 & H7 & H8 & H9); [lia|].
    cbv zeta in *. rewrite range_S, fold_left_app, filter_app.
    set (s1 := fold_left (reduction_transfer_step BIG m) (range k) s) in *.
    cbn [fold_left filter].
    remember (reduction_transfer_step BIG m s1 (Z.of_nat k)) as s2 eqn:E2.
    unfold reduction_transfer_step in E2. rewrite H7 in E2.
    destruct (get (s_matches s) (Z.of_nat k) =? 0).
    + subst s2. cbn [s_numfree s_free s_rowsol s_colsol s_matches s_k s_j2].
      rewrite length_app, vset_length. cbn [length]. rewrite Nat.add_1_r.
      split; [lia|]. split; [exact H2|]. split; [|repeat split; auto; lia].
      rewrite range_S, map_app. cbn [map]. f_equal.
      * rewrite <- H3 at 2. apply map_ext_in. intros p Hp. apply In_range in Hp.
        apply get_vset_other. lia.
      * f_equal. rewrite H1. apply get_vset_same. lia.
    + rewrite app_nil_r.
      destruct (get (s_matches s) (Z.of_nat k) =? 1); subst s2;
        cbn [s_numfree s_free s_rowsol s_colsol s_matches s_k s_j2]; repeat split; auto.
Qed.

(** X21: the reduction transfer lists in [free] the rows that no column
    claimed ([matches[i] == 0]), in ascending order, and leaves [rowsol],
    [colsol] and [matches] as the column reduction set them. *)
Theorem reduction_transfer_free_rows BIG m s :
  s_numfree s = 0 -> (dim m <= length (s_free s))%nat ->
  let s' := reduction_transfer BIG m s in
  free_list (s_free s') (s_numfree s')
  = filter (fun i => get (s_matches s) i =? 0) (range (dim m))
  /\ s_rowsol s' = s_rowsol s /\ s_colsol s' = s_colsol s /\ s_matches s' = s_matches s.
Proof.
  intros H0 Hl. unfold reduction_transfer, free_list.
  destruct (reduction_transfer_prefix BIG m s (dim m) H0 Hl)
    as (H1 & H2 & H3 & H4 & H5 & H6 & H7 & _).
  cbv zeta in *. rewrite H1, Nat2Z.id. auto.
Qed.

Lemma reduction_transfer_free_rows_witness :
  let s := column_reduction 100000 inst_requeue (lap_init [0; 0; 0; 0; 0] inst_requeue) in
  let s' := reduction_transfer 100000 inst_requeue s in
  free_list (s_free s') (s_numfree s')
  = filter (fun i => get (s_matches s) i =? 0) (range (dim inst_requeue))
  /\ s_rowsol s' = s_rowsol s /\ s_colsol s' = s_colsol s /\ s_matches s' = s_matches s.
Proof.
  apply (reduction_transfer_free_rows 100000 inst_requeue
           (column_reduction 100000 inst_requeue (lap_init [0; 0; 0; 0; 0] inst_requeue))).
  - reflexivity.
  - vm_compute. lia.
Defined.

(** ** The two smallest reduced costs of a row *)

Lemma two_smallest_fold_spec BIG vv j2 rest :
  forall seen a b x y a' b' x' y',
  NoDup (map fst (seen ++ rest)) ->
  a <= b <= BIG ->
  (exists c, In (x, c) seen /\ a = c - get vv x) ->
  (forall e, In e seen -> a <= snd e - get vv (fst e)) ->
  (forall e, In e seen -> fst e <> x -> b <= snd e - get vv (fst e)) ->
  (b = BIG /\ y = j2 \/ exists c, In (y, c) seen /\ y <> x /\ b = c - get vv y) ->
  fold_left
    (fun '(umin, usubmin, j1, j2) (e : Z * Z) =>
       let j := fst e in
       let h := snd e - get vv j in
       if h <? usubmin then
         if h >=? umin then (umin, h, j1, j)
         else (h, umin, j, j1)
       else (umin, usubmin, j1, j2))
    rest (a, b, x, y) = (a', b', x', y') ->
  a' <= b' <= BIG
  /\ (exists c, In (x', c) (seen ++ rest) /\ a' = c - get vv x')
  /\ (forall e, In e (seen ++ rest) -> a' <= snd e - get vv (fst e))
  /\ (forall e, In e (seen ++ rest) -> fst e <> x' -> b' <= snd e - get vv (fst e))
  /\ (b' = BIG /\ y' = j2
      \/ exists c, In (y', c) (seen ++ rest) /\ y' <> x' /\ b' = c - get vv y').
Proof.
  induction rest as [|[j c] rest IH];
    intros seen a b x y a' b' x' y' Hnd Hab Hx Hmin Hsub Hy E; cbn [fold_left] in E.
  - injection E as <- <- <- <-. rewrite app_nil_r. auto.
  - cbv zeta in E. cbn [fst snd] in E.
    assert (Hnew : forall e, In e seen -> fst e <> j).
    { intros e He Ej. rewrite map_app in Hnd. cbn [map fst] in Hnd.
      apply NoDup_remove_2 in Hnd. apply Hnd. apply in_or_app. left.
      rewrite <- Ej. now apply in_map. }
    replace (seen ++ (j, c) :: rest) with ((seen ++ [(j, c)]) ++ rest) in *
      by (now rewrite <- app_assoc).
    assert (Hxj : x <> j) by (destruct Hx as (c0 & Hin & _); apply (Hnew _ Hin)).
    destruct (Z.ltb_spec (c - get vv j) b) as [Hlt|Hge].
    + destruct (Z.geb_spec (c - get vv j) a) as [Hga|Hla].
      * refine (IH (seen ++ [(j, c)]) _ _ _ _ _ _ _ _ Hnd _ _ _ _ _ E).
        -- lia.
        -- destruct Hx as (c0 & Hin & Ea). exists c0; split; auto. apply in_or_app; now left.
        -- intros e He. apply in_app_or in He. destruct He as [He|[<-|[]]]; auto;
             try (cbn [fst snd]; lia).
        -- intros e He Hne. apply in_app_or in He. destruct He as [He|[<-|[]]].
           ++ specialize (Hsub e He Hne). lia.
           ++ cbn [fst snd]. lia.
        -- right. exists c. split; [apply in_or_app; right; now left|]. split; auto.
      * refine (IH (seen ++ [(j, c)]) _ _ _ _ _ _ _ _ Hnd _ _ _ _ _ E).
        -- lia.
        -- exists c. split; [apply in_or_app; right; now left | reflexivity].
        -- intros e He. apply in_app_or in He. destruct He as [He|[<-|[]]].
           ++ specialize (Hmin e He). lia.
           ++ cbn [fst snd]. lia.
        -- intros e He Hne. apply in_app_or in He. destruct He as [He|[<-|[]]].
           ++ apply Hmin; auto.
           ++ cbn [fst] in Hne. contradiction.
        -- right. destruct Hx as (c0 & Hin & Ea). exists c0.
           split; [apply in_or_app; now left|]. split; auto.
    + refine (IH (seen ++ [(j, c)]) _ _ _ _ _ _ _ _ Hnd _ _ _ _ _ E).
      * lia.
      * destruct Hx as (c0 & Hin & Ea). exists c0; split; auto. apply in_or_app; now left.
      * intros e He. apply in_app_or in He. destruct He as [He|[<-|[]]]; auto;
          try (specialize (Hmin e He)); try (cbn [fst snd]; lia).
      * intros e He Hne. apply in_app_or in He. destruct He as [He|[<-|[]]]; auto;
          try (cbn [fst snd]; lia).
      * destruct Hy as [Hy|(c0 & Hin & Hne & Eb)]; [now left|].
        right. exists c0. split; auto. apply in_or_app; now left.
Qed.

Lemma two_smallest_least BIG vv row j2 umin usubmin j1 j2' :
  NoDup (map fst row) ->
  (forall j0 c0 rest, row = (j0, c0) :: rest -> c0 - get vv j0 <= BIG) ->
  two_smallest BIG vv row j2 = Some (umin, usubmin, j1, j2') ->
  umin <= usubmin <= BIG
  /\ (exists c, In (j1, c) row /\ umin = c - get vv j1)
  /\ (forall j c, In (j, c) row -> umin <= c - get vv j)
  /\ (forall j c, In (j, c) row -> j <> j1 -> usubmin <= c - get vv j)
  /\ (usubmin = BIG /\ j2' = j2
      \/ exists c, In (j2', c) row /\ j2' <> j1 /\ usubmin = c - get vv j2').
Proof.
  intros Hnd Hfirst. unfold two_smallest.
  destruct row as [|[j0 c0] rest]; [discriminate|].
  intros E; injection E as E.
  specialize (Hfirst j0 c0 rest eq_refl).
  assert (G : umin <= usubmin <= BIG
  /\ (exists c, In (j1, c) ([(j0, c0)] ++ rest) /\ umin = c - get vv j1)
  /\ (forall e, In e ([(j0, c0)] ++ rest) -> umin <= snd e - get vv (fst e))
  /\ (forall e, In e ([(j0, c0)] ++ rest) -> fst e <> j1 -> usubmin <= snd e - get vv (fst e))
  /\ (usubmin = BIG /\ j2' = j2
      \/ exists c, In (j2', c) ([(j0, c0)] ++ rest) /\ j2' <> j1 /\ usubmin = c - get vv j2')).
  2: { cbn [app] in G. destruct G as (H1 & H2 & H3 & H4 & H5).
    split; [exact H1|]. split; [exact H2|]. split; [|split; [|exact H5]].
    + intros j c Hin. apply (H3 (j, c) Hin).
    + intros j c Hin Hne. apply (H4 (j, c) Hin Hne). }
  refine (two_smallest_fold_spec BIG vv j2 rest [(j0, c0)] _ _ _ _ _ _ _ _ Hnd _ _ _ _ _ E).
  - lia.
  - exists c0. split; [now left | reflexivity].
  - intros e [<-|[]]. cbn [fst snd]. lia.
  - intros e [<-|[]] Hne. cbn [fst] in Hne. contradiction.
  - now left.
Qed.

(** X22: for a row with distinct columns whose first reduced cost is at
    most [BIG], the scan for the two smallest reduced costs returns the
    least reduced cost [umin] of the row and a column [j1] attaining it, and
    the least reduced cost [usubmin] over the other columns, capped at
    [BIG]; [j2] is a column other than [j1] attaining [usubmin], or is left
    unchanged with [usubmin = BIG]. *)
Theorem two_smallest_spec BIG vv row j2 umin usubmin j1 j2' :
  NoDup (map fst row) ->
  (forall j0 c0 rest, row = (j0, c0) :: rest -> c0 - get vv j0 <= BIG) ->
  two_smallest BIG vv row j2 = Some (umin, usubmin, j1, j2') ->
  umin <= usubmin <= BIG
  /\ (exists c, In (j1, c) row /\ umin = c - get vv j1)
  /\ (forall j c, In (j, c) row -> umin <= c - get vv j)
  /\ (forall j c, In (j, c) row -> j <> j1 -> usubmin <= c - get vv j)
  /\ (usubmin = BIG /\ j2' = j2
      \/ exists c, In (j2', c) row /\ j2' <> j1 /\ usubmin = c - get vv j2').
Proof. exact (two_smallest_least BIG vv row j2 umin usubmin j1 j2'). Qed.

Lemma two_smallest_spec_witness :
  3 <= 5 <= 100
  /\ (exists c, In (2, c) [(0, 9); (2, 4); (3, 7)] /\ 3 = c - get [1; 1; 1; 2] 2)
  /\ (forall j c, In (j, c) [(0, 9); (2, 4); (3, 7)] -> 3 <= c - get [1; 1; 1; 2] j)
  /\ (forall j c, In (j, c) [(0, 9); (2, 4); (3, 7)] -> j <> 2 -> 5 <= c - get [1; 1; 1; 2] j)
  /\ (5 = 100 /\ 3 = 0
      \/ exists c, In (3, c) [(0, 9); (2, 4); (3, 7)] /\ 3 <> 2 /\ 5 = c - get [1; 1; 1; 2] 3).
Proof.
  apply (two_smallest_spec 100 [1; 1; 1; 2] [(0, 9); (2, 4); (3, 7)] 0 3 5 2 3).
  - repeat constructor; simpl; intuition lia.
  - intros j0 c0 rest E. injection E as <- <- _. vm_compute. discriminate.
  - reflexivity.
Defined.

(** ** The reduced instance used by the examples below *)

Lemma wf_inst_relabel : wf_matrix inst_relabel = true.
Proof. reflexivity. Qed.

Lemma lap_reduce_relabel_example :
  lap_reduce 100000 50 [0; 0; 0; 0] inst_relabel
  = Done {| s_v := [0; 0; 0; -1]; s_rowsol := [0; 2; 2; 3]; s_colsol := [0; -1; 2; 3];
            s_matches := [3; 1; 0; 0]; s_free := [1; 3; 0; 0]; s_numfree := 1;
            s_k := 1; s_j2 := 2 |}.
Proof. vm_compute; reflexivity. Qed.

Lemma reduced_relabel_matching :
  matching 4 [0; 2; 2; 3] [0; -1; 2; 3] /\ pending_ok 4 [0; -1; 2; 3] [1].
Proof.
  exact (lap_reduce_listed 100000 50 [0; 0; 0; 0] inst_relabel _
           wf_inst_relabel eq_refl lap_reduce_relabel_example).
Qed.

(** The instance [inst_stale] after the three reduction phases: row 1 is
    free, column 1 is unassigned. *)
Lemma wf_inst_stale : wf_matrix inst_stale = true.
Proof. reflexivity. Qed.

Lemma inst_stale_feasible : feasible inst_stale.
Proof.
  split; [reflexivity|].
  exists [5; 1; 3; 0; 4; 2]; split; [small_perm | reflexivity].
Qed.

Lemma lap_reduce_stale_example :
  lap_reduce 100000 50 [0; 0; 0; 0; 0; 0] inst_stale
  = Done {| s_v := [-5; 0; 0; -1; 2; -2]; s_rowsol := [5; 3; 3; 0; 4; 2];
            s_colsol := [3; -1; 5; 2; 4; 0]; s_matches := [1; 2; 0; 1; 2; 0];
            s_free := [1; 5; 0; 0; 0; 0]; s_numfree := 1; s_k := 1; s_j2 := 3 |}.
Proof. vm_compute; reflexivity. Qed.

Lemma reduced_stale_matching :
  matching 6 [5; 3; 3; 0; 4; 2] [3; -1; 5; 2; 4; 0]
  /\ pending_ok 6 [3; -1; 5; 2; 4; 0] [1].
Proof.
  exact (lap_reduce_listed 100000 50 [0; 0; 0; 0; 0; 0] inst_stale _
           wf_inst_stale eq_refl lap_reduce_stale_example).
Qed.

Lemma reduced_stale_stored : on_stored inst_stale 6 [3; -1; 5; 2; 4; 0].
Proof.
  intros j Hj.
  assert (E : j = 0 \/ j = 1 \/ j = 2 \/ j = 3 \/ j = 4 \/ j = 5) by lia.
  destruct E as [-> | [-> | [-> | [-> | [-> | ->]]]]];
    vm_compute; intros; try discriminate; auto.
Qed.

(** ** The search *)

(** X10: a search that returns ends at a column inside the matrix that
    is unassigned and labelled with a row that stores it; every label is the
    start row or the row of a ready column. *)
Theorem search_ends_at_free_column BIG k fuel m start a d min e :
  wf_matrix m = true -> 0 <= start ->
  Z.of_nat (length (prev (a_data a))) = dimension m ->
  search BIG k fuel m (a_v a) (a_colsol a) 0
    (seed_queue (findRow m start)
       (seed_dist (a_v a) (findRow m start) (reset start (a_data a))))
  = Done (d, min, e) ->
  0 <= e < dimension m
  /\ get (a_colsol a) e < 0
  /\ stored m (get (prev d) e) e <> None
  /\ forall j, 0 <= j < dimension m ->
       get (prev d) j = start
       \/ exists j1, 0 <= j1 < dimension m /\ In j1 (ready d)
                     /\ 0 <= get (a_colsol a) j1 /\ get (prev d) j = get (a_colsol a) j1.
Proof.
  intros Hwf Hs Hl Hrun.
  assert (Hrowr : forall x, In x (findRow m start) -> 0 <= fst x < dimension m)
    by (intros x Hx; eapply wf_row_columns; eauto).
  pose proof Hrun as Hrun'.
  apply (search_inv_search (dimension m) (a_colsol a) start) in Hrun; auto.
  2: { apply search_inv_seed; auto. apply search_inv_reset; exact Hl. }
  apply (search_label m (dimension m) (a_colsol a) start) in Hrun'; auto.
  2: { apply search_inv_seed; auto. apply search_inv_reset; exact Hl. }
  2: { apply label_inv_seed; auto. }
  destruct Hrun as (_ & He & Hce). destruct Hrun' as ([_ Hlb] & Hq).
  auto.
Qed.

Lemma search_ends_at_free_column_witness :
  exists d min e,
    search 100000 50 50 inst_stale [-5; 0; 0; -1; 2; -2] [3; -1; 5; 2; 4; 0] 0
      (seed_queue (findRow inst_stale 1)
         (seed_dist [-5; 0; 0; -1; 2; -2] (findRow inst_stale 1) (reset 1 (new_data 6))))
    = Done (d, min, e)
    /\ 0 <= e < dimension inst_stale
    /\ get [3; -1; 5; 2; 4; 0] e < 0
    /\ stored inst_stale (get (prev d) e) e <> None
    /\ forall j, 0 <= j < dimension inst_stale ->
         get (prev d) j = 1
         \/ exists j1, 0 <= j1 < dimension inst_stale /\ In j1 (ready d)
                       /\ 0 <= get [3; -1; 5; 2; 4; 0] j1
                       /\ get (prev d) j = get [3; -1; 5; 2; 4; 0] j1.
Proof.
  do 3 eexists. split; [vm_compute; reflexivity|].
  eapply (search_ends_at_free_column 100000 50 50 inst_stale 1
            {| a_data := new_data 6; a_v := [-5; 0; 0; -1; 2; -2];
               a_rowsol := [5; 3; 3; 0; 4; 2]; a_colsol := [3; -1; 5; 2; 4; 0] |}).
  - reflexivity.
  - lia.
  - reflexivity.
  - vm_compute; reflexivity.
Defined.

(** ** The path flip *)

(** X12: flipping the path from an unassigned column back to the start
    row, along labels that name the start row or assigned rows, yields a
    consistent assignment with one more assigned column, and the only newly
    assigned row is the start row. *)
Theorem flip_path_extends_matching n fuel prev start e rs cs rs' cs' :
  matching n rs cs ->
  0 <= start < n -> ~ in_image n cs start ->
  0 <= e < n -> get cs e < 0 ->
  (forall j, 0 <= j < n ->
     get prev j = start \/ (0 <= get prev j /\ in_image n cs (get prev j))) ->
  flip_path fuel prev start e rs cs = Done (rs', cs') ->
  matching n rs' cs'
  /\ Z.of_nat (length (assigned_rows cs')) = Z.of_nat (length (assigned_rows cs)) + 1
  /\ (forall x, 0 <= x -> in_image n cs' x -> x = start \/ in_image n cs x).
Proof. exact (flip_path_matching n fuel prev start e rs cs rs' cs'). Qed.

Lemma searched_relabel_prev j :
  0 <= j < 4 ->
  get [3; 0; 1; 2] j = 1
  \/ (0 <= get [3; 0; 1; 2] j /\ in_image 4 [0; -1; 2; 3] (get [3; 0; 1; 2] j)).
Proof.
  intros Hj.
  assert (E : j = 0 \/ j = 1 \/ j = 2 \/ j = 3) by lia.
  destruct E as [-> | [-> | [-> | ->]]].
  - right. split; [vm_compute; discriminate|]. exists 3. split; [lia | reflexivity].
  - right. split; [vm_compute; discriminate|]. exists 0. split; [lia | reflexivity].
  - left. reflexivity.
  - right. split; [vm_compute; discriminate|]. exists 2. split; [lia | reflexivity].
Qed.

Lemma flip_path_extends_matching_witness :
  exists rs' cs',
    flip_path 50 [3; 0; 1; 2] 1 1 [0; 2; 2; 3] [0; -1; 2; 3] = Done (rs', cs')
    /\ matching 4 rs' cs'
    /\ Z.of_nat (length (assigned_rows cs'))
       = Z.of_nat (length (assigned_rows [0; -1; 2; 3])) + 1
    /\ (forall x, 0 <= x -> in_image 4 cs' x -> x = 1 \/ in_image 4 [0; -1; 2; 3] x).
Proof.
  do 2 eexists. split; [vm_compute; reflexivity|].
  apply (flip_path_extends_matching 4 50 [3; 0; 1; 2] 1 1 [0; 2; 2; 3] [0; -1; 2; 3]).
  - exact (proj1 reduced_relabel_matching).
  - lia.
  - destruct reduced_relabel_matching as [_ (_ & Hfree & _)].
    exact (proj2 (Hfree 1 (or_introl eq_refl))).
  - lia.
  - reflexivity.
  - exact searched_relabel_prev.
  - vm_compute; reflexivity.
Defined.

(** ** One augmentation *)

(** X13: one call of [augment] that returns keeps the assignment
    consistent, assigns the start row and leaves assigned every row that
    was; the rows still pending are the others of the list. *)
Theorem augment_assigns_start BIG fuel m start rest a a' :
  wf_matrix m = true ->
  matching (dimension m) (a_rowsol a) (a_colsol a) ->
  pending_ok (dimension m) (a_colsol a) (start :: rest) ->
  Z.of_nat (length (prev (a_data a))) = dimension m ->
  augment BIG fuel m start a = Done a' ->
  matching (dimension m) (a_rowsol a') (a_colsol a')
  /\ pending_ok (dimension m) (a_colsol a') rest
  /\ in_image (dimension m) (a_colsol a') start
  /\ Z.of_nat (length (prev (a_data a'))) = dimension m.
Proof.
  intros Hwf Hm Hp Hl Hrun.
  destruct (augment_matching BIG fuel m start rest a a' (dimension m) Hwf eq_refl Hm Hp Hl Hrun)
    as (Hm' & Hp' & Hl').
  split; [exact Hm'|]. split; [exact Hp'|]. split; [|exact Hl'].
  destruct Hp as (Hnd & Hfree & _). destruct Hp' as (_ & Hfree' & Hcov').
  destruct (Hfree start (or_introl eq_refl)) as [Hs _].
  destruct (Hcov' start Hs) as [H|H]; [exact H|].
  inversion Hnd; subst. contradiction.
Qed.

Lemma augment_assigns_start_witness :
  exists a',
    augment 100000 50 inst_stale 1
      {| a_data := new_data 6; a_v := [-5; 0; 0; -1; 2; -2];
         a_rowsol := [5; 3; 3; 0; 4; 2]; a_colsol := [3; -1; 5; 2; 4; 0] |} = Done a'
    /\ matching (dimension inst_stale) (a_rowsol a') (a_colsol a')
    /\ pending_ok (dimension inst_stale) (a_colsol a') []
    /\ in_image (dimension inst_stale) (a_colsol a') 1
    /\ Z.of_nat (length (prev (a_data a'))) = dimension inst_stale.
Proof.
  eexists. split; [vm_compute; reflexivity|].
  apply (augment_assigns_start 100000 50 inst_stale 1 []
           {| a_data := new_data 6; a_v := [-5; 0; 0; -1; 2; -2];
              a_rowsol := [5; 3; 3; 0; 4; 2]; a_colsol := [3; -1; 5; 2; 4; 0] |}).
  - reflexivity.
  - exact (proj1 reduced_stale_matching).
  - exact (proj2 reduced_stale_matching).
  - reflexivity.
  - vm_compute; reflexivity.
Defined.

(** X14: when every assigned column holds a stored entry of its row,
    this is still so after a call of [augment] that returns. *)
Theorem augment_keeps_stored BIG fuel m start rest a a' :
  wf_matrix m = true ->
  matching (dimension m) (a_rowsol a) (a_colsol a) ->
  pending_ok (dimension m) (a_colsol a) (start :: rest) ->
  Z.of_nat (length (prev (a_data a))) = dimension m ->
  on_stored m (dimension m) (a_colsol a) ->
  augment BIG fuel m start a = Done a' ->
  on_stored m (dimension m) (a_colsol a').
Proof.
  intros Hwf Hm Hp Hl Hon Hrun.
  exact (augment_stored BIG fuel m start rest a a' (dimension m) Hwf eq_refl Hm Hp Hl Hon Hrun).
Qed.

Lemma augment_keeps_stored_witness :
  exists a',
    augment 100000 50 inst_stale 1
      {| a_data := new_data 6; a_v := [-5; 0; 0; -1; 2; -2];
         a_rowsol := [5; 3; 3; 0; 4; 2]; a_colsol := [3; -1; 5; 2; 4; 0] |} = Done a'
    /\ on_stored inst_stale (dimension inst_stale) (a_colsol a').
Proof.
  eexists. split; [vm_compute; reflexivity|].
  apply (augment_keeps_stored 100000 50 inst_stale 1 []
           {| a_data := new_data 6; a_v := [-5; 0; 0; -1; 2; -2];
              a_rowsol := [5; 3; 3; 0; 4; 2]; a_colsol := [3; -1; 5; 2; 4; 0] |}).
  - reflexivity.
  - exact (proj1 reduced_stale_matching).
  - exact (proj2 reduced_stale_matching).
  - reflexivity.
  - exact reduced_stale_stored.
  - vm_compute; reflexivity.
Defined.

(** ** The reduction phases *)

(** X23: the three reduction phases of [lap] hand over a consistent
    partial assignment, and [free[0 .. numfree-1]] lists without repetition
    exactly the rows that hold no column. *)
Theorem lap_reduce_assignment BIG fuel free0 m s :
  wf_matrix m = true -> length free0 = dim m ->
  lap_reduce BIG fuel free0 m = Done s ->
  matching (dimension m) (s_rowsol s) (s_colsol s)
  /\ pending_ok (dimension m) (s_colsol s) (free_list (s_free s) (s_numfree s)).
Proof. exact (lap_reduce_listed BIG fuel free0 m s). Qed.

Lemma lap_reduce_assignment_witness :
  exists s,
    lap_reduce 100000 50 [0; 0; 0; 0] inst_relabel = Done s
    /\ matching (dimension inst_relabel) (s_rowsol s) (s_colsol s)
    /\ pending_ok (dimension inst_relabel) (s_colsol s) (free_list (s_free s) (s_numfree s)).
Proof.
  eexists. split; [vm_compute; reflexivity|].
  apply (lap_reduce_assignment 100000 50 [0; 0; 0; 0] inst_relabel).
  - reflexivity.
  - reflexivity.
  - vm_compute; reflexivity.
Defined.

Lemma get_vset_both (l1 l2 : list Z) j x j' :
  length l1 = length l2 ->
  (j' = j \/ get l1 j' = get l2 j') ->
  get (vset l1 j x) j' = get (vset l2 j x) j'.
Proof.
  intros Hl H. destruct (Z.eq_dec j j') as [<-|Hne].
  - destruct (Z.lt_ge_cases j 0) as [Hn|Hn].
    + unfold get. rewrite !vget_outside; auto; rewrite vset_length; lia.
    + destruct (Z.lt_ge_cases j (Z.of_nat (length l1))).
      * rewrite !get_vset_same by lia. reflexivity.
      * unfold get. rewrite !vget_outside; auto; rewrite vset_length; lia.
  - rewrite !get_vset_other by auto. destruct H as [E|H]; [congruence | exact H].
Qed.

Lemma cond_vset_agree (l1 l2 : list Z) (c1 c2 : bool) (k x j : Z) :
  length l1 = length l2 -> get l1 j = get l2 j -> (j = k -> c1 = c2) ->
  get (if c1 then vset l1 k x else l1) j = get (if c2 then vset l2 k x else l2) j.
Proof.
  intros L E C. destruct (Z.eq_dec j k) as [->|Hne].
  - rewrite (C eq_refl). destruct c2; [|exact E]. apply get_vset_both; auto.
  - destruct c1, c2; rewrite ?get_vset_other by auto; exact E.
Qed.

Lemma cond_vset_length (l : list Z) (c : bool) (k x : Z) :
  length (if c then vset l k x else l) = length l.
Proof. destruct c; [apply vset_length | reflexivity]. Qed.

Lemma swap_entries_agree (S : Z -> Prop) qh1 qh2 p r :
  heap_agree S qh1 qh2 -> heap_agree S (swap_entries qh1 p r) (swap_entries qh2 p r).
Proof.
  destruct qh1 as [q1 h1], qh2 as [q2 h2]. intros (E & L & H); cbn [fst snd] in *.
  subst q2. unfold swap_entries, heap_agree; cbn [fst snd].
  split; [reflexivity|]. split; [now rewrite !cond_vset_length|].
  intros j Hj. specialize (H j Hj).
  apply cond_vset_agree.
  - now rewrite !cond_vset_length.
  - apply cond_vset_agree; auto. intros ->. now rewrite H.
  - intros ->. now rewrite H.
Qed.

Lemma node_compare_agree dist1 dist2 a b :
  get dist1 a = get dist2 a -> get dist1 b = get dist2 b ->
  node_compare dist1 a b = node_compare dist2 a b.
Proof. unfold node_compare. now intros -> ->. Qed.

Lemma siftup_agree (S : Z -> Prop) dist1 dist2 fuel qh1 qh2 p :
  heap_agree S qh1 qh2 ->
  (forall j, In j (fst qh1) -> get dist1 j = get dist2 j) ->
  (p < length (fst qh1))%nat ->
  heap_agree S (siftup fuel dist1 qh1 p) (siftup fuel dist2 qh2 p).
Proof.
  revert qh1 qh2 p; induction fuel as [|fuel IH]; intros qh1 qh2 p H Hd Hp;
    cbn [siftup]; auto.
  destruct p as [|p']; auto.
  pose proof (parent_index_le (Datatypes.S p')) as Hle.
  pose proof H as (E & _). rewrite <- E.
  rewrite (node_compare_agree dist1 dist2) by (apply Hd, entry_In; lia).
  destruct (node_compare dist2 _ _); auto.
  apply IH.
  - now apply swap_entries_agree.
  - intros j Hj. apply Hd. revert Hj. apply Permutation_in, swap_entries_perm; lia.
  - rewrite swap_entries_length. lia.
Qed.

Lemma max_element_agree dist1 dist2 q cs l :
  (forall j, In j q -> get dist1 j = get dist2 j) ->
  (forall c, In c (l :: cs) -> (c < length q)%nat) ->
  max_element dist1 q cs l = max_element dist2 q cs l.
Proof.
  intros Hd. revert l; induction cs as [|c cs IH]; intros l Hc; cbn [max_element]; auto.
  rewrite (node_compare_agree dist1 dist2)
    by (apply Hd, entry_In, Hc; simpl; auto).
  destruct (node_compare dist2 _ _); apply IH; intros x [<-|Hx]; apply Hc.
  - right; now left.
  - right; now right.
  - now left.
  - right; now right.
Qed.

Lemma top_child_index_agree dist1 dist2 q p :
  (forall j, In j q -> get dist1 j = get dist2 j) ->
  (first_child_index p < length q)%nat ->
  top_child_index dist1 q p = top_child_index dist2 q p.
Proof.
  intros Hd Hp. unfold top_child_index. apply max_element_agree; auto.
  intros c [<-|Hc]; [exact Hp|]. apply in_seq in Hc. lia.
Qed.

Lemma siftdown_agree (S : Z -> Prop) dist1 dist2 fuel qh1 qh2 p :
  heap_agree S qh1 qh2 ->
  (forall j, In j (fst qh1) -> get dist1 j = get dist2 j) ->
  (p < length (fst qh1))%nat ->
  heap_agree S (siftdown fuel dist1 qh1 p) (siftdown fuel dist2 qh2 p).
Proof.
  revert qh1 qh2 p; induction fuel as [|fuel IH]; intros qh1 qh2 p H Hd Hp;
    cbn [siftdown]; auto.
  pose proof H as (E & _). rewrite <- E.
  destruct (Nat.ltb_spec (first_child_index p) (length (fst qh1))) as [Hc|]; auto.
  rewrite (top_child_index_agree dist1 dist2) by auto.
  pose proof (top_child_index_bounds dist2 (fst qh1) p Hc) as Hb.
  rewrite (node_compare_agree dist1 dist2) by (apply Hd, entry_In; lia).
  destruct (negb _); auto.
  apply IH.
  - now apply swap_entries_agree.
  - intros j Hj. apply Hd. revert Hj. apply Permutation_in, swap_entries_perm; lia.
  - rewrite swap_entries_length. lia.
Qed.

Lemma pq_push_agree (S : Z -> Prop) dist1 dist2 qh1 qh2 j :
  heap_agree S qh1 qh2 ->
  (forall x, In x (fst qh1) -> get dist1 x = get dist2 x) ->
  get dist1 j = get dist2 j ->
  heap_agree (fun x => S x \/ x = j) (pq_push dist1 qh1 j) (pq_push dist2 qh2 j).
Proof.
  destruct qh1 as [q1 h1], qh2 as [q2 h2]. intros (E & L & H) Hd Hj; cbn [fst snd] in *.
  subst q2. cbn [pq_push]. apply siftup_agree.
  - split; [reflexivity|]. cbn [fst snd]. split; [now rewrite !vset_length|].
    intros x [Hx| ->]; apply get_vset_both; auto.
  - cbn [fst]. intros x Hx. apply in_app_or in Hx. destruct Hx as [Hx|[<-|[]]]; auto.
  - cbn [fst]. rewrite length_app. simpl. lia.
Qed.

Lemma pq_pop_agree (S : Z -> Prop) dist1 dist2 qh1 qh2 :
  heap_agree S qh1 qh2 ->
  (forall x, In x (fst qh1) -> get dist1 x = get dist2 x) ->
  heap_agree S (pq_pop dist1 qh1) (pq_pop dist2 qh2).
Proof.
  destruct qh1 as [q1 h1], qh2 as [q2 h2]. intros (E & L & H) Hd; cbn [fst snd] in *.
  subst q2. cbn [pq_pop].
  destruct q1 as [|x rest]; [split; auto|].
  destruct rest as [|y rest']; [split; auto|].
  set (rest := y :: rest') in *.
  assert (Hne : rest <> []) by (subst rest; discriminate).
  assert (Hin : forall z, In z (last rest 0 :: removelast rest) -> In z rest).
  { intros z Hz. rewrite (app_removelast_last 0 Hne).
    destruct Hz as [<-|Hz]; apply in_or_app; [right; now left | now left]. }
  apply siftdown_agree.
  - split; [reflexivity|]. cbn [fst snd]. split; [now rewrite !cond_vset_length|].
    intros j Hj. apply cond_vset_agree; auto. intros ->. now rewrite (H _ Hj).
  - cbn [fst]. intros z Hz. apply Hd. right. now apply Hin.
  - cbn [fst length]. lia.
Qed.

Lemma pq_update_agree (S : Z -> Prop) dist1 dist2 qh1 qh2 j :
  heap_agree S qh1 qh2 ->
  (forall x, In x (fst qh1) -> get dist1 x = get dist2 x) ->
  S j ->
  heap_agree S (pq_update dist1 qh1 j) (pq_update dist2 qh2 j).
Proof.
  intros H Hd Hj. pose proof H as (E & L & Hh).
  unfold pq_update. rewrite <- E, <- (Hh j Hj).
  destruct (Nat.ltb_spec (Z.to_nat (get (snd qh1) j)) (length (fst qh1))) as [Hp|]; auto.
  destruct (Z.to_nat (get (snd qh1) j)) as [|p'] eqn:Ep.
  - apply siftdown_agree; auto.
  - pose proof (parent_index_le (Datatypes.S p')) as Hle.
    rewrite (node_compare_agree dist1 dist2) by (apply Hd, entry_In; lia).
    destruct (node_compare dist2 _ _); [apply siftup_agree | apply siftdown_agree]; auto.
Qed.

Lemma same_search_heap d1 d2 :
  same_search d1 d2 ->
  heap_agree (queued d1) (heap_of d1) (heap_of d2)
  /\ forall x, In x (fst (heap_of d1)) -> get (dist d1) x = get (dist d2) x.
Proof.
  intros (_ & _ & _ & _ & _ & H6 & _ & H8 & H9 & H10).
  split; [split; [exact H6 | split; [exact H9 | exact H10]]|].
  intros x Hx. apply H8. right; now left.
Qed.

Lemma same_search_top d1 d2 :
  same_search d1 d2 -> pq_top (pq d1) = pq_top (pq d2).
Proof. intros (_ & _ & _ & _ & _ & Hq & _). now rewrite Hq. Qed.

Lemma same_search_dequeue d1 d2 :
  same_search d1 d2 -> same_search (dequeue d1) (dequeue d2).
Proof.
  intros H. destruct (same_search_heap d1 d2 H) as [Hh Hd].
  pose proof (pq_pop_agree _ (dist d1) (dist d2) _ _ Hh Hd) as (A & B & C).
  destruct H as (H1 & H2 & H3 & H4 & H5 & H6 & H7 & H8 & H9 & H10).
  unfold same_search.
  split; [exact H1|]. split; [exact H2|]. split; [exact H3|]. split; [exact H4|].
  split; [exact H5|]. split; [exact A|]. split; [exact H7|].
  split; [|split; [exact B|]].
  - intros j Hw. apply H8. unfold written in *.
    destruct Hw as [Hw|[Hw|Hw]]; auto.
    right; left. now apply dequeue_incl.
  - intros j Hq. apply C. unfold queued in *.
    destruct Hq as [Hq|Hq]; auto.
    right. now apply dequeue_incl.
Qed.

Lemma same_search_to_scan d1 d2 j :
  same_search d1 d2 -> written d1 j -> same_search (to_scan d1 j) (to_scan d2 j).
Proof.
  intros (H1 & H2 & H3 & H4 & H5 & H6 & H7 & H8 & H9 & H10) Hj.
  unfold same_search; cbn [to_scan in_todo ready is_ready prev scan pq dist handles].
  rewrite <- H1, <- H2, <- H3, <- H4, <- H5, <- H6.
  split; [reflexivity|]. split; [reflexivity|]. split; [reflexivity|]. split; [reflexivity|].
  split; [reflexivity|]. split; [reflexivity|]. split; [exact H7|].
  split; [|split; [exact H9|]].
  - intros j' Hw. unfold written in Hw. cbn [to_scan finalize set_prev set_dist in_todo ready is_ready prev scan pq] in Hw.
    destruct (Z.eq_dec j j') as [<-|Hne]; [apply H8; exact Hj|].
    apply H8. destruct Hw as [Hw|[Hw|[[E|Hw]|Hw]]].
    + left. unfold getb in *. now rewrite vget_vset_other in Hw.
    + right; now left.
    + contradiction.
    + right; right; now left.
    + right; right; now right.
  - intros j' Hq. unfold queued in Hq. cbn [to_scan in_todo pq] in Hq. apply H10.
    destruct Hq as [Hq|Hq]; [|now right].
    left. destruct (Z.eq_dec j j') as [<-|Hne].
    + unfold getb in Hq. destruct (Z.lt_ge_cases j 0).
      * rewrite vget_outside in Hq; [discriminate|]. rewrite vset_length. lia.
      * destruct (Z.lt_ge_cases j (Z.of_nat (length (in_todo d1)))).
        -- rewrite vget_vset_same in Hq by lia. discriminate.
        -- rewrite vget_outside in Hq; [discriminate|]. rewrite vset_length. lia.
    + unfold getb in *. now rewrite vget_vset_other in Hq.
Qed.

Lemma same_search_finalize d1 d2 j1 rest :
  scan d1 = j1 :: rest ->
  same_search d1 d2 -> same_search (finalize d1 j1) (finalize d2 j1).
Proof.
  intros Es (H1 & H2 & H3 & H4 & H5 & H6 & H7 & H8 & H9 & H10).
  unfold same_search; cbn [finalize in_todo ready is_ready prev scan pq dist handles].
  rewrite <- H1, <- H2, <- H3, <- H4, <- H5, <- H6.
  split; [reflexivity|]. split; [reflexivity|]. split; [reflexivity|]. split; [reflexivity|].
  split; [reflexivity|]. split; [reflexivity|]. split; [exact H7|].
  split; [|split; [exact H9 | exact H10]].
  intros j Hw. unfold written in Hw. cbn [to_scan finalize set_prev set_dist in_todo ready is_ready prev scan pq] in Hw.
  apply H8. destruct Hw as [Hw|[Hw|[Hw|[<-|Hw]]]].
  - now left.
  - right; now left.
  - right; right; left. rewrite Es in *. now right.
  - right; right; left. rewrite Es. now left.
  - right; right; now right.
Qed.

(** [dist[j] = x; prev[j] = i] followed by a move of [j] to [scan] or to
    the queue, or by an update of its queue entry. *)
Lemma same_search_relabel d1 d2 j x i :
  same_search d1 d2 ->
  same_search (set_prev (set_dist d1 j x) j i) (set_prev (set_dist d2 j x) j i)
  /\ get (dist (set_prev (set_dist d1 j x) j i)) j
     = get (dist (set_prev (set_dist d2 j x) j i)) j.
Proof.
  intros (H1 & H2 & H3 & H4 & H5 & H6 & H7 & H8 & H9 & H10).
  unfold same_search; cbn [set_prev set_dist in_todo ready is_ready prev scan pq dist handles].
  rewrite <- H1, <- H2, <- H3, <- H4, <- H5, <- H6, !vset_length.
  split; [|apply get_vset_both; auto].
  split; [reflexivity|]. split; [reflexivity|]. split; [reflexivity|]. split; [reflexivity|].
  split; [reflexivity|]. split; [reflexivity|]. split; [exact H7|].
  split; [|split; [exact H9 | exact H10]].
  intros j' Hw. apply get_vset_both; auto.
Qed.

Lemma same_search_enqueue d1 d2 j :
  same_search d1 d2 -> get (dist d1) j = get (dist d2) j ->
  same_search (enqueue d1 j) (enqueue d2 j).
Proof.
  intros H Hj. destruct (same_search_heap d1 d2 H) as [Hh Hd].
  pose proof (pq_push_agree _ (dist d1) (dist d2) _ _ j Hh Hd Hj) as (A & B & C).
  destruct H as (H1 & H2 & H3 & H4 & H5 & H6 & H7 & H8 & H9 & H10).
  unfold same_search.
  split; [cbn [enqueue in_todo]; now rewrite H1|]. split; [exact H2|].
  split; [exact H3|]. split; [exact H4|]. split; [exact H5|]. split; [exact A|].
  split; [exact H7|]. split; [|split; [exact B|]].
  - intros j' Hw. destruct (Z.eq_dec j' j) as [->|Hne]; [exact Hj|]. apply H8.
    unfold written in *. cbn [enqueue in_todo ready scan] in Hw.
    destruct Hw as [Hw|[Hw|Hw]].
    + left. unfold getb in *. now rewrite vget_vset_other in Hw by auto.
    + right; left. apply (Permutation_in _ (enqueue_perm d1 j)) in Hw.
      destruct Hw as [E|Hw]; [congruence | exact Hw].
    + right; right. exact Hw.
  - intros j' Hq. apply C. destruct (Z.eq_dec j' j) as [->|Hne]; [now right|]. left.
    unfold queued in *. cbn [enqueue in_todo] in Hq.
    destruct Hq as [Hq|Hq].
    + left. unfold getb in *. now rewrite vget_vset_other in Hq by auto.
    + right. apply (Permutation_in _ (enqueue_perm d1 j)) in Hq.
      destruct Hq as [E|Hq]; [congruence | exact Hq].
Qed.

Lemma same_search_requeue d1 d2 j :
  same_search d1 d2 -> queued d1 j -> same_search (requeue d1 j) (requeue d2 j).
Proof.
  intros H Hj. destruct (same_search_heap d1 d2 H) as [Hh Hd].
  pose proof (pq_update_agree _ (dist d1) (dist d2) _ _ j Hh Hd Hj) as (A & B & C).
  destruct H as (H1 & H2 & H3 & H4 & H5 & H6 & H7 & H8 & H9 & H10).
  unfold same_search.
  split; [exact H1|]. split; [exact H2|]. split; [exact H3|]. split; [exact H4|].
  split; [exact H5|]. split; [exact A|]. split; [exact H7|].
  split; [|split; [exact B|]].
  - intros j' Hw. apply H8. unfold written in *.
    destruct Hw as [Hw|[Hw|Hw]]; auto.
    right; left. apply (Permutation_in _ (requeue_perm d1 j)), Hw.
  - intros j' Hq. apply C. unfold queued in *.
    destruct Hq as [Hq|Hq]; auto.
    right. apply (Permutation_in _ (requeue_perm d1 j)), Hq.
Qed.

Lemma same_search_scan_keep d1 d2 j :
  same_search d1 d2 -> get (dist d1) j = get (dist d2) j ->
  same_search (to_scan d1 j) (to_scan d2 j).
Proof.
  intros (H1 & H2 & H3 & H4 & H5 & H6 & H7 & H8 & H9 & H10) Hj.
  unfold same_search; cbn [to_scan in_todo ready is_ready prev scan pq dist handles].
  rewrite <- H1, <- H2, <- H3, <- H4, <- H5, <- H6.
  split; [reflexivity|]. split; [reflexivity|]. split; [reflexivity|]. split; [reflexivity|].
  split; [reflexivity|]. split; [reflexivity|]. split; [exact H7|].
  split; [|split; [exact H9|]].
  - intros j' Hw. unfold written in Hw. cbn [to_scan finalize set_prev set_dist in_todo ready is_ready prev scan pq] in Hw.
    destruct (Z.eq_dec j j') as [<-|Hne]; [exact Hj|].
    apply H8. destruct Hw as [Hw|[Hw|[[E|Hw]|Hw]]].
    + left. unfold getb in *. now rewrite vget_vset_other in Hw.
    + right; now left.
    + contradiction.
    + right; right; now left.
    + right; right; now right.
  - intros j' Hq. unfold queued in Hq. cbn [to_scan in_todo pq] in Hq. apply H10.
    destruct Hq as [Hq|Hq]; [|now right].
    left. destruct (Z.eq_dec j j') as [<-|Hne].
    + rewrite getb_vset_false in Hq. discriminate.
    + unfold getb in *. now rewrite vget_vset_other in Hq.
Qed.

Lemma drop_stale_same k d1 d2 :
  same_search d1 d2 -> same_search (drop_stale k d1) (drop_stale k d2).
Proof.
  revert d1 d2; induction k as [|k IH]; intros d1 d2 H; cbn [drop_stale]; auto.
  rewrite (same_search_top d1 d2 H).
  destruct (pq_top (pq d2)) as [j|]; auto.
  pose proof H as (H1 & _). rewrite H1.
  destruct (getb (in_todo d2) j); auto.
  apply IH. now apply same_search_dequeue.
Qed.

Lemma rel_bind {A B} (R : A -> A -> Prop) (S : B -> B -> Prop) o1 o2 k1 k2 :
  rel_outcome R o1 o2 ->
  (forall a1 a2, R a1 a2 -> rel_outcome S (k1 a1) (k2 a2)) ->
  rel_outcome S (bind o1 k1) (bind o2 k2).
Proof.
  destruct o1, o2; cbn [rel_outcome bind]; auto; contradiction.
Qed.

Lemma collect_min_same fuel colsol min d1 d2 :
  same_search d1 d2 ->
  rel_outcome (fun r1 r2 => same_search (fst r1) (fst r2) /\ snd r1 = snd r2)
    (collect_min fuel colsol min d1) (collect_min fuel colsol min d2).
Proof.
  revert d1 d2; induction fuel as [|fuel IH]; intros d1 d2 H; cbn [collect_min];
    [exact I|].
  pose proof (same_search_top d1 d2 H) as Ht. rewrite Ht.
  destruct (pq_top (pq d2)) as [j|] eqn:Et; [|cbn; auto].
  pose proof H as (H1 & _ & _ & _ & _ & H6 & _ & H8 & _).
  assert (Hw : written d1 j).
  { right; left. rewrite H6. eapply pq_top_In; eauto. }
  rewrite (H8 j Hw), H1.
  destruct (get (dist d2) j =? min); [|cbn; auto].
  destruct (getb (in_todo d2) j); [|apply IH; exact H].
  destruct (get colsol j <? 0); [cbn; auto|].
  apply IH. apply same_search_dequeue, same_search_to_scan; auto.
Qed.

Lemma expand_row_same row v colsol i h min d1 d2 :
  same_search d1 d2 ->
  same_search (fst (expand_row row v colsol i h min d1))
              (fst (expand_row row v colsol i h min d2))
  /\ snd (expand_row row v colsol i h min d1) = snd (expand_row row v colsol i h min d2).
Proof.
  revert d1 d2; induction row as [|[j c] row IH]; intros d1 d2 H; cbn [expand_row].
  - cbn [fst snd]. auto.
  - pose proof H as (H1 & _ & H3 & _ & _ & _ & _ & H8 & _).
    rewrite H3. destruct (getb (is_ready d2) j); [apply IH; exact H|].
    cbv zeta.
    assert (Hc : negb (getb (in_todo d1) j) || (min + (c - get v j - h) <? get (dist d1) j)
                 = negb (getb (in_todo d2) j) || (min + (c - get v j - h) <? get (dist d2) j)).
    { rewrite H1. destruct (getb (in_todo d2) j) eqn:Ei; cbn [negb orb]; auto.
      rewrite (H8 j); auto. left. now rewrite H1. }
    rewrite Hc.
    destruct (negb (getb (in_todo d2) j) || (min + (c - get v j - h) <? get (dist d2) j));
      [|apply IH; exact H].
    destruct (same_search_relabel d1 d2 j (min + (c - get v j - h)) i H) as [Hr Hd].
    destruct (0 =? c - get v j - h).
    + destruct (get colsol j <? 0); [cbn [fst snd]; auto|].
      apply IH. apply same_search_scan_keep; auto.
    + replace (getb (in_todo (set_prev (set_dist d1 j (min + (c - get v j - h))) j i)) j)
        with (getb (in_todo (set_prev (set_dist d2 j (min + (c - get v j - h))) j i)) j)
        by (cbn [set_prev set_dist in_todo]; now rewrite H1).
      destruct (getb (in_todo (set_prev (set_dist d2 j (min + (c - get v j - h))) j i)) j)
        eqn:Ei; cbn [negb]; apply IH.
      * apply same_search_requeue; auto. left.
        cbn [set_prev set_dist in_todo] in *. now rewrite H1.
      * apply same_search_enqueue; auto.
Qed.

Lemma search_body_same BIG fuel m v colsol min d1 d2 :
  same_search d1 d2 ->
  rel_outcome
    (fun r1 r2 => same_search (fst (fst r1)) (fst (fst r2))
                  /\ snd (fst r1) = snd (fst r2) /\ snd r1 = snd r2)
    (search_body BIG fuel m v colsol min d1) (search_body BIG fuel m v colsol min d2).
Proof.
  intros H. unfold search_body.
  apply (rel_bind (fun r1 r2 => same_search (fst (fst r1)) (fst (fst r2))
                                /\ snd (fst r1) = snd (fst r2) /\ snd r1 = snd r2)).
  - pose proof H as (_ & _ & _ & _ & H5 & H6 & _).
    rewrite <- H5. destruct (scan d1) as [|j l] eqn:Es; [|cbn; auto].
    rewrite <- H6.
    pose proof (drop_stale_same (length (pq d1)) d1 d2 H) as Hd.
    rewrite (same_search_top _ _ Hd).
    destruct (pq_top (pq (drop_stale (length (pq d1)) d2))) as [t|] eqn:Et; [|exact I].
    assert (Ed : get (dist (drop_stale (length (pq d1)) d1)) t
                 = get (dist (drop_stale (length (pq d1)) d2)) t).
    { destruct Hd as (_ & _ & _ & _ & _ & Hq & _ & Hw & _). apply Hw.
      right; left. rewrite Hq. eapply pq_top_In; eauto. }
    rewrite Ed.
    eapply rel_bind; [apply collect_min_same; exact Hd|].
    intros [x1 f1] [x2 f2] [Hx Hf]. cbn [fst snd] in *. cbn. auto.
  - intros [[x1 m1] f1] [[x2 m2] f2] (Hx & Hm & Hf). cbn [fst snd] in Hx, Hm, Hf.
    subst m2 f2. destruct f1 as [e|]; [cbn; auto|].
    pose proof Hx as (_ & _ & _ & _ & H5 & _).
    rewrite <- H5. destruct (scan x1) as [|j1 rest] eqn:Es; [exact I|].
    cbv zeta.
    pose proof (same_search_finalize x1 x2 j1 rest Es Hx) as Hf.
    pose proof (expand_row_same (findRow m (get colsol j1)) v colsol (get colsol j1)
                  (assigncost BIG m (get colsol j1) j1 - get v j1) m1 _ _ Hf) as [Ha Hb].
    destruct (expand_row _ _ _ _ _ _ (finalize x1 j1)) as [y1 g1].
    destruct (expand_row _ _ _ _ _ _ (finalize x2 j1)) as [y2 g2].
    cbn [fst snd] in Ha, Hb. cbn. auto.
Qed.

Lemma search_same BIG k fuel m v colsol min d1 d2 :
  same_search d1 d2 ->
  rel_outcome
    (fun r1 r2 => same_search (fst (fst r1)) (fst (fst r2))
                  /\ snd (fst r1) = snd (fst r2) /\ snd r1 = snd r2)
    (search BIG k fuel m v colsol min d1) (search BIG k fuel m v colsol min d2).
Proof.
  revert min d1 d2; induction k as [|k IH]; intros min d1 d2 H; cbn [search]; [exact I|].
  eapply rel_bind; [apply search_body_same; exact H|].
  intros [[x1 m1] f1] [[x2 m2] f2] (Hx & Hm & Hf). cbn [fst snd] in Hx, Hm, Hf.
  subst m2 f2. destruct f1 as [e|]; [cbn; auto|]. apply IH; auto.
Qed.

Lemma getb_fill_false (l : list bool) j : getb (fill false l) j = false.
Proof.
  unfold getb. destruct (Z.lt_ge_cases j 0) as [Hn|Hn].
  - rewrite vget_outside; auto. lia.
  - destruct (Z.lt_ge_cases j (Z.of_nat (length l))).
    + apply vget_fill. lia.
    + rewrite vget_outside; auto. rewrite fill_length. lia.
Qed.

Lemma fill_same_length {A} (x : A) (l1 l2 : list A) :
  length l1 = length l2 -> fill x l1 = fill x l2.
Proof.
  revert l2; induction l1 as [|a l1 IH]; intros [|b l2] H; try discriminate; auto.
  cbn [fill map]. f_equal. apply IH. now injection H.
Qed.

Lemma seed_dist_handles v row d : handles (seed_dist v row d) = handles d.
Proof.
  unfold seed_dist. revert d; induction row as [|e row IH]; intros d; cbn [fold_left]; auto.
  now rewrite IH.
Qed.

Lemma seed_same v row start d1 d2 :
  same_sizes d1 d2 ->
  same_search (seed_queue row (seed_dist v row (reset start d1)))
              (seed_queue row (seed_dist v row (reset start d2))).
Proof.
  intros (L1 & L2 & L3 & L4 & L5).
  assert (H0 : forall r e1 e2,
     in_todo e1 = in_todo e2 /\ ready e1 = ready e2 /\ is_ready e1 = is_ready e2
     /\ prev e1 = prev e2 /\ scan e1 = scan e2 /\ pq e1 = pq e2
     /\ length (dist e1) = length (dist e2) ->
     forall P : Z -> Prop,
     (forall j, P j -> get (dist e1) j = get (dist e2) j) ->
     let f1 := seed_dist v r e1 in
     let f2 := seed_dist v r e2 in
     (in_todo f1 = in_todo f2 /\ ready f1 = ready f2 /\ is_ready f1 = is_ready f2
      /\ prev f1 = prev f2 /\ scan f1 = scan f2 /\ pq f1 = pq f2
      /\ length (dist f1) = length (dist f2))
     /\ (forall j, P j \/ In j (map fst r) -> get (dist f1) j = get (dist f2) j)
     /\ in_todo f1 = in_todo e1 /\ pq f1 = pq e1 /\ scan f1 = scan e1 /\ ready f1 = ready e1).
  { unfold seed_dist. induction r as [|[j c] r IH]; intros e1 e2 He P HP; cbn [fold_left].
    - cbv zeta. split; [exact He|]. split; [|auto].
      intros j [Hj|[]]; auto.
    - cbv zeta. cbn [fst snd].
      destruct He as (E1 & E2 & E3 & E4 & E5 & E6 & E7).
      destruct (IH (set_dist e1 j (c - get v j)) (set_dist e2 j (c - get v j)))
        with (P := fun j' => P j' \/ j' = j) as (A & B & C).
      + cbn [set_dist in_todo ready is_ready prev scan pq dist]. rewrite !vset_length. auto 10.
      + intros j' Hj'. cbn [set_dist dist]. apply get_vset_both; auto.
        destruct Hj' as [Hj'|Hj']; auto.
      + cbv zeta in *. split; [exact A|]. split; [|exact C].
        intros j' [Hj'|[Hj'|Hj']]; apply B; auto. }
  destruct (H0 row (reset start d1) (reset start d2)) with (P := fun _ : Z => False)
    as (A & B & C1 & C2 & C3 & C4).
  { cbn [reset in_todo ready is_ready prev scan pq dist].
    rewrite (fill_same_length false _ _ L1), (fill_same_length false _ _ L2),
      (fill_same_length start _ _ L3). auto 10. }
  { intros j []. }
  cbv zeta in *.
  set (f1 := seed_dist v row (reset start d1)) in *.
  set (f2 := seed_dist v row (reset start d2)) in *.
  assert (Hw0 : forall j, written f1 j -> False).
  { intros j Hw. unfold written in Hw. rewrite C1, C2, C3, C4 in Hw.
    cbn [reset in_todo ready is_ready prev scan pq dist] in Hw.
    rewrite getb_fill_false in Hw.
    destruct Hw as [Hw|[[]|[[]|[]]]]. discriminate. }
  assert (G : forall r, incl r row -> forall e1 e2,
     same_search e1 e2 -> dist e1 = dist f1 -> dist e2 = dist f2 ->
     same_search (seed_queue r e1) (seed_queue r e2)).
  { unfold seed_queue. induction r as [|[j c] r IH]; intros Hincl e1 e2 He D1 D2;
      cbn [fold_left]; auto.
    apply IH; auto.
    - intros x Hx; apply Hincl; now right.
    - cbn [fst]. apply same_search_enqueue; auto.
      rewrite D1, D2. apply B. right. apply in_map_iff. exists (j, c).
      split; auto. apply Hincl; now left. }
  apply G; auto.
  - apply incl_refl.
  - destruct A as (E1 & E2 & E3 & E4 & E5 & E6 & E7).
    unfold same_search.
    split; [exact E1|]. split; [exact E2|]. split; [exact E3|]. split; [exact E4|].
    split; [exact E5|]. split; [exact E6|]. split; [exact E7|].
    split; [intros j Hw; exfalso; eapply Hw0; eauto|].
    split; [unfold f1, f2; rewrite !seed_dist_handles; exact L5|].
    intros j Hq. exfalso. apply (Hw0 j).
    destruct Hq as [Hq|Hq]; [left | right; left]; exact Hq.
Qed.

Lemma update_prices_same d1 d2 min v :
  same_search d1 d2 -> update_prices d1 min v = update_prices d2 min v.
Proof.
  intros (_ & H2 & _ & _ & _ & _ & _ & H8 & _). unfold update_prices. rewrite <- H2.
  assert (G : forall L w, (forall j, In j L -> In j (ready d1)) ->
     fold_left (fun v j => vset v j (get v j + get (dist d1) j - min)) L w
     = fold_left (fun v j => vset v j (get v j + get (dist d2) j - min)) L w).
  { induction L as [|a L IH]; intros w HL; cbn [fold_left]; auto.
    rewrite (H8 a) by (right; right; right; apply HL; now left).
    apply IH. intros j Hj; apply HL; now right. }
  apply G. intros j Hj. now apply in_rev.
Qed.

Lemma same_search_sizes d1 d2 : same_search d1 d2 -> same_sizes d1 d2.
Proof.
  intros (H1 & _ & H3 & H4 & _ & _ & H7 & _ & H9 & _). unfold same_sizes.
  rewrite H1, H3, H4. auto.
Qed.

Lemma augment_same BIG fuel m start d1 d2 v rs cs :
  same_sizes d1 d2 ->
  rel_outcome same_assignment
    (augment BIG fuel m start {| a_data := d1; a_v := v; a_rowsol := rs; a_colsol := cs |})
    (augment BIG fuel m start {| a_data := d2; a_v := v; a_rowsol := rs; a_colsol := cs |}).
Proof.
  intros Hs. unfold augment. cbn [a_data a_v a_rowsol a_colsol].
  eapply rel_bind; [apply search_same, seed_same; exact Hs|].
  intros [[x1 m1] e1] [[x2 m2] e2] (Hx & Hm & He). cbn [fst snd] in Hx, Hm, He.
  subst m2 e2.
  rewrite (update_prices_same x1 x2 m1 v Hx).
  pose proof Hx as (_ & _ & _ & H4 & _). rewrite H4.
  destruct (flip_path fuel (prev x2) start e1 rs cs) as [[r c]| |]; cbn; auto.
  unfold same_assignment. cbn [a_data a_v a_rowsol a_colsol].
  repeat split; auto; apply (same_search_sizes _ _ Hx).
Qed.

Lemma augment_all_same BIG fuel m frees a1 a2 :
  same_assignment a1 a2 ->
  rel_outcome same_assignment
    (augment_all BIG fuel m frees a1) (augment_all BIG fuel m frees a2).
Proof.
  revert a1 a2; induction frees as [|f rest IH]; intros a1 a2 H; cbn [augment_all].
  - exact H.
  - eapply rel_bind; [|intros x1 x2 Hx; apply IH; exact Hx].
    destruct a1 as [d1 v1 r1 c1], a2 as [d2 v2 r2 c2].
    destruct H as (Hv & Hr & Hc & Hs). cbn [a_data a_v a_rowsol a_colsol] in *.
    subst v2 r2 c2. apply augment_same; auto.
Qed.

(** X15: the augmentations read the scratch state they are given only
    through the sizes of its vectors: started from two scratch states of
    the same sizes (in particular with different stale distances, which
    [reset] leaves in place), they return the same prices and the same
    assignment. *)
Theorem augment_ignores_stale_scratch BIG fuel m frees d1 d2 v rs cs a1 :
  same_sizes d1 d2 ->
  augment_all BIG fuel m frees {| a_data := d1; a_v := v; a_rowsol := rs; a_colsol := cs |}
  = Done a1 ->
  exists a2,
    augment_all BIG fuel m frees {| a_data := d2; a_v := v; a_rowsol := rs; a_colsol := cs |}
    = Done a2
    /\ a_v a2 = a_v a1 /\ a_rowsol a2 = a_rowsol a1 /\ a_colsol a2 = a_colsol a1.
Proof.
  intros Hs Hrun.
  pose proof (augment_all_same BIG fuel m frees
                {| a_data := d1; a_v := v; a_rowsol := rs; a_colsol := cs |}
                {| a_data := d2; a_v := v; a_rowsol := rs; a_colsol := cs |}) as H.
  rewrite Hrun in H.
  assert (H0 : same_assignment
                 {| a_data := d1; a_v := v; a_rowsol := rs; a_colsol := cs |}
                 {| a_data := d2; a_v := v; a_rowsol := rs; a_colsol := cs |})
    by (unfold same_assignment; cbn [a_data a_v a_rowsol a_colsol]; auto).
  specialize (H H0).
  destruct (augment_all BIG fuel m frees
              {| a_data := d2; a_v := v; a_rowsol := rs; a_colsol := cs |}) as [a2| |];
    cbn [rel_outcome] in H; try contradiction.
  destruct H as (Hv & Hr & Hc & _). exists a2. auto.
Qed.

Lemma augment_ignores_stale_scratch_witness :
  exists a2,
    augment_all 100000 50 inst_relabel [1]
      {| a_data := {| in_todo := [true; true; false; true]; ready := [2];
                      is_ready := [false; true; true; false]; prev := [7; 7; 7; 7];
                      scan := [3]; dist := [9; -4; 6; 1];
                      handles := [3; 1; 2; 0]; pq := [0; 1] |};
         a_v := [0; 0; 0; -1]; a_rowsol := [0; 2; 2; 3]; a_colsol := [0; -1; 2; 3] |}
    = Done a2
    /\ a_v a2 = [1; 0; 0; -1] /\ a_rowsol a2 = [1; 2; 3; 0] /\ a_colsol a2 = [3; 0; 1; 2].
Proof.
  apply (augment_ignores_stale_scratch 100000 50 inst_relabel [1] (new_data 4)
           {| in_todo := [true; true; false; true]; ready := [2];
              is_ready := [false; true; true; false]; prev := [7; 7; 7; 7];
              scan := [3]; dist := [9; -4; 6; 1];
              handles := [3; 1; 2; 0]; pq := [0; 1] |}
           [0; 0; 0; -1] [0; 2; 2; 3] [0; -1; 2; 3]
           {| a_data := {| in_todo := [true; false; false; false]; ready := [0; 3; 2];
                           is_ready := [true; false; true; true]; prev := [3; 0; 1; 2];
                           scan := []; dist := [2; 1; 1; 1];
                           handles := [1; 0; 0; 0]; pq := [3; 0] |};
              a_v := [1; 0; 0; -1]; a_rowsol := [1; 2; 3; 0]; a_colsol := [3; 0; 1; 2] |}).
  - repeat split.
  - vm_compute. reflexivity.
Defined.

(** ** Handles name queue entries *)

Lemma get_cond_vset (l : list Z) (c : bool) (k x j : Z) :
  0 <= k < Z.of_nat (length l) ->
  get (if c then vset l k x else l) j = if c && (j =? k) then x else get l j.
Proof.
  intros Hk. destruct c; cbn [andb]; [|reflexivity].
  destruct (Z.eqb_spec j k) as [->|Hne].
  - apply get_vset_same. exact Hk.
  - apply get_vset_other. auto.
Qed.

Lemma swap_entries_ok (T : Z -> Prop) (qh : heap) (a b : nat) :
  handles_ok T qh -> (a < length (fst qh))%nat -> (b < length (fst qh))%nat -> a <> b ->
  handles_ok T (swap_entries qh a b).
Proof.
  intros [H1 H2] Ha Hb Hne.
  pose proof (entry_swap qh a b) as Hes.
  pose proof (swap_entries_perm qh a b Ha Hb) as Hperm.
  pose proof (swap_entries_length qh a b) as Hlen.
  pose proof (swap_entries_handles qh a b) as Hhl.
  split.
  2: { intros x Hx. rewrite Hhl. apply H2. revert Hx. apply Permutation_in, Hperm. }
  intros j Hj. rewrite Hlen, !Hes by assumption. clear Hes Hperm Hlen Hhl.
  destruct (H1 j Hj) as (Hpos & Hlt & He).
  pose proof (H2 _ (entry_In _ _ Ha)) as Hxa.
  pose proof (H2 _ (entry_In _ _ Hb)) as Hxb.
  destruct qh as [q hs]; cbn [fst snd swap_entries] in *.
  set (x := entry q a) in *. set (y := entry q b) in *.
  rewrite get_cond_vset by (rewrite cond_vset_length; exact Hxb).
  rewrite get_cond_vset by exact Hxa.
  assert (Hh : forall n : nat, Z.to_nat (get hs j) = n -> get hs j = Z.of_nat n) by lia.
  destruct (Z.eqb_spec (get hs y) (Z.of_nat b)) as [Eyb|Eyb]; cbn [andb].
  - destruct (Z.eqb_spec j y) as [Ejy|Ejy].
    + rewrite Nat2Z.id, Nat.eqb_refl.
      destruct (Nat.eqb_spec a b); [contradiction|].
      split; [lia|]. split; [exact Ha | now symmetry].
    + destruct (Z.eqb_spec (get hs x) (Z.of_nat a)) as [Exa|Exa]; cbn [andb].
      * destruct (Z.eqb_spec j x) as [Ejx|Ejx].
        -- rewrite Nat2Z.id, Nat.eqb_refl. split; [lia|]. split; [exact Hb | now symmetry].
        -- split; [exact Hpos|]. split; [exact Hlt|].
           destruct (Nat.eqb_spec (Z.to_nat (get hs j)) b) as [E|E];
             [exfalso; apply Ejy; rewrite <- He, E; reflexivity|].
           destruct (Nat.eqb_spec (Z.to_nat (get hs j)) a) as [E'|E'];
             [exfalso; apply Ejx; rewrite <- He, E'; reflexivity|].
           exact He.
      * split; [exact Hpos|]. split; [exact Hlt|].
        destruct (Nat.eqb_spec (Z.to_nat (get hs j)) b) as [E|E];
          [exfalso; apply Ejy; rewrite <- He, E; reflexivity|].
        destruct (Nat.eqb_spec (Z.to_nat (get hs j)) a) as [E'|E'].
        -- exfalso. apply Exa. assert (j = x) by (rewrite <- He, E'; reflexivity).
           subst j. apply Hh, E'.
        -- exact He.
  - destruct (Z.eqb_spec (get hs x) (Z.of_nat a)) as [Exa|Exa]; cbn [andb].
    + destruct (Z.eqb_spec j x) as [Ejx|Ejx].
      * rewrite Nat2Z.id, Nat.eqb_refl. split; [lia|]. split; [exact Hb | now symmetry].
      * split; [exact Hpos|]. split; [exact Hlt|].
        destruct (Nat.eqb_spec (Z.to_nat (get hs j)) b) as [E|E].
        -- exfalso. apply Eyb. assert (j = y) by (rewrite <- He, E; reflexivity).
           subst j. apply Hh, E.
        -- destruct (Nat.eqb_spec (Z.to_nat (get hs j)) a) as [E'|E'];
             [exfalso; apply Ejx; rewrite <- He, E'; reflexivity|].
           exact He.
    + split; [exact Hpos|]. split; [exact Hlt|].
      destruct (Nat.eqb_spec (Z.to_nat (get hs j)) b) as [E|E].
      * exfalso. apply Eyb. assert (j = y) by (rewrite <- He, E; reflexivity).
        subst j. apply Hh, E.
      * destruct (Nat.eqb_spec (Z.to_nat (get hs j)) a) as [E'|E'].
        -- exfalso. apply Exa. assert (j = x) by (rewrite <- He, E'; reflexivity).
           subst j. apply Hh, E'.
        -- exact He.
Qed.

Lemma siftup_ok (T : Z -> Prop) dist fuel (qh : heap) (p : nat) :
  handles_ok T qh -> (p < length (fst qh))%nat -> handles_ok T (siftup fuel dist qh p).
Proof.
  revert qh p; induction fuel as [|fuel IH]; intros qh p H Hp; cbn [siftup]; auto.
  destruct p as [|p']; auto.
  destruct (node_compare _ _ _); auto.
  pose proof (parent_index_lt (S p') ltac:(lia)) as Hlt.
  apply IH; [apply swap_entries_ok; auto; lia | rewrite swap_entries_length; lia].
Qed.

Lemma siftdown_ok (T : Z -> Prop) dist fuel (qh : heap) (p : nat) :
  handles_ok T qh -> (p < length (fst qh))%nat -> handles_ok T (siftdown fuel dist qh p).
Proof.
  revert qh p; induction fuel as [|fuel IH]; intros qh p H Hp; cbn [siftdown]; auto.
  destruct (Nat.ltb_spec (first_child_index p) (length (fst qh))) as [Hc|]; auto.
  destruct (negb _); auto.
  pose proof (top_child_index_bounds dist (fst qh) p Hc) as Hb.
  apply IH; [apply swap_entries_ok; auto; lia | rewrite swap_entries_length; lia].
Qed.

Lemma pq_push_ok (T T' : Z -> Prop) dist (qh : heap) (j : Z) :
  handles_ok T qh -> 0 <= j < Z.of_nat (length (snd qh)) ->
  (forall x, T' x -> T x \/ x = j) ->
  handles_ok T' (pq_push dist qh j).
Proof.
  destruct qh as [q hs]; cbn [fst snd]. intros [H1 H2] Hj HT. cbn [pq_push].
  apply siftup_ok; cbn [fst]; [|rewrite length_app; simpl; lia].
  split; cbn [fst snd].
  - intros x Hx. destruct (Z.eq_dec x j) as [->|Hne].
    + rewrite get_vset_same by exact Hj. rewrite Nat2Z.id, length_app. simpl.
      split; [lia|]. split; [lia|]. unfold entry. apply nth_middle.
    + destruct (HT x Hx) as [Hx'|]; [|contradiction].
      destruct (H1 x Hx') as (A & B & C). cbn [fst snd] in *.
      rewrite get_vset_other by auto. rewrite length_app. simpl.
      split; [exact A|]. split; [lia|]. unfold entry in *. now rewrite app_nth1.
  - intros x Hx. rewrite vset_length. apply in_app_or in Hx.
    destruct Hx as [Hx|[<-|[]]]; [apply H2; exact Hx | exact Hj].
Qed.

Lemma entry_removelast (q : list Z) (p : nat) :
  (p < length q - 1)%nat -> entry (removelast q) p = entry q p.
Proof.
  intros Hp. destruct q as [|x q] using rev_ind; [simpl in Hp; lia|].
  rewrite removelast_last. rewrite length_app in Hp. simpl in Hp.
  unfold entry. now rewrite app_nth1 by lia.
Qed.

Lemma entry_last (q : list Z) : q <> [] -> entry q (length q - 1) = last q 0.
Proof.
  intros Hne. destruct q as [|x q] using rev_ind; [congruence|].
  rewrite last_last, length_app. simpl. unfold entry.
  replace (length q + 1 - 1)%nat with (length q) by lia. apply nth_middle.
Qed.

Lemma last_In (q : list Z) : q <> [] -> In (last q 0) q.
Proof.
  induction q as [|x q IH]; [congruence|]. intros _.
  destruct q as [|y q']; [now left|]. right. apply IH. discriminate.
Qed.

Lemma removelast_In (q : list Z) x : In x (removelast q) -> In x q.
Proof.
  induction q as [|y q IH]; [auto|]. destruct q as [|z q']; [intros []|].
  intros [<-|H]; [now left | right; apply IH, H].
Qed.

Lemma pq_pop_ok (T : Z -> Prop) dist (qh : heap) (r : Z) :
  handles_ok T qh -> pq_top (fst qh) = Some r -> ~ T r ->
  handles_ok T (pq_pop dist qh).
Proof.
  destruct qh as [q hs]; cbn [fst snd]. intros [H1 H2] Ht Hr.
  destruct q as [|x rest]; [discriminate|]. injection Ht as ->. cbn [pq_pop fst snd] in *.
  destruct rest as [|y rest'].
  { split; cbn [fst snd]; [|intros x []].
    intros j Hj. destruct (H1 j Hj) as (A & B & C). simpl in B.
    assert (E : Z.to_nat (get hs j) = 0%nat) by lia. rewrite E in C.
    unfold entry in C. simpl in C. congruence. }
  set (rest := y :: rest') in *.
  assert (Hne : rest <> []) by (subst rest; discriminate).
  assert (Hlen : (0 < length rest)%nat) by (subst rest; simpl; lia).
  pose proof (app_removelast_last 0 Hne) as Hsplit.
  assert (Hlr : length (removelast rest) = (length rest - 1)%nat).
  { rewrite Hsplit at 2. rewrite length_app. simpl. lia. }
  assert (Hb : 0 <= last rest 0 < Z.of_nat (length hs)).
  { apply H2. right. apply last_In, Hne. }
  apply siftdown_ok; [|cbn [fst length]; lia].
  split; cbn [fst snd].
  - intros j Hj. destruct (H1 j Hj) as (A & B & C).
    rewrite get_cond_vset by exact Hb.
    assert (Hp : Z.to_nat (get hs j) <> 0%nat).
    { intros E. rewrite E in C. unfold entry in C. simpl in C. congruence. }
    cbn [length] in B |- *. rewrite Hlr.
    destruct (Z.eqb_spec (get hs (last rest 0)) (Z.of_nat (length rest))) as [E|E];
      cbn [andb].
    + destruct (Z.eqb_spec j (last rest 0)) as [Ej|Ej].
      * split; [lia|]. split; [simpl; lia|]. unfold entry. simpl. now symmetry.
      * assert (Hlt : (Z.to_nat (get hs j) < length rest)%nat).
        { destruct (Nat.eq_dec (Z.to_nat (get hs j)) (length rest)) as [E'|]; [|lia].
          exfalso. apply Ej. rewrite <- C, E'. unfold entry. cbn [nth].
          destruct (length rest) as [|n] eqn:El; [lia|].
          rewrite <- (entry_last rest Hne), El. unfold entry. f_equal. lia. }
        split; [exact A|]. split; [lia|].
        destruct (Z.to_nat (get hs j)) as [|h'] eqn:Eh; [congruence|].
        unfold entry in *. cbn [nth] in *.
        rewrite <- C. apply (entry_removelast rest h'). lia.
    + assert (Hlt : (Z.to_nat (get hs j) < length rest)%nat).
      { destruct (Nat.eq_dec (Z.to_nat (get hs j)) (length rest)) as [E'|]; [|lia].
        exfalso. apply E.
        assert (Ej : j = last rest 0).
        { rewrite <- C, E'. unfold entry. cbn [nth].
          destruct (length rest) as [|n] eqn:El; [lia|].
          rewrite <- (entry_last rest Hne), El. unfold entry. f_equal. lia. }
        rewrite <- Ej. lia. }
      split; [exact A|]. split; [lia|].
      destruct (Z.to_nat (get hs j)) as [|h'] eqn:Eh; [congruence|].
      unfold entry in *. cbn [nth] in *.
      rewrite <- C. apply (entry_removelast rest h'). lia.
  - intros z Hz. rewrite cond_vset_length. apply H2. right.
    destruct Hz as [<-|Hz]; [apply last_In, Hne | apply removelast_In, Hz].
Qed.

Lemma pq_update_ok (T : Z -> Prop) dist (qh : heap) (j : Z) :
  handles_ok T qh -> handles_ok T (pq_update dist qh j).
Proof.
  intros H. unfold pq_update.
  destruct (Nat.ltb_spec (Z.to_nat (get (snd qh) j)) (length (fst qh))) as [Hp|]; auto.
  destruct (Z.to_nat (get (snd qh) j)) as [|p'] eqn:E.
  - apply siftdown_ok; auto.
  - destruct (node_compare _ _ _); [apply siftup_ok | apply siftdown_ok]; auto.
Qed.

Lemma handles_inv_valid n d j :
  handles_inv n d -> getb (in_todo d) j = true -> valid_handle d j.
Proof. intros [_ [H _]] Hj. exact (H j Hj). Qed.

Lemma handles_inv_relabel n d j x i :
  handles_inv n d -> handles_inv n (set_prev (set_dist d j x) j i).
Proof. intros H; exact H. Qed.

Lemma handles_inv_finalize n d j1 : handles_inv n d -> handles_inv n (finalize d j1).
Proof. intros H; exact H. Qed.

Lemma handles_inv_enqueue n d j :
  handles_inv n d -> 0 <= j < n -> handles_inv n (enqueue d j).
Proof.
  intros [Hl H] Hj. split; [rewrite enqueue_handles; exact Hl|].
  apply (pq_push_ok (fun x => getb (in_todo d) x = true) _ (dist d) (heap_of d) j H).
  - cbn [heap_of snd]. lia.
  - intros x Hx. cbn [enqueue in_todo] in Hx.
    destruct (Z.eq_dec x j) as [->|Hne]; [now right|]. left.
    unfold getb in *. now rewrite vget_vset_other in Hx by auto.
Qed.

Lemma handles_inv_requeue n d j : handles_inv n d -> handles_inv n (requeue d j).
Proof.
  intros [Hl H]. split; [rewrite requeue_handles; exact Hl|].
  exact (pq_update_ok _ (dist d) (heap_of d) j H).
Qed.

Lemma handles_inv_to_scan n d j : handles_inv n d -> handles_inv n (to_scan d j).
Proof.
  intros [Hl [H1 H2]]. split; [exact Hl|]. split; [|exact H2].
  intros x Hx. apply H1. cbn [to_scan in_todo] in Hx.
  destruct (Z.eq_dec x j) as [->|Hne].
  - rewrite getb_vset_false in Hx. discriminate.
  - unfold getb in *. now rewrite vget_vset_other in Hx by auto.
Qed.

Lemma handles_inv_dequeue n d r :
  handles_inv n d -> pq_top (pq d) = Some r -> getb (in_todo d) r = false ->
  handles_inv n (dequeue d).
Proof.
  intros [Hl H] Ht Hr. split; [rewrite dequeue_handles; exact Hl|].
  apply (pq_pop_ok _ (dist d) (heap_of d) r H Ht). congruence.
Qed.

Lemma handles_inv_reset n start d :
  Z.of_nat (length (handles d)) = n -> handles_inv n (reset start d).
Proof.
  intros Hl. split; [exact Hl|]. split.
  - intros j Hj. cbn [reset in_todo] in Hj. rewrite getb_fill_false in Hj. discriminate.
  - intros x [].
Qed.

Lemma handles_inv_seed n v row d :
  handles_inv n d -> (forall e, In e row -> 0 <= fst e < n) ->
  handles_inv n (seed_queue row (seed_dist v row d)).
Proof.
  intros H Hr.
  assert (H1 : handles_inv n (seed_dist v row d)).
  { clear Hr. unfold seed_dist. revert d H; induction row as [|e row IH]; intros d H;
      cbn [fold_left]; auto. }
  revert H1. generalize (seed_dist v row d). clear H.
  unfold seed_queue. induction row as [|e row IH]; intros d0 H; cbn [fold_left]; auto.
  apply IH.
  - intros x Hx. apply Hr. now right.
  - apply handles_inv_enqueue; auto. apply Hr. now left.
Qed.

Lemma handles_inv_drop_stale n k d :
  handles_inv n d -> handles_inv n (drop_stale k d).
Proof.
  revert d; induction k as [|k IH]; intros d H; cbn [drop_stale]; auto.
  destruct (pq_top (pq d)) as [j|] eqn:Et; auto.
  destruct (getb (in_todo d) j) eqn:Ei; auto.
  apply IH. eapply handles_inv_dequeue; eauto.
Qed.

Lemma collect_min_handles n fuel cs min d d' found :
  handles_inv n d -> collect_min fuel cs min d = Done (d', found) -> handles_inv n d'.
Proof.
  revert d; induction fuel as [|fuel IH]; intros d H Hrun; cbn [collect_min] in Hrun;
    [discriminate|].
  destruct (pq_top (pq d)) as [j|] eqn:Et; [|now injection Hrun as <- <-].
  destruct (get (dist d) j =? min); [|now injection Hrun as <- <-].
  destruct (getb (in_todo d) j); [|eapply IH; eauto].
  destruct (get cs j <? 0); [now injection Hrun as <- <-|].
  eapply IH; [|exact Hrun].
  apply (handles_inv_dequeue n (to_scan d j) j).
  - apply handles_inv_to_scan, H.
  - exact Et.
  - cbn [to_scan in_todo]. apply getb_vset_false.
Qed.

Lemma expand_row_handles n row v cs i h min d :
  handles_inv n d -> (forall e, In e row -> 0 <= fst e < n) ->
  updates_valid row v cs i h min d
  /\ handles_inv n (fst (expand_row row v cs i h min d)).
Proof.
  revert d; induction row as [|[j c] row IH]; intros d H Hr;
    cbn [expand_row updates_valid].
  - split; [exact I | exact H].
  - assert (Hj : 0 <= j < n) by (apply (Hr (j, c)); now left).
    assert (Hr' : forall e, In e row -> 0 <= fst e < n) by (intros e He; apply Hr; now right).
    destruct (getb (is_ready d) j); [apply IH; auto|].
    cbv zeta.
    destruct (negb (getb (in_todo d) j) || (min + (c - get v j - h) <? get (dist d) j));
      [|apply IH; auto].
    set (d1 := set_prev (set_dist d j (min + (c - get v j - h))) j i).
    assert (H1 : handles_inv n d1) by exact H.
    destruct (0 =? c - get v j - h).
    + destruct (get cs j <? 0); [split; [exact I | exact H1]|].
      apply IH; auto. apply handles_inv_to_scan, H1.
    + destruct (getb (in_todo d1) j) eqn:Ei; cbn [negb].
      * destruct (IH (requeue d1 j)) as [A B]; auto.
        { apply handles_inv_requeue, H1. }
        split; [split; [|exact A] | exact B].
        exact (handles_inv_valid n d1 j H1 Ei).
      * apply IH; auto. apply handles_inv_enqueue; auto.
Qed.

Lemma search_body_handles BIG n fuel m v cs min d d' min' found :
  wf_matrix m = true -> dimension m = n ->
  handles_inv n d ->
  search_body BIG fuel m v cs min d = Done (d', min', found) -> handles_inv n d'.
Proof.
  intros Hwf Hn H Hrun.
  assert (Htail : forall d2 min2,
    handles_inv n d2 ->
    match scan d2 with
    | [] => Undefined
    | j1 :: _ =>
        let i := get cs j1 in
        let d3 := finalize d2 j1 in
        let h := assigncost BIG m i j1 - get v j1 in
        let (d4, found) := expand_row (findRow m i) v cs i h min2 d3 in
        Done (d4, min2, found)
    end = Done (d', min', found) -> handles_inv n d').
  { intros d2 min2 H2 Ht.
    destruct (scan d2) as [|j1 rest]; [discriminate|]. cbv zeta in Ht.
    pose proof (expand_row_handles n (findRow m (get cs j1)) v cs (get cs j1)
                  (assigncost BIG m (get cs j1) j1 - get v j1) min2 (finalize d2 j1)) as He.
    destruct (expand_row _ _ _ _ _ _ _) as [d4 f4]. injection Ht as <- <- <-.
    apply He.
    - apply handles_inv_finalize, H2.
    - intros e Hin. rewrite <- Hn. eapply wf_row_columns; eauto. }
  unfold search_body in Hrun.
  destruct (scan d) as [|j l] eqn:Es.
  - pose proof (handles_inv_drop_stale n (length (pq d)) d H) as H1.
    destruct (pq_top _) as [t|]; [|discriminate].
    destruct (collect_min _ _ _ _) as [[d2 f]| |] eqn:Ec; try discriminate.
    apply (collect_min_handles n) in Ec; auto.
    cbn [bind] in Hrun. destruct f as [e|].
    + now injection Hrun as <- <- <-.
    + eapply (Htail d2 _ Ec); exact Hrun.
  - cbn [bind] in Hrun. eapply (Htail d min); auto.
Qed.

Lemma search_handles BIG n k fuel m v cs min d d' min' e :
  wf_matrix m = true -> dimension m = n ->
  handles_inv n d ->
  search BIG k fuel m v cs min d = Done (d', min', e) -> handles_inv n d'.
Proof.
  intros Hwf Hn. revert min d; induction k as [|k IH]; intros min d H Hrun;
    cbn [search] in Hrun; [discriminate|].
  destruct (search_body BIG fuel m v cs min d) as [[[d1 min1] f]| |] eqn:Eb; try discriminate.
  cbn [bind] in Hrun.
  apply (search_body_handles BIG n) in Eb; auto.
  destruct f as [e1|]; [now injection Hrun as <- <- <-|].
  eapply IH; eauto.
Qed.

(** X30: the loop over a row calls [pq.update(handles[j])] only with a
    handle that names a queue entry of column [j], and it leaves every
    column in [todo] with such a handle, if it finds them so.  [reset] and
    the seeding loops establish that condition and the loops of the search
    keep it ([handles_inv_reset], [handles_inv_seed], [search_body_handles]),
    so no search updates through a dangling handle. *)
Theorem row_loop_updates_valid n row v cs i h min d :
  handles_inv n d -> (forall e, In e row -> 0 <= fst e < n) ->
  updates_valid row v cs i h min d
  /\ handles_inv n (fst (expand_row row v cs i h min d)).
Proof. exact (expand_row_handles n row v cs i h min d). Qed.

Lemma getb_true_range (l : list bool) (j : Z) :
  getb l j = true -> 0 <= j < Z.of_nat (length l).
Proof.
  intros H. destruct (Z.lt_ge_cases j 0) as [Hn|Hn].
  - unfold getb in H. rewrite vget_outside in H; [discriminate | lia].
  - destruct (Z.lt_ge_cases j (Z.of_nat (length l))); [lia|].
    unfold getb in H. rewrite vget_outside in H; [discriminate | lia].
Qed.

(** The state of the search of [lap] on [inst_update] when the row of
    column 2 is scanned: column 0 is in [todo] at the root of the queue,
    behind it sits a stale entry of column 2, and the distance of column 0
    is lowered from 5 to 4. *)
Lemma row_loop_updates_valid_witness :
  let d := {| in_todo := [true; false; false; false]; ready := [2; 3];
              is_ready := [false; false; true; true]; prev := [3; 1; 3; 1];
              scan := []; dist := [5; 0; 2; 2];
              handles := [0; 0; 1; 0]; pq := [0; 2] |} in
  updates_valid (findRow inst_update 2) [1; 3; -4; -2] [-1; 0; 2; 3] 2 6 2 d
  /\ handles_inv 4
       (fst (expand_row (findRow inst_update 2) [1; 3; -4; -2] [-1; 0; 2; 3] 2 6 2 d)).
Proof.
  cbv zeta.
  apply (row_loop_updates_valid 4 (findRow inst_update 2) [1; 3; -4; -2] [-1; 0; 2; 3] 2 6 2
    {| in_todo := [true; false; false; false]; ready := [2; 3];
       is_ready := [false; false; true; true]; prev := [3; 1; 3; 1];
       scan := []; dist := [5; 0; 2; 2];
       handles := [0; 0; 1; 0]; pq := [0; 2] |}).
  - split; [reflexivity|]. split.
    + intros j Hj. pose proof (getb_true_range _ _ Hj) as Hr. simpl in Hr.
      assert (E : j = 0 \/ j = 1 \/ j = 2 \/ j = 3) by lia.
      destruct E as [-> | [-> | [-> | ->]]]; try discriminate;
        (split; [vm_compute; discriminate|]); (split; [simpl; lia | reflexivity]).
    + intros x [<-|[<-|[]]]; simpl; lia.
  - intros e He. simpl in He.
    repeat (destruct He as [<-|He]; [simpl; lia|]). destruct He.
Defined.


(** ** A dual-feasible solution of [lap] is optimal *)

Lemma update_prices_length d min v : length (update_prices d min v) = length v.
Proof.
  unfold update_prices. generalize (rev (ready d)). intros L; revert v.
  induction L as [|a L IH]; intros v; cbn [fold_left]; auto.
  rewrite IH. apply vset_length.
Qed.

Lemma augment_v_length BIG fuel m start a a' :
  augment BIG fuel m start a = Done a' -> length (a_v a') = length (a_v a).
Proof.
  unfold augment. intros Hrun.
  destruct (search _ _ _ _ _ _ _ _) as [[[d min] e]| |]; try discriminate.
  cbn [bind] in Hrun.
  destruct (flip_path _ _ _ _ _ _) as [[rs' cs']| |]; try discriminate.
  cbn [bind] in Hrun. injection Hrun as <-. cbn [a_v]. apply update_prices_length.
Qed.

Lemma augment_all_v_length BIG fuel m frees a a' :
  augment_all BIG fuel m frees a = Done a' -> length (a_v a') = length (a_v a).
Proof.
  revert a; induction frees as [|f rest IH]; intros a Hrun; cbn [augment_all] in Hrun.
  - now injection Hrun as <-.
  - destruct (augment BIG fuel m f a) as [a1| |] eqn:Ea; try discriminate.
    cbn [bind] in Hrun. apply IH in Hrun. apply augment_v_length in Ea. congruence.
Qed.

Lemma reduction_transfer_v_length BIG m s :
  length (s_v (reduction_transfer BIG m s)) = length (s_v s).
Proof.
  unfold reduction_transfer. generalize (range (dim m)). intros L; revert s.
  induction L as [|i L IH]; intros s; cbn [fold_left]; auto.
  rewrite IH. unfold reduction_transfer_step.
  destruct (get (s_matches s) i =? 0); auto.
  destruct (get (s_matches s) i =? 1); auto.
  cbn [s_v]. apply vset_length.
Qed.

Lemma lap_reduce_v_length BIG fuel free0 m s :
  lap_reduce BIG fuel free0 m = Done s -> length (s_v s) = dim m.
Proof.
  intros Hrun. unfold lap_reduce, augmenting_row_reduction in Hrun.
  destruct (arr_round BIG fuel m _) as [s1| |] eqn:E1; try discriminate.
  cbn [bind] in Hrun.
  unfold arr_round in E1, Hrun. apply arr_pass_le in E1, Hrun. cbn [s_v] in E1, Hrun.
  destruct E1 as [E1 _], Hrun as [Hrun _].
  rewrite Hrun, E1, reduction_transfer_v_length. apply column_reduction_v_length.
Qed.

Lemma sum_map_get_perm (vv rs : list Z) n :
  length vv = n -> Permutation rs (range n) ->
  sum (map (fun i => get vv (get rs i)) (range n)) = sum vv.
Proof.
  intros Hv Hperm.
  assert (Hlen : length rs = n)
    by (apply Permutation_length in Hperm; now rewrite range_length in Hperm).
  rewrite <- (map_map (get rs) (get vv)).
  rewrite <- Hlen at 1. unfold get at 2. rewrite map_vget_range.
  rewrite (sum_Permutation _ _ (Permutation_map (get vv) Hperm)).
  rewrite <- Hv; unfold get; now rewrite map_vget_range.
Qed.

Lemma lap_solution_facts BIG fuel free0 m sol :
  wf_matrix m = true -> length free0 = dim m ->
  lap BIG fuel free0 m = Done sol ->
  Permutation (rowsol sol) (range (dim m))
  /\ length (u sol) = dim m /\ length (v sol) = dim m
  /\ cost sol = matching_cost BIG m (rowsol sol)
  /\ forall i, 0 <= i < dimension m ->
       get (u sol) i = assigncost BIG m i (get (rowsol sol) i) - get (v sol) (get (rowsol sol) i).
Proof.
  intros Hwf Hl0 Hrun.
  destruct (lap_bijection BIG fuel free0 m sol Hwf Hl0 Hrun) as (_ & Hperm & _).
  split; [exact Hperm|].
  apply Permutation_length in Hperm. rewrite range_length in Hperm.
  unfold lap in Hrun.
  destruct (lap_reduce BIG fuel free0 m) as [s| |] eqn:Er; try discriminate.
  cbn [bind] in Hrun.
  destruct (augment_all _ _ _ _ _) as [a| |] eqn:Ea; try discriminate.
  cbn [bind] in Hrun. injection Hrun as <-.
  destruct (make_solution_spec BIG m a) as (E1 & E2 & E3 & E4 & E5 & E6).
  { rewrite <- (proj1 (make_solution_assignment BIG m a)). exact Hperm. }
  rewrite E1, E3. split; [exact E4|]. split; [|split; [exact E5 | exact E6]].
  apply augment_all_v_length in Ea. cbn [a_v] in Ea. rewrite Ea.
  eapply lap_reduce_v_length; eauto.
Qed.

(** X26: when the executable check of the reduced costs accepts the duals
    of a solution that [lap] returned, the cost of the solution is the dual
    objective [sum u + sum v] and no perfect matching is cheaper. *)
Theorem lap_certified_optimal BIG fuel free0 m sol :
  wf_matrix m = true -> length free0 = dim m ->
  lap BIG fuel free0 m = Done sol ->
  check_reduced_costs m (u sol) (v sol) = true ->
  cost sol = sum (u sol) + sum (v sol)
  /\ optimal BIG m (cost sol).
Proof.
  intros Hwf Hl0 Hrun Hchk.
  apply check_reduced_costs_sound in Hchk.
  destruct (lap_solution_facts BIG fuel free0 m sol Hwf Hl0 Hrun)
    as (Hperm & Hlu & Hlv & Hcost & Hu).
  assert (E : cost sol = sum (u sol) + sum (v sol)).
  { rewrite Hcost. unfold matching_cost.
    fold (sum (map (fun i => assigncost BIG m i (get (rowsol sol) i)) (range (dim m)))).
    rewrite <- (sum_map_get_perm (v sol) (rowsol sol) (dim m) Hlv Hperm).
    rewrite <- (map_vget_range 0 (u sol)), Hlu. fold get.
    rewrite <- sum_map_add. f_equal. apply map_ext_in.
    intros i Hi. apply In_range in Hi. rewrite Hu by exact Hi. lia. }
  split; [exact E|].
  intros sigma Hs. rewrite E. apply (dual_bound BIG m); auto.
Qed.

Lemma lap_certified_optimal_witness :
  exists sol, lap 100000 50 [0; 0; 0; 0] inst_update = Done sol
  /\ cost sol = 10
  /\ cost sol = sum (u sol) + sum (v sol)
  /\ optimal 100000 inst_update (cost sol).
Proof.
  eexists; split; [vm_compute; reflexivity|]. split; [reflexivity|].
  apply (lap_certified_optimal 100000 50 [0; 0; 0; 0] inst_update).
  - reflexivity.
  - reflexivity.
  - vm_compute; reflexivity.
  - vm_compute; reflexivity.
Defined.

(** ** A step of the augmenting row reduction *)

Lemma NoDup_fst_unique (row : sigma_row) j c c' :
  NoDup (map fst row) -> In (j, c) row -> In (j, c') row -> c = c'.
Proof.
  induction row as [|[j0 c0] row IH]; intros Hnd H1 H2; [destruct H1|].
  cbn [map fst] in Hnd. inversion Hnd as [|? ? Hnin Hnd']; subst.
  destruct H1 as [E1|H1], H2 as [E2|H2].
  - congruence.
  - injection E1 as -> ->. exfalso. apply Hnin. apply in_map_iff. exists (j, c'); auto.
  - injection E2 as -> ->. exfalso. apply Hnin. apply in_map_iff. exists (j, c); auto.
  - apply IH; auto.
Qed.

(** X27: a step of the augmenting row reduction, for a free row with
    distinct columns whose reduced costs are all below [BIG], assigns the
    row to one of its stored columns, and under the prices the step leaves
    that column has the least reduced cost of the row. *)
Theorem arr_step_least BIG m s s' :
  NoDup (map fst (findRow m (get (s_free s) (s_k s)))) ->
  (forall j c, In (j, c) (findRow m (get (s_free s) (s_k s))) ->
     0 <= j < Z.of_nat (length (s_v s)) /\ 0 <= j < Z.of_nat (length (s_colsol s))
     /\ c - get (s_v s) j < BIG) ->
  0 <= get (s_free s) (s_k s) < Z.of_nat (length (s_rowsol s)) ->
  arr_step BIG m s = Done s' ->
  exists jj cjj,
    get (s_rowsol s') (get (s_free s) (s_k s)) = jj
    /\ get (s_colsol s') jj = get (s_free s) (s_k s)
    /\ In (jj, cjj) (findRow m (get (s_free s) (s_k s)))
    /\ (forall j c, In (j, c) (findRow m (get (s_free s) (s_k s))) ->
          cjj - get (s_v s') jj <= c - get (s_v s') j)
    /\ (forall j, j <> jj -> get (s_v s') j = get (s_v s) j)
    /\ get (s_v s') jj <= get (s_v s) jj.
Proof.
  set (i := get (s_free s) (s_k s)). intros Hnd Hrow Hi.
  unfold arr_step. cbv zeta. fold i.
  destruct (two_smallest BIG (s_v s) (findRow m i) (s_j2 s))
    as [[[[umin usubmin] j1] j2]|] eqn:Et; [|discriminate].
  destruct (two_smallest_least BIG (s_v s) (findRow m i) (s_j2 s) umin usubmin j1 j2 Hnd)
    as (Hle & (c1 & Hin1 & Eu) & Hmin & Hsub & Hj2); auto.
  { intros j0 c0 rest E. destruct (Hrow j0 c0) as (_ & _ & H); [rewrite E; now left | lia]. }
  destruct (Hrow j1 c1 Hin1) as (Hv1 & Hc1 & Hb1).
  destruct (Z.ltb_spec umin usubmin) as [Hlt|Hge].
  - (* the minimum is strict *)
    assert (G : forall s0,
      s_v s0 = vset (s_v s) j1 (get (s_v s) j1 - (usubmin - umin)) ->
      s_rowsol s0 = vset (s_rowsol s) i j1 -> s_colsol s0 = vset (s_colsol s) j1 i ->
      exists jj cjj,
        get (s_rowsol s0) i = jj /\ get (s_colsol s0) jj = i
        /\ In (jj, cjj) (findRow m i)
        /\ (forall j c, In (j, c) (findRow m i) ->
              cjj - get (s_v s0) jj <= c - get (s_v s0) j)
        /\ (forall j, j <> jj -> get (s_v s0) j = get (s_v s) j)
        /\ get (s_v s0) jj <= get (s_v s) jj).
    { intros s0 Ev Er Ec. exists j1, c1. rewrite Ev, Er, Ec.
      rewrite !get_vset_same by lia.
      split; [reflexivity|]. split; [reflexivity|]. split; [exact Hin1|].
      split; [|split; [|lia]].
      - intros j c Hin. destruct (Z.eq_dec j j1) as [->|Hne].
        + rewrite (NoDup_fst_unique _ _ _ _ Hnd Hin Hin1). rewrite get_vset_same by lia. lia.
        + rewrite get_vset_other by auto. specialize (Hsub j c Hin Hne). lia.
      - intros j Hne. apply get_vset_other. auto. }
    destruct (get (s_colsol s) j1 >=? 0); intros E; injection E as <-; apply G; reflexivity.
  - (* minimum and subminimum are equal *)
    assert (Hu : umin = usubmin) by lia.
    destruct (Z.geb_spec (get (s_colsol s) j1) 0) as [Hassigned|Hfree].
    + destruct Hj2 as [[Hbig _]|(c2 & Hin2 & Hne2 & Eu2)]; [lia|].
      destruct (Hrow j2 c2 Hin2) as (Hv2 & Hc2 & Hb2).
      assert (G : forall s0,
        s_v s0 = s_v s ->
        s_rowsol s0 = vset (s_rowsol s) i j2 -> s_colsol s0 = vset (s_colsol s) j2 i ->
        exists jj cjj,
          get (s_rowsol s0) i = jj /\ get (s_colsol s0) jj = i
          /\ In (jj, cjj) (findRow m i)
          /\ (forall j c, In (j, c) (findRow m i) ->
                cjj - get (s_v s0) jj <= c - get (s_v s0) j)
          /\ (forall j, j <> jj -> get (s_v s0) j = get (s_v s) j)
          /\ get (s_v s0) jj <= get (s_v s) jj).
      { intros s0 Ev Er Ec. exists j2, c2. rewrite Ev, Er, Ec.
        rewrite !get_vset_same by lia.
        split; [reflexivity|]. split; [reflexivity|]. split; [exact Hin2|].
        split; [|split; [auto | lia]].
        intros j c Hin. specialize (Hmin j c Hin). lia. }
      destruct (get (s_colsol s) j2 >=? 0); intros E; injection E as <-; apply G; reflexivity.
    + assert (G : forall s0,
        s_v s0 = s_v s ->
        s_rowsol s0 = vset (s_rowsol s) i j1 -> s_colsol s0 = vset (s_colsol s) j1 i ->
        exists jj cjj,
          get (s_rowsol s0) i = jj /\ get (s_colsol s0) jj = i
          /\ In (jj, cjj) (findRow m i)
          /\ (forall j c, In (j, c) (findRow m i) ->
                cjj - get (s_v s0) jj <= c - get (s_v s0) j)
          /\ (forall j, j <> jj -> get (s_v s0) j = get (s_v s) j)
          /\ get (s_v s0) jj <= get (s_v s) jj).
      { intros s0 Ev Er Ec. exists j1, c1. rewrite Ev, Er, Ec.
        rewrite !get_vset_same by lia.
        split; [reflexivity|]. split; [reflexivity|]. split; [exact Hin1|].
        split; [|split; [auto | lia]].
        intros j c Hin. specialize (Hmin j c Hin). lia. }
      destruct (Z.geb_spec (get (s_colsol s) j1) 0); [lia|].
      intros E; injection E as <-; apply G; reflexivity.
Qed.

Lemma arr_step_least_witness :
  let s := {| s_v := [0; 0; 0; -1]; s_rowsol := [0; 0; 2; 3]; s_colsol := [0; -1; 2; 3];
              s_matches := [3; 1; 0; 0]; s_free := [1; 3; 0; 0]; s_numfree := 0;
              s_k := 0; s_j2 := 0 |} in
  exists s', arr_step 100000 inst_relabel s = Done s'
  /\ exists jj cjj,
    get (s_rowsol s') (get (s_free s) (s_k s)) = jj
    /\ get (s_colsol s') jj = get (s_free s) (s_k s)
    /\ In (jj, cjj) (findRow inst_relabel (get (s_free s) (s_k s)))
    /\ (forall j c, In (j, c) (findRow inst_relabel (get (s_free s) (s_k s))) ->
          cjj - get (s_v s') jj <= c - get (s_v s') j)
    /\ (forall j, j <> jj -> get (s_v s') j = get (s_v s) j)
    /\ get (s_v s') jj <= get (s_v s) jj.
Proof.
  cbv zeta. eexists. split; [vm_compute; reflexivity|].
  apply (arr_step_least 100000 inst_relabel
           {| s_v := [0; 0; 0; -1]; s_rowsol := [0; 0; 2; 3]; s_colsol := [0; -1; 2; 3];
              s_matches := [3; 1; 0; 0]; s_free := [1; 3; 0; 0]; s_numfree := 0;
              s_k := 0; s_j2 := 0 |}).
  - repeat constructor; simpl; intuition lia.
  - intros j c [E|[E|[]]]; injection E as <- <-; vm_compute; intuition discriminate.
  - vm_compute; intuition discriminate.
  - vm_compute; reflexivity.
Defined.

(** ** Reduction transfer makes the claimed rows tight *)

Lemma transfer_min_least BIG vv j1 row :
  transfer_min BIG vv j1 row <= BIG
  /\ forall j c, In (j, c) row -> j <> j1 -> transfer_min BIG vv j1 row <= c - get vv j.
Proof.
  assert (G : forall row x,
    fold_left (fun min e => if negb (fst e =? j1) && (snd e - get vv (fst e) <? min)
                            then snd e - get vv (fst e) else min) row x <= x
    /\ forall j c, In (j, c) row -> j <> j1 ->
         fold_left (fun min e => if negb (fst e =? j1) && (snd e - get vv (fst e) <? min)
                                 then snd e - get vv (fst e) else min) row x
         <= c - get vv j).
  { clear. induction row as [|[j0 c0] row IH]; intros x; cbn [fold_left fst snd].
    - split; [lia | intros j c []].
    - destruct (Z.eqb_spec j0 j1) as [E|E]; cbn [negb andb].
      + destruct (IH x) as [H1 H2]. split; auto.
        intros j c [Ein|Hin] Hne; [injection Ein as -> ->; contradiction | auto].
      + destruct (Z.ltb_spec (c0 - get vv j0) x) as [Hlt|Hge].
        * destruct (IH (c0 - get vv j0)) as [H1 H2]. split; [lia|].
          intros j c [Ein|Hin] Hne; [injection Ein as <- <-; exact H1 | auto].
        * destruct (IH x) as [H1 H2]. split; auto.
          intros j c [Ein|Hin] Hne; [injection Ein as <- <-; lia | auto]. }
  exact (G row BIG).
Qed.

Lemma column_reduction_claimed BIG m free0 i :
  0 < dimension m -> 0 <= i < dimension m ->
  1 <= get (s_matches (column_reduction BIG m (lap_init free0 m))) i ->
  let s := column_reduction BIG m (lap_init free0 m) in
  0 <= get (s_rowsol s) i < dimension m
  /\ smallest_cost_row m (get (s_rowsol s) i) = i
  /\ get (s_colsol s) (get (s_rowsol s) i) = i
  /\ get (s_v s) (get (s_rowsol s) i) = assigncost BIG m i (get (s_rowsol s) i).
Proof.
  intros Hn Hi Hm. cbv zeta.
  assert (Hscr : forall j0, 0 <= smallest_cost_row m j0 < dimension m)
    by (intros j0; apply smallest_cost_row_range; lia).
  assert (Hspec : colred_spec m (dimension m) (rev (range (dim m)))
                    (column_reduction BIG m (lap_init free0 m))).
  { unfold column_reduction.
    apply (column_reduction_fold_spec BIG m (dimension m) (rev (range (dim m))) []); auto.
    - apply colred_spec_init.
    - cbn [app]. apply NoDup_rev, NoDup_range.
    - intros j0 Hj0. apply in_rev in Hj0. apply In_range in Hj0. exact Hj0. }
  destruct Hspec as (Hlr & Hlc & Hlm & Hcnt & Hrow & Hcol).
  rewrite Hcnt in Hm by auto.
  destruct (first_claim m (rev (range (dim m))) i) as [j|] eqn:Ef.
  2: { apply first_claim_count in Ef. lia. }
  rewrite (Hrow i j Hi Ef).
  destruct (first_claim_In _ _ _ _ Ef) as [Hin Hs].
  assert (Hj : 0 <= j < dimension m) by (apply in_rev in Hin; apply In_range in Hin; exact Hin).
  split; [exact Hj|]. split; [exact Hs|]. split.
  - rewrite (Hcol j Hin), Hs, Ef, Z.eqb_refl. reflexivity.
  - destruct (column_reduction_v BIG m free0 j Hj) as [-> _]. now rewrite Hs.
Qed.

(** X28: after the column reduction and the reduction transfer, on a
    well-formed matrix with a non-negative [BIG], a row that some column
    claimed still holds the column the column reduction gave it, every
    entry of the row has a non-negative reduced cost against the prices, and
    the row's own column has the least reduced cost of the row. *)
Theorem reduction_transfer_tight BIG m free0 i j c :
  0 <= BIG -> wf_matrix m = true ->
  0 <= i < dimension m ->
  1 <= get (s_matches (column_reduction BIG m (lap_init free0 m))) i ->
  In (j, c) (findRow m i) ->
  let s := reduction_transfer BIG m (column_reduction BIG m (lap_init free0 m)) in
  get (s_rowsol s) i = get (s_rowsol (column_reduction BIG m (lap_init free0 m))) i
  /\ get (s_colsol s) (get (s_rowsol s) i) = i
  /\ 0 <= c - get (s_v s) j
  /\ assigncost BIG m i (get (s_rowsol s) i) - get (s_v s) (get (s_rowsol s) i)
     <= c - get (s_v s) j.
Proof.
  intros HB Hwf Hi Hm Hin. cbv zeta.
  set (s0 := column_reduction BIG m (lap_init free0 m)) in *.
  assert (Hn : 0 < dimension m) by lia.
  pose proof (column_reduction_below BIG m free0 Hwf) as Hb0. fold s0 in Hb0.
  assert (Hclaim : forall k, 0 <= k < dimension m -> 1 <= get (s_matches s0) k ->
            get (s_colsol s0) (get (s_rowsol s0) k) = k
            /\ get (s_v s0) (get (s_rowsol s0) k) = assigncost BIG m k (get (s_rowsol s0) k)).
  { intros k Hk Hmk.
    destruct (column_reduction_claimed BIG m free0 k Hn Hk Hmk) as (_ & _ & H1 & H2). auto. }
  (* the invariant of the loop over the rows *)
  assert (G : forall L done s,
    NoDup (done ++ L) -> (forall a, In a L -> 0 <= a < dimension m) ->
    s_rowsol s = s_rowsol s0 -> s_colsol s = s_colsol s0 -> s_matches s = s_matches s0 ->
    prices_le (s_v s) (s_v s0) ->
    (forall k, 0 <= k < dimension m -> 1 <= get (s_matches s0) k -> ~ In k done ->
       get (s_v s) (get (s_rowsol s0) k) = get (s_v s0) (get (s_rowsol s0) k)) ->
    (forall k j' c', 0 <= k < dimension m -> 1 <= get (s_matches s0) k ->
       In (j', c') (findRow m k) ->
       assigncost BIG m k (get (s_rowsol s0) k) - get (s_v s) (get (s_rowsol s0) k)
       <= c' - get (s_v s) j') ->
    s_rowsol (fold_left (reduction_transfer_step BIG m) L s) = s_rowsol s0
    /\ s_colsol (fold_left (reduction_transfer_step BIG m) L s) = s_colsol s0
    /\ prices_le (s_v (fold_left (reduction_transfer_step BIG m) L s)) (s_v s0)
    /\ (forall k j' c', 0 <= k < dimension m -> 1 <= get (s_matches s0) k ->
          In (j', c') (findRow m k) ->
          assigncost BIG m k (get (s_rowsol s0) k)
          - get (s_v (fold_left (reduction_transfer_step BIG m) L s)) (get (s_rowsol s0) k)
          <= c' - get (s_v (fold_left (reduction_transfer_step BIG m) L s)) j')).
  { induction L as [|a L IH]; intros done s Hnd HL Er Ec Em Hle Hown HT; cbn [fold_left].
    - auto.
    - assert (Hnd' : NoDup ((done ++ [a]) ++ L)) by (now rewrite <- app_assoc).
      assert (HL' : forall a', In a' L -> 0 <= a' < dimension m)
        by (intros a' Ha'; apply HL; now right).
      assert (Har : 0 <= a < dimension m) by (apply HL; now left).
      assert (Hbel : prices_below m (s_v s)) by (eapply prices_below_le; eauto).
      assert (Hown' : forall s1, s_v s1 = s_v s ->
                forall k, 0 <= k < dimension m -> 1 <= get (s_matches s0) k ->
                ~ In k (done ++ [a]) ->
                get (s_v s1) (get (s_rowsol s0) k) = get (s_v s0) (get (s_rowsol s0) k)).
      { intros s1 E k Hk Hmk Hnk. rewrite E. apply Hown; auto.
        intros H; apply Hnk, in_or_app; now left. }
      remember (reduction_transfer_step BIG m s a) as s2 eqn:E2.
      unfold reduction_transfer_step in E2. rewrite Em in E2.
      destruct (Z.eqb_spec (get (s_matches s0) a) 0) as [E0|E0].
      + subst s2. apply (IH (done ++ [a])); auto.
      + destruct (Z.eqb_spec (get (s_matches s0) a) 1) as [E1|E1];
          [|subst s2; apply (IH (done ++ [a])); auto].
        rewrite Er in E2. subst s2.
        set (j1 := get (s_rowsol s0) a) in *.
        set (mn := transfer_min BIG (s_v s) j1 (findRow m a)) in *.
        assert (Hmn : 0 <= mn).
        { apply transfer_min_nonneg; auto.
          intros [x y] Hxy. cbn [fst snd]. apply (Hbel a x y). apply wf_In_stored; auto. }
        destruct (transfer_min_least BIG (s_v s) j1 (findRow m a)) as [_ Hleast].
        fold mn in Hleast.
        assert (Hle1 : prices_le (vset (s_v s) j1 (get (s_v s) j1 - mn)) (s_v s))
          by (apply prices_le_vset; lia).
        destruct (Hclaim a Har ltac:(lia)) as [Hca Hva]. fold j1 in Hca, Hva.
        assert (Hj1r : 0 <= j1 < Z.of_nat (length (s_v s))).
        { destruct (column_reduction_claimed BIG m free0 a Hn Har ltac:(fold s0; lia))
            as (Hr & _). fold s0 in Hr. fold j1 in Hr.
          destruct Hle as [Hlen _]. rewrite Hlen. unfold s0.
          rewrite column_reduction_v_length. exact Hr. }
        assert (Hother : forall k, 0 <= k < dimension m -> 1 <= get (s_matches s0) k ->
                  k <> a -> get (s_rowsol s0) k <> j1).
        { intros k Hk Hmk Hka E. apply Hka.
          destruct (Hclaim k Hk Hmk) as [Hck _]. rewrite E in Hck. congruence. }
        apply (IH (done ++ [a])); auto; cbn [s_rowsol s_colsol s_matches s_v].
        * eapply prices_le_trans; eauto.
        * intros k Hk Hmk Hnk.
          assert (Hka : k <> a) by (intros ->; apply Hnk, in_or_app; right; now left).
          rewrite get_vset_other by (intros E; apply (Hother k Hk Hmk Hka); auto).
          apply Hown; auto. intros H; apply Hnk, in_or_app; now left.
        * intros k j' c' Hk Hmk Hin'.
          destruct (Z.eq_dec k a) as [->|Hka].
          -- fold j1. rewrite get_vset_same by exact Hj1r.
             assert (Hv1 : get (s_v s) j1 = assigncost BIG m a j1).
             { rewrite <- Hva. apply Hown; [exact Har | lia |].
               apply NoDup_remove_2 in Hnd. intros H; apply Hnd, in_or_app; now left. }
             destruct (Z.eq_dec j' j1) as [->|Hne].
             ++ rewrite get_vset_same by exact Hj1r.
                unfold assigncost. rewrite (wf_In_stored m a j1 c' Hwf Hin'). lia.
             ++ rewrite get_vset_other by auto.
                specialize (Hleast j' c' Hin' Hne). lia.
          -- rewrite get_vset_other by (intros E; apply (Hother k Hk Hmk Hka); auto).
             specialize (HT k j' c' Hk Hmk Hin').
             destruct Hle1 as [_ Hle1]. specialize (Hle1 j'). lia. }
  destruct (G (range (dim m)) [] s0) as (Gr & Gc & Gle & GT); auto.
  - cbn [app]. apply NoDup_range.
  - intros a Ha. apply In_range in Ha. exact Ha.
  - apply prices_le_refl.
  - intros k j' c' Hk Hmk Hin'. destruct (Hclaim k Hk Hmk) as [_ Hv].
    rewrite Hv. specialize (Hb0 k j' c' (wf_In_stored m k j' c' Hwf Hin')). lia.
  - unfold reduction_transfer. fold s0. rewrite Gr, Gc.
    destruct (Hclaim i Hi Hm) as [Hci _].
    split; [reflexivity|]. split; [exact Hci|]. split.
    + assert (Hbel : prices_below m (s_v (fold_left (reduction_transfer_step BIG m)
                                           (range (dim m)) s0)))
        by (eapply prices_below_le; eauto).
      specialize (Hbel i j c (wf_In_stored m i j c Hwf Hin)). lia.
    + apply GT; auto.
Qed.

Lemma reduction_transfer_tight_witness :
  let s := reduction_transfer 100000 inst_relabel
             (column_reduction 100000 inst_relabel (lap_init [0; 0; 0; 0] inst_relabel)) in
  get (s_rowsol s) 1
  = get (s_rowsol (column_reduction 100000 inst_relabel (lap_init [0; 0; 0; 0] inst_relabel))) 1
  /\ get (s_colsol s) (get (s_rowsol s) 1) = 1
  /\ 0 <= 1 - get (s_v s) 3
  /\ assigncost 100000 inst_relabel 1 (get (s_rowsol s) 1) - get (s_v s) (get (s_rowsol s) 1)
     <= 1 - get (s_v s) 3.
Proof.
  apply (reduction_transfer_tight 100000 inst_relabel [0; 0; 0; 0] 1 3 1).
  - lia.
  - reflexivity.
  - unfold dimension; simpl; lia.
  - vm_compute; discriminate.
  - right; now left.
Defined.

(** ** The path flip after a search *)

Lemma order_inv_same n cs start d d' :
  ready d' = ready d -> is_ready d' = is_ready d ->
  (forall j, getb (is_ready d) j = true -> get (prev d') j = get (prev d) j) ->
  order_inv n cs start d -> order_inv n cs start d'.
Proof.
  intros E1 E2 Hp (Hl & Hr & Ho). unfold order_inv. rewrite E1, E2.
  split; [exact Hl|]. split; [exact Hr|].
  intros l1 j l3 E Hn. rewrite Hp; [apply (Ho l1 j l3 E Hn)|].
  apply Hr. rewrite E. apply in_or_app. right; now left.
Qed.

Lemma order_inv_finalize m n cs start d j1 rest :
  scan d = j1 :: rest ->
  search_inv n cs start d -> label_inv m n cs start d ->
  order_inv n cs start d -> order_inv n cs start (finalize d j1).
Proof.
  intros Es (_ & Hs & _) [_ Hlb] (Hl & Hr & Ho).
  destruct (Hs j1) as [Hj1 Hc1]; [rewrite Es; now left|].
  unfold order_inv, finalize; cbn [is_ready ready prev].
  rewrite vset_length. split; [exact Hl|]. split.
  - intros j [<-|Hj].
    + split; [|auto]. unfold getb. apply vget_vset_same. lia.
    + destruct (Hr j Hj) as (H1 & H2 & H3). split; [|auto].
      unfold getb in *. destruct (Z.eq_dec j1 j) as [->|Hne].
      * apply vget_vset_same. lia.
      * rewrite vget_vset_other; auto.
  - intros l1 j l3 E Hn. destruct l1 as [|x l1]; cbn [app] in E.
    + injection E as -> <-.
      destruct (Hlb j Hj1) as [H|(j2 & _ & Hin & _ & H)]; [now left|].
      right. exists j2. auto.
    + injection E as _ E. apply (Ho l1 j l3 E Hn).
Qed.

Lemma order_inv_search_body BIG fuel m n cs start v min d d' min' found :
  wf_matrix m = true -> dimension m = n ->
  search_inv n cs start d -> label_inv m n cs start d -> order_inv n cs start d ->
  search_body BIG fuel m v cs min d = Done (d', min', found) ->
  order_inv n cs start d'.
Proof.
  intros Hwf Hn Hinv Hlab Hord Hrun.
  assert (Htail : forall d2 min2,
    search_inv n cs start d2 -> label_inv m n cs start d2 -> order_inv n cs start d2 ->
    match scan d2 with
    | [] => Undefined
    | j1 :: _ =>
        let i := get cs j1 in
        let d3 := finalize d2 j1 in
        let h := assigncost BIG m i j1 - get v j1 in
        let (d4, found) := expand_row (findRow m i) v cs i h min2 d3 in
        Done (d4, min2, found)
    end = Done (d', min', found) ->
    order_inv n cs start d').
  { intros d2 min2 Hinv2 Hlab2 Hord2 Ht.
    destruct (scan d2) as [|j1 rest] eqn:Es; [discriminate|].
    cbv zeta in Ht.
    destruct (expand_row _ _ _ _ _ _ _) as [d4 f4] eqn:Ee.
    injection Ht as <- <- <-.
    pose proof (order_inv_finalize m n cs start d2 j1 rest Es Hinv2 Hlab2 Hord2) as Hord3.
    destruct (expand_row_ready_kept _ _ _ _ _ _ _ _ _ Ee) as (E1 & E2 & E3).
    apply (order_inv_same n cs start (finalize d2 j1)); auto.
    intros j Hj. apply E3; auto. }
  unfold search_body in Hrun.
  destruct (scan d) as [|j l] eqn:Es.
  - pose proof (search_inv_drop_stale n cs start (length (pq d)) d Hinv) as Hinv1.
    pose proof (label_inv_drop_stale m n cs start d Hlab) as Hlab1.
    assert (Hord1 : order_inv n cs start (drop_stale (length (pq d)) d)).
    { destruct (drop_stale_post (length (pq d)) d (le_n _))
        as (_ & _ & H3 & H4 & H5 & _).
      apply (order_inv_same n cs start d); auto. intros j0 _. now rewrite H5. }
    destruct (pq_top _) as [t|]; [|discriminate].
    destruct (collect_min _ _ _ _) as [[d2 f]| |] eqn:Ec; try discriminate.
    pose proof (collect_min_inv n cs start _ _ _ _ _ Hinv1 Ec) as [Hinv2 _].
    pose proof (collect_min_label m n cs start _ _ _ _ _ Hinv1 Hlab1 Ec) as [Hlab2 _].
    assert (Hord2 : order_inv n cs start d2).
    { destruct (collect_min_result _ _ _ _ _ _ Ec) as (_ & H2 & H3 & H4 & _).
      apply (order_inv_same n cs start (drop_stale (length (pq d)) d)); auto.
      intros j0 _. now rewrite H2. }
    cbn [bind] in Hrun.
    destruct f as [e|].
    + injection Hrun as <- <- <-; auto.
    + eapply (Htail d2 _ Hinv2 Hlab2 Hord2); exact Hrun.
  - cbn [bind] in Hrun. eapply (Htail d min); auto.
Qed.

Lemma order_inv_search BIG k fuel m n cs start v min d d' min' e :
  wf_matrix m = true -> dimension m = n ->
  search_inv n cs start d -> label_inv m n cs start d -> order_inv n cs start d ->
  search BIG k fuel m v cs min d = Done (d', min', e) ->
  order_inv n cs start d'.
Proof.
  intros Hwf Hn; revert min d; induction k as [|k IH]; intros min d Hinv Hlab Hord Hrun;
    simpl in Hrun; [discriminate|].
  destruct (search_body _ _ _ _ _ _ _) as [[[d1 min1] f]| |] eqn:Eb; try discriminate.
  pose proof (search_body_inv n cs start _ _ _ _ _ _ _ _ _ Hwf Hn Hinv Eb) as [Hinv1 _].
  pose proof (search_body_label m n cs start _ _ _ _ _ _ _ _ Hwf Hn Hinv Hlab Eb) as [Hlab1 _].
  pose proof (order_inv_search_body _ _ _ _ _ _ _ _ _ _ _ _ Hwf Hn Hinv Hlab Hord Eb) as Hord1.
  cbn [bind] in Hrun. destruct f as [e1|].
  - injection Hrun as <- <- <-; auto.
  - eapply IH; eauto.
Qed.

Lemma order_inv_seed n cs start v row d :
  Z.of_nat (length (is_ready d)) = n ->
  order_inv n cs start (seed_queue row (seed_dist v row (reset start d))).
Proof.
  intros Hl.
  assert (Hsd : forall r d0, ready (seed_dist v r d0) = ready d0
            /\ is_ready (seed_dist v r d0) = is_ready d0).
  { unfold seed_dist. induction r as [|e r IH]; intros d0; cbn [fold_left]; auto.
    destruct (IH (set_dist d0 (fst e) (snd e - get v (fst e)))) as (A & B).
    rewrite A, B. auto. }
  assert (Hsq : forall r d0, ready (seed_queue r d0) = ready d0
            /\ is_ready (seed_queue r d0) = is_ready d0).
  { unfold seed_queue. induction r as [|e r IH]; intros d0; cbn [fold_left]; auto.
    destruct (IH (enqueue d0 (fst e))) as (A & B).
    rewrite A, B. auto. }
  destruct (Hsq row (seed_dist v row (reset start d))) as [A1 B1].
  destruct (Hsd row (reset start d)) as [A2 B2].
  unfold order_inv. rewrite A1, B1, A2, B2. cbn [reset ready is_ready].
  rewrite fill_length. split; [exact Hl|]. split.
  - intros j [].
  - intros l1 j l3 E. destruct l1; discriminate.
Qed.

(** *** The path flip returns *)

Lemma flip_path_more_fuel f f' prev start e rs cs r :
  flip_path f prev start e rs cs = Done r -> (f <= f')%nat ->
  flip_path f' prev start e rs cs = Done r.
Proof.
  revert f' e rs cs; induction f as [|f IH]; intros f' e rs cs Hrun Hle; [discriminate|].
  destruct f' as [|f']; [lia|].
  cbn [flip_path] in *. cbv zeta in *.
  destruct (get prev e =? start); auto.
  apply IH; auto. lia.
Qed.

Lemma in_split_last (j : Z) (l : list Z) :
  In j l -> exists l1 l3, l = l1 ++ j :: l3 /\ ~ In j l3.
Proof.
  induction l as [|x l IH]; intros Hin; [destruct Hin|].
  destruct (in_dec Z.eq_dec j l) as [Hl|Hl].
  - destruct (IH Hl) as (l1 & l3 & -> & Hn). exists (x :: l1), l3. auto.
  - destruct Hin as [->|Hin]; [|contradiction]. exists [], l. auto.
Qed.

Lemma flip_path_returns_from n cs start prev (rdy : list Z) rs0 :
  (forall j, 0 <= j < n -> 0 <= get cs j -> get rs0 (get cs j) = j) ->
  (forall j, In j rdy -> 0 <= j < n /\ 0 <= get cs j) ->
  (forall l1 j l3, rdy = l1 ++ j :: l3 -> ~ In j l3 ->
     get prev j = start \/ exists j2, In j2 l3 /\ get prev j = get cs j2) ->
  forall k l0 l2 e rs cs',
    (length l2 <= k)%nat -> rdy = l0 ++ l2 ->
    length rs = length rs0 ->
    (forall j, In j l2 -> get rs (get cs j) = get rs0 (get cs j)) ->
    (get prev e = start \/ exists j1, In j1 l2 /\ get prev e = get cs j1) ->
    exists r, flip_path (S k) prev start e rs cs' = Done r.
Proof.
  intros Hrc Hrdy Hord.
  induction k as [k IH] using lt_wf_ind.
  intros l0 l2 e rs cs' Hk Hsuf Hlen Hrs He.
  cbn [flip_path]. cbv zeta.
  destruct (Z.eqb_spec (get prev e) start) as [Es|Ns]; [eauto|].
  destruct He as [He|(j1 & Hin1 & Ep)]; [contradiction|].
  assert (Hin1' : In j1 rdy) by (rewrite Hsuf; apply in_or_app; now right).
  destruct (Hrdy j1 Hin1') as [Hj1 Hc1].
  destruct (in_split_last j1 l2 Hin1) as (l1 & l3 & El2 & Hn3).
  assert (Hk3 : (length l3 < k)%nat).
  { rewrite El2 in Hk. rewrite length_app in Hk. cbn [length] in Hk. lia. }
  rewrite Ep. rewrite (Hrs j1 Hin1), Hrc by auto.
  destruct k as [|k']; [lia|].
  destruct (IH (length l3) ltac:(lia) (l0 ++ l1 ++ [j1]) l3 j1
              (vset rs (get cs j1) e) (vset cs' e (get cs j1))) as (r & Hr).
  - lia.
  - rewrite Hsuf, El2. rewrite <- !app_assoc. reflexivity.
  - now rewrite vset_length.
  - intros j Hj.
    assert (Hjr : In j rdy).
    { rewrite Hsuf, El2. apply in_or_app; right. apply in_or_app; right. now right. }
    destruct (Hrdy j Hjr) as [Hjn Hjc].
    rewrite get_vset_other.
    + apply Hrs. rewrite El2. apply in_or_app; right; now right.
    + intros E. assert (j1 = j); [|subst; contradiction].
      rewrite <- (Hrc j1 Hj1 Hc1), <- (Hrc j Hjn Hjc). now rewrite E.
  - apply (Hord (l0 ++ l1) j1 l3); auto.
    rewrite Hsuf, El2. now rewrite <- app_assoc.
  - exists r. apply (flip_path_more_fuel (S (length l3))); [exact Hr | lia].
Qed.

(** X29: after a search of [augment] that returned, the loop that flips
    the path returns within one turn per ready column plus one: a label
    other than the start row leads to a column that became ready earlier. *)
Theorem flip_path_returns BIG k fuel m start a d min e :
  wf_matrix m = true ->
  matching (dimension m) (a_rowsol a) (a_colsol a) ->
  0 <= start ->
  Z.of_nat (length (prev (a_data a))) = dimension m ->
  Z.of_nat (length (is_ready (a_data a))) = dimension m ->
  search BIG k fuel m (a_v a) (a_colsol a) 0
    (seed_queue (findRow m start)
       (seed_dist (a_v a) (findRow m start) (reset start (a_data a))))
  = Done (d, min, e) ->
  exists rs' cs',
    flip_path (S (length (ready d))) (prev d) start e (a_rowsol a) (a_colsol a)
    = Done (rs', cs').
Proof.
  intros Hwf Hm Hs Hlp Hlr Hrun.
  assert (Hrowr : forall x, In x (findRow m start) -> 0 <= fst x < dimension m)
    by (intros x Hx; eapply wf_row_columns; eauto).
  assert (Hinv0 : search_inv (dimension m) (a_colsol a) start
            (seed_queue (findRow m start)
               (seed_dist (a_v a) (findRow m start) (reset start (a_data a)))))
    by (apply search_inv_seed; auto; apply search_inv_reset; exact Hlp).
  assert (Hlab0 : label_inv m (dimension m) (a_colsol a) start
            (seed_queue (findRow m start)
               (seed_dist (a_v a) (findRow m start) (reset start (a_data a)))))
    by (apply label_inv_seed; auto).
  pose proof (order_inv_seed (dimension m) (a_colsol a) start (a_v a) (findRow m start)
                (a_data a) Hlr) as Hord0.
  pose proof (search_inv_search (dimension m) (a_colsol a) start _ _ _ _ _ _ _ _ _ _
                Hwf eq_refl Hinv0 Hrun) as (_ & He & _).
  pose proof (search_label m (dimension m) (a_colsol a) start _ _ _ _ _ _ _ _ _
                Hwf eq_refl Hinv0 Hlab0 Hrun) as ([_ Hlb] & _).
  pose proof (order_inv_search _ _ _ _ _ _ _ _ _ _ _ _ _ Hwf eq_refl Hinv0 Hlab0 Hord0 Hrun)
    as (_ & Hr & Ho).
  destruct Hm as (_ & _ & _ & _ & Hrc).
  destruct (flip_path_returns_from (dimension m) (a_colsol a) start (prev d) (ready d)
              (a_rowsol a) Hrc (fun j Hj => proj2 (Hr j Hj)) Ho
              (length (ready d)) [] (ready d) e (a_rowsol a) (a_colsol a))
    as ([rs' cs'] & E); auto.
  - destruct (Hlb e He) as [H|(j1 & _ & Hin & _ & H)]; [now left|].
    right; exists j1; auto.
  - eauto.
Qed.

Lemma flip_path_returns_witness :
  exists d min e,
    search 100000 50 50 inst_stale [-5; 0; 0; -1; 2; -2] [3; -1; 5; 2; 4; 0] 0
      (seed_queue (findRow inst_stale 1)
         (seed_dist [-5; 0; 0; -1; 2; -2] (findRow inst_stale 1) (reset 1 (new_data 6))))
    = Done (d, min, e)
    /\ exists rs' cs',
         flip_path (S (length (ready d))) (prev d) 1 e
           [5; 3; 3; 0; 4; 2] [3; -1; 5; 2; 4; 0]
         = Done (rs', cs').
Proof.
  do 3 eexists. split; [vm_compute; reflexivity|].
  eapply (flip_path_returns 100000 50 50 inst_stale 1
            {| a_data := new_data 6; a_v := [-5; 0; 0; -1; 2; -2];
               a_rowsol := [5; 3; 3; 0; 4; 2]; a_colsol := [3; -1; 5; 2; 4; 0] |}).
  - reflexivity.
  - exact (proj1 reduced_stale_matching).
  - lia.
  - reflexivity.
  - reflexivity.
  - vm_compute; reflexivity.
Defined.
